(** * pinkml: the InkML decoder (src/inkml), embedded and verified

    The development follows the Python sources file by file:
    - [Ids]         src/inkml/ids.py
    - [PyStr]       the [str] methods and the [re] matcher the reader calls
    - [PyNum]       Python numbers ([int], [float]) and the builtins applied to them
    - [Ink]         src/inkml/ink.py (the object model handed to consumers)
    - [RT]          src/inkml/reading_types.py (envelopes and channel carry records)
    - [References], [TimestampReferences]
                    src/inkml/references.py (the brush and the timestamp pass)
    - [Xml]         the [xml.etree.ElementTree] elements the reader walks
    - [Inkml]       src/inkml/inkml.py (the qualified tag names)
    - [Reading]     src/inkml/reading.py
    followed by the wording of the specification ([Spec],
    [SpecReferences]), the concrete documents the lemmas are run on
    ([Examples]), and the theorems.

    Python [str] values are Rocq strings whose characters are read as the
    code points 0..255; [dict] is a [gmap], [set] a [gset]; an uncaught
    exception is the [Raise] outcome of the [py] monad. *)

From Stdlib Require Import ZArith QArith Qabs Qround String Ascii List Bool Floats Lia Sorted.
From stdpp Require Import gmap strings list.

Set Warnings "-register-all".

Local Open Scope string_scope.
Local Open Scope list_scope.

(* ===================================================================== *)
(** ** Python exceptions and the outcome of a call *)
(* ===================================================================== *)

Inductive exn : Set :=
| IndexError
| KeyError
| OverflowError
| TypeError
| ValueError
| Exception.

(** The outcome of a Python call: a returned value or an uncaught exception. *)
Inductive py (A : Type) : Type :=
| Return (a : A)
| Raise (e : exn).
Arguments Return {A} a.
Arguments Raise {A} e.

Definition py_bind {A B : Type} (m : py A) (f : A -> py B) : py B :=
  match m with
  | Return a => f a
  | Raise e => Raise e
  end.

(* ===================================================================== *)
(** ** src/inkml/ids.py *)
(* ===================================================================== *)

Module Ids.

(** [len(uri) > 1 and uri[0] == '#'] *)
Definition is_local_id (uri : string) : bool :=
  match uri with
  | String c (String _ _) => Ascii.eqb c "#"%char
  | _ => false
  end.

(** [uri[1:] if is_local_id(uri) else uri] *)
Definition to_local_id (uri : string) : string :=
  if is_local_id uri then
    match uri with
    | String _ rest => rest
    | EmptyString => EmptyString
    end
  else uri.

(** [uri[1:] if is_local_id(uri) else None] *)
Definition to_optional_local_id (uri : string) : option string :=
  if is_local_id uri then
    match uri with
    | String _ rest => Some rest
    | EmptyString => None
    end
  else None.

End Ids.

(* ===================================================================== *)
(** ** Python strings and the regular-expression matcher *)
(* ===================================================================== *)

Module PyStr.

Definition code (c : ascii) : nat := nat_of_ascii c.

Definition in_range (lo hi : nat) (c : ascii) : bool :=
  (lo <=? code c)%nat && (code c <=? hi)%nat.

(** [str.isspace] on one character, which is also the class [\s] of [re]
    and what [str.strip()] removes: TAB..CR, FS..US, space, NEL, NBSP. *)
Definition is_space (c : ascii) : bool :=
  in_range 9 13 c || in_range 28 32 c || (code c =? 133)%nat || (code c =? 160)%nat.

(** [\d]: below code point 256 the decimal digits are 0..9. *)
Definition is_digit (c : ascii) : bool := in_range 48 57 c.

Definition digit_value (c : ascii) : Z := Z.of_nat (code c - 48).

Fixpoint lstrip (s : string) : string :=
  match s with
  | EmptyString => EmptyString
  | String c s' => if is_space c then lstrip s' else s
  end.

Fixpoint rstrip (s : string) : string :=
  match s with
  | EmptyString => EmptyString
  | String c s' =>
      match rstrip s' with
      | EmptyString => if is_space c then EmptyString else String c EmptyString
      | r => String c r
      end
  end.

(** [s.strip()] *)
Definition strip (s : string) : string := rstrip (lstrip s).

(** [s.split(sep)] for a one-character separator: never an empty list. *)
Fixpoint split (sep : ascii) (s : string) : list string :=
  match s with
  | EmptyString => [EmptyString]
  | String c s' =>
      let r := split sep s' in
      if Ascii.eqb c sep then EmptyString :: r
      else match r with
           | x :: xs => String c x :: xs
           | [] => [String c EmptyString]
           end
  end.

(** [sep.join(parts)] *)
Fixpoint join (sep : string) (parts : list string) : string :=
  match parts with
  | [] => EmptyString
  | [x] => x
  | x :: rest => x ++ sep ++ join sep rest
  end.

(** [s[:n]] *)
Fixpoint take (n : nat) (s : string) : string :=
  match n, s with
  | S k, String c s' => String c (take k s')
  | _, _ => EmptyString
  end.

(** [str.lower] on one character (A..Z and the Latin-1 capitals). *)
Definition lower_char (c : ascii) : ascii :=
  if in_range 65 90 c || (in_range 192 222 c && negb (code c =? 215)%nat)
  then ascii_of_nat (code c + 32) else c.

Fixpoint lower (s : string) : string :=
  match s with
  | EmptyString => EmptyString
  | String c s' => String (lower_char c) (lower s')
  end.

(** *** Regular expressions, as Python's backtracking matcher runs them

    Only the constructs of [Reader.tokenize_expr] are present: a character
    class, a greedy option, greedy repetition of a character class,
    sequence and ordered alternation.  Groups only delimit, so they leave
    no trace here. *)
Inductive regex : Type :=
| Class (p : ascii -> bool)
| Opt (r : regex)
| Star (p : ascii -> bool)
| Plus (p : ascii -> bool)
| Seq (r1 r2 : regex)
| Alt (r1 r2 : regex).

(** Greedy [p*]: the longest run first, shorter ones on backtracking. *)
Fixpoint star_k (p : ascii -> bool) (s : string) (k : string -> option string)
  : option string :=
  match s with
  | String c s' =>
      if p c then
        match star_k p s' k with
        | Some r => Some r
        | None => k s
        end
      else k s
  | EmptyString => k s
  end.

(** [match_k r s k]: match [r] at the head of [s], then the continuation
    [k] on what is left; the first success in priority order wins. *)
Fixpoint match_k (r : regex) (s : string) (k : string -> option string)
  : option string :=
  match r with
  | Class p =>
      match s with
      | String c s' => if p c then k s' else None
      | EmptyString => None
      end
  | Opt r1 =>
      match match_k r1 s k with
      | Some x => Some x
      | None => k s
      end
  | Star p => star_k p s k
  | Plus p =>
      match s with
      | String c s' => if p c then star_k p s' k else None
      | EmptyString => None
      end
  | Seq r1 r2 => match_k r1 s (fun s' => match_k r2 s' k)
  | Alt r1 r2 =>
      match match_k r1 s k with
      | Some x => Some x
      | None => match_k r2 s k
      end
  end.

(** The text matched by [r] at the head of [s], if any. *)
Definition match_at (r : regex) (s : string) : option string :=
  match match_k r s Some with
  | Some rest => Some (take (String.length s - String.length rest) s)
  | None => None
  end.

(** [skip] characters of the previous match are still to be passed over. *)
Fixpoint findall_from (r : regex) (s : string) (skip : nat) : list string :=
  match s with
  | EmptyString => []
  | String _ s' =>
      match skip with
      | S k => findall_from r s' k
      | O =>
          match match_at r s with
          | Some tok => tok :: findall_from r s' (String.length tok - 1)
          | None => findall_from r s' 0
          end
      end
  end.

(** [r.findall(s)], read at group 1 (the whole match): the matches that
    do not overlap, scanning from the left.  The expressions used here
    match no empty text. *)
Definition findall (r : regex) (s : string) : list string := findall_from r s 0.

End PyStr.

(* ===================================================================== *)
(** ** Python numbers *)
(* ===================================================================== *)

Module PyNum.
Import PyStr.

(** A channel sample is a Python [int] (a hexadecimal literal, a boolean,
    the result of [round]) or a [float] (an IEEE-754 binary64). *)
Inductive num : Type :=
| PyInt (z : Z)
| PyFloat (f : float).

(** The binary64 nearest to the integer [z] (ties to even); out of range
    it is an infinity. *)
Definition nearest_float (z : Z) : spec_float :=
  binary_normalize prec emax z 0 false.

(** The conversion of an [int] operand of a mixed operation:
    [OverflowError: int too large to convert to float]. *)
Definition int_to_float (z : Z) : py float :=
  match nearest_float z with
  | S754_infinity _ => Raise OverflowError
  | x => Return (SF2Prim x)
  end.

(** [a + b] *)
Definition add (a b : num) : py num :=
  match a, b with
  | PyInt x, PyInt y => Return (PyInt (x + y))
  | PyInt x, PyFloat g => py_bind (int_to_float x) (fun f => Return (PyFloat (f + g)))
  | PyFloat f, PyInt y => py_bind (int_to_float y) (fun g => Return (PyFloat (f + g)))
  | PyFloat f, PyFloat g => Return (PyFloat (f + g))
  end.

(** [a * -1] *)
Definition negate (a : num) : num :=
  match a with
  | PyInt x => PyInt (x * -1)
  | PyFloat f => PyFloat (f * SF2Prim (nearest_float (-1)))
  end.

(** [math.isnan(a)] *)
Definition isnan (a : num) : py bool :=
  match a with
  | PyInt x => py_bind (int_to_float x) (fun _ => Return false)
  | PyFloat f => Return (PrimFloat.is_nan f)
  end.

(** The integer nearest to [m * 2^e] for [m > 0], a tie going to the even
    neighbour. *)
Definition round_scaled (m e : Z) : Z :=
  if (0 <=? e)%Z then (m * 2 ^ e)%Z
  else
    let d := (2 ^ (- e))%Z in
    let q := (m / d)%Z in
    let r := (m mod d)%Z in
    match (2 * r ?= d)%Z with
    | Lt => q
    | Gt => (q + 1)%Z
    | Eq => if Z.even q then q else (q + 1)%Z
    end.

(** [round(a)] with one argument: an [int] is returned as it is; a
    [float] goes to the nearest integer, ties to even; an infinity raises
    [OverflowError] and a NaN raises [ValueError]. *)
Definition round (a : num) : py num :=
  match a with
  | PyInt x => Return (PyInt x)
  | PyFloat f =>
      match Prim2SF f with
      | S754_zero _ => Return (PyInt 0)
      | S754_infinity _ => Raise OverflowError
      | S754_nan => Raise ValueError
      | S754_finite s m e =>
          Return (PyInt (cond_Zopp s (round_scaled (Zpos m) e)))
      end
  end.

(** *** [float(text)] and [int(text, 16)]

    [None] stands for the [ValueError] that every caller catches. *)

(** The rest of a digit part [digit (["_"] digit)*]: the digits read so
    far are [acc], [n] of them. *)
Fixpoint digitpart_rest (s : string) (acc : Z) (n : Z) : Z * Z * string :=
  match s with
  | String c s' =>
      if is_digit c then digitpart_rest s' (10 * acc + digit_value c) (n + 1)
      else if Ascii.eqb c "_"%char then
        match s' with
        | String d s'' =>
            if is_digit d
            then digitpart_rest s'' (10 * acc + digit_value d) (n + 1)
            else (acc, n, s)
        | EmptyString => (acc, n, s)
        end
      else (acc, n, s)
  | EmptyString => (acc, n, s)
  end.

(** A digit part continuing the digits [acc]: the value, the number of
    digits read here, and what follows. *)
Definition digitpart (s : string) (acc : Z) : option (Z * Z * string) :=
  match s with
  | String c s' =>
      if is_digit c then Some (digitpart_rest s' (10 * acc + digit_value c) 1)
      else None
  | EmptyString => None
  end.

(** [number ::= [digitpart] "." digitpart | digitpart ["."]], read as a
    mantissa and a power of ten. *)
Definition number (s : string) : option (Z * Z * string) :=
  match s with
  | String "." s' =>
      match digitpart s' 0 with
      | Some (m, n, rest) => Some (m, (- n)%Z, rest)
      | None => None
      end
  | _ =>
      match digitpart s 0 with
      | Some (m, _, String "." rest) =>
          match digitpart rest m with
          | Some (m', n, rest') => Some (m', (- n)%Z, rest')
          | None => Some (m, 0%Z, rest)
          end
      | Some (m, _, rest) => Some (m, 0%Z, rest)
      | None => None
      end
  end.

Definition sign (s : string) : bool * string :=
  match s with
  | String "-" s' => (true, s')
  | String "+" s' => (false, s')
  | _ => (false, s)
  end.

(** [exponent ::= ("e" | "E") [sign] digitpart]; without one the power is 0. *)
Definition exponent (s : string) : Z * string :=
  match s with
  | String c s' =>
      if Ascii.eqb c "e"%char || Ascii.eqb c "E"%char then
        let '(neg, s'') := sign s' in
        match digitpart s'' 0 with
        | Some (v, _, rest) => (cond_Zopp neg v, rest)
        | None => (0%Z, s)
        end
      else (0%Z, s)
  | EmptyString => (0%Z, s)
  end.

(** The binary64 nearest to [(-1)^neg * m * 10^e], ties to even. *)
Definition decimal_to_float (neg : bool) (m e : Z) : float :=
  SF2Prim
    match m with
    | Zpos p =>
        if (0 <=? e)%Z
        then binary_normalize prec emax (cond_Zopp neg (Zpos p * 10 ^ e)) 0 neg
        else SFdiv prec emax (S754_finite neg p 0)
                   (S754_finite false (Z.to_pos (10 ^ (- e))) 0)
    | _ => S754_zero neg
    end.

(** [float(text)]: surrounding white space, a sign, then a decimal number
    or one of the spellings of infinity and NaN. *)
Definition float_of_string (text : string) : option float :=
  let '(neg, body) := sign (strip text) in
  let word := lower body in
  if String.eqb word "inf" || String.eqb word "infinity"
  then Some (SF2Prim (S754_infinity neg))
  else if String.eqb word "nan" then Some PrimFloat.nan
  else
    match number body with
    | Some (m, e, rest) =>
        match exponent rest with
        | (x, EmptyString) => Some (decimal_to_float neg m (e + x))
        | _ => None
        end
    | None => None
    end.

Definition hex_value (c : ascii) : option Z :=
  if is_digit c then Some (digit_value c)
  else if in_range 65 70 c then Some (Z.of_nat (code c - 55))
  else if in_range 97 102 c then Some (Z.of_nat (code c - 87))
  else None.

(** Hexadecimal digits with single underscores between them, up to the
    end of the text; [fresh] says that no digit has been read since the
    start or the last underscore. *)
Fixpoint hex_digits (s : string) (acc : Z) (fresh : bool) : option Z :=
  match s with
  | EmptyString => if fresh then None else Some acc
  | String c s' =>
      match hex_value c with
      | Some v => hex_digits s' (16 * acc + v) false
      | None =>
          if Ascii.eqb c "_"%char && negb fresh then hex_digits s' acc true
          else None
      end
  end.

(** [int(text, 16)]: white space, a sign, an optional [0x] prefix, digits. *)
Definition int_of_hex (text : string) : option Z :=
  let '(neg, body) := sign (strip text) in
  let digits :=
    match body with
    | String "0" (String x rest) =>
        if Ascii.eqb x "x"%char || Ascii.eqb x "X"%char then
          match rest with
          | String "_" rest' => rest'
          | _ => rest
          end
        else body
    | _ => body
    end in
  match hex_digits digits 0 true with
  | Some v => Some (cond_Zopp neg v)
  | None => None
  end.

(** Decimal digits with single underscores between them, up to the end
    of the text. *)
Fixpoint dec_digits (s : string) (acc : Z) (fresh : bool) : option Z :=
  match s with
  | EmptyString => if fresh then None else Some acc
  | String c s' =>
      if is_digit c then dec_digits s' (10 * acc + digit_value c) false
      else if Ascii.eqb c "_"%char && negb fresh then dec_digits s' acc true
      else None
  end.

(** [int(text)]: white space, a sign, digits.  (The limit recent
    interpreters put on the number of digits is not reproduced.) *)
Definition int_of_string (text : string) : option Z :=
  let '(neg, body) := sign (strip text) in
  match dec_digits body 0 true with
  | Some v => Some (cond_Zopp neg v)
  | None => None
  end.

End PyNum.

(* ===================================================================== *)
(** ** src/inkml/ink.py: the object model *)
(* ===================================================================== *)

Module Ink.
Import PyNum.

Inductive ChannelType : Set := Integer | Decimal | Double | Boolean.

Inductive ChannelOrientation : Set := Positive | Negative.

Inductive TraceContinuation : Set :=
| ContinuationBegin
| ContinuationMiddle
| ContinuationEnd
| ContinuationNo.

Inductive TraceType : Set := PenDown | PenUp | Indeterminate.

Inductive AnnotationContentType : Set := Text | XML | HRef.

(** Property values come from XML attributes, so they are strings. *)
Record Property : Type := mkProperty {
  property_value : string;
  property_units : option string
}.

Record Annotation : Type := mkAnnotation {
  annotation_content : string;
  annotation_content_type : AnnotationContentType;
  annotation_type : string;
  annotation_encoding : string;
  annotation_attributes : gmap string string
}.

Record AnnotatedProperty : Type := mkAnnotatedProperty {
  annotated_value : string;
  annotated_units : option string;
  annotated_annotations : list Annotation
}.

(** [channel_respectTo] is the attribute [read_channel] assigns
    ([channel.respectTo = ...]); the declared [respect_to] keeps its
    initial value. *)
Record Channel : Type := mkChannel {
  channel_id : string;
  channel_name : string;
  channel_type : ChannelType;
  channel_default : num + bool;
  channel_min : option float;
  channel_max : option float;
  channel_orientation : ChannelOrientation;
  channel_respect_to : string;
  channel_units : string;
  channel_properties : gmap string Property;
  channel_respectTo : option string
}.

(** [Channel(name)] *)
Definition new_channel (name : string) : Channel :=
  {| channel_id := ""; channel_name := name; channel_type := Decimal;
     channel_default := inl (PyInt 0); channel_min := None; channel_max := None;
     channel_orientation := Positive; channel_respect_to := "";
     channel_units := ""; channel_properties := ∅; channel_respectTo := None |}.

(** The instance counter of [Accountable] only serves [is_], which
    nothing in the package calls; it is left out of the records. *)
Record TraceFormat : Type := mkTraceFormat {
  format_id : string;
  regular_channels : list Channel;
  intermittent_channels : list Channel
}.

Record SampleRate : Type := mkSampleRate {
  rate_value : float;
  rate_uniform : bool
}.

Record ActiveArea : Type := mkActiveArea {
  area_width : float;
  area_height : float;
  area_units : option string;
  area_size : option string
}.

(** [source_sample_rate], [source_active_area], [source_serial_no] and
    [source_specification_ref] are the declared fields; [read_ink_source]
    assigns [sampleRate], [activeArea], [serialNo] and [specificationRef]
    instead, kept here under those names. *)
Record InkSource : Type := mkInkSource {
  source_id : string;
  source_trace_format : TraceFormat;
  source_sample_rate : option SampleRate;
  source_latency : option float;
  source_active_area : option ActiveArea;
  source_manufacturer : option string;
  source_model : option string;
  source_serial_no : option string;
  source_specification_ref : option string;
  source_description : option string;
  source_properties : gmap string Property;
  source_sampleRate : option SampleRate;
  source_activeArea : option ActiveArea;
  source_serialNo : option string;
  source_specificationRef : option string
}.

(** [InkSource(id, trace_format)] *)
Definition new_ink_source (id : string) (trace_format : TraceFormat) : InkSource :=
  {| source_id := id; source_trace_format := trace_format;
     source_sample_rate := None; source_latency := None;
     source_active_area := None; source_manufacturer := None;
     source_model := None; source_serial_no := None;
     source_specification_ref := None; source_description := None;
     source_properties := ∅; source_sampleRate := None;
     source_activeArea := None; source_serialNo := None;
     source_specificationRef := None |}.

(** A brush's parent is a brush registered in the brush table of the
    definitions; the reference to that object is the key it is
    registered under. *)
Record Brush : Type := mkBrush {
  brush_id : string;
  brush_parent : option string;
  brush_properties : gmap string AnnotatedProperty;
  brush_annotations : list Annotation
}.

Definition new_brush : Brush :=
  {| brush_id := ""; brush_parent := None; brush_properties := ∅;
     brush_annotations := [] |}.

(** [timestamp_timeString] and [timestamp_timeOffset] are the attributes
    [read_timestamp] assigns. *)
Record Timestamp : Type := mkTimestamp {
  timestamp_id : string;
  timestamp_parent : option string;
  timestamp_time : option float;
  timestamp_time_string : string;
  timestamp_time_offset : Z;
  timestamp_timeString : option string;
  timestamp_timeOffset : option float
}.

Definition new_timestamp (id : string) : Timestamp :=
  {| timestamp_id := id; timestamp_parent := None; timestamp_time := None;
     timestamp_time_string := ""; timestamp_time_offset := 0;
     timestamp_timeString := None; timestamp_timeOffset := None |}.

(** A context with the chain of its parents, as [get_trace_format] walks
    it once the references are resolved. *)
Inductive Context : Type := mkContext {
  context_id : string;
  context_parent : option Context;
  context_ink_source : option InkSource;
  context_trace_format : option TraceFormat;
  context_brush : option Brush;
  context_timestamp : option Timestamp
}.

Definition new_context : Context :=
  {| context_id := ""; context_parent := None; context_ink_source := None;
     context_trace_format := None; context_brush := None;
     context_timestamp := None |}.

Record IndexValue : Type := mkIndexValue {
  index : nat;
  value : num
}.

(** Traces are the objects the reader mutates after it has handed them
    out ([prior_trace.next = trace]): they live in a store and are named
    by their address. *)
Definition loc : Set := nat.

Record Trace : Type := mkTrace {
  trace_id : string;
  channels : gmap string (list num);
  trace_intermittent_channels : gmap string (list IndexValue);
  continuation : TraceContinuation;
  next : option loc;
  context : option Context;
  brush : option Brush;
  duration : option Z;
  time_offset : option Z;
  type : TraceType
}.

(** [Trace()] *)
Definition new_trace : Trace :=
  {| trace_id := ""; channels := ∅; trace_intermittent_channels := ∅;
     continuation := ContinuationNo; next := None; context := None;
     brush := None; duration := None; time_offset := None; type := PenDown |}.

(** The fields of a [TraceGroup] other than its traces. *)
Record TraceGroup : Type := mkTraceGroup {
  group_id : string;
  group_context : option Context;
  group_brush : option Brush;
  group_annotations : list Annotation
}.

(** [view_ID] is the attribute [read_trace_view] assigns ([trace_view.ID]). *)
Inductive TraceItem : Type :=
| ItemTrace (l : loc)
| ItemGroup (group : TraceGroup) (group_traces : list TraceItem)
| ItemView (view_id : string) (trace_data : TraceItem)
           (view_begin view_end : list Z) (view_ID : option string).

(** [get_default_trace_format()] *)
Definition get_default_trace_format : TraceFormat :=
  {| format_id := "DefaultTraceFormat";
     regular_channels := [new_channel "X"; new_channel "Y"];
     intermittent_channels := [] |}.

End Ink.

(* ===================================================================== *)
(** ** Python dictionaries whose order of insertion is observed *)
(* ===================================================================== *)

Module Dict.
Section Dict.
Context {V : Type}.

(** [d[k]] / [k in d] *)
Fixpoint get (d : list (string * V)) (k : string) : option V :=
  match d with
  | [] => None
  | (k', v) :: rest => if String.eqb k' k then Some v else get rest k
  end.

(** [d[k] = v]: a key that is present keeps its place. *)
Fixpoint set (d : list (string * V)) (k : string) (v : V) : list (string * V) :=
  match d with
  | [] => [(k, v)]
  | (k', v') :: rest =>
      if String.eqb k' k then (k, v) :: rest else (k', v') :: set rest k v
  end.

(** [d.values()] *)
Definition values (d : list (string * V)) : list V := map snd d.

End Dict.
End Dict.

(* ===================================================================== *)
(** ** src/inkml/reading_types.py *)
(* ===================================================================== *)

Module RT.
Import PyNum.

Record BrushEnvelope : Type := mkBrushEnvelope {
  brush : Ink.Brush;
  brush_parent_ref : string
}.

Definition brush_envelope_id (e : BrushEnvelope) : string :=
  Ink.brush_id (brush e).

Record TimestampEnvelope : Type := mkTimestampEnvelope {
  timestamp : Ink.Timestamp;
  timestamp_parent_ref : string
}.

Definition timestamp_envelope_id (e : TimestampEnvelope) : string :=
  Ink.timestamp_id (timestamp e).

(** [Union[T, str]]: a nested element that was read, or a reference. *)
Record ContextEnvelope : Type := mkContextEnvelope {
  context : Ink.Context;
  context_parent_ref : string;
  ink_source_or_ref : Ink.InkSource + string;
  trace_format_or_ref : Ink.TraceFormat + string;
  brush_or_ref : BrushEnvelope + string;
  timestamp_or_ref : TimestampEnvelope + string
}.

Definition context_envelope_id (e : ContextEnvelope) : string :=
  Ink.context_id (context e).

(** The reader walks [contexts] in the order of insertion, so that table
    keeps it; the other tables are only looked up by key. *)
Record Definitions : Type := mkDefinitions {
  contexts : list (string * ContextEnvelope);
  brushes : gmap string BrushEnvelope;
  ink_sources : gmap string Ink.InkSource;
  trace_formats : gmap string Ink.TraceFormat;
  timestamps : gmap string TimestampEnvelope;
  traces : gmap string Ink.loc;
  trace_groups : gmap string Ink.TraceItem;
  trace_views : gmap string Ink.TraceItem
}.

Definition new_definitions : Definitions :=
  {| contexts := []; brushes := ∅; ink_sources := ∅; trace_formats := ∅;
     timestamps := ∅; traces := ∅; trace_groups := ∅; trace_views := ∅ |}.

Inductive DifferenceOrder : Set := Explicit | Difference | SecondDifference.

Record RegularChannel : Type := mkRegularChannel {
  name : string;
  type : Ink.ChannelType;
  values : list num;
  difference_order : DifferenceOrder;
  last_difference : num
}.

(** [RegularChannel(name, channel_type)] *)
Definition new_regular_channel (name : string) (channel_type : Ink.ChannelType)
  : RegularChannel :=
  {| name := name; type := channel_type; values := [];
     difference_order := Explicit; last_difference := PyFloat PrimFloat.nan |}.

Record IntermittentChannel : Type := mkIntermittentChannel {
  intermittent_name : string;
  intermittent_type : Ink.ChannelType;
  index_values : list Ink.IndexValue
}.

(** [IntermittentChannel(name, channel_type)] *)
Definition new_intermittent_channel (name : string) (channel_type : Ink.ChannelType)
  : IntermittentChannel :=
  {| intermittent_name := name; intermittent_type := channel_type;
     index_values := [] |}.

Record ChannelProperty : Type := mkChannelProperty {
  property_channel : string;
  channel_property_name : string;
  channel_property_value : string;
  channel_property_units : option string
}.

Record SourceProperty : Type := mkSourceProperty {
  source_property_name : string;
  source_property_value : string;
  source_property_units : option string
}.

Record BrushProperty : Type := mkBrushProperty {
  brush_property_name : string;
  brush_property_value : string;
  brush_property_units : option string;
  brush_property_annotations : list Ink.Annotation
}.

End RT.

(* ===================================================================== *)
(** ** src/inkml/references.py: the brush pass *)
(* ===================================================================== *)

Module References.
Import Ids.

(** [brush.parent_ref == '' or brush.parent_ref == '#DefaultBrush'] *)
Definition is_terminal (envelope : RT.BrushEnvelope) : bool :=
  String.eqb (RT.brush_parent_ref envelope) ""
  || String.eqb (RT.brush_parent_ref envelope) "#DefaultBrush".

(** "Find all terminal brushes that do not reference other brushes": the
    ids added to [resolved] and to [backlog] by the first loop. *)
Definition terminal_ids (brushes : gmap string RT.BrushEnvelope) : gset string :=
  list_to_set (RT.brush_envelope_id <$> filter (fun e => is_terminal e = true)
                                               (map_to_list brushes).*2).

Definition referencing_ids (brushes : gmap string RT.BrushEnvelope) : gset string :=
  list_to_set (RT.brush_envelope_id <$> filter (fun e => is_terminal e = false)
                                               (map_to_list brushes).*2).

(** [brush.brush.parent = brushes[parent_id].brush]: the parent object is
    named by the key it is registered under. *)
Definition set_parent (envelope : RT.BrushEnvelope) (parent_id : string)
  : RT.BrushEnvelope :=
  {| RT.brush :=
       {| Ink.brush_id := Ink.brush_id (RT.brush envelope);
          Ink.brush_parent := Some parent_id;
          Ink.brush_properties := Ink.brush_properties (RT.brush envelope);
          Ink.brush_annotations := Ink.brush_annotations (RT.brush envelope) |};
     RT.brush_parent_ref := RT.brush_parent_ref envelope |}.

(** One pass of [for id in backlog]: the brushes with the parents set at
    this stage, and [stage_ids]; [brushes[...]] raises [KeyError] on a
    key that is absent. *)
Fixpoint resolve_stage (ids : list string) (brushes : gmap string RT.BrushEnvelope)
    (resolved : gset string) : py (gmap string RT.BrushEnvelope * list string) :=
  match ids with
  | [] => Return (brushes, [])
  | id :: rest =>
      match brushes !! id with
      | None => Raise KeyError
      | Some envelope =>
          let parent_id := to_local_id (RT.brush_parent_ref envelope) in
          if decide (parent_id ∈ resolved) then
            match brushes !! parent_id with
            | None => Raise KeyError
            | Some _ =>
                py_bind (resolve_stage rest (<[id := set_parent envelope parent_id]> brushes)
                                       resolved)
                        (fun '(brushes', stage_ids) => Return (brushes', id :: stage_ids))
            end
          else resolve_stage rest brushes resolved
      end
  end.

(** The [while len(backlog) > 0] loop.  Every round that does not stop
    takes at least one id out of [backlog], so [fuel] rounds are enough
    once [fuel] is the size of [backlog].  Python leaves the order in
    which a set is iterated open; here it is that of [elements].  A pass
    reads [resolved] and does not write it, so which brushes it links
    does not depend on the order. *)
Fixpoint resolve_loop (fuel : nat) (brushes : gmap string RT.BrushEnvelope)
    (backlog resolved : gset string)
  : py (gmap string RT.BrushEnvelope * gset string) :=
  if decide (size backlog = 0) then Return (brushes, backlog)
  else
    match fuel with
    | O => Return (brushes, backlog)
    | S fuel' =>
        py_bind (resolve_stage (elements backlog) brushes resolved)
          (fun '(brushes', stage_ids) =>
             match stage_ids with
             | [] => Return (brushes', backlog)
             | _ =>
                 resolve_loop fuel' brushes'
                   (backlog ∖ list_to_set stage_ids)
                   (resolved ∪ list_to_set stage_ids)
             end)
    end.

(** [resolve_brush_parent_references]: the brushes as the call leaves
    them, and the returned backlog. *)
Definition resolve_brush_parent_references (brushes : gmap string RT.BrushEnvelope)
  : py (gmap string RT.BrushEnvelope * gset string) :=
  let backlog := referencing_ids brushes in
  resolve_loop (size backlog) brushes backlog (terminal_ids brushes).

(** [del definitions.brushes[id]] for every ignored id. *)
Fixpoint delete_all (ids : list string) (brushes : gmap string RT.BrushEnvelope)
  : py (gmap string RT.BrushEnvelope) :=
  match ids with
  | [] => Return brushes
  | id :: rest =>
      match brushes !! id with
      | None => Raise KeyError
      | Some _ => delete_all rest (delete id brushes)
      end
  end.

Definition brush_message (ignored_ids : list string) : string :=
  "Some brush references are either cyclic or incorrect and could not be resolved.Following brushes will be ignored: "
  ++ PyStr.join ", " ignored_ids ++ " ".

(** The first step of [resolve_references] ("Resolve Brush.parentRef"):
    the brush table it leaves and what it prints.  The timestamp and
    context steps that follow do not touch the brush table. *)
Definition resolve_brush_references (brushes : gmap string RT.BrushEnvelope)
  : py (gmap string RT.BrushEnvelope * list string) :=
  py_bind (resolve_brush_parent_references brushes) (fun '(brushes', ignored_ids) =>
    if decide (size ignored_ids = 0) then Return (brushes', [])
    else
      py_bind (delete_all (elements ignored_ids) brushes') (fun brushes'' =>
        Return (brushes'', [brush_message (elements ignored_ids)]))).

End References.

(* ===================================================================== *)
(** ** src/inkml/references.py: the timestamp pass *)
(* ===================================================================== *)

Module TimestampReferences.
Import Ids.

(** [timestamp.parent_ref == ''] *)
Definition is_terminal (envelope : RT.TimestampEnvelope) : bool :=
  String.eqb (RT.timestamp_parent_ref envelope) "".

(** "Find all terminal timestamps that do not reference other
    timestamps": the ids added to [resolved] and to [backlog] by the
    first loop. *)
Definition terminal_ids (timestamps : gmap string RT.TimestampEnvelope) : gset string :=
  list_to_set (RT.timestamp_envelope_id <$> filter (fun e => is_terminal e = true)
                                                   (map_to_list timestamps).*2).

Definition referencing_ids (timestamps : gmap string RT.TimestampEnvelope)
  : gset string :=
  list_to_set (RT.timestamp_envelope_id <$> filter (fun e => is_terminal e = false)
                                                   (map_to_list timestamps).*2).

(** [timestamp.timestamp.parent = timestamps[parent_id].timestamp]: the
    parent object is named by the key it is registered under. *)
Definition set_parent (envelope : RT.TimestampEnvelope) (parent_id : string)
  : RT.TimestampEnvelope :=
  {| RT.timestamp :=
       {| Ink.timestamp_id := Ink.timestamp_id (RT.timestamp envelope);
          Ink.timestamp_parent := Some parent_id;
          Ink.timestamp_time := Ink.timestamp_time (RT.timestamp envelope);
          Ink.timestamp_time_string :=
            Ink.timestamp_time_string (RT.timestamp envelope);
          Ink.timestamp_time_offset :=
            Ink.timestamp_time_offset (RT.timestamp envelope);
          Ink.timestamp_timeString := Ink.timestamp_timeString (RT.timestamp envelope);
          Ink.timestamp_timeOffset :=
            Ink.timestamp_timeOffset (RT.timestamp envelope) |};
     RT.timestamp_parent_ref := RT.timestamp_parent_ref envelope |}.

(** One pass of [for id in backlog]: the timestamps with the parents set
    at this stage, and [stage_ids]; [timestamps[...]] raises [KeyError]
    on a key that is absent. *)
Fixpoint resolve_stage (ids : list string)
    (timestamps : gmap string RT.TimestampEnvelope) (resolved : gset string)
  : py (gmap string RT.TimestampEnvelope * list string) :=
  match ids with
  | [] => Return (timestamps, [])
  | id :: rest =>
      match timestamps !! id with
      | None => Raise KeyError
      | Some envelope =>
          let parent_id := to_local_id (RT.timestamp_parent_ref envelope) in
          if decide (parent_id ∈ resolved) then
            match timestamps !! parent_id with
            | None => Raise KeyError
            | Some _ =>
                py_bind (resolve_stage rest
                           (<[id := set_parent envelope parent_id]> timestamps)
                           resolved)
                        (fun '(timestamps', stage_ids) =>
                           Return (timestamps', id :: stage_ids))
            end
          else resolve_stage rest timestamps resolved
      end
  end.

(** The [while len(backlog) > 0] loop, with the rounds counted as in the
    brush pass: a round that does not stop takes an id out of [backlog],
    and the set is walked in the order of [elements]. *)
Fixpoint resolve_loop (fuel : nat) (timestamps : gmap string RT.TimestampEnvelope)
    (backlog resolved : gset string)
  : py (gmap string RT.TimestampEnvelope * gset string) :=
  if decide (size backlog = 0) then Return (timestamps, backlog)
  else
    match fuel with
    | O => Return (timestamps, backlog)
    | S fuel' =>
        py_bind (resolve_stage (elements backlog) timestamps resolved)
          (fun '(timestamps', stage_ids) =>
             match stage_ids with
             | [] => Return (timestamps', backlog)
             | _ =>
                 resolve_loop fuel' timestamps'
                   (backlog ∖ list_to_set stage_ids)
                   (resolved ∪ list_to_set stage_ids)
             end)
    end.

(** [resolve_timestamp_parent_references]: the timestamps as the call
    leaves them, and the returned backlog. *)
Definition resolve_timestamp_parent_references
    (timestamps : gmap string RT.TimestampEnvelope)
  : py (gmap string RT.TimestampEnvelope * gset string) :=
  let backlog := referencing_ids timestamps in
  resolve_loop (size backlog) timestamps backlog (terminal_ids timestamps).

(** [del definitions.timestamps[id]] for every ignored id. *)
Fixpoint delete_all (ids : list string) (timestamps : gmap string RT.TimestampEnvelope)
  : py (gmap string RT.TimestampEnvelope) :=
  match ids with
  | [] => Return timestamps
  | id :: rest =>
      match timestamps !! id with
      | None => Raise KeyError
      | Some _ => delete_all rest (delete id timestamps)
      end
  end.

Definition timestamp_message (ignored_ids : list string) : string :=
  "Some timestamp references are either cyclic or incorrect and could not be resolved.Following timestamps will be ignored: "
  ++ PyStr.join ", " ignored_ids ++ " ".

(** The second step of [resolve_references] ("Resolve
    Timestamp.parentRef"): the timestamp table it leaves and what it
    prints. *)
Definition resolve_timestamp_references (timestamps : gmap string RT.TimestampEnvelope)
  : py (gmap string RT.TimestampEnvelope * list string) :=
  py_bind (resolve_timestamp_parent_references timestamps)
    (fun '(timestamps', ignored_ids) =>
       if decide (size ignored_ids = 0) then Return (timestamps', [])
       else
         py_bind (delete_all (elements ignored_ids) timestamps') (fun timestamps'' =>
           Return (timestamps'', [timestamp_message (elements ignored_ids)]))).

(** *** What a parent reference leads to *)

(** The id a parent reference names. *)
Definition parent_id (envelope : RT.TimestampEnvelope) : string :=
  to_local_id (RT.timestamp_parent_ref envelope).

(** A timestamp whose parent reference resolves: it is empty, or it
    names a timestamp whose own reference resolves. *)
Inductive resolvable (timestamps : gmap string RT.TimestampEnvelope) : string -> Prop :=
| resolvable_terminal (id : string) (envelope : RT.TimestampEnvelope) :
    timestamps !! id = Some envelope ->
    is_terminal envelope = true ->
    resolvable timestamps id
| resolvable_parent (id : string) (envelope : RT.TimestampEnvelope) :
    timestamps !! id = Some envelope ->
    is_terminal envelope = false ->
    resolvable timestamps (parent_id envelope) ->
    resolvable timestamps id.

(** The parent chain of a timestamp ends after [n] links, inside the
    table. *)
Inductive chain_ends (timestamps : gmap string RT.TimestampEnvelope)
  : nat -> string -> Prop :=
| chain_root (id : string) (envelope : RT.TimestampEnvelope) :
    timestamps !! id = Some envelope ->
    Ink.timestamp_parent (RT.timestamp envelope) = None ->
    chain_ends timestamps 0 id
| chain_link (n : nat) (id : string) (envelope : RT.TimestampEnvelope)
    (parent : string) :
    timestamps !! id = Some envelope ->
    Ink.timestamp_parent (RT.timestamp envelope) = Some parent ->
    chain_ends timestamps n parent ->
    chain_ends timestamps (S n) id.

(** A timestamp once its reference is resolved: linked to the timestamp
    it names, or left as it is when it names none. *)
Definition linked (envelope : RT.TimestampEnvelope) : RT.TimestampEnvelope :=
  if is_terminal envelope then envelope else set_parent envelope (parent_id envelope).

(** Every timestamp is registered under its own id, as
    [read_definitions] registers it. *)
Definition registered_by_id (timestamps : gmap string RT.TimestampEnvelope) : Prop :=
  map_Forall (fun key envelope => RT.timestamp_envelope_id envelope = key) timestamps.

(** No timestamp has a parent yet, as [read_timestamp] returns it. *)
Definition unlinked (timestamps : gmap string RT.TimestampEnvelope) : Prop :=
  map_Forall (fun _ envelope => Ink.timestamp_parent (RT.timestamp envelope) = None)
             timestamps.

End TimestampReferences.

(* ===================================================================== *)
(** ** xml.etree.ElementTree elements and src/inkml/inkml.py *)
(* ===================================================================== *)

Module Xml.

(** An element as the reader sees it: [tag], [attrib], [text], [tail]
    and the children in document order. *)
Inductive Element : Type := mkElement {
  tag : string;
  attrib : gmap string string;
  text : option string;
  tail : option string;
  children : list Element
}.

(** [element.get(key)] *)
Definition get (element : Element) (key : string) : option string :=
  attrib element !! key.

(** [element.findall(path)] for a path that names a child tag. *)
Definition findall (element : Element) (child_tag : string) : list Element :=
  filter (fun e => tag e = child_tag) (children element).

(** [element.find(path)] *)
Definition find (element : Element) (child_tag : string) : option Element :=
  head (findall element child_tag).

End Xml.

Module Inkml.

Definition INKML_NAMESPACE_URI : string := "http://www.w3.org/2003/InkML".
Definition XML_NAMESPACE_URI : string := "http://www.w3.org/XML/1998/namespace".

Definition qualified (uri name : string) : string := "{" ++ uri ++ "}" ++ name.

Definition INK : string := qualified INKML_NAMESPACE_URI "ink".
Definition ANNOTATION : string := qualified INKML_NAMESPACE_URI "annotation".
Definition ANNOTATION_XML : string := qualified INKML_NAMESPACE_URI "annotationXML".
Definition TRACE : string := qualified INKML_NAMESPACE_URI "trace".
Definition TRACE_GROUP : string := qualified INKML_NAMESPACE_URI "traceGroup".
Definition TRACE_VIEW : string := qualified INKML_NAMESPACE_URI "traceView".
Definition ID : string := qualified XML_NAMESPACE_URI "id".

(** Modelled from the spec: [NAMESPACE_MAPPING] of the package's
    [__init__.py], which is not among the sources.  The spec has the
    reader look elements up in the InkML namespace, so a path
    [inkml:name] names the tag of [name] in that namespace. *)
Definition inkml (name : string) : string := qualified INKML_NAMESPACE_URI name.

End Inkml.

(* ===================================================================== *)
(** ** src/inkml/reading.py: the trace body *)
(* ===================================================================== *)

Module Reading.
Import PyStr PyNum.

(** The messages the reader hands to [logger.warning], by their format
    string and arguments. *)
Inductive warning : Type :=
| RequiredAttribute (attribute element : string)
| ExpectedDecimal (attribute element : string)
| NestedTraceFormatRequired
| NoContentNorHref
| CouldNotRead (what : string)
| CouldNotFind (what ref owner : string)
| ExternalReference (ref : string)
| CouldNotConvert (attribute text : string)
| UnexpectedContinuation (text : string)
| PriorRefRequired (continuation : option string)
| CouldNotParseTraceContent
| IdMissingForContinuation (continuation : option string)
| WrongTokenCount (lo hi got : nat) (point : string)
| UnexpectedValue (token : string) (channel : nat) (regular : bool).

(** The outcome of decoding (a part of) a trace body: the new value, the
    warning logged before [return None, None], or an uncaught exception. *)
Inductive decode (A : Type) : Type :=
| Decoded (a : A)
| Rejected (w : warning)
| Raised (e : exn).
Arguments Decoded {A} a.
Arguments Rejected {A} w.
Arguments Raised {A} e.

Definition decode_bind {A B : Type} (m : decode A) (f : A -> decode B) : decode B :=
  match m with
  | Decoded a => f a
  | Rejected w => Rejected w
  | Raised e => Raised e
  end.

Definition lift {A : Type} (m : py A) : decode A :=
  match m with
  | Return a => Decoded a
  | Raise e => Raised e
  end.

Notation "'let*' x ':=' m 'in' k" := (decode_bind m (fun x => k))
  (at level 10, x pattern, m at level 100, k at level 200).

(** *** The tokenizer *)

Definition is_marker (c : ascii) : bool :=
  Ascii.eqb c "!"%char || Ascii.eqb c "'"%char || Ascii.eqb c "034"%char.
Definition is_minus (c : ascii) : bool := Ascii.eqb c "-"%char.
Definition is_dot (c : ascii) : bool := Ascii.eqb c "."%char.
Definition is_e (c : ascii) : bool := Ascii.eqb c "e"%char || Ascii.eqb c "E"%char.
Definition is_sign (c : ascii) : bool := Ascii.eqb c "+"%char || Ascii.eqb c "-"%char.
Definition is_hash (c : ascii) : bool := Ascii.eqb c "#"%char.
(** The class [\dA-F]. *)
Definition is_hex (c : ascii) : bool := is_digit c || in_range 65 70 c.
(** The class of T, F, * and ?. *)
Definition is_literal (c : ascii) : bool :=
  Ascii.eqb c "T"%char || Ascii.eqb c "F"%char || Ascii.eqb c "*"%char
  || Ascii.eqb c "?"%char.

(** The decimal, spaced out: [\d+ (?: \. \d* )? | ( \. \d+ )] *)
Definition decimal_expr : regex :=
  Alt (Seq (Plus is_digit) (Opt (Seq (Class is_dot) (Star is_digit))))
      (Seq (Class is_dot) (Plus is_digit)).

(** The exponent: [( [eE] [+-]? \d )?] *)
Definition exponent_expr : regex :=
  Opt (Seq (Class is_e) (Seq (Opt (Class is_sign)) (Class is_digit))).

(** An optional marker (one of ! ' and the double quote), then
    [\s* -? \s*], then the decimal and the exponent. *)
Definition number_expr : regex :=
  Seq (Opt (Class is_marker))
      (Seq (Star is_space)
           (Seq (Opt (Class is_minus))
                (Seq (Star is_space) (Seq decimal_expr exponent_expr)))).

(** [( # [\dA-F]+ )] *)
Definition hex_expr : regex := Seq (Class is_hash) (Plus is_hex).

(** [self.tokenize_expr]: group 1 is the number or the hexadecimal
    literal, or else one of the characters T, F, * and ?. *)
Definition tokenize_expr : regex :=
  Alt (Alt number_expr hex_expr) (Class is_literal).

(** [[m[0] for m in self.tokenize_expr.findall(point)]] *)
Definition tokenize (point : string) : list string := findall tokenize_expr point.

(** *** One token of a regular channel (the body of the loop over [j]) *)

(** [s[0]], with the [IndexError] of an empty string. *)
Definition first_char (s : string) : py ascii :=
  match s with
  | String c _ => Return c
  | EmptyString => Raise IndexError
  end.

(** [s[1:]] *)
Definition tail (s : string) : string :=
  match s with
  | String _ s' => s'
  | EmptyString => EmptyString
  end.

(** "Get difference order": the order in force and the token without its
    marker. *)
Definition get_difference_order (channel : RT.RegularChannel) (token : string)
  : py (RT.DifferenceOrder * string) :=
  py_bind (first_char token) (fun c =>
    if Ascii.eqb c "!"%char then Return (RT.Explicit, tail token)
    else if Ascii.eqb c "'"%char then Return (RT.Difference, tail token)
    else if Ascii.eqb c "034"%char then Return (RT.SecondDifference, tail token)
    else Return (RT.difference_order channel, token)).

(** "Check if there is minus sign": the flag and the token after it. *)
Definition split_minus (token : string) : py (bool * string) :=
  py_bind (first_char token) (fun c =>
    if Ascii.eqb c "-"%char then Return (true, strip (tail token))
    else Return (false, token)).

(** [int(token[1:], 16) if (token[0] == '#') else float(token)]; the
    inner [None] is the [ValueError] caught by the caller. *)
Definition parse_number (token : string) : py (option num) :=
  py_bind (first_char token) (fun c =>
    if Ascii.eqb c "#"%char
    then Return (option_map PyInt (int_of_hex (tail token)))
    else Return (option_map PyFloat (float_of_string token))).

(** [if is_negative: num *= -1] *)
Definition apply_sign (is_negative : bool) (n : num) : num :=
  if is_negative then negate n else n.

(** [if channel.type == Ink.ChannelType.Integer: value = round(value)] *)
Definition round_for (channel_type : Ink.ChannelType) (value : num) : py num :=
  match channel_type with
  | Ink.Integer => round value
  | _ => Return value
  end.

(** [values[-1]], with the [IndexError] of an empty list. *)
Definition last_value (values : list num) : py num :=
  match last values with
  | Some v => Return v
  | None => Raise IndexError
  end.

(** [channel.values.append(value)] then the new [last_difference] and
    the new [difference_order]. *)
Definition push (channel : RT.RegularChannel) (value carry : num)
    (order : RT.DifferenceOrder) : RT.RegularChannel :=
  {| RT.name := RT.name channel; RT.type := RT.type channel;
     RT.values := RT.values channel ++ [value];
     RT.difference_order := order; RT.last_difference := carry |}.

(** "Add new value to the channel" and "Keep track of last difference
    order"; [token] and [j] only serve the warning. *)
Definition add_value (j : nat) (token : string) (channel : RT.RegularChannel)
    (difference_order : RT.DifferenceOrder) (n : num) : decode RT.RegularChannel :=
  match difference_order with
  | RT.Explicit =>
      let* value := lift (round_for (RT.type channel) n) in
      Decoded (push channel value (PyFloat PrimFloat.nan) RT.Explicit)
  | RT.Difference =>
      match RT.values channel with
      | [] => Rejected (UnexpectedValue token j true)
      | _ =>
          let* prev := lift (last_value (RT.values channel)) in
          let* sum := lift (add prev n) in
          let* value := lift (round_for (RT.type channel) sum) in
          Decoded (push channel value n RT.Difference)
      end
  | RT.SecondDifference =>
      let* nan := lift (isnan (RT.last_difference channel)) in
      if (nan : bool) then Rejected (UnexpectedValue token j true)
      else
        let* prev := lift (last_value (RT.values channel)) in
        let* sum1 := lift (add prev (RT.last_difference channel)) in
        let* sum := lift (add sum1 n) in
        let* value := lift (round_for (RT.type channel) sum) in
        let* carry := lift (add (RT.last_difference channel) n) in
        Decoded (push channel value carry RT.SecondDifference)
  end.

(** [channel.values.append(v)] alone (wildcards and booleans leave the
    carry and the difference order as they are). *)
Definition append_value (channel : RT.RegularChannel) (v : num) : RT.RegularChannel :=
  push channel v (RT.last_difference channel) (RT.difference_order channel).

(** The body of "Process regular channels" for channel [j]. *)
Definition regular_token (j : nat) (token : string) (channel : RT.RegularChannel)
  : decode RT.RegularChannel :=
  if String.eqb token "*" then
    match last (RT.values channel) with
    | Some v => Decoded (append_value channel v)
    | None => Rejected (UnexpectedValue token j true)
    end
  else
    match RT.type channel with
    | Ink.Boolean =>
        if String.eqb token "T" then Decoded (append_value channel (PyInt 1))
        else if String.eqb token "F" then Decoded (append_value channel (PyInt 0))
        else Rejected (UnexpectedValue token j true)
    | _ =>
        let* (difference_order, token1) := lift (get_difference_order channel token) in
        let* (is_negative, token2) := lift (split_minus (strip token1)) in
        let* parsed := lift (parse_number token2) in
        match parsed with
        | None => Rejected (UnexpectedValue token2 j true)
        | Some n =>
            add_value j token2 channel difference_order (apply_sign is_negative n)
        end
    end.

(** *** One token of an intermittent channel *)

(** [channel.index_values.append(Ink.IndexValue(i, v))] *)
Definition append_index_value (channel : RT.IntermittentChannel) (i : nat) (v : num)
  : RT.IntermittentChannel :=
  {| RT.intermittent_name := RT.intermittent_name channel;
     RT.intermittent_type := RT.intermittent_type channel;
     RT.index_values := RT.index_values channel ++ [Ink.mkIndexValue i v] |}.

(** The body of "Process intermittent channels" for point [i], token [j]. *)
Definition intermittent_token (i j : nat) (token : string)
    (channel : RT.IntermittentChannel) : decode RT.IntermittentChannel :=
  if String.eqb token "?" then Decoded channel
  else if String.eqb token "*" then
    match last (RT.index_values channel) with
    | Some iv => Decoded (append_index_value channel i (Ink.value iv))
    | None => Rejected (UnexpectedValue token j false)
    end
  else
    match RT.intermittent_type channel with
    | Ink.Boolean =>
        if String.eqb token "T" then Decoded (append_index_value channel i (PyInt 1))
        else if String.eqb token "F" then Decoded (append_index_value channel i (PyInt 0))
        else Rejected (UnexpectedValue token j false)
    | _ =>
        let* (is_negative, token1) := lift (split_minus token) in
        let* parsed := lift (parse_number token1) in
        match parsed with
        | None => Rejected (UnexpectedValue token1 j false)
        | Some n =>
            let* value := lift (round_for (RT.intermittent_type channel)
                                        (apply_sign is_negative n)) in
            Decoded (append_index_value channel i value)
        end
    end.

(** *** A point and the whole body *)

(** One of the two loops over [j]: channel number [j] takes [tokens[j]]
    ([IndexError] when the point has no such token), then the channels
    after it. *)
Fixpoint for_channels {C : Type} (step : nat -> string -> C -> decode C)
    (tokens : list string) (j : nat) (chans : list C) : decode (list C) :=
  match chans with
  | [] => Decoded []
  | channel :: rest =>
      match tokens !! j with
      | None => Raised IndexError
      | Some token =>
          let* channel' := step j token channel in
          let* rest' := for_channels step tokens (S j) rest in
          Decoded (channel' :: rest')
      end
  end.

Definition Channels : Type :=
  (list RT.RegularChannel * list RT.IntermittentChannel)%type.

(** The body of the loop over the points, for point [i]. *)
Definition parse_point (i : nat) (point : string) (chans : Channels)
  : decode Channels :=
  let num_regular_channels := length (fst chans) in
  let num_channels := num_regular_channels + length (snd chans) in
  let point := strip point in
  let tokens := tokenize point in
  if (length tokens <? num_regular_channels)%nat
     || (num_channels <? length tokens)%nat
  then Rejected (WrongTokenCount num_regular_channels num_channels
                                 (length tokens) point)
  else
    let* regular := for_channels regular_token tokens 0 (fst chans) in
    let* intermittent :=
      for_channels (intermittent_token i) tokens num_regular_channels (snd chans) in
    Decoded (regular, intermittent).

Fixpoint for_points (i : nat) (points : list string) (chans : Channels)
  : decode Channels :=
  match points with
  | [] => Decoded chans
  | point :: rest =>
      let* chans' := parse_point i point chans in
      for_points (S i) rest chans'
  end.

(** "Wrap channels" *)
Definition wrap_channels (trace_format : Ink.TraceFormat) : Channels :=
  (map (fun ch => RT.new_regular_channel (Ink.channel_name ch) (Ink.channel_type ch))
       (Ink.regular_channels trace_format),
   map (fun ch => RT.new_intermittent_channel (Ink.channel_name ch) (Ink.channel_type ch))
       (Ink.intermittent_channels trace_format)).

(** [Reader.parse_trace_content]; [Rejected] is the pair [None, None]
    returned after a warning. *)
Definition parse_trace_content (content : string) (trace_format : Ink.TraceFormat)
  : decode Channels :=
  for_points 0 (split "," content) (wrap_channels trace_format).

(** *** The effective trace format *)

(** The first loop of [get_trace_format]. *)
Fixpoint first_trace_format (ctx : Ink.Context) : option Ink.TraceFormat :=
  match Ink.context_trace_format ctx with
  | Some trace_format => Some trace_format
  | None =>
      match Ink.context_parent ctx with
      | Some parent => first_trace_format parent
      | None => None
      end
  end.

(** The second loop of [get_trace_format]. *)
Fixpoint first_ink_source (ctx : Ink.Context) : option Ink.InkSource :=
  match Ink.context_ink_source ctx with
  | Some ink_source => Some ink_source
  | None =>
      match Ink.context_parent ctx with
      | Some parent => first_ink_source parent
      | None => None
      end
  end.

(** [a or b] on optional objects (an object is always true). *)
Definition or_else {A : Type} (a b : option A) : option A :=
  match a with
  | Some x => Some x
  | None => b
  end.

(** [Reader.get_trace_format] *)
Definition get_trace_format (trace : Ink.Trace) (external_context : option Ink.Context)
  : Ink.TraceFormat :=
  match or_else (Ink.context trace) external_context with
  | None => Ink.get_default_trace_format
  | Some context =>
      match first_trace_format context with
      | Some trace_format => trace_format
      | None =>
          match first_ink_source context with
          | Some ink_source => Ink.source_trace_format ink_source
          | None => Ink.get_default_trace_format
          end
      end
  end.

(* --------------------------------------------------------------------- *)
(** *** The element readers *)
(* --------------------------------------------------------------------- *)

(** What the reader changes while it runs: the definitions being filled,
    the store of trace objects, and the warnings logged so far. *)
Record State : Type := mkState {
  definitions : RT.Definitions;
  heap : list Ink.Trace;
  log : list warning
}.

(** A method of [Reader]: it returns a value and a new state, or raises. *)
Definition M (A : Type) : Type := State -> py (A * State).

Definition ret {A : Type} (a : A) : M A := fun s => Return (a, s).

Definition bind {A B : Type} (m : M A) (f : A -> M B) : M B :=
  fun s =>
    match m s with
    | Return (a, s') => f a s'
    | Raise e => Raise e
    end.

Definition throw {A : Type} (e : exn) : M A := fun _ => Raise e.

Notation "'let!' x ':=' m 'in' k" := (bind m (fun x => k))
  (at level 10, x pattern, m at level 100, k at level 200).

(** [self.logger.warning(...)] *)
Definition warn (w : warning) : M unit :=
  fun s => Return (tt, {| definitions := definitions s; heap := heap s;
                          log := log s ++ [w] |}).

Definition get_definitions : M RT.Definitions :=
  fun s => Return (definitions s, s).

Definition put_definitions (d : RT.Definitions) : M unit :=
  fun s => Return (tt, {| definitions := d; heap := heap s; log := log s |}).

(** [Reader.get_id] *)
Definition get_id (element : Xml.Element) : option string :=
  match Xml.get element Inkml.ID with
  | Some id => Some id
  | None => Xml.get element "id"
  end.

(** [Reader.read_sample_rate] *)
Definition read_sample_rate (element : option Xml.Element) : M (option Ink.SampleRate) :=
  match element with
  | None => ret None
  | Some element =>
      match Xml.get element "value" with
      | None =>
          let! _ := warn (RequiredAttribute "value" "sampleRate") in ret None
      | Some value_str =>
          match float_of_string value_str with
          | None =>
              let! _ := warn (ExpectedDecimal "value" "sampleRate") in ret None
          | Some value =>
              let uniform :=
                match Xml.get element "uniform" with
                | None => true
                | Some uniform_str => String.eqb uniform_str "true"
                end in
              ret (Some (Ink.mkSampleRate value uniform))
          end
      end
  end.

(** [Reader.read_latency] *)
Definition read_latency (element : option Xml.Element) : M (option float) :=
  match element with
  | None => ret None
  | Some element =>
      match Xml.get element "value" with
      | None =>
          let! _ := warn (RequiredAttribute "value" "latency") in ret None
      | Some value_str =>
          match float_of_string value_str with
          | None =>
              let! _ := warn (ExpectedDecimal "value" "latency") in ret None
          | Some value => ret (Some value)
          end
      end
  end.

(** [Reader.read_active_area] *)
Definition read_active_area (element : option Xml.Element) : M (option Ink.ActiveArea) :=
  match element with
  | None => ret None
  | Some element =>
      match Xml.get element "width" with
      | None =>
          let! _ := warn (RequiredAttribute "width" "activeArea") in ret None
      | Some width_str =>
          match float_of_string width_str with
          | None =>
              let! _ := warn (ExpectedDecimal "width" "activeArea") in ret None
          | Some width =>
              match Xml.get element "height" with
              | None =>
                  let! _ := warn (RequiredAttribute "height" "activeArea") in ret None
              | Some height_str =>
                  match float_of_string height_str with
                  | None =>
                      let! _ := warn (ExpectedDecimal "height" "activeArea") in
                      ret None
                  | Some height =>
                      ret (Some {| Ink.area_width := width;
                                   Ink.area_height := height;
                                   Ink.area_units := Xml.get element "units";
                                   Ink.area_size := Xml.get element "size" |})
                  end
              end
          end
      end
  end.

(** [Reader.read_source_property] *)
Definition read_source_property (element : Xml.Element) : M (option RT.SourceProperty) :=
  match Xml.get element "name" with
  | None =>
      let! _ := warn (RequiredAttribute "name" "sourceProperty") in ret None
  | Some name =>
      match Xml.get element "value" with
      | None =>
          let! _ := warn (RequiredAttribute "value" "sourceProperty") in ret None
      | Some value =>
          ret (Some (RT.mkSourceProperty name value (Xml.get element "units")))
      end
  end.

(** [Reader.read_channel_property] *)
Definition read_channel_property (element : Xml.Element) : M (option RT.ChannelProperty) :=
  match Xml.get element "channel" with
  | None =>
      let! _ := warn (RequiredAttribute "channel" "channelProperty") in ret None
  | Some channel =>
      match Xml.get element "name" with
      | None =>
          let! _ := warn (RequiredAttribute "name" "channelProperty") in ret None
      | Some name =>
          match Xml.get element "value" with
          | None =>
              let! _ := warn (RequiredAttribute "value" "channelProperty") in ret None
          | Some value =>
              ret (Some (RT.mkChannelProperty channel name value
                                              (Xml.get element "units")))
          end
      end
  end.

(** [Reader.get_inner_text] *)
Fixpoint get_inner_text (element : Xml.Element) : string :=
  default "" (Xml.text element)
  ++ (fix inner (es : list Xml.Element) : string :=
        match es with
        | [] => ""
        | e :: rest => (get_inner_text e ++ inner rest)%string
        end) (Xml.children element)
  ++ default "" (Xml.tail element).

(** "Store non-standard attributes" *)
Definition non_standard_attributes (element : Xml.Element) : gmap string string :=
  filter (fun kv => kv.1 <> "href" /\ kv.1 <> "type" /\ kv.1 <> "encoding")
         (Xml.attrib element).

(** [Reader.read_annotation] *)
Definition read_annotation (element : Xml.Element) : M (option Ink.Annotation) :=
  let finish (content : string) (content_type : Ink.AnnotationContentType) :=
    ret (Some {| Ink.annotation_content := content;
                 Ink.annotation_content_type := content_type;
                 Ink.annotation_type := default "" (Xml.get element "type");
                 Ink.annotation_encoding := default "" (Xml.get element "encoding");
                 Ink.annotation_attributes := non_standard_attributes element |}) in
  if String.eqb (Xml.tag element) Inkml.ANNOTATION then
    finish (default "" (Xml.text element)) Ink.Text
  else if String.eqb (Xml.tag element) Inkml.ANNOTATION_XML then
    let inner_text := get_inner_text element in
    if (0 <? String.length inner_text)%nat then finish inner_text Ink.XML
    else
      match Xml.get element "href" with
      | Some href => finish href Ink.HRef
      | None => let! _ := warn NoContentNorHref in ret None
      end
  else throw Exception.

(** [Reader.read_annotations]: the loop over the children. *)
Fixpoint read_annotation_list (items : list Xml.Element) : M (list Ink.Annotation) :=
  match items with
  | [] => ret []
  | item :: rest =>
      if String.eqb (Xml.tag item) Inkml.ANNOTATION
         || String.eqb (Xml.tag item) Inkml.ANNOTATION_XML
      then
        let! annotation := read_annotation item in
        let! annotations := read_annotation_list rest in
        ret (match annotation with
             | Some a => a :: annotations
             | None => annotations
             end)
      else read_annotation_list rest
  end.

Definition read_annotations (container : Xml.Element) : M (list Ink.Annotation) :=
  read_annotation_list (Xml.children container).

(** [Reader.read_brush_property] *)
Definition read_brush_property (element : Xml.Element) : M (option RT.BrushProperty) :=
  match Xml.get element "name" with
  | None =>
      let! _ := warn (RequiredAttribute "name" "brushProperty") in ret None
  | Some name =>
      match Xml.get element "value" with
      | None =>
          let! _ := warn (RequiredAttribute "value" "brushProperty") in ret None
      | Some value =>
          let! annotations := read_annotations element in
          ret (Some (RT.mkBrushProperty name value (Xml.get element "units")
                                        annotations))
      end
  end.

(** A loop [for e in elements: x = read(e); if x is not None: acc = add(acc, x)]. *)
Fixpoint for_each {A B : Type} (read : Xml.Element -> M (option A))
    (add : B -> A -> B) (elements : list Xml.Element) (acc : B) : M B :=
  match elements with
  | [] => ret acc
  | e :: rest =>
      let! x := read e in
      for_each read add rest (match x with Some a => add acc a | None => acc end)
  end.

(** A loop [for e in elements: x = read(e); if x is None: continue;
    items.append(x)]. *)
Definition collect {A : Type} (read : Xml.Element -> M (option A))
  : list Xml.Element -> M (list A) :=
  fix loop (elements : list Xml.Element) : M (list A) :=
    match elements with
    | [] => ret []
    | e :: rest =>
        let! x := read e in
        let! items := loop rest in
        ret (match x with
             | Some a => a :: items
             | None => items
             end)
    end.

(** [Reader.read_channel] *)
Definition read_channel (element : Xml.Element) : M (option Ink.Channel) :=
  match Xml.get element "name" with
  | None =>
      let! _ := warn (RequiredAttribute "name" "channel") in ret None
  | Some name =>
      let id :=
        match get_id element with
        | Some id => if (0 <? String.length id)%nat then id else ""
        | None => ""
        end in
      let channel_type :=
        match Xml.get element "type" with
        | Some t =>
            if String.eqb t "integer" then Ink.Integer
            else if String.eqb t "decimal" then Ink.Decimal
            else if String.eqb t "double" then Ink.Double
            else if String.eqb t "boolean" then Ink.Boolean
            else Ink.Decimal
        | None => Ink.Decimal
        end in
      let default_value : num + bool :=
        match Xml.get element "default" with
        | None => inl (PyInt 0)
        | Some default_str =>
            match channel_type with
            | Ink.Boolean =>
                let d := lower default_str in
                inr (String.eqb d "true" || String.eqb d "t" || String.eqb d "1")
            | _ =>
                match float_of_string default_str with
                | Some f => inl (PyFloat f)
                | None => inl (PyFloat 0)
                end
            end
        end in
      let orientation :=
        match Xml.get element "orientation" with
        | Some o => if String.eqb o "-ve" then Ink.Negative else Ink.Positive
        | None => Ink.Positive
        end in
      ret (Some {| Ink.channel_id := id;
                   Ink.channel_name := name;
                   Ink.channel_type := channel_type;
                   Ink.channel_default := default_value;
                   Ink.channel_min :=
                     match Xml.get element "min" with
                     | Some min_str => float_of_string min_str
                     | None => None
                     end;
                   Ink.channel_max :=
                     match Xml.get element "max" with
                     | Some max_str => float_of_string max_str
                     | None => None
                     end;
                   Ink.channel_orientation := orientation;
                   Ink.channel_respect_to := "";
                   Ink.channel_units := default "" (Xml.get element "units");
                   Ink.channel_properties := ∅;
                   Ink.channel_respectTo := Xml.get element "respectTo" |})
  end.

(** [Reader.read_trace_format] *)
Definition read_trace_format (element : Xml.Element) : M Ink.TraceFormat :=
  let id :=
    match get_id element with
    | Some id => if (0 <? String.length id)%nat then id else ""
    | None => ""
    end in
  let append (channels : list Ink.Channel) (c : Ink.Channel) := channels ++ [c] in
  let! regular :=
    for_each read_channel append (Xml.findall element (Inkml.inkml "channel")) [] in
  let! intermittent :=
    match Xml.find element (Inkml.inkml "intermittentChannels") with
    | Some intermittent_channels_element =>
        for_each read_channel append
                 (Xml.findall intermittent_channels_element (Inkml.inkml "channel")) []
    | None => ret []
    end in
  ret {| Ink.format_id := id; Ink.regular_channels := regular;
         Ink.intermittent_channels := intermittent |}.

(** "Read channel properties": the grouping by target channel name. *)
Definition group_property (groups : gmap string (list RT.ChannelProperty))
    (p : RT.ChannelProperty) : gmap string (list RT.ChannelProperty) :=
  <[RT.property_channel p := default [] (groups !! RT.property_channel p) ++ [p]]> groups.

(** "Assign channel properties to corresponding channels", for one channel. *)
Definition assign_properties (groups : gmap string (list RT.ChannelProperty))
    (channel : Ink.Channel) : Ink.Channel :=
  match groups !! Ink.channel_name channel with
  | None => channel
  | Some props =>
      {| Ink.channel_id := Ink.channel_id channel;
         Ink.channel_name := Ink.channel_name channel;
         Ink.channel_type := Ink.channel_type channel;
         Ink.channel_default := Ink.channel_default channel;
         Ink.channel_min := Ink.channel_min channel;
         Ink.channel_max := Ink.channel_max channel;
         Ink.channel_orientation := Ink.channel_orientation channel;
         Ink.channel_respect_to := Ink.channel_respect_to channel;
         Ink.channel_units := Ink.channel_units channel;
         Ink.channel_properties :=
           foldl (fun properties prop =>
                    <[RT.channel_property_name prop :=
                        Ink.mkProperty (RT.channel_property_value prop)
                                       (RT.channel_property_units prop)]> properties)
                 (Ink.channel_properties channel) props;
         Ink.channel_respectTo := Ink.channel_respectTo channel |}
  end.

(** [Reader.read_ink_source].  The channel properties are looked up with
    [find], which returns the first [channelProperty] element (or
    [None]); the loop then runs over what iterating that value yields:
    the children of that element, or a [TypeError] for [None]. *)
Definition read_ink_source (element : Xml.Element) : M (option Ink.InkSource) :=
  match get_id element with
  | None =>
      let! _ := warn (RequiredAttribute "xml:id" "inkSource") in ret None
  | Some id =>
      match Xml.find element (Inkml.inkml "traceFormat") with
      | None => let! _ := warn NestedTraceFormatRequired in ret None
      | Some trace_format_element =>
          let! trace_format := read_trace_format trace_format_element in
          let! sample_rate :=
            read_sample_rate (Xml.find element (Inkml.inkml "sampleRate")) in
          let! latency := read_latency (Xml.find element (Inkml.inkml "latency")) in
          let! active_area :=
            read_active_area (Xml.find element (Inkml.inkml "activeArea")) in
          let! properties :=
            for_each read_source_property
              (fun (properties : gmap string Ink.Property) p =>
                 <[RT.source_property_name p :=
                     Ink.mkProperty (RT.source_property_value p)
                                    (RT.source_property_units p)]> properties)
              (Xml.findall element (Inkml.inkml "sourceProperty")) ∅ in
          let! channel_properties :=
            match Xml.find element (Inkml.inkml "channelProperties") with
            | None => ret ∅
            | Some channel_properties_element =>
                match Xml.find channel_properties_element
                               (Inkml.inkml "channelProperty") with
                | None => throw TypeError
                | Some channel_property_elements =>
                    for_each read_channel_property group_property
                             (Xml.children channel_property_elements) ∅
                end
            end in
          ret (Some
            {| Ink.source_id := id;
               Ink.source_trace_format :=
                 {| Ink.format_id := Ink.format_id trace_format;
                    Ink.regular_channels :=
                      map (assign_properties channel_properties)
                          (Ink.regular_channels trace_format);
                    Ink.intermittent_channels :=
                      map (assign_properties channel_properties)
                          (Ink.intermittent_channels trace_format) |};
               Ink.source_sample_rate := None;
               Ink.source_latency := latency;
               Ink.source_active_area := None;
               Ink.source_manufacturer := Xml.get element "manufacturer";
               Ink.source_model := Xml.get element "model";
               Ink.source_serial_no := None;
               Ink.source_specification_ref := None;
               Ink.source_description := Xml.get element "description";
               Ink.source_properties := properties;
               Ink.source_sampleRate := sample_rate;
               Ink.source_activeArea := active_area;
               Ink.source_serialNo := Xml.get element "serialNo";
               Ink.source_specificationRef := Xml.get element "specificationRef" |})
      end
  end.

(** An optional attribute kept only when it is not empty. *)
Definition non_empty (value : option string) : option string :=
  match value with
  | Some v => if (0 <? String.length v)%nat then Some v else None
  | None => None
  end.

(** [Reader.read_brush] *)
Definition read_brush (element : Xml.Element) : M RT.BrushEnvelope :=
  let! properties :=
    for_each read_brush_property
      (fun (properties : gmap string Ink.AnnotatedProperty) p =>
         <[RT.brush_property_name p :=
             Ink.mkAnnotatedProperty (RT.brush_property_value p)
                                     (RT.brush_property_units p)
                                     (RT.brush_property_annotations p)]> properties)
      (Xml.findall element (Inkml.inkml "brushProperty")) ∅ in
  let! annotations := read_annotations element in
  ret {| RT.brush :=
           {| Ink.brush_id := default "" (non_empty (get_id element));
              Ink.brush_parent := None;
              Ink.brush_properties := properties;
              Ink.brush_annotations := annotations |};
         RT.brush_parent_ref := default "" (non_empty (Xml.get element "brushRef")) |}.

(** [Reader.read_timestamp] *)
Definition read_timestamp (element : Xml.Element) : M (option RT.TimestampEnvelope) :=
  match get_id element with
  | None =>
      let! _ := warn (RequiredAttribute "xml:id" "parent") in ret None
  | Some id =>
      let fresh := Ink.new_timestamp id in
      let with_time (t : float) :=
        {| Ink.timestamp_id := id; Ink.timestamp_parent := None;
           Ink.timestamp_time := Some t; Ink.timestamp_time_string := "";
           Ink.timestamp_time_offset := 0; Ink.timestamp_timeString := None;
           Ink.timestamp_timeOffset := None |} in
      let with_strays (time_string : option string) (time_offset : option float) :=
        {| Ink.timestamp_id := id; Ink.timestamp_parent := None;
           Ink.timestamp_time := None; Ink.timestamp_time_string := "";
           Ink.timestamp_time_offset := 0; Ink.timestamp_timeString := time_string;
           Ink.timestamp_timeOffset := time_offset |} in
      match match Xml.get element "time" with
            | Some time_str => float_of_string time_str
            | None => None
            end with
      | Some time => ret (Some (RT.mkTimestampEnvelope (with_time time) ""))
      | None =>
          match Xml.get element "timeString" with
          | Some time_string =>
              ret (Some (RT.mkTimestampEnvelope (with_strays (Some time_string) None) ""))
          | None =>
              ret (Some (RT.mkTimestampEnvelope
                           (with_strays None
                              match Xml.get element "timeOffset" with
                              | Some time_offset_str => float_of_string time_offset_str
                              | None => None
                              end)
                           (default "" (Xml.get element "timestampRef"))))
          end
      end
  end.

(** [Reader.read_context]: the attributes first, then the nested
    elements, which overwrite them. *)
Definition read_context (element : Xml.Element) : M RT.ContextEnvelope :=
  let ref (attribute : string) : string :=
    default "" (non_empty (Xml.get element attribute)) in
  let! trace_format_or_ref :=
    match Xml.find element (Inkml.inkml "traceFormat") with
    | Some trace_format_element =>
        let! trace_format := read_trace_format trace_format_element in
        ret (inl trace_format)
    | None => ret (inr (ref "traceFormatRef"))
    end in
  let! ink_source_or_ref :=
    match Xml.find element (Inkml.inkml "inkSource") with
    | Some ink_source_element =>
        let! ink_source := read_ink_source ink_source_element in
        ret (match ink_source with
             | Some s => inl s
             | None => inr (ref "inkSourceRef")
             end)
    | None => ret (inr (ref "inkSourceRef"))
    end in
  let! brush_or_ref :=
    match Xml.find element (Inkml.inkml "brush") with
    | Some brush_element =>
        let! brush := read_brush brush_element in ret (inl brush)
    | None => ret (inr (ref "brushRef"))
    end in
  let! timestamp_or_ref :=
    match Xml.find element (Inkml.inkml "timestamp") with
    | Some timestamp_element =>
        let! timestamp := read_timestamp timestamp_element in
        ret (match timestamp with
             | Some t => inl t
             | None => inr (ref "timestampRef")
             end)
    | None => ret (inr (ref "timestampRef"))
    end in
  ret {| RT.context :=
           {| Ink.context_id := default "" (non_empty (get_id element));
              Ink.context_parent := None; Ink.context_ink_source := None;
              Ink.context_trace_format := None; Ink.context_brush := None;
              Ink.context_timestamp := None |};
         RT.context_parent_ref := ref "contextRef";
         RT.ink_source_or_ref := ink_source_or_ref;
         RT.trace_format_or_ref := trace_format_or_ref;
         RT.brush_or_ref := brush_or_ref;
         RT.timestamp_or_ref := timestamp_or_ref |}.

(* --------------------------------------------------------------------- *)
(** *** Traces, groups and views *)
(* --------------------------------------------------------------------- *)

Section Reader.

(** [self.assume_local_refs] *)
Variable assume_local_refs : bool.

(** The shared shape of "Get optional contextRef attribute" and "Get
    optional brushRef attribute": the outer [None] is [return None]. *)
Definition lookup_ref {A : Type} (what owner : string)
    (table : RT.Definitions -> string -> option A) (ref : option string)
    (require_refs : bool) : M (option (option A)) :=
  match ref with
  | None => ret (Some None)
  | Some r =>
      if Ids.is_local_id r || assume_local_refs then
        let! d := get_definitions in
        match table d (Ids.to_local_id r) with
        | Some x => ret (Some (Some x))
        | None =>
            let! _ := warn (CouldNotFind what r owner) in
            ret (if require_refs then None else Some None)
        end
      else
        let! _ := warn (ExternalReference r) in ret (Some None)
  end.

Definition context_table (d : RT.Definitions) (id : string) : option Ink.Context :=
  option_map RT.context (Dict.get (RT.contexts d) id).

Definition brush_table (d : RT.Definitions) (id : string) : option Ink.Brush :=
  option_map RT.brush (RT.brushes d !! id).

(** [Reader.read_trace_group]; the traces of the group are read by the caller. *)
Definition read_trace_group (element : Xml.Element) (require_refs : bool)
  : M (option Ink.TraceGroup) :=
  let! context :=
    lookup_ref "context" "traceGroup" context_table (Xml.get element "contextRef")
               require_refs in
  match context with
  | None => ret None
  | Some context =>
      let! brush :=
        lookup_ref "brush" "traceGroup" brush_table (Xml.get element "brushRef")
                   require_refs in
      match brush with
      | None => ret None
      | Some brush =>
          let! annotations := read_annotations element in
          ret (Some {| Ink.group_id := default "" (non_empty (get_id element));
                       Ink.group_context := context;
                       Ink.group_brush := brush;
                       Ink.group_annotations := annotations |})
      end
  end.

(** [[int(v) for v in text.split(':')]], [None] on a [ValueError]. *)
Definition int_list (text : string) : option (list Z) :=
  mapM int_of_string (split ":" text).

(** "Get optional 'from' attribute" and "Get optional 'to' attribute". *)
Definition read_indices (element : Xml.Element) (attribute : string) : M (list Z) :=
  match non_empty (Xml.get element attribute) with
  | None => ret []
  | Some text =>
      match int_list text with
      | Some indices => ret indices
      | None => let! _ := warn (CouldNotConvert attribute text) in ret []
      end
  end.

(** [Reader.read_trace_view] *)
Definition read_trace_view (element : Xml.Element) : M (option Ink.TraceItem) :=
  match Xml.get element "traceDataRef" with
  | None =>
      let! _ := warn (RequiredAttribute "traceDataRef" "traceView") in ret None
  | Some trace_data_ref =>
      if negb (Ids.is_local_id trace_data_ref) && negb assume_local_refs then
        let! _ := warn (ExternalReference trace_data_ref) in ret None
      else
        let trace_data_id := Ids.to_local_id trace_data_ref in
        let! d := get_definitions in
        match
          match RT.traces d !! trace_data_id with
          | Some l => Some (Ink.ItemTrace l)
          | None =>
              match RT.trace_groups d !! trace_data_id with
              | Some group => Some group
              | None => RT.trace_views d !! trace_data_id
              end
          end
        with
        | None =>
            let! _ := warn (CouldNotFind "trace data" trace_data_ref "traceView") in
            ret None
        | Some trace_data =>
            let! view_begin := read_indices element "from" in
            let! view_end := read_indices element "to" in
            ret (Some (Ink.ItemView "" trace_data view_begin view_end
                                    (non_empty (get_id element))))
        end
  end.

(** [Ink.Trace()]: a new object in the store. *)
Definition new_trace_object : M Ink.loc :=
  fun s => Return (length (heap s),
                   {| definitions := definitions s;
                      heap := heap s ++ [Ink.new_trace]; log := log s |}).

(** The object at [l] becomes [t]. *)
Definition store (l : Ink.loc) (t : Ink.Trace) : M unit :=
  fun s => Return (tt, {| definitions := definitions s;
                          heap := <[l := t]> (heap s); log := log s |}).

Definition set_next (l : Ink.loc) (t : Ink.Trace) : Ink.Trace :=
  {| Ink.trace_id := Ink.trace_id t; Ink.channels := Ink.channels t;
     Ink.trace_intermittent_channels := Ink.trace_intermittent_channels t;
     Ink.continuation := Ink.continuation t; Ink.next := Some l;
     Ink.context := Ink.context t; Ink.brush := Ink.brush t;
     Ink.duration := Ink.duration t; Ink.time_offset := Ink.time_offset t;
     Ink.type := Ink.type t |}.

(** [prior_trace.next = trace] *)
Definition link_prior (prior l : Ink.loc) : M unit :=
  fun s => Return (tt, {| definitions := definitions s;
                          heap := alter (set_next l) prior (heap s);
                          log := log s |}).

(** "Get optional continuation attribute" *)
Definition read_continuation (continuation : option string)
  : M Ink.TraceContinuation :=
  match continuation with
  | None => ret Ink.ContinuationNo
  | Some c =>
      if String.eqb c "begin" then ret Ink.ContinuationBegin
      else if String.eqb c "middle" then ret Ink.ContinuationMiddle
      else if String.eqb c "end" then ret Ink.ContinuationEnd
      else let! _ := warn (UnexpectedContinuation c) in ret Ink.ContinuationNo
  end.

Definition is_continued (c : Ink.TraceContinuation) : bool :=
  match c with
  | Ink.ContinuationMiddle | Ink.ContinuationEnd => true
  | _ => false
  end.

(** "If this trace is a continuation, assign it to its prior trace":
    [false] is [return None]. *)
Definition read_prior (element : Xml.Element) (l : Ink.loc) (require_refs : bool)
  : M bool :=
  match non_empty (Xml.get element "priorRef") with
  | None =>
      let! _ := warn (PriorRefRequired (Xml.get element "continuation")) in ret false
  | Some prior_ref =>
      if negb (Ids.is_local_id prior_ref) && negb assume_local_refs then
        let! _ := warn (ExternalReference prior_ref) in ret false
      else
        let! d := get_definitions in
        match RT.traces d !! Ids.to_local_id prior_ref with
        | Some prior => let! _ := link_prior prior l in ret true
        | None =>
            let! _ := warn (CouldNotFind "prior trace" prior_ref "trace") in
            ret (negb require_refs)
        end
  end.

(** "Move data into trace" *)
Definition move_channels (chans : Channels)
  : gmap string (list num) * gmap string (list Ink.IndexValue) :=
  (foldl (fun m ch => <[RT.name ch := RT.values ch]> m) ∅ (fst chans),
   foldl (fun m ch => <[RT.intermittent_name ch := RT.index_values ch]> m) ∅ (snd chans)).

(** "Parse trace data": [None] is [return None]. *)
Definition read_trace_data (element : Xml.Element) (trace : Ink.Trace)
    (context : option Ink.Context)
  : M (option (gmap string (list num) * gmap string (list Ink.IndexValue))) :=
  match Xml.text element with
  | None => ret (Some (Ink.channels trace, Ink.trace_intermittent_channels trace))
  | Some text =>
      match parse_trace_content text (get_trace_format trace context) with
      | Decoded chans => ret (Some (move_channels chans))
      | Rejected w =>
          let! _ := warn w in
          let! _ := warn CouldNotParseTraceContent in
          ret None
      | Raised e => throw e
      end
  end.

(** The body of [read_trace] for the trace object at [l]: the fields it
    has assigned by the time it returns, and whether it returns the
    trace ([true]) or [None] ([false]). *)
Definition read_trace_fields (element : Xml.Element) (context : option Ink.Context)
    (require_refs : bool) (l : Ink.loc) : M (bool * Ink.Trace) :=
  let trace (ctx : option Ink.Context) (br : option Ink.Brush)
            (cont : Ink.TraceContinuation) :=
    {| Ink.trace_id := ""; Ink.channels := ∅; Ink.trace_intermittent_channels := ∅;
       Ink.continuation := cont; Ink.next := None; Ink.context := ctx;
       Ink.brush := br; Ink.duration := None; Ink.time_offset := None;
       Ink.type := Ink.PenDown |} in
  let! trace_context :=
    lookup_ref "context" "trace" context_table (Xml.get element "contextRef")
               require_refs in
  match trace_context with
  | None => ret (false, Ink.new_trace)
  | Some trace_context =>
      let! trace_brush :=
        lookup_ref "brush" "trace" brush_table (Xml.get element "brushRef")
                   require_refs in
      match trace_brush with
      | None => ret (false, trace trace_context None Ink.ContinuationNo)
      | Some trace_brush =>
          let! continuation := read_continuation (Xml.get element "continuation") in
          let partial := trace trace_context trace_brush continuation in
          let! proceed :=
            if is_continued continuation then read_prior element l require_refs
            else ret true in
          if negb proceed then ret (false, partial)
          else
            let! data := read_trace_data element partial context in
            match data with
            | None => ret (false, partial)
            | Some (regular, intermittent) =>
                let id := non_empty (get_id element) in
                let! _ :=
                  match id, continuation with
                  | None, Ink.ContinuationBegin
                  | None, Ink.ContinuationMiddle =>
                      warn (IdMissingForContinuation (Xml.get element "continuation"))
                  | _, _ => ret tt
                  end in
                let trace_type :=
                  match Xml.get element "type" with
                  | Some t =>
                      if String.eqb t "penUp" then Ink.PenUp
                      else if String.eqb t "indeterminate" then Ink.Indeterminate
                      else Ink.PenDown
                  | None => Ink.PenDown
                  end in
                let int_attribute (attribute : string) : option Z :=
                  match non_empty (Xml.get element attribute) with
                  | Some text => int_of_string text
                  | None => None
                  end in
                ret (true,
                     {| Ink.trace_id := default "" id;
                        Ink.channels := regular;
                        Ink.trace_intermittent_channels := intermittent;
                        Ink.continuation := continuation;
                        Ink.next := None;
                        Ink.context := trace_context;
                        Ink.brush := trace_brush;
                        Ink.duration := int_attribute "duration";
                        Ink.time_offset := int_attribute "timeOffset";
                        Ink.type := trace_type |})
            end
      end
  end.

(** [Reader.read_trace]: a new trace object, the fields the method
    assigns to it, and the object or [None]. *)
Definition read_trace (element : Xml.Element) (context : option Ink.Context)
    (require_refs : bool) : M (option Ink.loc) :=
  let! l := new_trace_object in
  let! (returned, trace) := read_trace_fields element context require_refs l in
  let! _ := store l trace in
  ret (if (returned : bool) then Some l else None).

(** [trace.id] of the object at [l]. *)
Definition trace_id_at (l : Ink.loc) : M string :=
  fun s => Return (match heap s !! l with
                   | Some t => Ink.trace_id t
                   | None => ""
                   end, s).

(** [definitions.traces[id] = trace] and its two siblings, done only
    when [len(id) > 0]. *)
Definition register_trace (id : string) (l : Ink.loc) : M unit :=
  if (0 <? String.length id)%nat then
    let! d := get_definitions in
    put_definitions
      {| RT.contexts := RT.contexts d; RT.brushes := RT.brushes d;
         RT.ink_sources := RT.ink_sources d; RT.trace_formats := RT.trace_formats d;
         RT.timestamps := RT.timestamps d; RT.traces := <[id := l]> (RT.traces d);
         RT.trace_groups := RT.trace_groups d; RT.trace_views := RT.trace_views d |}
  else ret tt.

Definition register_group (id : string) (group : Ink.TraceItem) : M unit :=
  if (0 <? String.length id)%nat then
    let! d := get_definitions in
    put_definitions
      {| RT.contexts := RT.contexts d; RT.brushes := RT.brushes d;
         RT.ink_sources := RT.ink_sources d; RT.trace_formats := RT.trace_formats d;
         RT.timestamps := RT.timestamps d; RT.traces := RT.traces d;
         RT.trace_groups := <[id := group]> (RT.trace_groups d);
         RT.trace_views := RT.trace_views d |}
  else ret tt.

Definition register_view (id : string) (view : Ink.TraceItem) : M unit :=
  if (0 <? String.length id)%nat then
    let! d := get_definitions in
    put_definitions
      {| RT.contexts := RT.contexts d; RT.brushes := RT.brushes d;
         RT.ink_sources := RT.ink_sources d; RT.trace_formats := RT.trace_formats d;
         RT.timestamps := RT.timestamps d; RT.traces := RT.traces d;
         RT.trace_groups := RT.trace_groups d;
         RT.trace_views := <[id := view]> (RT.trace_views d) |}
  else ret tt.

(** The body of the loop of [read_traces] for one child: what
    [traces.append] receives, after the registration under the id;
    [None] where the loop goes on to the next child without appending.
    [read_group_traces] reads the traces of a group (it is [read_traces]). *)
Definition read_item
    (read_group_traces : Xml.Element -> option Ink.Context -> M (list Ink.TraceItem))
    (context : option Ink.Context) (child : Xml.Element) : M (option Ink.TraceItem) :=
  if String.eqb (Xml.tag child) Inkml.TRACE then
    let! trace := read_trace child context true in
    match trace with
    | None => let! _ := warn (CouldNotRead "trace") in ret None
    | Some l =>
        let! id := trace_id_at l in
        let! _ := register_trace id l in
        ret (Some (Ink.ItemTrace l))
    end
  else if String.eqb (Xml.tag child) Inkml.TRACE_GROUP then
    let! group := read_trace_group child true in
    match group with
    | None => let! _ := warn (CouldNotRead "traceGroup") in ret None
    | Some group =>
        let! group_traces :=
          read_group_traces child (or_else (Ink.group_context group) context) in
        let item := Ink.ItemGroup group group_traces in
        let! _ := register_group (Ink.group_id group) item in
        ret (Some item)
    end
  else if String.eqb (Xml.tag child) Inkml.TRACE_VIEW then
    let! view := read_trace_view child in
    match view with
    | None => let! _ := warn (CouldNotRead "traceView") in ret None
    | Some view =>
        let! _ :=
          match view with
          | Ink.ItemView view_id _ _ _ _ => register_view view_id view
          | _ => ret tt
          end in
        ret (Some view)
    end
  else ret None.

(** [Reader.read_traces]: the children in document order, each appended
    unless its reader gave it up. *)
Fixpoint read_traces (container : Xml.Element) (context : option Ink.Context)
    {struct container} : M (list Ink.TraceItem) :=
  collect (read_item read_traces context) (Xml.children container).

(* --------------------------------------------------------------------- *)
(** *** The definitions *)
(* --------------------------------------------------------------------- *)

(** A loop [for e in elements: body(e)]. *)
Fixpoint for_elements (body : Xml.Element -> M unit) (elements : list Xml.Element)
  : M unit :=
  match elements with
  | [] => ret tt
  | e :: rest => let! _ := body e in for_elements body rest
  end.

Definition update_definitions (f : RT.Definitions -> RT.Definitions) : M unit :=
  let! d := get_definitions in put_definitions (f d).

Definition add_context (id : string) (c : RT.ContextEnvelope) (d : RT.Definitions)
  : RT.Definitions :=
  {| RT.contexts := Dict.set (RT.contexts d) id c; RT.brushes := RT.brushes d;
     RT.ink_sources := RT.ink_sources d; RT.trace_formats := RT.trace_formats d;
     RT.timestamps := RT.timestamps d; RT.traces := RT.traces d;
     RT.trace_groups := RT.trace_groups d; RT.trace_views := RT.trace_views d |}.

Definition add_brush (id : string) (b : RT.BrushEnvelope) (d : RT.Definitions)
  : RT.Definitions :=
  {| RT.contexts := RT.contexts d; RT.brushes := <[id := b]> (RT.brushes d);
     RT.ink_sources := RT.ink_sources d; RT.trace_formats := RT.trace_formats d;
     RT.timestamps := RT.timestamps d; RT.traces := RT.traces d;
     RT.trace_groups := RT.trace_groups d; RT.trace_views := RT.trace_views d |}.

Definition add_ink_source (id : string) (s : Ink.InkSource) (d : RT.Definitions)
  : RT.Definitions :=
  {| RT.contexts := RT.contexts d; RT.brushes := RT.brushes d;
     RT.ink_sources := <[id := s]> (RT.ink_sources d);
     RT.trace_formats := RT.trace_formats d;
     RT.timestamps := RT.timestamps d; RT.traces := RT.traces d;
     RT.trace_groups := RT.trace_groups d; RT.trace_views := RT.trace_views d |}.

Definition add_trace_format (id : string) (f : Ink.TraceFormat) (d : RT.Definitions)
  : RT.Definitions :=
  {| RT.contexts := RT.contexts d; RT.brushes := RT.brushes d;
     RT.ink_sources := RT.ink_sources d;
     RT.trace_formats := <[id := f]> (RT.trace_formats d);
     RT.timestamps := RT.timestamps d; RT.traces := RT.traces d;
     RT.trace_groups := RT.trace_groups d; RT.trace_views := RT.trace_views d |}.

Definition add_timestamp (id : string) (t : RT.TimestampEnvelope) (d : RT.Definitions)
  : RT.Definitions :=
  {| RT.contexts := RT.contexts d; RT.brushes := RT.brushes d;
     RT.ink_sources := RT.ink_sources d; RT.trace_formats := RT.trace_formats d;
     RT.timestamps := <[id := t]> (RT.timestamps d); RT.traces := RT.traces d;
     RT.trace_groups := RT.trace_groups d; RT.trace_views := RT.trace_views d |}.

Definition has_id (id : string) : bool := (0 <? String.length id)%nat.

(** The first loop over the [definitions] elements, for one of them. *)
Definition read_definitions_items (element : Xml.Element) : M unit :=
  let! _ :=
    for_elements (fun ink_source_element =>
      let! ink_source := read_ink_source ink_source_element in
      match ink_source with
      | None => ret tt
      | Some ink_source =>
          let! _ := update_definitions (add_ink_source (Ink.source_id ink_source)
                                                       ink_source) in
          let trace_format := Ink.source_trace_format ink_source in
          if has_id (Ink.format_id trace_format)
          then update_definitions (add_trace_format (Ink.format_id trace_format)
                                                    trace_format)
          else ret tt
      end) (Xml.findall element (Inkml.inkml "inkSource")) in
  let! _ :=
    for_elements (fun brush_element =>
      let! brush := read_brush brush_element in
      if has_id (RT.brush_envelope_id brush)
      then update_definitions (add_brush (RT.brush_envelope_id brush) brush)
      else ret tt) (Xml.findall element (Inkml.inkml "brush")) in
  let! _ :=
    for_elements (fun trace_format_element =>
      let! trace_format := read_trace_format trace_format_element in
      if has_id (Ink.format_id trace_format)
      then update_definitions (add_trace_format (Ink.format_id trace_format)
                                                trace_format)
      else ret tt) (Xml.findall element (Inkml.inkml "traceFormat")) in
  for_elements (fun timestamp_element =>
    let! timestamp := read_timestamp timestamp_element in
    match timestamp with
    | None => ret tt
    | Some timestamp =>
        update_definitions (add_timestamp (RT.timestamp_envelope_id timestamp)
                                          timestamp)
    end) (Xml.findall element (Inkml.inkml "timestamp")).

(** "Find and store all <context> elements within definitions", for one
    [definitions] element: a context without an id is skipped. *)
Definition read_definitions_contexts (element : Xml.Element) : M unit :=
  for_elements (fun context_element =>
    let! context := read_context context_element in
    if has_id (RT.context_envelope_id context)
    then update_definitions (add_context (RT.context_envelope_id context) context)
    else ret tt) (Xml.findall element (Inkml.inkml "context")).

(** "Find and store all <context> elements outside of definitions": the
    context is stored when [len(context.id) == 0]. *)
Definition read_root_contexts (root : Xml.Element) : M unit :=
  for_elements (fun context_element =>
    let! context := read_context context_element in
    if (String.length (RT.context_envelope_id context) =? 0)%nat
    then update_definitions (add_context (RT.context_envelope_id context) context)
    else ret tt) (Xml.findall root (Inkml.inkml "context")).

(** "Keep track of data items which are specified inside contexts and
    have an ID", for one context. *)
Definition keep_nested (context : RT.ContextEnvelope) (d : RT.Definitions)
  : RT.Definitions :=
  let d1 :=
    match RT.ink_source_or_ref context with
    | inl s =>
        if has_id (Ink.source_id s)
           && negb (bool_decide (is_Some (RT.ink_sources d !! Ink.source_id s)))
        then add_ink_source (Ink.source_id s) s d else d
    | inr _ => d
    end in
  let d2 :=
    match RT.trace_format_or_ref context with
    | inl f =>
        if has_id (Ink.format_id f)
           && negb (bool_decide (is_Some (RT.trace_formats d1 !! Ink.format_id f)))
        then add_trace_format (Ink.format_id f) f d1 else d1
    | inr _ => d1
    end in
  let d3 :=
    match RT.brush_or_ref context with
    | inl b =>
        if has_id (RT.brush_envelope_id b)
           && negb (bool_decide (is_Some (RT.brushes d2 !! RT.brush_envelope_id b)))
        then add_brush (RT.brush_envelope_id b) b d2 else d2
    | inr _ => d2
    end in
  match RT.timestamp_or_ref context with
  | inl t =>
      if has_id (RT.timestamp_envelope_id t)
         && negb (bool_decide (is_Some (RT.timestamps d3 !! RT.timestamp_envelope_id t)))
      then add_timestamp (RT.timestamp_envelope_id t) t d3 else d3
  | inr _ => d3
  end.

(** [Reader.read_definitions] *)
Definition read_definitions (root : Xml.Element) : M RT.Definitions :=
  let definitions_elements := Xml.findall root (Inkml.inkml "definitions") in
  let! _ := put_definitions RT.new_definitions in
  let! _ := for_elements read_definitions_items definitions_elements in
  let! _ := for_elements read_definitions_contexts definitions_elements in
  let! _ := read_root_contexts root in
  let! _ :=
    update_definitions (fun d =>
      foldl (fun d context => keep_nested context d) d (Dict.values (RT.contexts d))) in
  let! _ :=
    for_elements (fun element => let! _ := read_traces element None in ret tt)
                 definitions_elements in
  get_definitions.

End Reader.

End Reading.

(* ===================================================================== *)
(** ** The specification's wording, for comparison with the code *)
(* ===================================================================== *)

Module Spec.
Import PyStr PyNum Reading.

(** *** Effective trace format (spec 4.9) *)

(** The parent chain of a context, the context itself first. *)
Fixpoint parent_chain (ctx : Ink.Context) : list Ink.Context :=
  ctx :: match Ink.context_parent ctx with
         | Some parent => parent_chain parent
         | None => []
         end.

(** The first non-null [field] along a chain. *)
Definition first_non_null {A B : Type} (field : A -> option B) (chain : list A)
  : option B :=
  head (omap field chain).

Definition effective_trace_format (trace : Ink.Trace) (ambient : option Ink.Context)
  : Ink.TraceFormat :=
  match Ink.context trace, ambient with
  | Some chosen, _ | None, Some chosen =>
      match first_non_null Ink.context_trace_format (parent_chain chosen) with
      | Some trace_format => trace_format
      | None =>
          match first_non_null Ink.context_ink_source (parent_chain chosen) with
          | Some ink_source => Ink.source_trace_format ink_source
          | None => Ink.get_default_trace_format
          end
      end
  | None, None => Ink.get_default_trace_format
  end.

(** *** The token grammar (spec 4.4) *)

(** "an optional exponent consisting of e or E, an optional sign, and one
    or more digits" *)
Definition exponent_grammar : regex :=
  Opt (Seq (Class is_e) (Seq (Opt (Class is_sign)) (Plus is_digit))).

Definition number_grammar : regex :=
  Seq (Opt (Class is_marker))
      (Seq (Star is_space)
           (Seq (Opt (Class is_minus))
                (Seq (Star is_space) (Seq decimal_expr exponent_grammar)))).

Definition token_grammar : regex :=
  Alt (Alt number_grammar hex_expr) (Class is_literal).

(** The tokens of a point according to the stated grammar. *)
Definition grammar_tokens (point : string) : list string :=
  findall token_grammar point.

(** *** Numeric tokens (spec 4.5) *)

(** The explicit marker of a token, if it has one. *)
Definition marker_of (token : string) : option RT.DifferenceOrder :=
  match token with
  | String c _ =>
      if Ascii.eqb c "!"%char then Some RT.Explicit
      else if Ascii.eqb c "'"%char then Some RT.Difference
      else if Ascii.eqb c "034"%char then Some RT.SecondDifference
      else None
  | EmptyString => None
  end.

(** "the explicit marker if present, otherwise the channel's
    current_difference_order" *)
Definition effective_order (channel : RT.RegularChannel) (token : string)
  : RT.DifferenceOrder :=
  default (RT.difference_order channel) (marker_of token).

(** "detect leading -, parse the remainder as hex (if leading #) or
    decimal float, apply sign" *)
Definition signed_number (body : string) : option num :=
  match body with
  | EmptyString => None
  | String c rest =>
      let negative := Ascii.eqb c "-"%char in
      match (if negative then strip rest else body) with
      | EmptyString => None
      | String d hex as digits =>
          option_map (fun n => if negative then negate n else n)
                     (if Ascii.eqb d "#"%char
                      then option_map PyInt (int_of_hex hex)
                      else option_map PyFloat (float_of_string digits))
      end
  end.

(** "Strip the marker, strip whitespace", then the signed number: the
    number a numeric token of a regular channel stands for. *)
Definition numeric_value (token : string) : option num :=
  signed_number
    (strip match marker_of token with
           | Some _ => tail token
           | None => token
           end).

(** The value kept for a channel of type [channel_type] when the decoded
    number is [x]: rounded for an integer channel, [x] itself otherwise. *)
Definition rounded (channel_type : Ink.ChannelType) (x v : num) : Prop :=
  match channel_type with
  | Ink.Integer => round x = Return v
  | _ => v = x
  end.

Definition not_a_number : num := PyFloat PrimFloat.nan.

(** The three difference orders: [decodes channel n order channel'] when
    the number [n], decoded under [order], takes [channel] to [channel']. *)
Inductive decodes (channel : RT.RegularChannel) (n : num)
  : RT.DifferenceOrder -> RT.RegularChannel -> Prop :=
| decodes_explicit (v : num) :
    rounded (RT.type channel) n v ->
    decodes channel n RT.Explicit
      {| RT.name := RT.name channel; RT.type := RT.type channel;
         RT.values := RT.values channel ++ [v];
         RT.difference_order := RT.Explicit;
         RT.last_difference := not_a_number |}
| decodes_difference (previous sum v : num) :
    last (RT.values channel) = Some previous ->
    add previous n = Return sum ->
    rounded (RT.type channel) sum v ->
    decodes channel n RT.Difference
      {| RT.name := RT.name channel; RT.type := RT.type channel;
         RT.values := RT.values channel ++ [v];
         RT.difference_order := RT.Difference;
         RT.last_difference := n |}
| decodes_second_difference (previous sum1 sum v carry : num) :
    isnan (RT.last_difference channel) = Return false ->
    last (RT.values channel) = Some previous ->
    add previous (RT.last_difference channel) = Return sum1 ->
    add sum1 n = Return sum ->
    rounded (RT.type channel) sum v ->
    add (RT.last_difference channel) n = Return carry ->
    decodes channel n RT.SecondDifference
      {| RT.name := RT.name channel; RT.type := RT.type channel;
         RT.values := RT.values channel ++ [v];
         RT.difference_order := RT.SecondDifference;
         RT.last_difference := carry |}.

(** The number decoded under [order] before any rounding. *)
Definition unrounded (channel : RT.RegularChannel) (order : RT.DifferenceOrder)
    (n : num) : py num :=
  match order with
  | RT.Explicit => Return n
  | RT.Difference =>
      py_bind (last_value (RT.values channel)) (fun previous => add previous n)
  | RT.SecondDifference =>
      py_bind (last_value (RT.values channel)) (fun previous =>
        py_bind (add previous (RT.last_difference channel)) (fun sum1 => add sum1 n))
  end.

(** *** Streams of one channel (spec 8, property 4) *)

(** The tokens one regular channel receives, point after point: channel
    [j] takes token [j] of every point. *)
Fixpoint decode_column (j : nat) (channel : RT.RegularChannel) (tokens : list string)
  : decode RT.RegularChannel :=
  match tokens with
  | [] => Decoded channel
  | token :: rest =>
      let* channel' := regular_token j token channel in
      decode_column j channel' rest
  end.

(** [x0 + d1, x0 + d1 + d2, ...], summed from the left in the decoder's
    arithmetic. *)
Fixpoint running_sums (x : num) (ds : list num) : py (list num) :=
  match ds with
  | [] => Return []
  | d :: rest =>
      py_bind (add x d) (fun sum =>
        py_bind (running_sums sum rest) (fun sums => Return (sum :: sums)))
  end.

(** The differences [ds] added one after the other to the value last
    kept, [previous]: the sums before rounding and the values kept. *)
Fixpoint accumulate (channel_type : Ink.ChannelType) (previous : num) (ds : list num)
  : py (list num * list num) :=
  match ds with
  | [] => Return ([], [])
  | d :: rest =>
      py_bind (add previous d) (fun sum =>
        py_bind (round_for channel_type sum) (fun v =>
          py_bind (accumulate channel_type v rest) (fun '(sums, kept) =>
            Return (sum :: sums, v :: kept))))
  end.

(** A token without marker that reads as [x]. *)
Definition plain_token (token : string) (x : num) : Prop :=
  marker_of token = None /\ numeric_value token = Some x.

(** A token with the first-difference marker that reads as [d]. *)
Definition difference_token (token : string) (d : num) : Prop :=
  marker_of token = Some RT.Difference /\ numeric_value token = Some d.

(** *** The cardinality check (spec 4.4) *)

(** A point with fewer tokens than regular channels, or more tokens than
    regular and intermittent channels together. *)
Definition wrong_token_count (regular intermittent : nat) (point : string) : Prop :=
  length (tokenize (strip point)) < regular
  \/ regular + intermittent < length (tokenize (strip point)).

Definition wrong_point (trace_format : Ink.TraceFormat) (point : string) : Prop :=
  wrong_token_count (length (Ink.regular_channels trace_format))
                    (length (Ink.intermittent_channels trace_format)) point.

(** The context a [trace] element names with [contextRef], as the
    definitions [d] resolve it. *)
Definition referenced_context (assume_local_refs : bool) (d : RT.Definitions)
    (element : Xml.Element) : option Ink.Context :=
  match Xml.get element "contextRef" with
  | Some ref =>
      if Ids.is_local_id ref || assume_local_refs
      then context_table d (Ids.to_local_id ref)
      else None
  | None => None
  end.

(** The trace format in force for a [trace] element read under the
    ambient context [ambient]. *)
Definition trace_format_for (assume_local_refs : bool) (d : RT.Definitions)
    (element : Xml.Element) (ambient : option Ink.Context) : Ink.TraceFormat :=
  match or_else (referenced_context assume_local_refs d element) ambient with
  | None => Ink.get_default_trace_format
  | Some chosen =>
      match first_non_null Ink.context_trace_format (parent_chain chosen) with
      | Some trace_format => trace_format
      | None =>
          match first_non_null Ink.context_ink_source (parent_chain chosen) with
          | Some ink_source => Ink.source_trace_format ink_source
          | None => Ink.get_default_trace_format
          end
      end
  end.

(** A reference attribute that does not make the reader give the
    element up: absent, external (a warning only), or found. *)
Definition reference_found {A : Type} (assume_local_refs : bool)
    (table : string -> option A) (ref : option string) : bool :=
  match ref with
  | None => true
  | Some r =>
      if Ids.is_local_id r || assume_local_refs
      then bool_decide (is_Some (table (Ids.to_local_id r)))
      else true
  end.

(** The prior trace of a continuation [middle] or [end] is named and found. *)
Definition prior_found (assume_local_refs : bool) (d : RT.Definitions)
    (element : Xml.Element) : bool :=
  match Xml.get element "continuation" with
  | Some c =>
      if String.eqb c "middle" || String.eqb c "end" then
        match non_empty (Xml.get element "priorRef") with
        | Some prior_ref =>
            (Ids.is_local_id prior_ref || assume_local_refs)
            && bool_decide (is_Some (RT.traces d !! Ids.to_local_id prior_ref))
        | None => false
        end
      else true
  | None => true
  end.

(** The references of a [trace] element resolve in the definitions [d]. *)
Definition references_resolve (assume_local_refs : bool) (d : RT.Definitions)
    (element : Xml.Element) : bool :=
  reference_found assume_local_refs (context_table d) (Xml.get element "contextRef")
  && reference_found assume_local_refs (brush_table d) (Xml.get element "brushRef")
  && prior_found assume_local_refs d element.

(** *** Rounding (spec 4.5) *)

(** The rational a finite binary64 stands for: [(-1)^s * m * 2^e]. *)
Definition exact_float (x : spec_float) : option Q :=
  match x with
  | S754_zero _ => Some (inject_Z 0)
  | S754_finite s m e =>
      let n := cond_Zopp s (Zpos m) in
      Some (if (0 <=? e)%Z then inject_Z (n * 2 ^ e)
            else Qmake n (Z.to_pos (2 ^ (- e))))
  | S754_infinity _ | S754_nan => None
  end.

(** The rational a number stands for; an infinity and NaN have none. *)
Definition exact (a : num) : option Q :=
  match a with
  | PyInt z => Some (inject_Z z)
  | PyFloat f => exact_float (Prim2SF f)
  end.

(** [z] is an integer nearest to [q], and the even one when [q] lies
    halfway between two integers. *)
Definition nearest_ties_even (q : Q) (z : Z) : Prop :=
  Qle (Qabs (q - inject_Z z)) (Qmake 1 2)
  /\ (Qeq (Qabs (q - inject_Z z)) (Qmake 1 2) -> Z.even z = true).

(** "exact halves rounded away from zero" *)
Definition round_half_away (q : Q) : Z :=
  (Z.sgn (Qnum q) * Qfloor (Qabs q + Qmake 1 2))%Z.

End Spec.

(* ===================================================================== *)
(** ** The specification's wording on brush references (spec 4.7) *)
(* ===================================================================== *)

Module SpecReferences.
Import References.

(** Every brush is registered under its own id, as [read_definitions]
    registers it ([definitions.brushes[brush.id] = brush]). *)
Definition registered_by_id (brushes : gmap string RT.BrushEnvelope) : Prop :=
  map_Forall (fun key envelope => RT.brush_envelope_id envelope = key) brushes.

(** No brush has a parent yet, as [read_brush] returns it. *)
Definition unlinked (brushes : gmap string RT.BrushEnvelope) : Prop :=
  map_Forall (fun _ envelope => Ink.brush_parent (RT.brush envelope) = None) brushes.

(** The id a parent reference names. *)
Definition parent_id (envelope : RT.BrushEnvelope) : string :=
  Ids.to_local_id (RT.brush_parent_ref envelope).

(** A brush whose parent reference resolves: it is empty or
    [#DefaultBrush], or it names a brush whose own reference resolves. *)
Inductive resolvable (brushes : gmap string RT.BrushEnvelope) : string -> Prop :=
| resolvable_terminal (id : string) (envelope : RT.BrushEnvelope) :
    brushes !! id = Some envelope ->
    is_terminal envelope = true ->
    resolvable brushes id
| resolvable_parent (id : string) (envelope : RT.BrushEnvelope) :
    brushes !! id = Some envelope ->
    is_terminal envelope = false ->
    resolvable brushes (parent_id envelope) ->
    resolvable brushes id.

(** The parent chain of a brush ends after [n] links, inside the table. *)
Inductive chain_ends (brushes : gmap string RT.BrushEnvelope) : nat -> string -> Prop :=
| chain_root (id : string) (envelope : RT.BrushEnvelope) :
    brushes !! id = Some envelope ->
    Ink.brush_parent (RT.brush envelope) = None ->
    chain_ends brushes 0 id
| chain_link (n : nat) (id : string) (envelope : RT.BrushEnvelope) (parent : string) :
    brushes !! id = Some envelope ->
    Ink.brush_parent (RT.brush envelope) = Some parent ->
    chain_ends brushes n parent ->
    chain_ends brushes (S n) id.

(** A brush once its reference is resolved: linked to the brush it
    names, or left as it is when it names none. *)
Definition linked (envelope : RT.BrushEnvelope) : RT.BrushEnvelope :=
  if is_terminal envelope then envelope else set_parent envelope (parent_id envelope).

(** The chain of parent references of a brush leads into the set [ids]. *)
Inductive leads_into (brushes : gmap string RT.BrushEnvelope) (ids : gset string)
  : string -> Prop :=
| leads_here (id : string) : id ∈ ids -> leads_into brushes ids id
| leads_on (id : string) (envelope : RT.BrushEnvelope) :
    brushes !! id = Some envelope ->
    is_terminal envelope = false ->
    leads_into brushes ids (parent_id envelope) ->
    leads_into brushes ids id.

(** [ancestor brushes id a]: [a] is on the parent chain of [id], one
    link or more away. *)
Inductive ancestor (brushes : gmap string RT.BrushEnvelope) : string -> string -> Prop :=
| ancestor_parent (id : string) (envelope : RT.BrushEnvelope) (parent : string) :
    brushes !! id = Some envelope ->
    Ink.brush_parent (RT.brush envelope) = Some parent ->
    ancestor brushes id parent
| ancestor_further (id : string) (envelope : RT.BrushEnvelope) (parent a : string) :
    brushes !! id = Some envelope ->
    Ink.brush_parent (RT.brush envelope) = Some parent ->
    ancestor brushes parent a ->
    ancestor brushes id a.

(** A brush of the table [brushes] that the table [brushes'] has not. *)
Definition removed (brushes brushes' : gmap string RT.BrushEnvelope) (id : string)
  : Prop :=
  is_Some (brushes !! id) /\ brushes' !! id = None.

End SpecReferences.

(* ===================================================================== *)
(** ** Concrete inputs used by the witnesses and counterexamples *)
(* ===================================================================== *)

Module Examples.
Import PyNum Reading.

(** A trace format with the single regular channel X of the given type. *)
Definition one_channel (channel_type : Ink.ChannelType) : Ink.TraceFormat :=
  {| Ink.format_id := "";
     Ink.regular_channels :=
       [{| Ink.channel_id := ""; Ink.channel_name := "X";
           Ink.channel_type := channel_type;
           Ink.channel_default := inl (PyInt 0); Ink.channel_min := None;
           Ink.channel_max := None; Ink.channel_orientation := Ink.Positive;
           Ink.channel_respect_to := ""; Ink.channel_units := "";
           Ink.channel_properties := ∅; Ink.channel_respectTo := None |}];
     Ink.intermittent_channels := [] |}.

(** The token [1000...0] with 309 zeros, behind a first-difference
    marker: its value is beyond the binary64 range. *)
Definition huge_difference : string :=
  String "'" (String "1" (string_of_list_ascii (repeat "0"%char 309))).

(** A zero behind the second-difference marker (the double quote). *)
Definition second_zero : string := String "034" "0".

(** The channel X after the body [0, '1000...0]. *)
Definition overflown_channel : RT.RegularChannel :=
  {| RT.name := "X"; RT.type := Ink.Decimal;
     RT.values := [PyFloat 0; PyFloat PrimFloat.infinity];
     RT.difference_order := RT.Difference;
     RT.last_difference := PyFloat PrimFloat.infinity |}.

(** The channel X after the token [10]. *)
Definition channel_at_ten : RT.RegularChannel :=
  {| RT.name := "X"; RT.type := Ink.Decimal; RT.values := [PyFloat 10];
     RT.difference_order := RT.Explicit;
     RT.last_difference := PyFloat PrimFloat.nan |}.

(** An element of the InkML namespace without tail. *)
Definition element (name : string) (attributes : list (string * string))
    (text : option string) (children : list Xml.Element) : Xml.Element :=
  {| Xml.tag := Inkml.inkml name; Xml.attrib := list_to_map attributes;
     Xml.text := text; Xml.tail := None; Xml.children := children |}.

(** The state in which [Reader.read] starts. *)
Definition initial : State :=
  {| definitions := RT.new_definitions; heap := []; log := [] |}.


(** [<ink><trace contextRef="#missing"/></ink>] *)
Definition dangling_trace_document : Xml.Element :=
  element "ink" [] None [element "trace" [("contextRef", "#missing")] None []].

(** [<ink><trace/><trace>1 2</trace></ink>] *)
Definition empty_trace_document : Xml.Element :=
  element "ink" [] None
          [element "trace" [] None []; element "trace" [] (Some "1 2") []].

(** An element with the attribute [xml:id]. *)
Definition identified (name id : string) (attributes : list (string * string))
    (children : list Xml.Element) : Xml.Element :=
  {| Xml.tag := Inkml.inkml name;
     Xml.attrib := <[Inkml.ID := id]> (list_to_map attributes);
     Xml.text := None; Xml.tail := None; Xml.children := children |}.

(** [<ink><context xml:id="c1"/><context/></ink>] *)
Definition top_level_contexts_document : Xml.Element :=
  element "ink" [] None [identified "context" "c1" [] []; element "context" [] None []].

(** [<traceFormat><channel name="X"/></traceFormat>] *)
Definition format_x : Xml.Element :=
  element "traceFormat" [] None [element "channel" [("name", "X")] None []].

(** [<inkSource xml:id="s"> <traceFormat>...</traceFormat>
      <channelProperties>
        <channelProperty channel="X" name="resolution" value="5"/>
      </channelProperties> </inkSource>] *)
Definition source_with_channel_property : Xml.Element :=
  identified "inkSource" "s" []
    [format_x;
     element "channelProperties" [] None
       [element "channelProperty"
                [("channel", "X"); ("name", "resolution"); ("value", "5")] None []]].

(** The same ink source with two [channelProperty] children, the first
    of which has children of its own. *)
Definition source_with_nested_channel_property : Xml.Element :=
  identified "inkSource" "s" []
    [format_x;
     element "channelProperties" [] None
       [element "channelProperty"
                [("channel", "X"); ("name", "resolution"); ("value", "5")] None
                [element "channelProperty"
                         [("channel", "X"); ("name", "inner"); ("value", "1")] None []];
        element "channelProperty"
                [("channel", "X"); ("name", "noise"); ("value", "2")] None []]].

(** [<inkSource xml:id="s"> <traceFormat>...</traceFormat>
      <channelProperties/> </inkSource>] *)
Definition source_with_empty_wrapper : Xml.Element :=
  identified "inkSource" "s" []
    [format_x; element "channelProperties" [] None []].


(** The definitions whose only entry is a context without references,
    in the slot of the empty id. *)
Definition empty_slot_only : RT.Definitions :=
  {| RT.contexts :=
       [("", {| RT.context := Ink.new_context; RT.context_parent_ref := "";
                RT.ink_source_or_ref := inr ""; RT.trace_format_or_ref := inr "";
                RT.brush_or_ref := inr ""; RT.timestamp_or_ref := inr "" |})];
     RT.brushes := ∅; RT.ink_sources := ∅; RT.trace_formats := ∅;
     RT.timestamps := ∅; RT.traces := ∅; RT.trace_groups := ∅;
     RT.trace_views := ∅ |}.

(** The ink source [s] that has nothing but a trace format. *)
Definition source_x (trace_format : Ink.TraceFormat) : Ink.InkSource :=
  {| Ink.source_id := "s"; Ink.source_trace_format := trace_format;
     Ink.source_sample_rate := None; Ink.source_latency := None;
     Ink.source_active_area := None; Ink.source_manufacturer := None;
     Ink.source_model := None; Ink.source_serial_no := None;
     Ink.source_specification_ref := None; Ink.source_description := None;
     Ink.source_properties := ∅; Ink.source_sampleRate := None;
     Ink.source_activeArea := None; Ink.source_serialNo := None;
     Ink.source_specificationRef := None |}.

(** The object a reader returned, if it returned one. *)
Definition returned {A : Type} (r : py (option A * State)) : option A :=
  match r with
  | Return (a, _) => a
  | Raise _ => None
  end.

(** [<brush xml:id=id brushRef=ref/>] as [read_brush] returns it. *)
Definition brush_with (id ref : string) : RT.BrushEnvelope :=
  {| RT.brush := {| Ink.brush_id := id; Ink.brush_parent := None;
                    Ink.brush_properties := ∅; Ink.brush_annotations := [] |};
     RT.brush_parent_ref := ref |}.

(** The same brush with its parent set. *)
Definition brush_under (id ref parent : string) : RT.BrushEnvelope :=
  {| RT.brush := {| Ink.brush_id := id; Ink.brush_parent := Some parent;
                    Ink.brush_properties := ∅; Ink.brush_annotations := [] |};
     RT.brush_parent_ref := ref |}.

(** The brushes [a], [b] under [a], and [d] under [a]. *)
Definition chained_brushes : gmap string RT.BrushEnvelope :=
  <["a" := brush_with "a" ""]>
    (<["b" := brush_with "b" "#a"]> (<["d" := brush_with "d" "#a"]> ∅)).

(** The same brushes once [a] refers to [b]: [a] and [b] are a cycle,
    and [d] is as it was. *)
Definition cyclic_brushes : gmap string RT.BrushEnvelope :=
  <["a" := brush_with "a" "#b"]> chained_brushes.

(** A channel of the given name and type, with the defaults of [Ink.Channel]. *)
Definition channel_named (name : string) (channel_type : Ink.ChannelType)
  : Ink.Channel :=
  {| Ink.channel_id := ""; Ink.channel_name := name;
     Ink.channel_type := channel_type;
     Ink.channel_default := inl (PyInt 0); Ink.channel_min := None;
     Ink.channel_max := None; Ink.channel_orientation := Ink.Positive;
     Ink.channel_respect_to := ""; Ink.channel_units := "";
     Ink.channel_properties := ∅; Ink.channel_respectTo := None |}.

(** The regular channel X (decimal) and the intermittent channel F (boolean). *)
Definition button_format : Ink.TraceFormat :=
  {| Ink.format_id := ""; Ink.regular_channels := [channel_named "X" Ink.Decimal];
     Ink.intermittent_channels := [channel_named "F" Ink.Boolean] |}.

(** Three points: the button is given at the first, left out at the
    second and repeated at the third. *)
Definition button_body : string := "1 T, 2 ?, 3 *".

(** What [button_body] decodes into. *)
Definition button_channels : Channels :=
  ([{| RT.name := "X"; RT.type := Ink.Decimal;
       RT.values := [PyFloat 1; PyFloat 2; PyFloat 3];
       RT.difference_order := RT.Explicit;
       RT.last_difference := PyFloat PrimFloat.nan |}],
   [{| RT.intermittent_name := "F"; RT.intermittent_type := Ink.Boolean;
       RT.index_values := [Ink.mkIndexValue 0 (PyInt 1); Ink.mkIndexValue 2 (PyInt 1)] |}]).

(** The token [1000...0] with 309 zeros: a number beyond the binary64 range. *)
Definition huge_number : string :=
  String "1" (string_of_list_ascii (repeat "0"%char 309)).

(** [<ink><trace xml:id="t"/><traceView xml:id="v" traceDataRef="#t"/></ink>] *)
Definition viewed_document : Xml.Element :=
  element "ink" [] None
          [identified "trace" "t" [] [];
           identified "traceView" "v" [("traceDataRef", "#t")] []].

(** The state once the traces of [viewed_document] are read: the trace
    is registered, the view is not. *)
Definition viewed_state : State :=
  {| definitions :=
       {| RT.contexts := []; RT.brushes := ∅; RT.ink_sources := ∅;
          RT.trace_formats := ∅; RT.timestamps := ∅;
          RT.traces := {["t" := 0]}; RT.trace_groups := ∅; RT.trace_views := ∅ |};
     heap := [{| Ink.trace_id := "t"; Ink.channels := ∅;
                 Ink.trace_intermittent_channels := ∅;
                 Ink.continuation := Ink.ContinuationNo; Ink.next := None;
                 Ink.context := None; Ink.brush := None; Ink.duration := None;
                 Ink.time_offset := None; Ink.type := Ink.PenDown |}];
     log := [] |}.

(** [<ink><definitions><brush xml:id="a"/><brush xml:id="b" brushRef="#a"/>
    </definitions></ink>] *)
Definition brush_document : Xml.Element :=
  element "ink" [] None
          [element "definitions" [] None
                   [identified "brush" "a" [] [];
                    identified "brush" "b" [("brushRef", "#a")] []]].

(** The definitions read from [brush_document]. *)
Definition brush_definitions : RT.Definitions :=
  {| RT.contexts := [];
     RT.brushes := <["a" := brush_with "a" ""]> (<["b" := brush_with "b" "#a"]> ∅);
     RT.ink_sources := ∅; RT.trace_formats := ∅; RT.timestamps := ∅;
     RT.traces := ∅; RT.trace_groups := ∅; RT.trace_views := ∅ |}.

(** [<trace continuation="end" priorRef="#t">1</trace>]: a continuation
    of the trace [t] whose body has one token for the two channels of
    the default format. *)
Definition broken_continuation : Xml.Element :=
  element "trace" [("continuation", "end"); ("priorRef", "#t")] (Some "1") [].

(** [viewed_state] once [broken_continuation] is read: the new trace is
    given up, and the trace [t] points to it. *)
Definition continued_state : State :=
  {| definitions := definitions viewed_state;
     heap := [{| Ink.trace_id := "t"; Ink.channels := ∅;
                 Ink.trace_intermittent_channels := ∅;
                 Ink.continuation := Ink.ContinuationNo; Ink.next := Some 1;
                 Ink.context := None; Ink.brush := None; Ink.duration := None;
                 Ink.time_offset := None; Ink.type := Ink.PenDown |};
              {| Ink.trace_id := ""; Ink.channels := ∅;
                 Ink.trace_intermittent_channels := ∅;
                 Ink.continuation := Ink.ContinuationEnd; Ink.next := None;
                 Ink.context := None; Ink.brush := None; Ink.duration := None;
                 Ink.time_offset := None; Ink.type := Ink.PenDown |}];
     log := [WrongTokenCount 2 2 1 "1"; CouldNotParseTraceContent] |}.

(** A timestamp as it is read, with the given parent reference. *)
Definition timestamp_with (id ref : string) (time_string : option string)
  : RT.TimestampEnvelope :=
  {| RT.timestamp :=
       {| Ink.timestamp_id := id; Ink.timestamp_parent := None;
          Ink.timestamp_time := None; Ink.timestamp_time_string := "";
          Ink.timestamp_time_offset := 0; Ink.timestamp_timeString := time_string;
          Ink.timestamp_timeOffset := None |};
     RT.timestamp_parent_ref := ref |}.

(** The timestamps [a], [b] after [a], and [c] after a timestamp that is
    not there. *)
Definition chained_timestamps : gmap string RT.TimestampEnvelope :=
  <["a" := timestamp_with "a" "" (Some "noon")]>
    (<["b" := timestamp_with "b" "#a" None]>
       (<["c" := timestamp_with "c" "#missing" None]> ∅)).

(** [<ink><definitions><timestamp xml:id="a" timeString="noon"/>
    <timestamp xml:id="b" timestampRef="#a"/></definitions></ink>] *)
Definition timestamp_document : Xml.Element :=
  element "ink" [] None
          [element "definitions" [] None
                   [identified "timestamp" "a" [("timeString", "noon")] [];
                    identified "timestamp" "b" [("timestampRef", "#a")] []]].

(** The definitions read from [timestamp_document]. *)
Definition timestamp_definitions : RT.Definitions :=
  {| RT.contexts := []; RT.brushes := ∅; RT.ink_sources := ∅;
     RT.trace_formats := ∅;
     RT.timestamps := <["a" := timestamp_with "a" "" (Some "noon")]>
                        (<["b" := timestamp_with "b" "#a" None]> ∅);
     RT.traces := ∅; RT.trace_groups := ∅; RT.trace_views := ∅ |}.

(** [<ink><definitions><context xml:id="c"><traceFormat><channel name="P"/>
    </traceFormat></context><trace contextRef="#c">1 2</trace></definitions>
    </ink>]: a trace whose context declares the one channel P. *)
Definition pressure_document : Xml.Element :=
  element "ink" [] None
          [element "definitions" [] None
                   [identified "context" "c" []
                               [element "traceFormat" [] None
                                        [element "channel" [("name", "P")] None []]];
                    element "trace" [("contextRef", "#c")] (Some "1 2") []]].

(** The context [c] of [pressure_document] as it is read. *)
Definition pressure_context : Ink.Context :=
  {| Ink.context_id := "c"; Ink.context_parent := None;
     Ink.context_ink_source := None; Ink.context_trace_format := None;
     Ink.context_brush := None; Ink.context_timestamp := None |}.

(** The trace of [pressure_document] as it is read: the two numbers of
    its body are the samples of X and of Y. *)
Definition pressure_trace : Ink.Trace :=
  {| Ink.trace_id := "";
     Ink.channels := <["X" := [PyFloat 1]]> (<["Y" := [PyFloat 2]]> ∅);
     Ink.trace_intermittent_channels := ∅;
     Ink.continuation := Ink.ContinuationNo; Ink.next := None;
     Ink.context := Some pressure_context; Ink.brush := None;
     Ink.duration := None; Ink.time_offset := None; Ink.type := Ink.PenDown |}.

(** The state once the definitions of [pressure_document] are read. *)
Definition pressure_state : State :=
  {| definitions :=
       {| RT.contexts :=
            [("c", {| RT.context := pressure_context;
                      RT.context_parent_ref := "";
                      RT.ink_source_or_ref := inr "";
                      RT.trace_format_or_ref :=
                        inl {| Ink.format_id := "";
                               Ink.regular_channels := [channel_named "P" Ink.Decimal];
                               Ink.intermittent_channels := [] |};
                      RT.brush_or_ref := inr "";
                      RT.timestamp_or_ref := inr "" |})];
          RT.brushes := ∅; RT.ink_sources := ∅; RT.trace_formats := ∅;
          RT.timestamps := ∅; RT.traces := ∅; RT.trace_groups := ∅;
          RT.trace_views := ∅ |};
     heap := [pressure_trace]; log := [] |}.

(** [<annotationXML href="note.xml"/>] followed by a space. *)
Definition tailed_annotation : Xml.Element :=
  {| Xml.tag := Inkml.ANNOTATION_XML; Xml.attrib := {["href" := "note.xml"]};
     Xml.text := None; Xml.tail := Some " "; Xml.children := [] |}.

(** A trace object with the samples [x] and [y] of the channels X and Y. *)
Definition sampled_trace (id : string) (continuation : Ink.TraceContinuation)
    (next : option Ink.loc) (x y : float) : Ink.Trace :=
  {| Ink.trace_id := id;
     Ink.channels := <["X" := [PyFloat x]]> (<["Y" := [PyFloat y]]> ∅);
     Ink.trace_intermittent_channels := ∅;
     Ink.continuation := continuation; Ink.next := next;
     Ink.context := None; Ink.brush := None; Ink.duration := None;
     Ink.time_offset := None; Ink.type := Ink.PenDown |}.

(** A state in the middle of a document: the trace [t] is read and
    registered, and one warning is logged. *)
Definition sampled_state : State :=
  {| definitions :=
       {| RT.contexts := []; RT.brushes := ∅; RT.ink_sources := ∅;
          RT.trace_formats := ∅; RT.timestamps := ∅;
          RT.traces := {["t" := 0]}; RT.trace_groups := ∅; RT.trace_views := ∅ |};
     heap := [sampled_trace "t" Ink.ContinuationBegin None 1 2];
     log := [CouldNotRead "trace"] |}.

(** [<ink><trace continuation="end" priorRef="#t">3 4</trace>
    <trace>1</trace></ink>]: a continuation of [t], and a trace with one
    token for two channels. *)
Definition continuing_document : Xml.Element :=
  element "ink" [] None
          [element "trace" [("continuation", "end"); ("priorRef", "#t")]
                   (Some "3 4") [];
           element "trace" [] (Some "1") []].

(** [sampled_state] once the traces of [continuing_document] are read. *)
Definition continued_sampled_state : State :=
  {| definitions := definitions sampled_state;
     heap := [sampled_trace "t" Ink.ContinuationBegin (Some 1) 1 2;
              sampled_trace "" Ink.ContinuationEnd None 3 4;
              Ink.new_trace];
     log := [CouldNotRead "trace"; WrongTokenCount 2 2 1 "1";
             CouldNotParseTraceContent; CouldNotRead "trace"] |}.

(** [<inkSource xml:id="s" serialNo="42" specificationRef="#spec">
    <traceFormat><channel name="X" respectTo="#t0"/></traceFormat>
    <sampleRate value="100"/> <activeArea width="3" height="2"/>
    </inkSource>] *)
Definition described_source_element : Xml.Element :=
  identified "inkSource" "s" [("serialNo", "42"); ("specificationRef", "#spec")]
    [element "traceFormat" [] None
             [element "channel" [("name", "X"); ("respectTo", "#t0")] None []];
     element "sampleRate" [("value", "100")] None [];
     element "activeArea" [("width", "3"); ("height", "2")] None []].

(** The ink source read from [described_source_element]. *)
Definition described_source : Ink.InkSource :=
  {| Ink.source_id := "s";
     Ink.source_trace_format :=
       {| Ink.format_id := "";
          Ink.regular_channels :=
            [{| Ink.channel_id := ""; Ink.channel_name := "X";
                Ink.channel_type := Ink.Decimal;
                Ink.channel_default := inl (PyInt 0); Ink.channel_min := None;
                Ink.channel_max := None; Ink.channel_orientation := Ink.Positive;
                Ink.channel_respect_to := ""; Ink.channel_units := "";
                Ink.channel_properties := ∅;
                Ink.channel_respectTo := Some "#t0" |}];
          Ink.intermittent_channels := [] |};
     Ink.source_sample_rate := None; Ink.source_latency := None;
     Ink.source_active_area := None; Ink.source_manufacturer := None;
     Ink.source_model := None; Ink.source_serial_no := None;
     Ink.source_specification_ref := None; Ink.source_description := None;
     Ink.source_properties := ∅;
     Ink.source_sampleRate := Some (Ink.mkSampleRate 100 true);
     Ink.source_activeArea :=
       Some {| Ink.area_width := 3; Ink.area_height := 2;
               Ink.area_units := None; Ink.area_size := None |};
     Ink.source_serialNo := Some "42";
     Ink.source_specificationRef := Some "#spec" |}.



(** [<ink><definitions><trace/></definitions></ink>] *)
Definition definitions_trace_document : Xml.Element :=
  element "ink" [] None [element "definitions" [] None [element "trace" [] None []]].

End Examples.

(* ===================================================================== *)
(** * Verification *)
(* ===================================================================== *)

(** ** The effective trace format (C2) *)

Section TraceFormatLookup.
Import Reading Spec.

(** Induction along the parent chain of a context. *)
Lemma Context_parent_ind (P : Ink.Context -> Prop) :
  (forall ctx, (forall parent, Ink.context_parent ctx = Some parent -> P parent) -> P ctx) ->
  forall ctx, P ctx.
Proof.
  intros step. fix IH 1. intros [id parent source format brush timestamp].
  apply step. cbn. intros p Hp.
  destruct parent as [q|]; [|discriminate].
  injection Hp as <-. apply IH.
Qed.

Lemma first_trace_format_chain (ctx : Ink.Context) :
  first_trace_format ctx = first_non_null Ink.context_trace_format (parent_chain ctx).
Proof.
  induction ctx as [ctx IH] using Context_parent_ind.
  destruct ctx as [id parent source format brush timestamp].
  unfold first_non_null in *. cbn in *.
  destruct format as [f|]; [reflexivity|].
  destruct parent as [p|]; [|reflexivity].
  rewrite (IH p eq_refl). reflexivity.
Qed.

Lemma first_ink_source_chain (ctx : Ink.Context) :
  first_ink_source ctx = first_non_null Ink.context_ink_source (parent_chain ctx).
Proof.
  induction ctx as [ctx IH] using Context_parent_ind.
  destruct ctx as [id parent source format brush timestamp].
  unfold first_non_null in *. cbn in *.
  destruct source as [s|]; [reflexivity|].
  destruct parent as [p|]; [|reflexivity].
  rewrite (IH p eq_refl). reflexivity.
Qed.

(** C2. [get_trace_format] takes the trace's own context, else the
    ambient one; with neither it returns the default format; otherwise
    it returns the first trace format along the parent chain, else the
    trace format of the first ink source along the same chain, else the
    default format.  The default format has the regular channels X then
    Y, both decimal, and no intermittent channel. *)
Theorem get_trace_format_effective (trace : Ink.Trace) (ambient : option Ink.Context) :
  get_trace_format trace ambient = effective_trace_format trace ambient
  /\ map (fun ch => (Ink.channel_name ch, Ink.channel_type ch))
         (Ink.regular_channels Ink.get_default_trace_format)
     = [("X", Ink.Decimal); ("Y", Ink.Decimal)]
  /\ Ink.intermittent_channels Ink.get_default_trace_format = [].
Proof.
  split; [|split; reflexivity].
  unfold get_trace_format, effective_trace_format, or_else.
  destruct (Ink.context trace) as [c|], ambient as [a|]; try reflexivity;
    rewrite first_trace_format_chain, first_ink_source_chain; reflexivity.
Qed.

End TraceFormatLookup.

(** ** The tokenizer (C6) *)

Section Tokenizer.
Import Reading Spec.

(** C6, at the input [1e10]: the exponent of [tokenize_expr] takes one
    digit only, so the number the grammar reads as one token is cut
    after [1e1] and its last digit becomes a token of its own. *)
Lemma tokenize_exponent_one_digit :
  tokenize "1e10" = ["1e1"; "0"] /\ grammar_tokens "1e10" = ["1e10"].
Proof. split; vm_compute; reflexivity. Qed.

(** The same body under the default format: three tokens for two
    channels, so a point the grammar accepts is rejected. *)
Lemma exponent_point_rejected :
  parse_trace_content "1e10 2" Ink.get_default_trace_format
  = Rejected (WrongTokenCount 2 2 3 "1e10 2")
  /\ grammar_tokens "1e10 2" = ["1e10"; " 2"].
Proof. split; vm_compute; reflexivity. Qed.

(** Below code point 256 the digits are the ten characters 0 to 9. *)
Lemma is_digit_cases (c : ascii) :
  PyStr.is_digit c = true ->
  In c ["0"; "1"; "2"; "3"; "4"; "5"; "6"; "7"; "8"; "9"]%char.
Proof.
  destruct c as [[] [] [] [] [] [] [] []]; intros H; vm_compute in H;
    try discriminate H; cbn; tauto.
Qed.

(** The same for every exponent of two digits: the token ends after the
    first of them, where the grammar takes both. *)
Lemma two_digit_exponent_split (a b : ascii) :
  PyStr.is_digit a = true ->
  PyStr.is_digit b = true ->
  tokenize (String "1" (String "e" (String a (String b ""))))
  = [String "1" (String "e" (String a "")); String b ""]
  /\ grammar_tokens (String "1" (String "e" (String a (String b ""))))
     = [String "1" (String "e" (String a (String b "")))].
Proof.
  intros Ha Hb. apply is_digit_cases in Ha, Hb. cbn in Ha, Hb.
  repeat (destruct Ha as [<-|Ha]; [|]); try contradiction;
    repeat (destruct Hb as [<-|Hb]; [|]); try contradiction;
    split; vm_compute; reflexivity.
Qed.

End Tokenizer.

(** ** Difference orders on a regular channel (C1) *)

Section DifferenceOrders.
Import PyStr PyNum Reading Spec.

Lemma round_for_rounded (channel_type : Ink.ChannelType) (x v : num) :
  round_for channel_type x = Return v <-> rounded channel_type x v.
Proof.
  destruct channel_type; cbn; split; intros H; try (inversion H; reflexivity);
    try (subst; reflexivity); assumption.
Qed.

Lemma last_value_Return (values : list num) (v : num) :
  last_value values = Return v <-> last values = Some v.
Proof.
  unfold last_value. destruct (last values); split; intros H;
    inversion H; reflexivity.
Qed.

(** [add_value] is the relation [decodes]. *)
Lemma add_value_decodes (j : nat) (token : string) (channel : RT.RegularChannel)
    (order : RT.DifferenceOrder) (n : num) (channel' : RT.RegularChannel) :
  add_value j token channel order n = Decoded channel' <-> decodes channel n order channel'.
Proof.
  destruct order; cbn.
  - (* Explicit *)
    destruct (round_for (RT.type channel) n) as [v|e] eqn:Hround; cbn.
    + apply round_for_rounded in Hround. split.
      * intros H. injection H as <-. apply decodes_explicit. exact Hround.
      * intros H. inversion H as [v' Hv| |]; subst.
        apply round_for_rounded in Hround, Hv.
        assert (v' = v) by congruence. subst. reflexivity.
    + split; [discriminate|].
      intros H. inversion H as [v' Hv| |]; subst.
      apply round_for_rounded in Hv. congruence.
  - (* Difference *)
    destruct (RT.values channel) as [|v0 vs] eqn:Hvalues.
    + split; [discriminate|].
      intros H. inversion H as [|previous sum v Hlast|]; subst.
      rewrite Hvalues in Hlast. discriminate.
    + rewrite <- Hvalues.
      destruct (last_value (RT.values channel)) as [previous|e] eqn:Hlast; cbn.
      2:{ split; [discriminate|]. intros H.
          inversion H as [|p s v9 Hl|]; subst.
          apply last_value_Return in Hl. congruence. }
      destruct (add previous n) as [sum|e] eqn:Hsum; cbn.
      2:{ split; [discriminate|]. intros H.
          inversion H as [|p s v9 Hl Ha|]; subst.
          apply last_value_Return in Hl. congruence. }
      destruct (round_for (RT.type channel) sum) as [v|e] eqn:Hround; cbn.
      2:{ split; [discriminate|]. intros H.
          inversion H as [|p s v9 Hl Ha Hr|]; subst.
          apply last_value_Return in Hl. apply round_for_rounded in Hr. congruence. }
      split.
      * intros H. injection H as <-.
        apply (decodes_difference channel n previous sum v).
        -- apply last_value_Return. exact Hlast.
        -- exact Hsum.
        -- apply round_for_rounded. exact Hround.
      * intros H. inversion H as [|p s v' Hl Ha Hr|]; subst.
        apply last_value_Return in Hl. apply round_for_rounded in Hr.
        assert (p = previous) by congruence. subst.
        assert (s = sum) by congruence. subst.
        assert (v' = v) by congruence. subst. reflexivity.
  - (* SecondDifference *)
    destruct (isnan (RT.last_difference channel)) as [[|]|e] eqn:Hnan; cbn.
    1,3: split; [discriminate|]; intros H;
         inversion H as [| |p s1 s v9 c Hn]; subst; congruence.
    destruct (last_value (RT.values channel)) as [previous|e] eqn:Hlast; cbn.
    2:{ split; [discriminate|]. intros H.
        inversion H as [| |p s1 s v9 c Hn Hl]; subst.
        apply last_value_Return in Hl. congruence. }
    destruct (add previous (RT.last_difference channel)) as [sum1|e] eqn:Hsum1; cbn.
    2:{ split; [discriminate|]. intros H.
        inversion H as [| |p s1 s v9 c Hn Hl Ha1]; subst.
        apply last_value_Return in Hl. congruence. }
    destruct (add sum1 n) as [sum|e] eqn:Hsum; cbn.
    2:{ split; [discriminate|]. intros H.
        inversion H as [| |p s1 s v9 c Hn Hl Ha1 Ha]; subst.
        apply last_value_Return in Hl. congruence. }
    destruct (round_for (RT.type channel) sum) as [v|e] eqn:Hround; cbn.
    2:{ split; [discriminate|]. intros H.
        inversion H as [| |p s1 s v9 c Hn Hl Ha1 Ha Hr]; subst.
        apply last_value_Return in Hl. apply round_for_rounded in Hr. congruence. }
    destruct (add (RT.last_difference channel) n) as [carry|e] eqn:Hcarry; cbn.
    2:{ split; [discriminate|]. intros H.
        inversion H as [| |p s1 s v9 c9 Hn Hl Ha1 Ha Hr Hc]; subst. congruence. }
    split.
    + intros H. injection H as <-.
      apply (decodes_second_difference channel n previous sum1 sum v carry);
        try assumption.
      * apply last_value_Return. exact Hlast.
      * apply round_for_rounded. exact Hround.
    + intros H. inversion H as [| |p s1 s v' c Hn Hl Ha1 Ha Hr Hc]; subst.
      apply last_value_Return in Hl. apply round_for_rounded in Hr.
      assert (p = previous) by congruence. subst.
      assert (s1 = sum1) by congruence. subst.
      assert (s = sum) by congruence. subst.
      assert (v' = v) by congruence. subst.
      assert (c = carry) by congruence. subst. reflexivity.
Qed.

Lemma numeric_value_not_wildcard (token : string) (n : num) :
  numeric_value token = Some n -> String.eqb token "*" = false.
Proof.
  intros H. destruct (String.eqb_spec token "*") as [->|]; [|reflexivity].
  vm_compute in H. discriminate.
Qed.

Lemma get_difference_order_marker (channel : RT.RegularChannel) (c : ascii)
    (rest : string) :
  get_difference_order channel (String c rest)
  = Return (effective_order channel (String c rest),
            match marker_of (String c rest) with
            | Some _ => rest
            | None => String c rest
            end).
Proof.
  unfold get_difference_order, effective_order, marker_of. cbn.
  destruct (Ascii.eqb c "!"); [reflexivity|].
  destruct (Ascii.eqb c "'"); [reflexivity|].
  destruct (Ascii.eqb c "034"); reflexivity.
Qed.

(** What the code does between the marker and the arithmetic is the
    reading [signed_number] of the text. *)
Lemma signed_number_parsed {A : Type} (body : string) (n : num)
    (reject : string -> decode A) (k : string -> num -> decode A) :
  signed_number body = Some n ->
  exists text,
    (let* (is_negative, token2) := lift (split_minus body) in
     let* parsed := lift (parse_number token2) in
     match parsed with
     | None => reject token2
     | Some m => k token2 (apply_sign is_negative m)
     end) = k text n.
Proof.
  unfold signed_number. destruct body as [|c rest]; [discriminate|].
  unfold split_minus. cbn -[strip float_of_string int_of_hex negate].
  destruct (Ascii.eqb c "-"); cbn -[strip float_of_string int_of_hex negate].
  - destruct (strip rest) as [|d hex]; [discriminate|].
    unfold parse_number. cbn -[strip float_of_string int_of_hex negate].
    destruct (Ascii.eqb d "#"); cbn -[strip float_of_string int_of_hex negate].
    + destruct (int_of_hex hex); cbn; [|discriminate].
      intros H. injection H as <-. eexists. reflexivity.
    + destruct (float_of_string (String d hex)); cbn; [|discriminate].
      intros H. injection H as <-. eexists. reflexivity.
  - unfold parse_number. cbn -[strip float_of_string int_of_hex negate].
    destruct (Ascii.eqb c "#"); cbn -[strip float_of_string int_of_hex negate].
    + destruct (int_of_hex rest); cbn; [|discriminate].
      intros H. injection H as <-. eexists. reflexivity.
    + destruct (float_of_string (String c rest)); cbn; [|discriminate].
      intros H. injection H as <-. eexists. reflexivity.
Qed.

Lemma regular_token_numeric (j : nat) (token : string) (channel : RT.RegularChannel)
    (n : num) :
  RT.type channel <> Ink.Boolean ->
  numeric_value token = Some n ->
  exists text,
    regular_token j token channel
    = add_value j text channel (effective_order channel token) n.
Proof.
  intros Htype Hnum. unfold regular_token.
  rewrite (numeric_value_not_wildcard _ _ Hnum).
  unfold numeric_value in Hnum.
  destruct token as [|c rest]; [discriminate|].
  destruct (signed_number_parsed _ n
              (fun text => Rejected (UnexpectedValue text j true))
              (fun text m => add_value j text channel
                               (effective_order channel (String c rest)) m) Hnum)
    as [text Htext].
  exists text. rewrite <- Htext.
  rewrite get_difference_order_marker.
  destruct (RT.type channel); try reflexivity. congruence.
Qed.

(** C1 (amended).  A numeric token of a non-boolean regular channel is
    decoded under the effective order: its marker when it has one, else
    the channel's current order, which is Explicit at first.  Decoding
    succeeds exactly as [decodes] says: under Explicit the number itself
    is appended and the carry becomes NaN; under Difference the previous
    value plus the number is appended and the carry becomes the number;
    under SecondDifference, the carry not being NaN, the previous value
    plus the carry plus the number is appended and the number is added
    to the carry; in each case an integer channel rounds the appended
    value, and the channel's order becomes the effective one.  A
    Difference on an empty channel and a SecondDifference on a NaN carry
    are rejected with a warning. *)
Theorem numeric_token_decodes (j : nat) (token : string)
    (channel : RT.RegularChannel) (n : num) :
  RT.type channel <> Ink.Boolean ->
  numeric_value token = Some n ->
  (forall channel',
     regular_token j token channel = Decoded channel'
     <-> decodes channel n (effective_order channel token) channel')
  /\ (forall channel',
        regular_token j token channel = Decoded channel' ->
        RT.difference_order channel' = effective_order channel token)
  /\ (effective_order channel token = RT.Difference ->
      RT.values channel = [] ->
      exists w, regular_token j token channel = Rejected w)
  /\ (effective_order channel token = RT.SecondDifference ->
      isnan (RT.last_difference channel) = Return true ->
      exists w, regular_token j token channel = Rejected w)
  /\ (forall name channel_type,
        RT.difference_order (RT.new_regular_channel name channel_type) = RT.Explicit).
Proof.
  intros Htype Hnum.
  destruct (regular_token_numeric j token channel n Htype Hnum) as [text Hstep].
  rewrite Hstep. split; [|split; [|split; [|split]]].
  - intros channel'. apply add_value_decodes.
  - intros channel' H. apply add_value_decodes in H.
    destruct H; reflexivity.
  - intros Horder Hempty. rewrite Horder. cbn. rewrite Hempty. eexists. reflexivity.
  - intros Horder Hnan. rewrite Horder. cbn. rewrite Hnan. cbn.
    eexists. reflexivity.
  - reflexivity.
Qed.

Lemma numeric_token_decodes_witness :
  (forall channel',
     regular_token 0 "'1" Examples.channel_at_ten = Decoded channel'
     <-> decodes Examples.channel_at_ten (PyFloat 1)
                 (effective_order Examples.channel_at_ten "'1") channel')
  /\ (forall channel',
        regular_token 0 "'1" Examples.channel_at_ten = Decoded channel' ->
        RT.difference_order channel' = effective_order Examples.channel_at_ten "'1")
  /\ (effective_order Examples.channel_at_ten "'1" = RT.Difference ->
      RT.values Examples.channel_at_ten = [] ->
      exists w, regular_token 0 "'1" Examples.channel_at_ten = Rejected w)
  /\ (effective_order Examples.channel_at_ten "'1" = RT.SecondDifference ->
      isnan (RT.last_difference Examples.channel_at_ten) = Return true ->
      exists w, regular_token 0 "'1" Examples.channel_at_ten = Rejected w)
  /\ (forall name channel_type,
        RT.difference_order (RT.new_regular_channel name channel_type) = RT.Explicit).
Proof.
  apply (numeric_token_decodes 0 "'1" Examples.channel_at_ten (PyFloat 1)).
  - discriminate.
  - vm_compute. reflexivity.
Defined.

(** C1 as stated fails twice.  On an integer channel the token [1.5],
    decoded under Explicit, appends 2 and not the parsed number 1.5.
    And SecondDifference does not need a finite carry: after the body
    [0, '1000...0] (309 zeros) the carry is the infinity, and a zero
    behind the second-difference marker is decoded all the same. *)
Lemma explicit_rounds_and_infinite_carry_passes :
  (numeric_value "1.5" = Some (PyFloat 1.5)
   /\ regular_token 0 "1.5" (RT.new_regular_channel "X" Ink.Integer)
      = Decoded {| RT.name := "X"; RT.type := Ink.Integer; RT.values := [PyInt 2];
                   RT.difference_order := RT.Explicit;
                   RT.last_difference := PyFloat PrimFloat.nan |}
   /\ PyInt 2 <> PyFloat 1.5)
  /\ (parse_trace_content ("0," ++ Examples.huge_difference)
                          (Examples.one_channel Ink.Decimal)
      = Decoded ([Examples.overflown_channel], [])
      /\ PrimFloat.is_infinity PrimFloat.infinity = true
      /\ regular_token 0 Examples.second_zero Examples.overflown_channel
         = Decoded {| RT.name := "X"; RT.type := Ink.Decimal;
                      RT.values := [PyFloat 0; PyFloat PrimFloat.infinity;
                                    PyFloat PrimFloat.infinity];
                      RT.difference_order := RT.SecondDifference;
                      RT.last_difference := PyFloat PrimFloat.infinity |}).
Proof.
  split; [split; [|split]|split; [|split]].
  - vm_compute. reflexivity.
  - vm_compute. reflexivity.
  - discriminate.
  - vm_compute. reflexivity.
  - reflexivity.
  - vm_compute. reflexivity.
Qed.

End DifferenceOrders.

(** ** Rounding on integer channels (C5) *)

Section Rounding.
Import PyStr PyNum Reading Spec.

Lemma nearest_ties_even_opp (n : Z) (d : positive) (z : Z) :
  nearest_ties_even (Qmake n d) z -> nearest_ties_even (Qmake (- n) d) (- z).
Proof.
  unfold nearest_ties_even, Qle, Qeq, Qabs, Qminus, Qplus, Qopp, inject_Z.
  cbn [Qnum Qden]. rewrite Z.even_opp.
  intros [Hle Heq]. split.
  - lia.
  - intros H. apply Heq. lia.
Qed.

Lemma nearest_ties_even_integer (z : Z) : nearest_ties_even (inject_Z z) z.
Proof.
  unfold nearest_ties_even, Qle, Qeq, Qabs, Qminus, Qplus, Qopp, inject_Z.
  cbn [Qnum Qden]. split; [lia|]. intros H. lia.
Qed.

(** [round_scaled m e] is the integer nearest to [m * 2^e], ties to even. *)
Lemma round_scaled_nearest (m e : Z) :
  (0 < m)%Z ->
  nearest_ties_even
    (if (0 <=? e)%Z then inject_Z (m * 2 ^ e) else Qmake m (Z.to_pos (2 ^ (- e))))
    (round_scaled m e).
Proof.
  intros Hm. unfold round_scaled.
  destruct (0 <=? e)%Z eqn:He; [apply nearest_ties_even_integer|].
  apply Z.leb_gt in He.
  assert (Hd : (0 < 2 ^ (- e))%Z) by (apply Z.pow_pos_nonneg; lia).
  set (d := (2 ^ (- e))%Z) in *.
  pose proof (Z.div_mod m d ltac:(lia)) as Hdiv.
  pose proof (Z.mod_pos_bound m d Hd) as Hmod.
  set (q := (m / d)%Z) in *. set (r := (m mod d)%Z) in *.
  unfold nearest_ties_even, Qle, Qeq, Qabs, Qminus, Qplus, Qopp, inject_Z.
  cbn [Qnum Qden]. rewrite Pos.mul_1_r, Z2Pos.id by exact Hd.
  clearbody q r. clearbody d.
  destruct (Z.compare_spec (2 * r) d) as [Hcmp|Hcmp|Hcmp].
  - destruct (Z.even q) eqn:Heven.
    + split; [nia|]. intros _. exact Heven.
    + split; [nia|]. intros _.
      rewrite Z.even_add, Heven. reflexivity.
  - split; [nia|]. intros H. nia.
  - split; [nia|]. intros H. nia.
Qed.

(** What [round] returns is the nearest integer, ties to even. *)
Lemma round_nearest (x v : num) :
  round x = Return v ->
  exists q z, exact x = Some q /\ v = PyInt z /\ nearest_ties_even q z.
Proof.
  destruct x as [z|f]; cbn.
  - intros H. injection H as <-. exists (inject_Z z), z.
    split; [reflexivity|]. split; [reflexivity|]. apply nearest_ties_even_integer.
  - destruct (Prim2SF f) as [s|s| |s m e]; cbn; try discriminate.
    + intros H. injection H as <-. exists (inject_Z 0), 0%Z.
      split; [reflexivity|]. split; [reflexivity|]. apply nearest_ties_even_integer.
    + intros H. injection H as <-.
      eexists. exists (cond_Zopp s (round_scaled (Z.pos m) e)).
      split; [reflexivity|]. split; [reflexivity|].
      pose proof (round_scaled_nearest (Z.pos m) e ltac:(lia)) as Hnear.
      destruct s; cbn [cond_Zopp].
      * destruct (0 <=? e)%Z.
        -- replace (- Z.pos m * 2 ^ e)%Z with (- (Z.pos m * 2 ^ e))%Z by lia.
           apply (nearest_ties_even_opp _ 1). exact Hnear.
        -- apply nearest_ties_even_opp. exact Hnear.
      * exact Hnear.
Qed.

(** [round] succeeds on every number that has a value. *)
Lemma round_total (x : num) (q : Q) :
  exact x = Some q -> exists z, round x = Return (PyInt z).
Proof.
  destruct x as [z|f]; cbn.
  - intros _. exists z. reflexivity.
  - destruct (Prim2SF f) as [s|s| |s m e]; cbn; try discriminate;
      intros _; eexists; reflexivity.
Qed.

Lemma intermittent_token_numeric (i j : nat) (token : string)
    (channel : RT.IntermittentChannel) (n : num) :
  RT.intermittent_type channel <> Ink.Boolean ->
  signed_number token = Some n ->
  intermittent_token i j token channel
  = (let* value := lift (round_for (RT.intermittent_type channel) n) in
     Decoded (append_index_value channel i value)).
Proof.
  intros Htype Hnum. unfold intermittent_token.
  destruct (String.eqb_spec token "?") as [->|_];
    [vm_compute in Hnum; discriminate|].
  destruct (String.eqb_spec token "*") as [->|_];
    [vm_compute in Hnum; discriminate|].
  destruct (signed_number_parsed token n
              (fun text => Rejected (UnexpectedValue text j false))
              (fun _ m =>
                 let* value := lift (round_for (RT.intermittent_type channel) m) in
                 Decoded (append_index_value channel i value)) Hnum)
    as [text Htext].
  rewrite <- Htext.
  destruct (RT.intermittent_type channel); try reflexivity. congruence.
Qed.

(** C5 (amended).  On a channel of type integer every numeric sample is
    stored as the integer nearest to the decoded number, a number
    halfway between two integers going to the even one: on a regular
    channel the decoded number is the one the difference order yields,
    on an intermittent channel it is the signed number of the token.
    Rounding succeeds on every number that is neither an infinity nor
    NaN. *)
Theorem integer_samples_nearest_even :
  (forall j token channel n channel',
     RT.type channel = Ink.Integer ->
     numeric_value token = Some n ->
     regular_token j token channel = Decoded channel' ->
     exists x q z,
       unrounded channel (effective_order channel token) n = Return x
       /\ exact x = Some q
       /\ nearest_ties_even q z
       /\ RT.values channel' = RT.values channel ++ [PyInt z])
  /\ (forall i j token channel n channel',
        RT.intermittent_type channel = Ink.Integer ->
        signed_number token = Some n ->
        intermittent_token i j token channel = Decoded channel' ->
        exists q z,
          exact n = Some q
          /\ nearest_ties_even q z
          /\ RT.index_values channel'
             = RT.index_values channel ++ [Ink.mkIndexValue i (PyInt z)])
  /\ (forall x q, exact x = Some q -> exists z, round x = Return (PyInt z)).
Proof.
  split; [|split].
  - intros j token channel n channel' Htype Hnum Hstep.
    assert (Hnb : RT.type channel <> Ink.Boolean) by (rewrite Htype; discriminate).
    destruct (regular_token_numeric j token channel n Hnb Hnum) as [text Htext].
    rewrite Htext in Hstep. apply add_value_decodes in Hstep.
    unfold unrounded.
    inversion Hstep as [v Hv Horder|previous sum v Hlast Hsum Hv Horder
                       |previous sum1 sum v carry Hnan Hlast Hsum1 Hsum Hv Hcarry Horder];
      subst; rewrite Htype in Hv; cbn in Hv;
      destruct (round_nearest _ _ Hv) as (q & z & Hq & -> & Hnear).
    + exists n, q, z.
      split; [reflexivity|split; [exact Hq|split; [exact Hnear|reflexivity]]].
    + exists sum, q, z.
      split; [|split; [exact Hq|split; [exact Hnear|reflexivity]]].
      apply last_value_Return in Hlast. rewrite Hlast. exact Hsum.
    + exists sum, q, z.
      split; [|split; [exact Hq|split; [exact Hnear|reflexivity]]].
      apply last_value_Return in Hlast. rewrite Hlast. cbn.
      rewrite Hsum1. exact Hsum.
  - intros i j token channel n channel' Htype Hnum Hstep.
    assert (Hnb : RT.intermittent_type channel <> Ink.Boolean)
      by (rewrite Htype; discriminate).
    rewrite (intermittent_token_numeric i j token channel n Hnb Hnum) in Hstep.
    rewrite Htype in Hstep. cbn in Hstep.
    destruct (round n) as [v|e] eqn:Hv; cbn in Hstep; [|discriminate].
    injection Hstep as <-.
    destruct (round_nearest _ _ Hv) as (q & z & Hq & -> & Hnear).
    exists q, z. split; [exact Hq|split; [exact Hnear|reflexivity]].
  - exact round_total.
Qed.

Lemma integer_samples_nearest_even_witness :
  (exists x q z,
     unrounded (RT.new_regular_channel "X" Ink.Integer)
               (effective_order (RT.new_regular_channel "X" Ink.Integer) "2.5")
               (PyFloat 2.5) = Return x
     /\ exact x = Some q
     /\ nearest_ties_even q z
     /\ RT.values {| RT.name := "X"; RT.type := Ink.Integer; RT.values := [PyInt 2];
                     RT.difference_order := RT.Explicit;
                     RT.last_difference := PyFloat PrimFloat.nan |}
        = RT.values (RT.new_regular_channel "X" Ink.Integer) ++ [PyInt z])
  /\ (exists q z,
        exact (PyFloat (-1.5)) = Some q
        /\ nearest_ties_even q z
        /\ RT.index_values
             {| RT.intermittent_name := "F"; RT.intermittent_type := Ink.Integer;
                RT.index_values := [Ink.mkIndexValue 3 (PyInt (-2))] |}
           = RT.index_values (RT.new_intermittent_channel "F" Ink.Integer)
             ++ [Ink.mkIndexValue 3 (PyInt z)]).
Proof.
  split.
  - apply (proj1 integer_samples_nearest_even 0 "2.5"
                 (RT.new_regular_channel "X" Ink.Integer) (PyFloat 2.5)).
    + reflexivity.
    + vm_compute. reflexivity.
    + vm_compute. reflexivity.
  - apply (proj1 (proj2 integer_samples_nearest_even) 3 1 "-1.5"
                 (RT.new_intermittent_channel "F" Ink.Integer) (PyFloat (-1.5))).
    + reflexivity.
    + vm_compute. reflexivity.
    + vm_compute. reflexivity.
Defined.

(** C5 as stated fails: on an integer channel the token [0.5] is stored
    as 0 and the token [2.5] as 2, where rounding halves away from zero
    gives 1 and 3. *)
Lemma halves_go_to_even_not_away :
  (regular_token 0 "0.5" (RT.new_regular_channel "X" Ink.Integer)
   = Decoded {| RT.name := "X"; RT.type := Ink.Integer; RT.values := [PyInt 0];
                RT.difference_order := RT.Explicit;
                RT.last_difference := PyFloat PrimFloat.nan |}
   /\ exists q, exact (PyFloat 0.5) = Some q /\ Qeq q (Qmake 1 2)
                /\ round_half_away q = 1%Z)
  /\ (intermittent_token 0 1 "2.5" (RT.new_intermittent_channel "F" Ink.Integer)
      = Decoded {| RT.intermittent_name := "F"; RT.intermittent_type := Ink.Integer;
                   RT.index_values := [Ink.mkIndexValue 0 (PyInt 2)] |}
      /\ exists q, exact (PyFloat 2.5) = Some q /\ Qeq q (Qmake 5 2)
                   /\ round_half_away q = 3%Z).
Proof.
  split; (split; [vm_compute; reflexivity|]);
    eexists; (split; [vm_compute; reflexivity|]);
    split; vm_compute; reflexivity.
Qed.

End Rounding.

(** ** First-difference coding against the explicit form (C7) *)

Section Streams.
Import PyStr PyNum Reading Spec.

Lemma last_snoc_value (values : list num) (v : num) : last (values ++ [v]) = Some v.
Proof. apply last_snoc. Qed.

(** One first-difference token on a channel that holds a value. *)
Lemma difference_token_step (j : nat) (token : string) (channel : RT.RegularChannel)
    (previous d sum v : num) :
  RT.type channel <> Ink.Boolean ->
  difference_token token d ->
  last (RT.values channel) = Some previous ->
  add previous d = Return sum ->
  round_for (RT.type channel) sum = Return v ->
  regular_token j token channel = Decoded (push channel v d RT.Difference).
Proof.
  intros Htype [Hmarker Hnum] Hlast Hsum Hround.
  destruct (regular_token_numeric j token channel d Htype Hnum) as [text ->].
  unfold effective_order. rewrite Hmarker. cbn [default]. unfold add_value.
  apply last_value_Return in Hlast. rewrite Hlast.
  destruct (RT.values channel) as [|v0 vs] eqn:Hvalues.
  { cbn in Hlast. discriminate. }
  cbn -[add round_for]. rewrite Hsum. cbn -[round_for]. rewrite Hround.
  reflexivity.
Qed.

(** One token without marker on a channel whose order is Explicit. *)
Lemma plain_token_step (j : nat) (token : string) (channel : RT.RegularChannel)
    (x v : num) :
  RT.type channel <> Ink.Boolean ->
  plain_token token x ->
  RT.difference_order channel = RT.Explicit ->
  round_for (RT.type channel) x = Return v ->
  regular_token j token channel
  = Decoded (push channel v (PyFloat PrimFloat.nan) RT.Explicit).
Proof.
  intros Htype [Hmarker Hnum] Horder Hround.
  destruct (regular_token_numeric j token channel x Htype Hnum) as [text ->].
  unfold effective_order. rewrite Hmarker. cbn [default]. rewrite Horder.
  unfold add_value. rewrite Hround. reflexivity.
Qed.

(** The stream ['d1, 'd2, ...] after a first value. *)
Lemma difference_stream (j : nat) (ds : list num) :
  forall (tokens : list string) (channel : RT.RegularChannel)
         (previous : num) (sums kept : list num),
    RT.type channel <> Ink.Boolean ->
    Forall2 difference_token tokens ds ->
    last (RT.values channel) = Some previous ->
    accumulate (RT.type channel) previous ds = Return (sums, kept) ->
    exists channel',
      decode_column j channel tokens = Decoded channel'
      /\ RT.values channel' = RT.values channel ++ kept.
Proof.
  induction ds as [|d ds IH]; intros tokens channel previous sums kept
    Htype Htokens Hlast Hacc.
  - inversion Htokens; subst. cbn in Hacc. injection Hacc as <- <-.
    exists channel. split; [reflexivity|]. rewrite app_nil_r. reflexivity.
  - inversion Htokens as [|token d' tokens' ds' Htoken Hrest]; subst.
    cbn in Hacc.
    destruct (add previous d) as [sum|] eqn:Hsum; [|discriminate]. cbn in Hacc.
    destruct (round_for (RT.type channel) sum) as [v|] eqn:Hround;
      [|discriminate]. cbn in Hacc.
    destruct (accumulate (RT.type channel) v ds) as [[sums' kept']|] eqn:Hacc';
      [|discriminate]. cbn in Hacc. injection Hacc as <- <-.
    cbn. rewrite (difference_token_step j token channel previous d sum v);
      try assumption. cbn.
    destruct (IH tokens' (push channel v d RT.Difference) v sums' kept')
      as [channel' [Hdecoded Hvalues]]; try assumption.
    + cbn. apply last_snoc_value.
    + exists channel'. split; [exact Hdecoded|].
      rewrite Hvalues. cbn. rewrite <- app_assoc. reflexivity.
Qed.

(** A stream of tokens without marker on a channel whose order is Explicit. *)
Lemma explicit_stream (j : nat) (xs : list num) :
  forall (tokens : list string) (channel : RT.RegularChannel) (kept : list num),
    RT.type channel <> Ink.Boolean ->
    RT.difference_order channel = RT.Explicit ->
    Forall2 plain_token tokens xs ->
    Forall2 (fun x v => round_for (RT.type channel) x = Return v) xs kept ->
    exists channel',
      decode_column j channel tokens = Decoded channel'
      /\ RT.values channel' = RT.values channel ++ kept.
Proof.
  induction xs as [|x xs IH]; intros tokens channel kept Htype Horder Htokens Hkept.
  - inversion Htokens; subst. inversion Hkept; subst.
    exists channel. split; [reflexivity|]. rewrite app_nil_r. reflexivity.
  - inversion Htokens as [|token x' tokens' xs' Htoken Hrest]; subst.
    inversion Hkept as [|x' v xs' kept' Hround Hkept']; subst.
    cbn. rewrite (plain_token_step j token channel x v); try assumption. cbn.
    destruct (IH tokens' (push channel v (PyFloat PrimFloat.nan) RT.Explicit) kept')
      as [channel' [Hdecoded Hvalues]]; try assumption; try reflexivity.
    exists channel'. split; [exact Hdecoded|].
    rewrite Hvalues. cbn. rewrite <- app_assoc. reflexivity.
Qed.

Lemma accumulate_rounds (channel_type : Ink.ChannelType) (ds : list num) :
  forall previous sums kept,
    accumulate channel_type previous ds = Return (sums, kept) ->
    Forall2 (fun x v => round_for channel_type x = Return v) sums kept.
Proof.
  induction ds as [|d ds IH]; intros previous sums kept Hacc; cbn in Hacc.
  - injection Hacc as <- <-. constructor.
  - destruct (add previous d) as [sum|]; [|discriminate]. cbn in Hacc.
    destruct (round_for channel_type sum) as [v|] eqn:Hround; [|discriminate].
    cbn in Hacc.
    destruct (accumulate channel_type v ds) as [[sums' kept']|] eqn:Hacc';
      [|discriminate]. cbn in Hacc. injection Hacc as <- <-.
    constructor; [exact Hround|]. apply (IH v). exact Hacc'.
Qed.

(** Without rounding the sums kept are the running sums. *)
Lemma accumulate_running_sums (channel_type : Ink.ChannelType) (ds : list num) :
  channel_type <> Ink.Integer ->
  forall previous sums,
    running_sums previous ds = Return sums ->
    accumulate channel_type previous ds = Return (sums, sums).
Proof.
  intros Htype. induction ds as [|d ds IH]; intros previous sums Hsums; cbn in *.
  - injection Hsums as <-. reflexivity.
  - destruct (add previous d) as [sum|]; [|discriminate]. cbn in *.
    destruct (running_sums sum ds) as [sums'|] eqn:Hrest; [|discriminate].
    cbn in Hsums. injection Hsums as <-.
    replace (round_for channel_type sum) with (Return sum)
      by (destruct channel_type; try reflexivity; congruence).
    cbn. rewrite (IH sum sums' Hrest). reflexivity.
Qed.

(** What one of the two loops over [j] does to channel number [k]. *)
Lemma for_channels_lookup {C : Type} (step : nat -> string -> C -> decode C)
    (tokens : list string) (chans : list C) :
  forall (j0 : nat) (chans' : list C),
    for_channels step tokens j0 chans = Decoded chans' ->
    forall (k : nat) (c' : C),
      chans' !! k = Some c' ->
      exists c token,
        chans !! k = Some c /\ tokens !! (j0 + k) = Some token
        /\ step (j0 + k) token c = Decoded c'.
Proof.
  induction chans as [|c chans IH]; intros j0 chans' Hfor k c' Hk; cbn in Hfor.
  - injection Hfor as <-. discriminate.
  - destruct (tokens !! j0) as [token|] eqn:Htoken; [|discriminate].
    destruct (step j0 token c) as [c1| |] eqn:Hstep; try discriminate. cbn in Hfor.
    destruct (for_channels step tokens (S j0) chans) as [rest| |] eqn:Hrest;
      try discriminate. cbn in Hfor. injection Hfor as <-.
    destruct k as [|k]; cbn in Hk.
    + injection Hk as <-. exists c, token. rewrite Nat.add_0_r. auto.
    + destruct (IH (S j0) rest Hrest k c' Hk) as (c0 & token0 & Hc0 & Ht0 & Hs0).
      exists c0, token0. replace (j0 + S k) with (S j0 + k) by lia. auto.
Qed.

(** In a body that decodes, regular channel [j] is the decoding of the
    column of the tokens number [j]. *)
Lemma for_points_column (points : list string) :
  forall (i : nat) (chans chans' : Channels),
    for_points i points chans = Decoded chans' ->
    forall (j : nat) (c' : RT.RegularChannel),
      fst chans' !! j = Some c' ->
      exists c tokens,
        fst chans !! j = Some c
        /\ Forall2 (fun point token => tokenize (strip point) !! j = Some token)
                   points tokens
        /\ decode_column j c tokens = Decoded c'.
Proof.
  induction points as [|point points IH]; intros i chans chans' Hfor j c' Hj;
    cbn in Hfor.
  - injection Hfor as <-. exists c', []. split; [exact Hj|].
    split; [constructor|reflexivity].
  - destruct (parse_point i point chans) as [chans1| |] eqn:Hpoint; try discriminate.
    cbn in Hfor.
    destruct (IH (S i) chans1 chans' Hfor j c' Hj) as (c1 & tokens & Hc1 & Htokens & Hcol).
    unfold parse_point in Hpoint.
    destruct (_ || _); [discriminate|].
    destruct (for_channels regular_token (tokenize (strip point)) 0 (fst chans))
      as [regular| |] eqn:Hregular; try discriminate. cbn in Hpoint.
    destruct (for_channels (intermittent_token i) _ _ _) as [intermittent| |];
      try discriminate. cbn in Hpoint. injection Hpoint as <-. cbn in Hc1.
    destruct (for_channels_lookup _ _ _ _ _ Hregular j c1 Hc1)
      as (c & token & Hc & Htoken & Hstep).
    cbn in Htoken, Hstep.
    exists c, (token :: tokens). split; [exact Hc|]. split.
    + constructor; assumption.
    + cbn. rewrite Hstep. exact Hcol.
Qed.

(** C7 (amended).  On a decimal or double channel, decoding the stream
    [x0, 'd1, 'd2, ...] keeps the same values as decoding the explicit
    stream [x0, x0 + d1, x0 + d1 + d2, ...], the sums being those of the
    decoder's arithmetic, taken from the left.  On any non-boolean
    channel, an integer one included, each difference is added to the
    value kept before it (the rounded one on an integer channel): the
    values kept are those of the explicit stream [x0, v0 + d1,
    v1 + d2, ...], where [v0, v1, ...] are the values kept. *)
Theorem first_difference_stream :
  (forall j name channel_type x0 ds sums t0 ts es,
     channel_type <> Ink.Boolean ->
     channel_type <> Ink.Integer ->
     running_sums x0 ds = Return sums ->
     plain_token t0 x0 ->
     Forall2 difference_token ts ds ->
     Forall2 plain_token es (x0 :: sums) ->
     exists c1 c2,
       decode_column j (RT.new_regular_channel name channel_type) (t0 :: ts)
       = Decoded c1
       /\ decode_column j (RT.new_regular_channel name channel_type) es = Decoded c2
       /\ RT.values c1 = x0 :: sums
       /\ RT.values c2 = x0 :: sums)
  /\ (forall j name channel_type x0 v0 ds sums kept t0 ts es,
        channel_type <> Ink.Boolean ->
        round_for channel_type x0 = Return v0 ->
        accumulate channel_type v0 ds = Return (sums, kept) ->
        plain_token t0 x0 ->
        Forall2 difference_token ts ds ->
        Forall2 plain_token es (x0 :: sums) ->
        exists c1 c2,
          decode_column j (RT.new_regular_channel name channel_type) (t0 :: ts)
          = Decoded c1
          /\ decode_column j (RT.new_regular_channel name channel_type) es
             = Decoded c2
          /\ RT.values c1 = v0 :: kept
          /\ RT.values c2 = v0 :: kept).
Proof.
  assert (general :
    forall j name channel_type x0 v0 ds sums kept t0 ts es,
      channel_type <> Ink.Boolean ->
      round_for channel_type x0 = Return v0 ->
      accumulate channel_type v0 ds = Return (sums, kept) ->
      plain_token t0 x0 ->
      Forall2 difference_token ts ds ->
      Forall2 plain_token es (x0 :: sums) ->
      exists c1 c2,
        decode_column j (RT.new_regular_channel name channel_type) (t0 :: ts)
        = Decoded c1
        /\ decode_column j (RT.new_regular_channel name channel_type) es = Decoded c2
        /\ RT.values c1 = v0 :: kept
        /\ RT.values c2 = v0 :: kept).
  { intros j name channel_type x0 v0 ds sums kept t0 ts es
           Htype Hround Hacc Ht0 Hts Hes.
    set (fresh := RT.new_regular_channel name channel_type).
    destruct (difference_stream j ds ts
                (push fresh v0 (PyFloat PrimFloat.nan) RT.Explicit) v0 sums kept)
      as [c1 [Hc1 Hv1]]; try assumption; try reflexivity.
    destruct (explicit_stream j (x0 :: sums) es fresh (v0 :: kept))
      as [c2 [Hc2 Hv2]]; try assumption; try reflexivity.
    { constructor; [exact Hround|]. apply (accumulate_rounds _ ds v0). exact Hacc. }
    exists c1, c2. split; [|split; [exact Hc2|split; [exact Hv1|exact Hv2]]].
    cbn. rewrite (plain_token_step j t0 fresh x0 v0 Htype Ht0 eq_refl Hround).
    exact Hc1. }
  split; [|exact general].
  intros j name channel_type x0 ds sums t0 ts es Htype Hint Hsums Ht0 Hts Hes.
  apply (general j name channel_type x0 x0 ds sums sums t0 ts es); try assumption.
  - destruct channel_type; try reflexivity. congruence.
  - apply accumulate_running_sums; assumption.
Qed.

Lemma first_difference_stream_witness :
  (exists c1 c2,
     decode_column 0 (RT.new_regular_channel "X" Ink.Decimal) ["10"; "'1"; "'2"]
     = Decoded c1
     /\ decode_column 0 (RT.new_regular_channel "X" Ink.Decimal) ["10"; "11"; "13"]
        = Decoded c2
     /\ RT.values c1 = [PyFloat 10; PyFloat 11; PyFloat 13]
     /\ RT.values c2 = [PyFloat 10; PyFloat 11; PyFloat 13])
  /\ (exists c1 c2,
        decode_column 0 (RT.new_regular_channel "X" Ink.Integer) ["0.25"; "'0.5"]
        = Decoded c1
        /\ decode_column 0 (RT.new_regular_channel "X" Ink.Integer) ["0.25"; "0.5"]
           = Decoded c2
        /\ RT.values c1 = [PyInt 0; PyInt 0]
        /\ RT.values c2 = [PyInt 0; PyInt 0]).
Proof.
  split.
  - apply (proj1 first_difference_stream 0 "X" Ink.Decimal (PyFloat 10)
                 [PyFloat 1; PyFloat 2] [PyFloat 11; PyFloat 13]
                 "10" ["'1"; "'2"] ["10"; "11"; "13"]).
    + discriminate.
    + discriminate.
    + vm_compute. reflexivity.
    + split; vm_compute; reflexivity.
    + repeat constructor; vm_compute; reflexivity.
    + repeat constructor; vm_compute; reflexivity.
  - apply (proj2 first_difference_stream 0 "X" Ink.Integer (PyFloat 0.25) (PyInt 0)
                 [PyFloat 0.5] [PyFloat 0.5] [PyInt 0]
                 "0.25" ["'0.5"] ["0.25"; "0.5"]).
    + discriminate.
    + vm_compute. reflexivity.
    + vm_compute. reflexivity.
    + split; vm_compute; reflexivity.
    + repeat constructor; vm_compute; reflexivity.
    + repeat constructor; vm_compute; reflexivity.
Defined.

(** C7 as stated fails on an integer channel: the body [0.25, '0.5]
    decodes to 0, 0 (the difference is added to the rounded 0), while
    the explicit body [0.25, 0.75] decodes to 0, 1, although 0.75 is
    exactly 0.25 + 0.5. *)
Lemma integer_differences_add_to_rounded :
  parse_trace_content "0.25, '0.5" (Examples.one_channel Ink.Integer)
  = Decoded ([{| RT.name := "X"; RT.type := Ink.Integer;
                 RT.values := [PyInt 0; PyInt 0];
                 RT.difference_order := RT.Difference;
                 RT.last_difference := PyFloat 0.5 |}], [])
  /\ parse_trace_content "0.25, 0.75" (Examples.one_channel Ink.Integer)
     = Decoded ([{| RT.name := "X"; RT.type := Ink.Integer;
                    RT.values := [PyInt 0; PyInt 1];
                    RT.difference_order := RT.Explicit;
                    RT.last_difference := PyFloat PrimFloat.nan |}], [])
  /\ add (PyFloat 0.25) (PyFloat 0.5) = Return (PyFloat 0.75).
Proof. repeat split; vm_compute; reflexivity. Qed.

End Streams.

(** ** Reading traces: what a call leaves untouched *)

Section ReaderFrame.
Import PyStr PyNum Reading Spec.

(** The samples of a trace object. *)
Definition same_samples (t t' : Ink.Trace) : Prop :=
  Ink.channels t' = Ink.channels t
  /\ Ink.trace_intermittent_channels t' = Ink.trace_intermittent_channels t.

(** [frame n s s']: from [s] to [s'] the context and brush tables are
    the same, the store has not shrunk, the log has only grown, and the
    trace objects below address [n] have kept their samples. *)
Definition frame (n : nat) (s s' : State) : Prop :=
  RT.contexts (definitions s') = RT.contexts (definitions s)
  /\ RT.brushes (definitions s') = RT.brushes (definitions s)
  /\ length (heap s) <= length (heap s')
  /\ (exists ws, log s' = log s ++ ws)
  /\ (forall l t, l < n -> heap s !! l = Some t ->
      exists t', heap s' !! l = Some t' /\ same_samples t t').

(** A computation that keeps [frame n] from every state whose store has
    at least [n] objects. *)
Definition maintains {A : Type} (n : nat) (m : M A) : Prop :=
  forall s a s', n <= length (heap s) -> m s = Return (a, s') -> frame n s s'.

Lemma same_samples_refl (t : Ink.Trace) : same_samples t t.
Proof. split; reflexivity. Qed.

Lemma log_grows_refl (s : State) : exists ws, log s = log s ++ ws.
Proof. exists []. rewrite app_nil_r. reflexivity. Qed.

Ltac split_frame := unfold frame; split; [|split; [|split; [|split]]].

Lemma frame_refl (n : nat) (s : State) : frame n s s.
Proof.
  split_frame; try reflexivity.
  - apply log_grows_refl.
  - intros l t _ H. exists t. split; [exact H|apply same_samples_refl].
Qed.

Lemma frame_trans (n : nat) (s1 s2 s3 : State) :
  frame n s1 s2 -> frame n s2 s3 -> frame n s1 s3.
Proof.
  intros (Hc1 & Hb1 & Hl1 & [ws1 Hw1] & Hh1) (Hc2 & Hb2 & Hl2 & [ws2 Hw2] & Hh2).
  split_frame; try congruence; try lia.
  - exists (ws1 ++ ws2). rewrite Hw2, Hw1, app_assoc. reflexivity.
  - intros l t Hl Ht.
    destruct (Hh1 l t Hl Ht) as (t1 & Ht1 & Hs1 & Hs1').
    destruct (Hh2 l t1 Hl Ht1) as (t2 & Ht2 & Hs2 & Hs2').
    exists t2. split; [exact Ht2|]. split; congruence.
Qed.

Lemma maintains_ret {A : Type} (n : nat) (a : A) : maintains n (ret a).
Proof.
  intros s a' s' _ H. injection H as _ <-. apply frame_refl.
Qed.

Lemma maintains_throw {A : Type} (n : nat) (e : exn) : maintains n (@throw A e).
Proof. intros s a s' _ H. discriminate. Qed.

(** The rule of sequence, [Q] being what is known of the first result. *)
Lemma maintains_bind_post {A B : Type} (n : nat) (Q : A -> Prop)
    (m : M A) (f : A -> M B) :
  maintains n m ->
  (forall s a s', n <= length (heap s) -> m s = Return (a, s') -> Q a) ->
  (forall a, Q a -> maintains n (f a)) ->
  maintains n (bind m f).
Proof.
  intros Hm HQ Hf s b s' Hn H. unfold bind in H.
  destruct (m s) as [[a s1]|e] eqn:Hms; [|discriminate].
  pose proof (Hm s a s1 Hn Hms) as Hframe.
  apply (frame_trans n s s1 s'); [exact Hframe|].
  apply (Hf a (HQ s a s1 Hn Hms) s1 b s'); [|exact H].
  destruct Hframe as (_ & _ & Hlen & _). lia.
Qed.

Lemma maintains_bind {A B : Type} (n : nat) (m : M A) (f : A -> M B) :
  maintains n m -> (forall a, maintains n (f a)) -> maintains n (bind m f).
Proof.
  intros Hm Hf. apply (maintains_bind_post n (fun _ => True)); auto.
Qed.

Lemma maintains_warn (n : nat) (w : warning) : maintains n (warn w).
Proof.
  intros s a s' _ H. injection H as _ <-.
  split_frame; cbn; try reflexivity.
  - exists [w]. reflexivity.
  - intros l t _ Ht. exists t. split; [exact Ht|apply same_samples_refl].
Qed.

Lemma maintains_get_definitions (n : nat) : maintains n get_definitions.
Proof. intros s a s' _ H. injection H as _ <-. apply frame_refl. Qed.

(** Writing definitions whose context and brush tables are the current ones. *)
Lemma maintains_update (n : nat) (f : RT.Definitions -> RT.Definitions) :
  (forall d, RT.contexts (f d) = RT.contexts d /\ RT.brushes (f d) = RT.brushes d) ->
  maintains n (let! d := get_definitions in put_definitions (f d)).
Proof.
  intros Hf s a s' _ H. injection H as _ <-.
  destruct (Hf (definitions s)) as [Hc Hb].
  split_frame; cbn; try assumption; try reflexivity.
  - apply log_grows_refl.
  - intros l t _ Ht. exists t. split; [exact Ht|apply same_samples_refl].
Qed.

Lemma maintains_new_trace_object (n : nat) : maintains n new_trace_object.
Proof.
  intros s a s' _ H. injection H as _ <-.
  split_frame; cbn; try reflexivity.
  - rewrite length_app. lia.
  - apply log_grows_refl.
  - intros l t _ Ht. exists t. split; [|apply same_samples_refl].
    apply lookup_app_l_Some. exact Ht.
Qed.

Lemma maintains_store (n : nat) (l : Ink.loc) (t : Ink.Trace) :
  n <= l -> maintains n (store l t).
Proof.
  intros Hl s a s' _ H. injection H as _ <-.
  split_frame; cbn; try reflexivity.
  - rewrite length_insert. lia.
  - apply log_grows_refl.
  - intros l' t' Hl' Ht'. exists t'. split; [|apply same_samples_refl].
    rewrite list_lookup_insert_ne by lia. exact Ht'.
Qed.

Lemma maintains_link_prior (n : nat) (prior l : Ink.loc) :
  maintains n (link_prior prior l).
Proof.
  intros s a s' _ H. injection H as _ <-.
  split_frame; cbn; try reflexivity.
  - rewrite length_alter. lia.
  - apply log_grows_refl.
  - intros l' t' _ Ht'.
    destruct (decide (prior = l')) as [->|Hne].
    + exists (set_next l t'). split; [|split; reflexivity].
      rewrite list_lookup_alter_eq, Ht'. reflexivity.
    + exists t'. split; [|apply same_samples_refl].
      rewrite list_lookup_alter_ne by exact Hne. exact Ht'.
Qed.

Ltac maintain :=
  repeat
    match goal with
    | |- maintains _ (ret _) => apply maintains_ret
    | |- maintains _ (throw _) => apply maintains_throw
    | |- maintains _ (warn _) => apply maintains_warn
    | |- maintains _ get_definitions => apply maintains_get_definitions
    | |- maintains _ (link_prior _ _) => apply maintains_link_prior
    | H : maintains ?n ?m |- maintains ?n ?m => exact H
    | |- maintains _ (bind _ _) => apply maintains_bind; [|intros ?]
    | |- maintains _ (match ?x with _ => _ end) => destruct x
    end.

Lemma maintains_read_annotation (n : nat) (element : Xml.Element) :
  maintains n (read_annotation element).
Proof. unfold read_annotation. maintain. Qed.

Lemma maintains_read_annotations (n : nat) (container : Xml.Element) :
  maintains n (read_annotations container).
Proof.
  unfold read_annotations.
  induction (Xml.children container) as [|item rest IH]; cbn; maintain.
  apply maintains_read_annotation.
Qed.

Lemma maintains_for_each {A B : Type} (n : nat) (read : Xml.Element -> M (option A))
    (add : B -> A -> B) (elements : list Xml.Element) (acc : B) :
  (forall e, maintains n (read e)) ->
  maintains n (for_each read add elements acc).
Proof.
  intros Hread. revert acc.
  induction elements as [|e rest IH]; intros acc; cbn; maintain;
    first [apply Hread | apply IH].
Qed.

Lemma maintains_read_channel (n : nat) (element : Xml.Element) :
  maintains n (read_channel element).
Proof. unfold read_channel. maintain. Qed.

Lemma maintains_read_trace_format (n : nat) (element : Xml.Element) :
  maintains n (read_trace_format element).
Proof.
  unfold read_trace_format. maintain;
    apply maintains_for_each; apply maintains_read_channel.
Qed.

Lemma maintains_read_sample_rate (n : nat) (element : option Xml.Element) :
  maintains n (read_sample_rate element).
Proof. unfold read_sample_rate. maintain. Qed.

Lemma maintains_read_latency (n : nat) (element : option Xml.Element) :
  maintains n (read_latency element).
Proof. unfold read_latency. maintain. Qed.

Lemma maintains_read_active_area (n : nat) (element : option Xml.Element) :
  maintains n (read_active_area element).
Proof. unfold read_active_area. maintain. Qed.

Lemma maintains_read_source_property (n : nat) (element : Xml.Element) :
  maintains n (read_source_property element).
Proof. unfold read_source_property. maintain. Qed.

Lemma maintains_read_channel_property (n : nat) (element : Xml.Element) :
  maintains n (read_channel_property element).
Proof. unfold read_channel_property. maintain. Qed.

Lemma maintains_read_brush_property (n : nat) (element : Xml.Element) :
  maintains n (read_brush_property element).
Proof. unfold read_brush_property. maintain. apply maintains_read_annotations. Qed.

Lemma maintains_read_ink_source (n : nat) (element : Xml.Element) :
  maintains n (read_ink_source element).
Proof.
  unfold read_ink_source. maintain;
    first [ apply maintains_read_trace_format | apply maintains_read_sample_rate
          | apply maintains_read_latency | apply maintains_read_active_area
          | apply maintains_for_each; intros ?;
            first [ apply maintains_read_source_property
                  | apply maintains_read_channel_property ] ].
Qed.

Lemma maintains_read_brush (n : nat) (element : Xml.Element) :
  maintains n (read_brush element).
Proof.
  unfold read_brush. maintain.
  - apply maintains_for_each. intros e. apply maintains_read_brush_property.
  - apply maintains_read_annotations.
Qed.

Lemma maintains_read_timestamp (n : nat) (element : Xml.Element) :
  maintains n (read_timestamp element).
Proof. unfold read_timestamp. maintain. Qed.

Lemma maintains_read_context (n : nat) (element : Xml.Element) :
  maintains n (read_context element).
Proof.
  unfold read_context. maintain;
    first [ apply maintains_read_trace_format | apply maintains_read_ink_source
          | apply maintains_read_brush | apply maintains_read_timestamp ].
Qed.

Section WithReader.
Variable assume_local_refs : bool.

Lemma maintains_lookup_ref {A : Type} (n : nat) (what owner : string)
    (table : RT.Definitions -> string -> option A) (ref : option string)
    (require_refs : bool) :
  maintains n (lookup_ref assume_local_refs what owner table ref require_refs).
Proof. unfold lookup_ref. maintain. Qed.

Lemma maintains_read_trace_group (n : nat) (element : Xml.Element)
    (require_refs : bool) :
  maintains n (read_trace_group assume_local_refs element require_refs).
Proof.
  unfold read_trace_group. maintain;
    try apply maintains_lookup_ref; apply maintains_read_annotations.
Qed.

Lemma maintains_read_indices (n : nat) (element : Xml.Element) (attribute : string) :
  maintains n (read_indices element attribute).
Proof. unfold read_indices. maintain. Qed.

Lemma maintains_read_trace_view (n : nat) (element : Xml.Element) :
  maintains n (read_trace_view assume_local_refs element).
Proof. unfold read_trace_view. maintain; apply maintains_read_indices. Qed.

Lemma maintains_read_continuation (n : nat) (continuation : option string) :
  maintains n (read_continuation continuation).
Proof. unfold read_continuation. maintain. Qed.

Lemma maintains_read_prior (n : nat) (element : Xml.Element) (l : Ink.loc)
    (require_refs : bool) :
  maintains n (read_prior assume_local_refs element l require_refs).
Proof. unfold read_prior. maintain. Qed.

Lemma maintains_read_trace_data (n : nat) (element : Xml.Element)
    (trace : Ink.Trace) (context : option Ink.Context) :
  maintains n (read_trace_data element trace context).
Proof. unfold read_trace_data. maintain. Qed.

Lemma maintains_read_trace_fields (n : nat) (element : Xml.Element)
    (context : option Ink.Context) (require_refs : bool) (l : Ink.loc) :
  maintains n (read_trace_fields assume_local_refs element context require_refs l).
Proof.
  unfold read_trace_fields. maintain;
    first [ apply maintains_lookup_ref | apply maintains_read_continuation
          | apply maintains_read_prior | apply maintains_read_trace_data ].
Qed.

Lemma maintains_read_trace (n : nat) (element : Xml.Element)
    (context : option Ink.Context) (require_refs : bool) :
  maintains n (read_trace assume_local_refs element context require_refs).
Proof.
  unfold read_trace.
  apply (maintains_bind_post n (fun l => n <= l)).
  - apply maintains_new_trace_object.
  - intros s a s' Hn H. injection H as <- _. exact Hn.
  - intros l Hl. maintain.
    + apply maintains_read_trace_fields.
    + apply maintains_store. exact Hl.
Qed.

Lemma maintains_trace_id_at (n : nat) (l : Ink.loc) : maintains n (trace_id_at l).
Proof. intros s a s' _ H. injection H as _ <-. apply frame_refl. Qed.

Lemma maintains_register_trace (n : nat) (id : string) (l : Ink.loc) :
  maintains n (register_trace id l).
Proof.
  unfold register_trace. destruct (_ <? _)%nat; [|apply maintains_ret].
  apply (maintains_update n (fun d => _)). intros d. split; reflexivity.
Qed.

Lemma maintains_register_group (n : nat) (id : string) (group : Ink.TraceItem) :
  maintains n (register_group id group).
Proof.
  unfold register_group. destruct (_ <? _)%nat; [|apply maintains_ret].
  apply (maintains_update n (fun d => _)). intros d. split; reflexivity.
Qed.

Lemma maintains_register_view (n : nat) (id : string) (view : Ink.TraceItem) :
  maintains n (register_view id view).
Proof.
  unfold register_view. destruct (_ <? _)%nat; [|apply maintains_ret].
  apply (maintains_update n (fun d => _)). intros d. split; reflexivity.
Qed.

Lemma maintains_read_item (n : nat)
    (read_group_traces : Xml.Element -> option Ink.Context -> M (list Ink.TraceItem))
    (context : option Ink.Context) (child : Xml.Element) :
  (forall ctx, maintains n (read_group_traces child ctx)) ->
  maintains n (read_item assume_local_refs read_group_traces context child).
Proof.
  intros Hrec. unfold read_item. maintain;
    first [ apply maintains_read_trace | apply maintains_trace_id_at
          | apply maintains_register_trace | apply maintains_read_trace_group
          | apply Hrec | apply maintains_register_group
          | apply maintains_read_trace_view | apply maintains_register_view ].
Qed.

Lemma maintains_collect {A : Type} (n : nat) (read : Xml.Element -> M (option A))
    (elements : list Xml.Element) :
  Forall (fun e => maintains n (read e)) elements ->
  maintains n (collect read elements).
Proof.
  induction 1 as [|e rest He Hrest IH]; cbn; maintain.
Qed.

(** Induction on an element with the property known of its children. *)
Lemma Element_children_ind (P : Xml.Element -> Prop) :
  (forall e, Forall P (Xml.children e) -> P e) -> forall e, P e.
Proof.
  intros step. fix IH 1. intros [tag attrib text tail children].
  apply step. cbn. induction children as [|c cs IHcs]; constructor.
  - apply IH.
  - exact IHcs.
Qed.

(** [read_traces] keeps the frame, whatever the container. *)
Lemma maintains_read_traces (n : nat) (container : Xml.Element) :
  forall context, maintains n (read_traces assume_local_refs container context).
Proof.
  induction container as [container IH] using Element_children_ind.
  intros context. destruct container as [tag attrib text tail children].
  cbn in *. apply maintains_collect.
  induction IH as [|child rest Hchild Hrest IHrest]; constructor.
  - apply maintains_read_item. exact Hchild.
  - exact IHrest.
Qed.

End WithReader.

End ReaderFrame.

(** ** Malformed and empty trace bodies (C3, C10) *)

Section TraceBodies.
Import PyStr PyNum Reading Spec.

Lemma for_channels_length {C : Type} (step : nat -> string -> C -> decode C)
    (tokens : list string) (chans : list C) :
  forall j chans',
    for_channels step tokens j chans = Decoded chans' -> length chans' = length chans.
Proof.
  induction chans as [|c chans IH]; intros j chans' H; cbn in H.
  - injection H as <-. reflexivity.
  - destruct (tokens !! j); [|discriminate].
    destruct (step j s c); try discriminate. cbn in H.
    destruct (for_channels step tokens (S j) chans) eqn:Hrest; try discriminate.
    cbn in H. injection H as <-. cbn. f_equal. apply (IH (S j)). exact Hrest.
Qed.

Lemma parse_point_Decoded (i : nat) (point : string) (chans chans' : Channels) :
  parse_point i point chans = Decoded chans' ->
  ~ wrong_token_count (length (fst chans)) (length (snd chans)) point
  /\ length (fst chans') = length (fst chans)
  /\ length (snd chans') = length (snd chans).
Proof.
  unfold parse_point, wrong_token_count. intros H.
  destruct (_ || _) eqn:Hcount; [discriminate|].
  apply orb_false_iff in Hcount as [H1 H2].
  apply Nat.ltb_ge in H1, H2.
  destruct (for_channels regular_token _ _ _) as [regular| |] eqn:Hr;
    try discriminate. cbn in H.
  destruct (for_channels (intermittent_token i) _ _ _) as [intermittent| |] eqn:Hi;
    try discriminate. cbn in H. injection H as <-. cbn.
  split; [lia|]. split; eapply for_channels_length; eassumption.
Qed.

(** A point with a wrong number of tokens keeps the body from decoding. *)
Lemma for_points_wrong_point (points : list string) :
  forall i chans,
    Exists (wrong_token_count (length (fst chans)) (length (snd chans))) points ->
    forall chans', for_points i points chans <> Decoded chans'.
Proof.
  induction points as [|point points IH]; intros i chans Hwrong chans' H.
  - inversion Hwrong.
  - cbn in H.
    destruct (parse_point i point chans) as [chans1| |] eqn:Hpoint; try discriminate.
    cbn in H. apply parse_point_Decoded in Hpoint as (Hok & Hl1 & Hl2).
    inversion Hwrong as [? ? Hhere|? ? Hlater]; subst; [contradiction|].
    apply (IH (S i) chans1) with (chans' := chans'); [|exact H].
    rewrite Hl1, Hl2. exact Hlater.
Qed.

Lemma parse_wrong_point (content : string) (trace_format : Ink.TraceFormat) :
  Exists (wrong_point trace_format) (split "," content) ->
  forall chans, parse_trace_content content trace_format <> Decoded chans.
Proof.
  intros Hwrong chans. unfold parse_trace_content.
  apply for_points_wrong_point. unfold wrap_channels. cbn.
  rewrite !length_map. exact Hwrong.
Qed.

Lemma bind_Return {A B : Type} (m : M A) (f : A -> M B) (s : State) (b : B)
    (s' : State) :
  bind m f s = Return (b, s') ->
  exists a s1, m s = Return (a, s1) /\ f a s1 = Return (b, s').
Proof.
  unfold bind. destruct (m s) as [[a s1]|e]; [|discriminate].
  intros H. exists a, s1. split; [reflexivity|exact H].
Qed.

(** The list a loop of [collect] returns, around one of its elements. *)
Lemma collect_app_Return {A : Type} (read : Xml.Element -> M (option A))
    (pre : list Xml.Element) (x : Xml.Element) (post : list Xml.Element) :
  forall s items s',
    collect read (pre ++ x :: post) s = Return (items, s') ->
    exists before s1 r s2 after,
      collect read pre s = Return (before, s1)
      /\ read x s1 = Return (r, s2)
      /\ collect read post s2 = Return (after, s')
      /\ items = before ++ option_list r ++ after.
Proof.
  induction pre as [|e pre IH]; intros s items s' H; cbn in H.
  - apply bind_Return in H as (r & s2 & Hr & H).
    apply bind_Return in H as (after & s3 & Hafter & H).
    injection H as <- <-.
    exists [], s, r, s2, after. repeat split; try assumption.
    destruct r; reflexivity.
  - apply bind_Return in H as (r0 & s0 & Hr0 & H).
    apply bind_Return in H as (rest & s3 & Hrest & H).
    injection H as <- <-.
    destruct (IH s0 rest s3 Hrest) as (before & s1 & r & s2 & after & Hb & Hr & Ha & ->).
    exists (match r0 with Some a => a :: before | None => before end), s1, r, s2, after.
    repeat split; try assumption.
    + cbn. unfold bind. rewrite Hr0. fold (collect read). rewrite Hb. reflexivity.
    + destruct r0; reflexivity.
Qed.

Section WithReader.
Variable assume_local_refs : bool.

Lemma trace_format_for_contexts (d d' : RT.Definitions) (element : Xml.Element)
    (ambient : option Ink.Context) :
  RT.contexts d' = RT.contexts d ->
  trace_format_for assume_local_refs d' element ambient
  = trace_format_for assume_local_refs d element ambient.
Proof.
  intros H. unfold trace_format_for, referenced_context, context_table.
  rewrite H. reflexivity.
Qed.

Lemma get_trace_format_for (d : RT.Definitions) (element : Xml.Element)
    (ambient : option Ink.Context) (trace : Ink.Trace) :
  Ink.context trace = referenced_context assume_local_refs d element ->
  get_trace_format trace ambient
  = trace_format_for assume_local_refs d element ambient.
Proof.
  intros H. unfold get_trace_format, trace_format_for. rewrite H.
  destruct (or_else _ _); [|reflexivity].
  rewrite first_trace_format_chain, first_ink_source_chain. reflexivity.
Qed.

(** What the lookup of [contextRef] hands on is the referenced context. *)
Lemma lookup_ref_context (element : Xml.Element) (require_refs : bool)
    (s : State) (c : option Ink.Context) (s' : State) :
  lookup_ref assume_local_refs "context" "trace" context_table
             (Xml.get element "contextRef") require_refs s = Return (Some c, s') ->
  c = referenced_context assume_local_refs (definitions s) element.
Proof.
  unfold lookup_ref, referenced_context.
  destruct (Xml.get element "contextRef") as [r|]; cbn.
  - destruct (Ids.is_local_id r || assume_local_refs); cbn.
    + destruct (context_table (definitions s) (Ids.to_local_id r)); cbn.
      * intros H. injection H as <- _. reflexivity.
      * destruct require_refs; [discriminate|].
        intros H. injection H as <- _. reflexivity.
    + intros H. injection H as <- _. reflexivity.
  - intros H. injection H as <- _. reflexivity.
Qed.

(** A trace that is returned had a body that decodes. *)
Lemma read_trace_fields_parsed (element : Xml.Element) (ambient : option Ink.Context)
    (require_refs : bool) (l : Ink.loc) (s : State) (t : Ink.Trace) (s' : State)
    (content : string) :
  Xml.text element = Some content ->
  read_trace_fields assume_local_refs element ambient require_refs l s
  = Return ((true, t), s') ->
  exists chans,
    parse_trace_content content
      (trace_format_for assume_local_refs (definitions s) element ambient)
    = Decoded chans.
Proof.
  intros Htext H. unfold read_trace_fields in H.
  apply bind_Return in H as (c & s1 & Hc & H).
  destruct c as [c|]; [|discriminate].
  apply lookup_ref_context in Hc.
  apply bind_Return in H as (b & s2 & Hb & H).
  destruct b as [b|]; [|discriminate].
  apply bind_Return in H as (cont & s3 & Hcont & H).
  apply bind_Return in H as (proceed & s4 & Hproceed & H).
  destruct proceed; [|discriminate]. cbn [negb] in H.
  apply bind_Return in H as (data & s5 & Hdata & H).
  destruct data as [[regular intermittent]|]; [|discriminate].
  unfold read_trace_data in Hdata. rewrite Htext in Hdata.
  rewrite (get_trace_format_for (definitions s) element) in Hdata by exact Hc.
  destruct (parse_trace_content content _) as [chans|w|e] eqn:Hparse.
  - exists chans. reflexivity.
  - apply bind_Return in Hdata as (? & ? & _ & Hdata).
    apply bind_Return in Hdata as (? & ? & _ & Hdata). discriminate.
  - discriminate.
Qed.

Lemma read_trace_parsed (element : Xml.Element) (ambient : option Ink.Context)
    (require_refs : bool) (s : State) (l : Ink.loc) (s' : State) (content : string) :
  Xml.text element = Some content ->
  read_trace assume_local_refs element ambient require_refs s = Return (Some l, s') ->
  exists chans,
    parse_trace_content content
      (trace_format_for assume_local_refs (definitions s) element ambient)
    = Decoded chans.
Proof.
  intros Htext H. unfold read_trace in H.
  apply bind_Return in H as (l0 & s1 & Hl0 & H).
  apply bind_Return in H as ([returned t] & s2 & Hfields & H).
  apply bind_Return in H as (u & s3 & _ & H).
  destruct returned; [|discriminate].
  injection Hl0 as _ <-.
  apply (read_trace_fields_parsed _ _ _ _ _ _ _ content Htext) in Hfields.
  exact Hfields.
Qed.

(** A [trace] child with a wrong point is given up and reported. *)
Lemma read_item_wrong_point
    (read_group_traces : Xml.Element -> option Ink.Context -> M (list Ink.TraceItem))
    (ambient : option Ink.Context) (child : Xml.Element) (content : string)
    (s : State) (r : option Ink.TraceItem) (s' : State) :
  Xml.tag child = Inkml.TRACE ->
  Xml.text child = Some content ->
  Exists (wrong_point (trace_format_for assume_local_refs (definitions s) child ambient))
         (split "," content) ->
  read_item assume_local_refs read_group_traces ambient child s = Return (r, s') ->
  r = None /\ exists ws, log s' = log s ++ ws ++ [CouldNotRead "trace"].
Proof.
  intros Htag Htext Hwrong H. unfold read_item in H.
  rewrite Htag, String.eqb_refl in H.
  apply bind_Return in H as (trace & s1 & Htrace & H).
  destruct trace as [l|].
  - destruct (read_trace_parsed _ _ _ _ _ _ content Htext Htrace) as [chans Hparse].
    exfalso. exact (parse_wrong_point _ _ Hwrong chans Hparse).
  - apply bind_Return in H as (u & s2 & Hwarn & H).
    injection H as <- <-. injection Hwarn as _ <-. cbn.
    split; [reflexivity|].
    destruct (maintains_read_trace assume_local_refs 0 child ambient true
                s None s1 (Nat.le_0_l _) Htrace) as (_ & _ & _ & [ws Hws] & _).
    exists ws. rewrite Hws, <- app_assoc. reflexivity.
Qed.

(** *** A trace without text *)

Lemma lookup_ref_found {A : Type} (what owner : string)
    (table : RT.Definitions -> string -> option A) (ref : option string)
    (require_refs : bool) (s : State) :
  reference_found assume_local_refs (table (definitions s)) ref = true ->
  exists c s1,
    lookup_ref assume_local_refs what owner table ref require_refs s
    = Return (Some c, s1)
    /\ definitions s1 = definitions s /\ heap s1 = heap s.
Proof.
  unfold reference_found, lookup_ref. destruct ref as [r|]; cbn.
  - destruct (Ids.is_local_id r || assume_local_refs); cbn.
    + destruct (table (definitions s) (Ids.to_local_id r)) as [x|]; cbn.
      * intros _. eexists _, _. split; [reflexivity|]. split; reflexivity.
      * intros H. discriminate H.
    + intros _. eexists _, _. split; [reflexivity|]. split; reflexivity.
  - intros _. eexists _, _. split; [reflexivity|]. split; reflexivity.
Qed.

Lemma read_continuation_Return (continuation : option string) (s : State) :
  exists c s1,
    read_continuation continuation s = Return (c, s1)
    /\ definitions s1 = definitions s /\ heap s1 = heap s
    /\ (is_continued c = true ->
        exists text, continuation = Some text
                     /\ String.eqb text "middle" || String.eqb text "end" = true).
Proof.
  unfold read_continuation. destruct continuation as [text|]; cbn.
  - destruct (String.eqb text "begin") eqn:Hb; cbn.
    { eexists _, _. repeat split; try reflexivity. discriminate. }
    destruct (String.eqb text "middle") eqn:Hm; cbn.
    { eexists _, _. repeat split; try reflexivity. intros _.
      exists text. rewrite Hm. split; reflexivity. }
    destruct (String.eqb text "end") eqn:He; cbn.
    { eexists _, _. repeat split; try reflexivity. intros _.
      exists text. rewrite Hm, He. split; reflexivity. }
    eexists _, _. repeat split; try reflexivity. discriminate.
  - eexists _, _. repeat split; try reflexivity. discriminate.
Qed.

Lemma read_prior_found (element : Xml.Element) (l : Ink.loc) (require_refs : bool)
    (s : State) (text : string) :
  Xml.get element "continuation" = Some text ->
  String.eqb text "middle" || String.eqb text "end" = true ->
  prior_found assume_local_refs (definitions s) element = true ->
  exists s1,
    read_prior assume_local_refs element l require_refs s = Return (true, s1)
    /\ definitions s1 = definitions s /\ length (heap s1) = length (heap s).
Proof.
  unfold prior_found, read_prior. intros -> ->.
  destruct (non_empty (Xml.get element "priorRef")) as [prior_ref|]; [|discriminate].
  intros H. apply andb_true_iff in H as [Hlocal Hfound].
  apply bool_decide_eq_true in Hfound. destruct Hfound as [prior Hprior].
  replace (negb (Ids.is_local_id prior_ref) && negb assume_local_refs) with false
    by (destruct (Ids.is_local_id prior_ref), assume_local_refs;
        cbn in *; congruence).
  cbn. rewrite Hprior. cbn. eexists. split; [reflexivity|].
  cbn. split; [reflexivity|]. apply length_alter.
Qed.

(** Without text the fields of the trace are read through, and the two
    channel maps stay empty. *)
Lemma read_trace_fields_absent_text (element : Xml.Element)
    (ambient : option Ink.Context) (l : Ink.loc) (s : State) :
  Xml.text element = None ->
  references_resolve assume_local_refs (definitions s) element = true ->
  exists t s1,
    read_trace_fields assume_local_refs element ambient true l s
    = Return ((true, t), s1)
    /\ Ink.channels t = ∅ /\ Ink.trace_intermittent_channels t = ∅
    /\ length (heap s1) = length (heap s).
Proof.
  intros Htext Hrefs. unfold references_resolve in Hrefs.
  apply andb_true_iff in Hrefs as [Hrefs Hprior].
  apply andb_true_iff in Hrefs as [Hcontext Hbrush].
  unfold read_trace_fields.
  destruct (lookup_ref_found "context" "trace" context_table _ true s Hcontext)
    as (c & s1 & Hc & Hd1 & Hh1).
  unfold bind at 1. rewrite Hc.
  rewrite <- Hd1 in Hbrush, Hprior.
  destruct (lookup_ref_found "brush" "trace" brush_table _ true s1 Hbrush)
    as (b & s2 & Hb & Hd2 & Hh2).
  unfold bind at 1. rewrite Hb.
  rewrite <- Hd2 in Hprior.
  destruct (read_continuation_Return (Xml.get element "continuation") s2)
    as (cont & s3 & Hcont & Hd3 & Hh3 & Hcontinued).
  unfold bind at 1. rewrite Hcont.
  rewrite <- Hd3 in Hprior.
  assert (Hproceed : exists s4,
             (if is_continued cont
              then read_prior assume_local_refs element l true
              else ret true) s3 = Return (true, s4)
             /\ length (heap s4) = length (heap s3)).
  { destruct (is_continued cont) eqn:Hic.
    - destruct (Hcontinued eq_refl) as (text & Hattr & Hkind).
      destruct (read_prior_found element l true s3 text Hattr Hkind Hprior)
        as (s4 & Hp & _ & Hlen).
      exists s4. split; assumption.
    - exists s3. split; reflexivity. }
  destruct Hproceed as (s4 & Hproceed & Hh4).
  unfold bind at 1. rewrite Hproceed. cbn [negb].
  unfold read_trace_data. rewrite Htext. unfold bind at 1. cbn [ret].
  match goal with
  | |- context [bind ?m _ s4] =>
      assert (Hwarn : exists s5, m s4 = Return (tt, s5) /\ heap s5 = heap s4)
        by (destruct (non_empty (get_id element)), cont;
            eexists; split; reflexivity)
  end.
  destruct Hwarn as (s5 & Hwarn & Hh5).
  unfold bind. rewrite Hwarn. cbn.
  eexists _, _. split; [reflexivity|]. cbn.
  split; [reflexivity|]. split; [reflexivity|]. congruence.
Qed.

Lemma register_trace_Return (id : string) (l : Ink.loc) (s : State) :
  exists s', register_trace id l s = Return (tt, s') /\ heap s' = heap s.
Proof.
  unfold register_trace. destruct (_ <? _)%nat;
    eexists; split; reflexivity.
Qed.

(** The trace a [trace] child without text becomes. *)
Lemma read_item_absent_text
    (read_group_traces : Xml.Element -> option Ink.Context -> M (list Ink.TraceItem))
    (ambient : option Ink.Context) (child : Xml.Element) (s : State) :
  Xml.tag child = Inkml.TRACE ->
  Xml.text child = None ->
  references_resolve assume_local_refs (definitions s) child = true ->
  exists t s',
    read_item assume_local_refs read_group_traces ambient child s
    = Return (Some (Ink.ItemTrace (length (heap s))), s')
    /\ heap s' !! length (heap s) = Some t
    /\ Ink.channels t = ∅ /\ Ink.trace_intermittent_channels t = ∅.
Proof.
  intros Htag Htext Hrefs. unfold read_item.
  rewrite Htag, String.eqb_refl. unfold read_trace, new_trace_object.
  set (s0 := {| definitions := definitions s; heap := heap s ++ [Ink.new_trace];
                log := log s |}).
  destruct (read_trace_fields_absent_text child ambient (length (heap s)) s0
              Htext Hrefs) as (t & s1 & Hfields & Hch & Hich & Hlen).
  unfold bind at 1. unfold bind at 1. fold s0. unfold bind at 1. rewrite Hfields.
  cbn -[register_trace]. unfold bind.
  match goal with
  | |- context [register_trace ?id ?l ?st] =>
      destruct (register_trace_Return id l st) as (s2 & Hreg & Hheap)
  end.
  rewrite Hreg. cbn. exists t, s2. split; [reflexivity|].
  split; [|split; assumption].
  rewrite Hheap. cbn. apply list_lookup_insert_eq.
  rewrite Hlen. subst s0. cbn. rewrite length_app. cbn. lia.
Qed.

(** C10 (amended).  A [trace] child without text whose references
    resolve (no [contextRef] or [brushRef] that is local and missing,
    and for a continuation [middle] or [end] a [priorRef] that names a
    trace read before) is read into a trace that [read_traces] returns
    in its list, between what the children before it and after it
    yield, and both of its channel maps are empty once [read_traces]
    is over, whatever the trace format declares. *)
Theorem absent_text_empty_trace (container : Xml.Element)
    (ambient : option Ink.Context) (pre : list Xml.Element) (child : Xml.Element)
    (post : list Xml.Element) (s : State) (before : list Ink.TraceItem)
    (s1 : State) :
  Xml.children container = pre ++ child :: post ->
  Xml.tag child = Inkml.TRACE ->
  Xml.text child = None ->
  collect (read_item assume_local_refs (read_traces assume_local_refs) ambient) pre s
  = Return (before, s1) ->
  references_resolve assume_local_refs (definitions s1) child = true ->
  (exists t s2,
     read_item assume_local_refs (read_traces assume_local_refs) ambient child s1
     = Return (Some (Ink.ItemTrace (length (heap s1))), s2)
     /\ heap s2 !! length (heap s1) = Some t
     /\ Ink.channels t = ∅ /\ Ink.trace_intermittent_channels t = ∅)
  /\ (forall items s',
        read_traces assume_local_refs container ambient s = Return (items, s') ->
        exists after t,
          items = before ++ Ink.ItemTrace (length (heap s1)) :: after
          /\ heap s' !! length (heap s1) = Some t
          /\ Ink.channels t = ∅ /\ Ink.trace_intermittent_channels t = ∅).
Proof.
  intros Hchildren Htag Htext Hbefore Hrefs.
  destruct (read_item_absent_text (read_traces assume_local_refs) ambient child s1
              Htag Htext Hrefs) as (t & s2 & Hchild & Hlookup & Hch & Hich).
  split; [exists t, s2; repeat split; assumption|].
  intros items s' H.
  destruct container as [tag attrib text tail children]. cbn in Hchildren, H.
  subst children.
  apply collect_app_Return in H
    as (before' & s1' & r & s2' & after & Hbefore' & Hchild' & Hafter & ->).
  rewrite Hbefore in Hbefore'. injection Hbefore' as <- <-.
  rewrite Hchild in Hchild'. injection Hchild' as <- <-.
  assert (Hlen : S (length (heap s1)) <= length (heap s2)).
  { apply lookup_lt_Some in Hlookup. lia. }
  assert (Hframe : frame (S (length (heap s1))) s2 s').
  { refine (maintains_collect (S (length (heap s1)))
              (read_item assume_local_refs (read_traces assume_local_refs) ambient)
              post _ s2 after s' Hlen Hafter).
    apply Forall_forall. intros e _. apply maintains_read_item.
    intros ctx. apply maintains_read_traces. }
  destruct Hframe as (_ & _ & _ & _ & Hheap).
  destruct (Hheap (length (heap s1)) t ltac:(lia) Hlookup) as (t' & Ht' & Hs1 & Hs2).
  exists after, t'. cbn. split; [reflexivity|]. split; [exact Ht'|].
  split; congruence.
Qed.


End WithReader.

Lemma absent_text_empty_trace_witness :
  (exists t s2,
     read_item false (read_traces false) None
               (Examples.element "trace" [] None []) Examples.initial
     = Return (Some (Ink.ItemTrace (length (heap Examples.initial))), s2)
     /\ heap s2 !! length (heap Examples.initial) = Some t
     /\ Ink.channels t = ∅ /\ Ink.trace_intermittent_channels t = ∅)
  /\ (forall items s',
        read_traces false Examples.empty_trace_document None Examples.initial
        = Return (items, s') ->
        exists after t,
          items = [] ++ Ink.ItemTrace (length (heap Examples.initial)) :: after
          /\ heap s' !! length (heap Examples.initial) = Some t
          /\ Ink.channels t = ∅ /\ Ink.trace_intermittent_channels t = ∅).
Proof.
  apply (absent_text_empty_trace false Examples.empty_trace_document None []
           (Examples.element "trace" [] None [])
           [Examples.element "trace" [] (Some "1 2") []] Examples.initial []
           Examples.initial).
  - reflexivity.
  - reflexivity.
  - reflexivity.
  - reflexivity.
  - reflexivity.
Defined.

(** C10 as stated fails: [<ink><trace contextRef="#missing"/></ink>] has
    a trace without text, and no trace is returned for it. *)
Lemma dangling_trace_absent :
  Xml.text (Examples.element "trace" [("contextRef", "#missing")] None []) = None
  /\ read_traces false Examples.dangling_trace_document None Examples.initial
     = Return ([], {| definitions := RT.new_definitions; heap := [Ink.new_trace];
                      log := [CouldNotFind "context" "#missing" "trace";
                              CouldNotRead "trace"] |}).
Proof. split; vm_compute; reflexivity. Qed.

(** A trace without text inside [definitions] is read, and the list
    [read_traces] returns it in is dropped by [read_definitions]: for
    [<ink><definitions><trace/></definitions></ink>] no table of the
    definitions has the trace, and the list of traces read from the
    root, which is the list of the document, is empty. *)
Lemma definitions_trace_unlisted :
  exists s',
    read_definitions false Examples.definitions_trace_document Examples.initial
    = Return (RT.new_definitions, s')
    /\ length (heap s') = 1
    /\ read_traces false Examples.definitions_trace_document None s'
       = Return ([], s').
Proof. eexists. split; [vm_compute; reflexivity|]. split; reflexivity. Qed.


End TraceBodies.

(** ** Brush parent references (C4) *)

Section BrushReferences.
Import References SpecReferences.

Implicit Types brushes : gmap string RT.BrushEnvelope.

Lemma elem_of_terminal_ids brushes (id : string) :
  registered_by_id brushes ->
  id ∈ terminal_ids brushes
  <-> exists envelope, brushes !! id = Some envelope /\ is_terminal envelope = true.
Proof.
  intros Hreg. unfold terminal_ids.
  rewrite elem_of_list_to_set, list_elem_of_fmap. split.
  - intros (e & -> & He). apply list_elem_of_filter in He as [Hterm He].
    apply list_elem_of_fmap in He as ([k e'] & -> & Hke).
    apply elem_of_map_to_list in Hke. cbn in *.
    exists e'. rewrite (Hreg k e' Hke). split; assumption.
  - intros (e & He & Hterm). exists e. split; [symmetry; apply (Hreg id e He)|].
    apply list_elem_of_filter. split; [exact Hterm|].
    apply list_elem_of_fmap. exists (id, e). split; [reflexivity|].
    apply elem_of_map_to_list. exact He.
Qed.

Lemma elem_of_referencing_ids brushes (id : string) :
  registered_by_id brushes ->
  id ∈ referencing_ids brushes
  <-> exists envelope, brushes !! id = Some envelope /\ is_terminal envelope = false.
Proof.
  intros Hreg. unfold referencing_ids.
  rewrite elem_of_list_to_set, list_elem_of_fmap. split.
  - intros (e & -> & He). apply list_elem_of_filter in He as [Hterm He].
    apply list_elem_of_fmap in He as ([k e'] & -> & Hke).
    apply elem_of_map_to_list in Hke. cbn in *.
    exists e'. rewrite (Hreg k e' Hke). split; assumption.
  - intros (e & He & Hterm). exists e. split; [symmetry; apply (Hreg id e He)|].
    apply list_elem_of_filter. split; [exact Hterm|].
    apply list_elem_of_fmap. exists (id, e). split; [reflexivity|].
    apply elem_of_map_to_list. exact He.
Qed.

Lemma resolvable_registered brushes (id : string) :
  resolvable brushes id -> is_Some (brushes !! id).
Proof. intros [? e He _|? e He _ _]; exists e; exact He. Qed.

(** *** One pass over the backlog *)

Lemma resolve_stage_spec (original : gmap string RT.BrushEnvelope)
    (resolved : gset string) (ids : list string) brushes :
  NoDup ids ->
  (forall id, id ∈ ids ->
     exists envelope, original !! id = Some envelope /\ brushes !! id = Some envelope) ->
  (forall id, id ∈ resolved -> is_Some (brushes !! id)) ->
  (forall id, id ∈ ids -> id ∉ resolved) ->
  exists brushes' stage_ids,
    resolve_stage ids brushes resolved = Return (brushes', stage_ids)
    /\ (forall id, id ∈ stage_ids
        <-> id ∈ ids
            /\ exists envelope,
                 original !! id = Some envelope /\ parent_id envelope ∈ resolved)
    /\ (forall id envelope,
          id ∈ stage_ids -> original !! id = Some envelope ->
          brushes' !! id = Some (set_parent envelope (parent_id envelope)))
    /\ (forall id, id ∉ stage_ids -> brushes' !! id = brushes !! id).
Proof.
  intros Hnodup. revert brushes.
  induction Hnodup as [|id rest Hfresh Hnodup IH]; intros brushes Hids Hresolved Hout.
  - exists brushes, []. cbn. split; [reflexivity|]. split; [|split].
    + intros id. split; [intros H; inversion H|intros [H _]; inversion H].
    + intros id e H. inversion H.
    + reflexivity.
  - destruct (Hids id ltac:(left)) as (e & Horiginal & Hcurrent).
    cbn. rewrite Hcurrent. fold (parent_id e).
    destruct (decide (parent_id e ∈ resolved)) as [Hparent|Hparent].
    + destruct (Hresolved _ Hparent) as [p ->].
      destruct (IH (<[id := set_parent e (parent_id e)]> brushes))
        as (brushes' & stage & -> & Hstage & Hset & Hkept).
      * intros id' Hid'. destruct (Hids id' ltac:(right; exact Hid')) as (e' & ? & ?).
        exists e'. split; [assumption|]. rewrite lookup_insert_ne; [assumption|].
        intros ->. contradiction.
      * intros id' Hid'. rewrite lookup_insert. case_decide; [eexists; reflexivity|].
        apply Hresolved. exact Hid'.
      * intros id' Hid'. apply Hout. right. exact Hid'.
      * exists brushes', (id :: stage). cbn. split; [reflexivity|].
        assert (Hnot : id ∉ stage).
        { intros H. apply Hstage in H as [H _]. contradiction. }
        split; [|split].
        -- intros id'. rewrite !elem_of_cons, Hstage. split.
           ++ intros [->|[Hin Hex]]; [|split; [right; exact Hin|exact Hex]].
              split; [left; reflexivity|]. exists e. split; assumption.
           ++ intros [[->|Hin] Hex]; [left; reflexivity|right; split; assumption].
        -- intros id' e' Hin Hlook. apply elem_of_cons in Hin as [->|Hin].
           ++ rewrite (Hkept id Hnot), lookup_insert_eq. congruence.
           ++ apply Hset; assumption.
        -- intros id' Hnotin. apply not_elem_of_cons in Hnotin as [Hne Hnotin].
           rewrite (Hkept id' Hnotin). apply lookup_insert_ne. congruence.
    + destruct (IH brushes) as (brushes' & stage & -> & Hstage & Hset & Hkept).
      * intros id' Hid'. apply Hids. right. exact Hid'.
      * exact Hresolved.
      * intros id' Hid'. apply Hout. right. exact Hid'.
      * exists brushes', stage. split; [reflexivity|]. split; [|split].
        -- intros id'. rewrite Hstage, elem_of_cons. split.
           ++ intros [Hin Hex]. split; [right; exact Hin|exact Hex].
           ++ intros [[->|Hin] Hex]; [|split; assumption].
              destruct Hex as (e' & He' & Hp). congruence.
        -- exact Hset.
        -- exact Hkept.
Qed.

(** *** The loop *)

(** What the loop keeps true of the table it works on, [original] being
    the table it started from: the brushes in the backlog are as they
    were, the resolved ones are linked, and every brush is in one of the
    two sets. *)
Record loop_invariant (original brushes : gmap string RT.BrushEnvelope)
    (backlog resolved : gset string) : Prop := {
  invariant_backlog : forall id, id ∈ backlog ->
    exists envelope,
      original !! id = Some envelope /\ is_terminal envelope = false
      /\ brushes !! id = Some envelope;
  invariant_resolved : forall id, id ∈ resolved ->
    exists envelope,
      original !! id = Some envelope /\ resolvable original id
      /\ brushes !! id = Some (linked envelope);
  invariant_all : forall id, is_Some (original !! id) -> id ∈ backlog \/ id ∈ resolved;
  invariant_disjoint : forall id, id ∈ backlog -> id ∉ resolved;
  invariant_others : forall id, original !! id = None -> brushes !! id = None
}.

Lemma resolve_loop_eq (fuel : nat) brushes (backlog resolved : gset string) :
  resolve_loop fuel brushes backlog resolved
  = if decide (size backlog = 0) then Return (brushes, backlog)
    else
      match fuel with
      | O => Return (brushes, backlog)
      | S fuel' =>
          py_bind (resolve_stage (elements backlog) brushes resolved)
            (fun '(brushes', stage_ids) =>
               match stage_ids with
               | [] => Return (brushes', backlog)
               | _ =>
                   resolve_loop fuel' brushes'
                     (backlog ∖ list_to_set stage_ids)
                     (resolved ∪ list_to_set stage_ids)
               end)
      end.
Proof. destruct fuel; reflexivity. Qed.

(** When a pass resolves nothing, nothing in the backlog can be resolved. *)
Lemma stuck_backlog (original brushes : gmap string RT.BrushEnvelope)
    (backlog resolved : gset string) (id : string) :
  loop_invariant original brushes backlog resolved ->
  (forall id envelope,
     id ∈ backlog -> original !! id = Some envelope -> parent_id envelope ∉ resolved) ->
  resolvable original id -> id ∉ backlog.
Proof.
  intros Hinv Hstuck Hres.
  induction Hres as [id e He Hterm|id e He Hterm Hparent IH]; intros Hin.
  - destruct (invariant_backlog _ _ _ _ Hinv id Hin) as (e' & He' & Hterm' & _).
    congruence.
  - apply (Hstuck id e Hin He).
    destruct (invariant_all _ _ _ _ Hinv (parent_id e)
                (resolvable_registered _ _ Hparent)) as [Hback|Hdone];
      [contradiction|exact Hdone].
Qed.

Lemma resolve_loop_spec (original : gmap string RT.BrushEnvelope) (fuel : nat)
    brushes (backlog resolved : gset string) :
  loop_invariant original brushes backlog resolved ->
  size backlog <= fuel ->
  exists brushes' backlog' resolved',
    resolve_loop fuel brushes backlog resolved = Return (brushes', backlog')
    /\ loop_invariant original brushes' backlog' resolved'
    /\ (forall id, id ∈ backlog' -> ~ resolvable original id).
Proof.
  revert brushes backlog resolved.
  induction fuel as [|fuel IH]; intros brushes backlog resolved Hinv Hsize;
    rewrite resolve_loop_eq.
  - destruct (decide (size backlog = 0)) as [Hzero|Hsome]; [|lia].
    exists brushes, backlog, resolved. split; [reflexivity|]. split; [exact Hinv|].
    intros id Hin. apply size_empty_iff in Hzero. set_solver.
  - destruct (decide (size backlog = 0)) as [Hzero|Hsome].
    { exists brushes, backlog, resolved. split; [reflexivity|]. split; [exact Hinv|].
      intros id Hin. apply size_empty_iff in Hzero. set_solver. }
    destruct (resolve_stage_spec original resolved (elements backlog) brushes)
      as (brushes' & stage & Hrun & Hstage & Hset & Hkept).
    { apply NoDup_elements. }
    { intros id Hin. apply elem_of_elements in Hin.
      destruct (invariant_backlog _ _ _ _ Hinv id Hin) as (e & He & _ & Hcur).
      exists e. split; assumption. }
    { intros id Hin.
      destruct (invariant_resolved _ _ _ _ Hinv id Hin) as (e & _ & _ & Hcur).
      eexists. exact Hcur. }
    { intros id Hin. apply elem_of_elements in Hin.
      apply (invariant_disjoint _ _ _ _ Hinv id Hin). }
    rewrite Hrun. cbn [py_bind].
    destruct stage as [|first more].
    + assert (brushes' = brushes) as ->.
      { apply map_eq. intros id. apply Hkept. intros H. inversion H. }
      exists brushes, backlog, resolved. split; [reflexivity|]. split; [exact Hinv|].
      intros id Hin Hres. revert Hin.
      apply (stuck_backlog original brushes backlog resolved id Hinv); [|exact Hres].
      intros id' e' Hin' He' Hparent.
      assert (Hno : id' ∈ @nil string); [|inversion Hno].
      apply Hstage. split; [apply elem_of_elements; exact Hin'|].
      exists e'. split; assumption.
    + remember (first :: more) as stage eqn:Hshape.
      assert (Hsub : forall id, id ∈ stage -> id ∈ backlog).
      { intros id Hin. apply Hstage in Hin as [Hin _].
        apply elem_of_elements in Hin. exact Hin. }
      destruct (IH brushes' (backlog ∖ list_to_set stage) (resolved ∪ list_to_set stage))
        as (brushes'' & backlog' & resolved' & Hloop & Hinv' & Hleft).
      * constructor.
        -- intros id Hin. apply elem_of_difference in Hin as [Hin Hnot].
           rewrite elem_of_list_to_set in Hnot.
           destruct (invariant_backlog _ _ _ _ Hinv id Hin) as (e & He & Hterm & Hcur).
           exists e. split; [exact He|]. split; [exact Hterm|].
           rewrite (Hkept id Hnot). exact Hcur.
        -- intros id Hin. apply elem_of_union in Hin as [Hin|Hin].
           ++ destruct (invariant_resolved _ _ _ _ Hinv id Hin)
                as (e & He & Hres & Hcur).
              exists e. split; [exact He|]. split; [exact Hres|].
              rewrite Hkept; [exact Hcur|].
              intros Hstaged. apply Hsub in Hstaged.
              apply (invariant_disjoint _ _ _ _ Hinv id Hstaged Hin).
           ++ rewrite elem_of_list_to_set in Hin.
              pose proof (Hsub id Hin) as Hback.
              destruct (invariant_backlog _ _ _ _ Hinv id Hback)
                as (e & He & Hterm & Hcur).
              apply Hstage in Hin as Hin'. destruct Hin' as [_ (e' & He' & Hparent)].
              assert (e' = e) as -> by congruence.
              exists e. split; [exact He|]. split.
              ** apply (resolvable_parent original id e He Hterm).
                 destruct (invariant_resolved _ _ _ _ Hinv _ Hparent)
                   as (_ & _ & Hres & _).
                 exact Hres.
              ** rewrite (Hset id e Hin He). unfold linked. rewrite Hterm. reflexivity.
        -- intros id Hid.
           destruct (invariant_all _ _ _ _ Hinv id Hid) as [Hback|Hdone].
           ++ destruct (decide (id ∈ stage)) as [Hstaged|Hnot].
              ** right. apply elem_of_union. right.
                 apply elem_of_list_to_set. exact Hstaged.
              ** left. apply elem_of_difference. split; [exact Hback|].
                 rewrite elem_of_list_to_set. exact Hnot.
           ++ right. apply elem_of_union. left. exact Hdone.
        -- intros id Hin Hdone. apply elem_of_difference in Hin as [Hin Hnot].
           apply elem_of_union in Hdone as [Hdone|Hdone].
           ++ apply (invariant_disjoint _ _ _ _ Hinv id Hin Hdone).
           ++ contradiction.
        -- intros id Hid. rewrite Hkept; [apply (invariant_others _ _ _ _ Hinv id Hid)|].
           intros Hstaged. apply Hsub in Hstaged.
           destruct (invariant_backlog _ _ _ _ Hinv id Hstaged) as (e & He & _).
           congruence.
      * assert (Hless : size (backlog ∖ list_to_set stage) < size backlog); [|lia].
        apply subset_size. split.
        -- intros id Hin. apply elem_of_difference in Hin as [Hin _]. exact Hin.
        -- intros Hall.
           assert (Hstaged : first ∈ stage) by (subst stage; left).
           pose proof (Hall first (Hsub first Hstaged)) as Hfirst.
           apply elem_of_difference in Hfirst as [_ Hnot].
           apply Hnot. apply elem_of_list_to_set. exact Hstaged.
      * exists brushes'', backlog', resolved'.
        split; [exact Hloop|split; assumption].
Qed.

Lemma initial_invariant brushes :
  registered_by_id brushes ->
  loop_invariant brushes brushes (referencing_ids brushes) (terminal_ids brushes).
Proof.
  intros Hreg. constructor.
  - intros id Hin. apply (elem_of_referencing_ids _ _ Hreg) in Hin as (e & He & Hterm).
    exists e. repeat split; assumption.
  - intros id Hin. apply (elem_of_terminal_ids _ _ Hreg) in Hin as (e & He & Hterm).
    exists e. split; [exact He|]. split; [exact (resolvable_terminal _ _ _ He Hterm)|].
    unfold linked. rewrite Hterm. exact He.
  - intros id [e He]. destruct (is_terminal e) eqn:Hterm.
    + right. apply (elem_of_terminal_ids _ _ Hreg). exists e. split; assumption.
    + left. apply (elem_of_referencing_ids _ _ Hreg). exists e. split; assumption.
  - intros id Hback Hdone.
    apply (elem_of_referencing_ids _ _ Hreg) in Hback as (e & He & Hterm).
    apply (elem_of_terminal_ids _ _ Hreg) in Hdone as (e' & He' & Hterm').
    congruence.
  - intros id Hid. exact Hid.
Qed.

(** *** Deleting the ignored brushes *)

Lemma delete_all_spec (ids : list string) brushes :
  NoDup ids ->
  (forall id, id ∈ ids -> is_Some (brushes !! id)) ->
  exists brushes',
    delete_all ids brushes = Return brushes'
    /\ (forall id, id ∈ ids -> brushes' !! id = None)
    /\ (forall id, id ∉ ids -> brushes' !! id = brushes !! id).
Proof.
  intros Hnodup. revert brushes.
  induction Hnodup as [|id rest Hfresh Hnodup IH]; intros brushes Hids.
  - exists brushes. split; [reflexivity|]. split; [|reflexivity].
    intros id H. inversion H.
  - destruct (Hids id ltac:(left)) as [e He]. cbn. rewrite He.
    destruct (IH (delete id brushes)) as (brushes' & -> & Hgone & Hkept).
    { intros id' Hid'. rewrite lookup_delete_ne; [apply Hids; right; exact Hid'|].
      intros ->. contradiction. }
    exists brushes'. split; [reflexivity|]. split.
    + intros id' Hin. apply elem_of_cons in Hin as [->|Hin]; [|apply Hgone; exact Hin].
      rewrite (Hkept id Hfresh). apply lookup_delete_eq.
    + intros id' Hnot. apply not_elem_of_cons in Hnot as [Hne Hnot].
      rewrite (Hkept id' Hnot). apply lookup_delete_ne. congruence.
Qed.

(** *** The brush step of [resolve_references] *)

Lemma resolve_brush_references_spec brushes :
  registered_by_id brushes ->
  exists brushes' messages (ignored : gset string),
    resolve_brush_references brushes = Return (brushes', messages)
    /\ (forall id, id ∈ ignored <-> is_Some (brushes !! id) /\ ~ resolvable brushes id)
    /\ (forall id, id ∈ ignored -> brushes' !! id = None)
    /\ (forall id envelope,
          brushes !! id = Some envelope -> id ∉ ignored ->
          resolvable brushes id /\ brushes' !! id = Some (linked envelope))
    /\ (forall id, brushes !! id = None -> brushes' !! id = None)
    /\ messages = if decide (size ignored = 0) then []
                   else [brush_message (elements ignored)].
Proof.
  intros Hreg. unfold resolve_brush_references, resolve_brush_parent_references.
  destruct (resolve_loop_spec brushes (size (referencing_ids brushes)) brushes
              (referencing_ids brushes) (terminal_ids brushes)
              (initial_invariant brushes Hreg) (le_n _))
    as (linked_brushes & ignored & resolved & -> & Hinv & Hleft).
  cbn [py_bind].
  assert (Hignored : forall id,
            id ∈ ignored <-> is_Some (brushes !! id) /\ ~ resolvable brushes id).
  { intros id. split.
    - intros Hin. split; [|apply Hleft; exact Hin].
      destruct (invariant_backlog _ _ _ _ Hinv id Hin) as (e & He & _).
      exists e. exact He.
    - intros [Hid Hnot].
      destruct (invariant_all _ _ _ _ Hinv id Hid) as [Hback|Hdone]; [exact Hback|].
      destruct (invariant_resolved _ _ _ _ Hinv id Hdone) as (_ & _ & Hres & _).
      contradiction. }
  assert (Hkept : forall id envelope,
            brushes !! id = Some envelope -> id ∉ ignored ->
            resolvable brushes id /\ linked_brushes !! id = Some (linked envelope)).
  { intros id e He Hnot.
    destruct (invariant_all _ _ _ _ Hinv id ltac:(eexists; exact He))
      as [Hback|Hdone]; [contradiction|].
    destruct (invariant_resolved _ _ _ _ Hinv id Hdone) as (e' & He' & Hres & Hcur).
    assert (e' = e) as -> by congruence. split; assumption. }
  destruct (decide (size ignored = 0)) as [Hzero|Hsome].
  - exists linked_brushes, [], ignored. split; [reflexivity|].
    split; [exact Hignored|].
    split; [intros id Hin; apply size_empty_iff in Hzero; set_solver|].
    split; [exact Hkept|].
    split; [apply (invariant_others _ _ _ _ Hinv)|].
    case_decide; [reflexivity|contradiction].
  - destruct (delete_all_spec (elements ignored) linked_brushes)
      as (brushes' & -> & Hgone & Hrest).
    { apply NoDup_elements. }
    { intros id Hin. apply elem_of_elements in Hin.
      destruct (invariant_backlog _ _ _ _ Hinv id Hin) as (e & _ & _ & Hcur).
      eexists. exact Hcur. }
    exists brushes', [brush_message (elements ignored)], ignored.
    split; [reflexivity|]. split; [exact Hignored|].
    split; [intros id Hin; apply Hgone, elem_of_elements; exact Hin|].
    split; [|split; [|case_decide; [contradiction|reflexivity]]].
    + intros id e He Hnot. destruct (Hkept id e He Hnot) as [Hres Hcur].
      split; [exact Hres|]. rewrite Hrest; [exact Hcur|].
      rewrite elem_of_elements. exact Hnot.
    + intros id Hid. destruct (decide (id ∈ ignored)) as [Hin|Hnot].
      * apply Hgone, elem_of_elements. exact Hin.
      * rewrite Hrest; [apply (invariant_others _ _ _ _ Hinv id Hid)|].
        rewrite elem_of_elements. exact Hnot.
Qed.

(** *** Parent chains *)

Lemma chain_ends_functional brushes (n m : nat) (id : string) :
  chain_ends brushes n id -> chain_ends brushes m id -> n = m.
Proof.
  intros Hn. revert m.
  induction Hn as [id e He Hroot|n id e p He Hlink Hn IH]; intros m Hm;
    inversion Hm as [id' e' He' Hroot'|m' id' e' p' He' Hlink' Hm']; subst;
    try congruence.
  f_equal. apply IH. congruence.
Qed.

Lemma ancestor_chain_shorter brushes (id a : string) (n : nat) :
  ancestor brushes id a -> chain_ends brushes n id ->
  exists m, m < n /\ chain_ends brushes m a.
Proof.
  intros Ha. revert n.
  induction Ha as [id e p He Hlink|id e p a He Hlink Ha IH]; intros n Hn;
    inversion Hn as [id' e' He' Hroot'|n' id' e' p' He' Hlink' Hn']; subst;
    try congruence.
  - exists n'. split; [lia|]. congruence.
  - destruct (IH n') as (m & Hm & Hchain); [congruence|].
    exists m. split; [lia|exact Hchain].
Qed.

Lemma chain_ends_acyclic brushes (n : nat) (id : string) :
  chain_ends brushes n id -> ~ ancestor brushes id id.
Proof.
  intros Hn Ha. destruct (ancestor_chain_shorter _ _ _ _ Ha Hn) as (m & Hm & Hchain).
  pose proof (chain_ends_functional _ _ _ _ Hn Hchain). lia.
Qed.

(** A brush whose reference resolves in the table [brushes] has a parent
    chain that ends in any table that has every such brush, linked. *)
Lemma resolvable_chain_ends brushes brushes' (id : string) :
  unlinked brushes ->
  (forall id envelope,
     brushes !! id = Some envelope -> resolvable brushes id ->
     brushes' !! id = Some (linked envelope)) ->
  resolvable brushes id ->
  exists n, chain_ends brushes' n id.
Proof.
  intros Hunlinked Hlinked Hres.
  induction Hres as [id e He Hterm|id e He Hterm Hparent [n IH]].
  - exists 0. apply (chain_root brushes' id (linked e)).
    + apply (Hlinked id e He). exact (resolvable_terminal _ _ _ He Hterm).
    + unfold linked. rewrite Hterm. exact (Hunlinked id e He).
  - exists (S n). apply (chain_link brushes' n id (linked e) (parent_id e)).
    + apply (Hlinked id e He). exact (resolvable_parent _ _ _ He Hterm Hparent).
    + unfold linked. rewrite Hterm. reflexivity.
    + exact IH.
Qed.

(** *** References that lead into a set of brushes *)

Lemma leads_into_unresolvable brushes (ids : gset string) (id : string) :
  (forall i, i ∈ ids -> ~ resolvable brushes i) ->
  leads_into brushes ids id -> ~ resolvable brushes id.
Proof.
  intros Hids Hleads.
  induction Hleads as [id Hin|id e He Hterm Hleads IH]; [apply Hids; exact Hin|].
  intros Hres. inversion Hres as [id' e' He' Hterm'|id' e' He' Hterm' Hparent]; subst.
  - congruence.
  - apply IH. congruence.
Qed.

(** Two tables that differ only at [ids] resolve the same references
    among those that do not lead into [ids]. *)
Lemma resolvable_outside brushes other (ids : gset string) (id : string) :
  (forall i, i ∉ ids -> other !! i = brushes !! i) ->
  ~ leads_into brushes ids id ->
  resolvable brushes id <-> resolvable other id.
Proof.
  intros Hsame Hout.
  assert (Hhere : forall i, ~ leads_into brushes ids i -> i ∉ ids).
  { intros i Hi Hin. apply Hi. apply leads_here. exact Hin. }
  split; intros Hres.
  - induction Hres as [id e He Hterm|id e He Hterm Hparent IH].
    + apply (resolvable_terminal other id e); [|exact Hterm].
      rewrite (Hsame id (Hhere id Hout)). exact He.
    + apply (resolvable_parent other id e); [|exact Hterm|].
      * rewrite (Hsame id (Hhere id Hout)). exact He.
      * apply IH. intros Hleads. apply Hout.
        exact (leads_on brushes ids id e He Hterm Hleads).
  - induction Hres as [id e He Hterm|id e He Hterm Hparent IH].
    + apply (resolvable_terminal brushes id e); [|exact Hterm].
      rewrite <- (Hsame id (Hhere id Hout)). exact He.
    + rewrite (Hsame id (Hhere id Hout)) in He.
      apply (resolvable_parent brushes id e); [exact He|exact Hterm|].
      apply IH. intros Hleads. apply Hout.
      exact (leads_on brushes ids id e He Hterm Hleads).
Qed.

(** C4 (amended).  For a brush table as [read_definitions] leaves it
    (every brush under its own id, no parent set), the brush step of
    [resolve_references] returns, and of the table it leaves: every
    brush has a parent chain that ends inside the table and on which
    the brush itself does not occur; the brushes removed are exactly
    those whose reference does not resolve; a brush that remains is the
    brush that was read, linked to the brush it names; there is no
    message when nothing is removed and otherwise one message, which
    names the removed brushes; a brush whose references lead to brushes
    that do not resolve (the brushes of a cycle, say) is absent as they
    are; and a brush whose references do not lead into a set of brushes
    comes out the same whatever the brushes of that set are. *)
Theorem brush_references_resolved (brushes : gmap string RT.BrushEnvelope) :
  registered_by_id brushes ->
  unlinked brushes ->
  exists brushes' messages,
    resolve_brush_references brushes = Return (brushes', messages)
    /\ (forall id, is_Some (brushes' !! id) ->
          (exists n, chain_ends brushes' n id) /\ ~ ancestor brushes' id id)
    /\ (forall id, removed brushes brushes' id
                   <-> is_Some (brushes !! id) /\ ~ resolvable brushes id)
    /\ (forall id envelope',
          brushes' !! id = Some envelope' ->
          exists envelope,
            brushes !! id = Some envelope /\ resolvable brushes id
            /\ envelope' = linked envelope)
    /\ ((forall id, ~ removed brushes brushes' id) /\ messages = []
        \/ exists ignored : gset string,
             ignored <> ∅
             /\ (forall id, id ∈ ignored <-> removed brushes brushes' id)
             /\ messages = [brush_message (elements ignored)])
    /\ (forall (ids : gset string) id,
          (forall i, i ∈ ids -> ~ resolvable brushes i) ->
          leads_into brushes ids id -> brushes' !! id = None)
    /\ (forall other other' messages' (ids : gset string) id,
          registered_by_id other ->
          resolve_brush_references other = Return (other', messages') ->
          (forall i, i ∉ ids -> other !! i = brushes !! i) ->
          ~ leads_into brushes ids id ->
          brushes' !! id = other' !! id).
Proof.
  intros Hreg Hunlinked.
  destruct (resolve_brush_references_spec brushes Hreg)
    as (brushes' & messages & ignored & Hrun & Hignored & Hgone & Hkept & Hnone
        & Hmessages).
  assert (Hremoved : forall id, id ∈ ignored <-> removed brushes brushes' id).
  { intros id. unfold removed. split.
    - intros Hin. split; [apply Hignored; exact Hin|apply Hgone; exact Hin].
    - intros [[e He] Habsent].
      destruct (decide (id ∈ ignored)) as [Hin|Hnot]; [exact Hin|].
      destruct (Hkept id e He Hnot) as [_ Hcur]. congruence. }
  assert (Hstays : forall id envelope',
            brushes' !! id = Some envelope' ->
            exists envelope,
              brushes !! id = Some envelope /\ resolvable brushes id
              /\ envelope' = linked envelope).
  { intros id e' He'. destruct (brushes !! id) as [e|] eqn:He.
    - destruct (decide (id ∈ ignored)) as [Hin|Hnot].
      + rewrite (Hgone id Hin) in He'. discriminate.
      + destruct (Hkept id e He Hnot) as [Hres Hcur].
        exists e. split; [reflexivity|]. split; [exact Hres|]. congruence.
    - rewrite (Hnone id He) in He'. discriminate. }
  assert (Hlinked : forall id envelope,
            brushes !! id = Some envelope -> resolvable brushes id ->
            brushes' !! id = Some (linked envelope)).
  { intros id e He Hres. apply (Hkept id e He).
    intros Hin. apply Hignored in Hin as [_ Hnot]. contradiction. }
  assert (Hunresolved : forall id, ~ resolvable brushes id -> brushes' !! id = None).
  { intros id Hnot. destruct (brushes !! id) as [e|] eqn:He.
    - apply Hgone, Hignored. split; [eexists; exact He|exact Hnot].
    - apply Hnone. exact He. }
  exists brushes', messages. split; [exact Hrun|].
  split; [|split; [|split; [exact Hstays|split; [|split]]]].
  - intros id [e' He']. destruct (Hstays id e' He') as (e & He & Hres & _).
    destruct (resolvable_chain_ends brushes brushes' id Hunlinked Hlinked Hres)
      as [n Hn].
    split; [exists n; exact Hn|exact (chain_ends_acyclic _ _ _ Hn)].
  - intros id. rewrite <- Hremoved. apply Hignored.
  - subst messages. destruct (decide (size ignored = 0)) as [Hzero|Hsome].
    + left. split; [|reflexivity]. intros id Hid. apply Hremoved in Hid.
      apply size_empty_iff in Hzero. set_solver.
    + right. exists ignored. split; [|split; [exact Hremoved|reflexivity]].
      intros ->. apply Hsome. apply size_empty.
  - intros ids id Hids Hleads. apply Hunresolved.
    exact (leads_into_unresolvable brushes ids id Hids Hleads).
  - intros other other' messages' ids id Hreg' Hrun' Hsame Hout.
    destruct (resolve_brush_references_spec other Hreg')
      as (other'' & messages'' & ignored' & Hrun'' & Hignored' & Hgone' & Hkept'
          & Hnone' & _).
    rewrite Hrun' in Hrun''. injection Hrun'' as <- <-.
    assert (Hhere : id ∉ ids).
    { intros Hin. apply Hout. apply leads_here. exact Hin. }
    pose proof (resolvable_outside brushes other ids id Hsame Hout) as Hiff.
    destruct (brushes !! id) as [e|] eqn:He.
    + destruct (decide (id ∈ ignored)) as [Hin|Hnot].
      * rewrite (Hgone id Hin). symmetry. apply Hgone', Hignored'.
        rewrite (Hsame id Hhere), He. split; [eexists; reflexivity|].
        intros Hres. apply Hiff in Hres.
        apply Hignored in Hin as [_ Hin]. contradiction.
      * destruct (Hkept id e He Hnot) as [Hres ->]. symmetry.
        apply (Hkept' id e); [rewrite (Hsame id Hhere); exact He|].
        intros Hin. apply Hignored' in Hin as [_ Hin]. apply Hin, Hiff. exact Hres.
    + rewrite (Hnone id He). symmetry. apply Hnone'.
      rewrite (Hsame id Hhere). exact He.
Qed.

Lemma brush_references_resolved_witness :
  exists brushes' messages,
    resolve_brush_references Examples.cyclic_brushes = Return (brushes', messages)
    /\ (forall id, removed Examples.cyclic_brushes brushes' id
                   <-> is_Some (Examples.cyclic_brushes !! id)
                       /\ ~ resolvable Examples.cyclic_brushes id)
    /\ (forall id, is_Some (brushes' !! id) ->
          (exists n, chain_ends brushes' n id) /\ ~ ancestor brushes' id id).
Proof.
  destruct (brush_references_resolved Examples.cyclic_brushes)
    as (brushes' & messages & Hrun & Hchains & Hremoved & _).
  - unfold registered_by_id. apply (bool_decide_unpack _). vm_compute. exact I.
  - unfold unlinked. apply (bool_decide_unpack _). vm_compute. exact I.
  - exists brushes', messages. split; [exact Hrun|]. split; assumption.
Defined.

(** C4 as stated fails: once [a] and [b] refer to each other, the brush
    [d], which is not one of the two and is read as it was before, is
    removed with them. *)
Lemma cycle_takes_dependent_brush :
  Examples.cyclic_brushes !! "d" = Examples.chained_brushes !! "d"
  /\ resolve_brush_references Examples.chained_brushes
     = Return (<["a" := Examples.brush_with "a" ""]>
                 (<["b" := Examples.brush_under "b" "#a" "a"]>
                    (<["d" := Examples.brush_under "d" "#a" "a"]> ∅)), [])
  /\ resolve_brush_references Examples.cyclic_brushes
     = Return (∅, [brush_message ["a"; "b"; "d"]]).
Proof. split; [|split]; vm_compute; reflexivity. Qed.

End BrushReferences.

(** ** Top-level contexts (C9) *)

Section TopLevelContexts.
Import Reading.

Lemma get_set_other {V : Type} (d : list (string * V)) (k k' : string) (v : V) :
  k <> k' -> Dict.get (Dict.set d k v) k' = Dict.get d k'.
Proof.
  intros Hne. induction d as [|[k0 v0] rest IH]; cbn.
  - destruct (String.eqb_spec k k'); [contradiction|reflexivity].
  - destruct (String.eqb_spec k0 k) as [->|Hk0]; cbn.
    + destruct (String.eqb_spec k k'); [contradiction|reflexivity].
    + rewrite IH. reflexivity.
Qed.

Lemma contexts_keep_nested (context : RT.ContextEnvelope) (d : RT.Definitions) :
  RT.contexts (keep_nested context d) = RT.contexts d.
Proof.
  unfold keep_nested.
  repeat match goal with
         | |- context [match ?x with _ => _ end] => destruct x
         end; reflexivity.
Qed.

Lemma contexts_keep_all_nested (contexts : list RT.ContextEnvelope) (d : RT.Definitions) :
  RT.contexts (foldl (fun d context => keep_nested context d) d contexts)
  = RT.contexts d.
Proof.
  revert d. induction contexts as [|c rest IH]; intros d; cbn; [reflexivity|].
  rewrite IH. apply contexts_keep_nested.
Qed.

(** The loop over the top-level contexts writes the slot of the empty
    id only. *)
Lemma read_root_contexts_slots (root : Xml.Element) (s s' : State) (u : unit)
    (id : string) :
  read_root_contexts root s = Return (u, s') ->
  id <> "" ->
  Dict.get (RT.contexts (definitions s')) id = Dict.get (RT.contexts (definitions s)) id.
Proof.
  unfold read_root_contexts. intros H Hid. revert s H.
  induction (Xml.findall root (Inkml.inkml "context")) as [|e rest IH];
    intros s H; cbn in H.
  - injection H as _ <-. reflexivity.
  - unfold bind at 1 in H. unfold bind at 1 in H.
    destruct (read_context e s) as [[context s1]|] eqn:Hcontext; [|discriminate].
    pose proof (maintains_read_context 0 e s context s1 (Nat.le_0_l _) Hcontext)
      as (Hcontexts & _).
    destruct (String.length (RT.context_envelope_id context) =? 0)%nat eqn:Hlength.
    + cbn in H. apply IH in H. rewrite H. cbn.
      rewrite get_set_other; [rewrite Hcontexts; reflexivity|].
      apply Nat.eqb_eq in Hlength.
      destruct (RT.context_envelope_id context); [|discriminate].
      intros Heq. apply Hid. symmetry. exact Heq.
    + cbn in H. apply IH in H. rewrite H, Hcontexts. reflexivity.
Qed.

Section WithReader.
Variable assume_local_refs : bool.

(** C9.  In a document without [definitions] elements no context is
    registered under an id: whatever top-level contexts the root has,
    the contexts table that [read_definitions] returns has no entry
    under a non-empty id. *)
Theorem top_level_context_with_id_absent (root : Xml.Element) (s s' : State)
    (d : RT.Definitions) (id : string) :
  Xml.findall root (Inkml.inkml "definitions") = [] ->
  read_definitions assume_local_refs root s = Return (d, s') ->
  id <> "" ->
  Dict.get (RT.contexts d) id = None.
Proof.
  intros Hnone H Hid. unfold read_definitions in H. rewrite Hnone in H.
  cbn [for_elements] in H. unfold bind at 1 in H. cbn [put_definitions] in H.
  unfold bind at 1 in H. cbn [ret] in H. unfold bind at 1 in H. cbn [ret] in H.
  unfold bind at 1 in H.
  match type of H with
  | context [read_root_contexts root ?s0] =>
      destruct (read_root_contexts root s0) as [[u s1]|] eqn:Hroot; [|discriminate]
  end.
  pose proof (read_root_contexts_slots root _ s1 u id Hroot Hid) as Hslots.
  cbn in Hslots, H. injection H as <- _. cbn.
  rewrite contexts_keep_all_nested. exact Hslots.
Qed.

End WithReader.

Lemma top_level_context_with_id_absent_witness :
  Dict.get (RT.contexts Examples.empty_slot_only) "c1" = None.
Proof.
  apply (top_level_context_with_id_absent false Examples.top_level_contexts_document
           Examples.initial
           {| definitions := Examples.empty_slot_only; heap := []; log := [] |}).
  - reflexivity.
  - vm_compute. reflexivity.
  - intros H. discriminate H.
Defined.

(** C9 at [<ink><context xml:id="c1"/><context/></ink>]: the context
    with the id [c1] is not registered, and the one without an id is
    kept, in the slot of the empty id. *)
Lemma top_level_contexts_registered :
  Xml.get (Examples.identified "context" "c1" [] []) Inkml.ID = Some "c1"
  /\ read_definitions false Examples.top_level_contexts_document Examples.initial
     = Return (Examples.empty_slot_only,
               {| definitions := Examples.empty_slot_only; heap := []; log := [] |})
  /\ Dict.get (RT.contexts Examples.empty_slot_only) "c1" = None
  /\ is_Some (Dict.get (RT.contexts Examples.empty_slot_only) "").
Proof.
  split; [vm_compute; reflexivity|]. split; [vm_compute; reflexivity|].
  split; [reflexivity|]. eexists. reflexivity.
Qed.

End TopLevelContexts.

(** ** Channel properties of an ink source (C8) *)

Section ChannelProperties.
Import Reading.

(** The properties of the channels of a trace format. *)
Definition format_properties (trace_format : Ink.TraceFormat)
  : list (string * gmap string Ink.Property) :=
  (fun channel => (Ink.channel_name channel, Ink.channel_properties channel))
    <$> (Ink.regular_channels trace_format ++ Ink.intermittent_channels trace_format).

Definition without_properties (channel : Ink.Channel) : Prop :=
  Ink.channel_properties channel = ∅.

Lemma read_channel_without_properties (element : Xml.Element) (s s' : State)
    (channel : Ink.Channel) :
  read_channel element s = Return (Some channel, s') -> without_properties channel.
Proof.
  unfold read_channel. destruct (Xml.get element "name"); cbn.
  - intros H. injection H as <- _. reflexivity.
  - intros H. discriminate H.
Qed.

Lemma read_channels_without_properties (elements : list Xml.Element)
    (acc channels : list Ink.Channel) (s s' : State) :
  Forall without_properties acc ->
  for_each read_channel (fun channels c => channels ++ [c]) elements acc s
  = Return (channels, s') ->
  Forall without_properties channels.
Proof.
  revert acc s. induction elements as [|e rest IH]; intros acc s Hacc H; cbn in H.
  - injection H as <- _. exact Hacc.
  - unfold bind at 1 in H.
    destruct (read_channel e s) as [[[c|] s1]|] eqn:Hchannel; [| |discriminate].
    + refine (IH _ _ _ H). apply Forall_app. split; [exact Hacc|].
      constructor; [|constructor].
      exact (read_channel_without_properties e s s1 c Hchannel).
    + exact (IH _ _ Hacc H).
Qed.

Lemma read_trace_format_without_properties (element : Xml.Element) (s s' : State)
    (trace_format : Ink.TraceFormat) :
  read_trace_format element s = Return (trace_format, s') ->
  Forall without_properties
         (Ink.regular_channels trace_format ++ Ink.intermittent_channels trace_format).
Proof.
  unfold read_trace_format. intros H. unfold bind at 1 in H.
  match type of H with
  | context [for_each read_channel ?f ?es [] s] =>
      destruct (for_each read_channel f es [] s) as [[regular s1]|] eqn:Hregular;
      [|discriminate]
  end.
  apply read_channels_without_properties in Hregular; [|constructor].
  unfold bind at 1 in H.
  destruct (Xml.find element (Inkml.inkml "intermittentChannels")) as [inner|].
  - match type of H with
    | context [for_each read_channel ?f ?es [] s1] =>
        destruct (for_each read_channel f es [] s1) as [[intermittent s2]|]
          eqn:Hintermittent; [|discriminate]
    end.
    apply read_channels_without_properties in Hintermittent; [|constructor].
    cbn in H. injection H as <- _. cbn. apply Forall_app. split; assumption.
  - cbn in H. injection H as <- _. cbn. rewrite app_nil_r. exact Hregular.
Qed.

Lemma assign_no_properties (channels : list Ink.Channel) :
  map (assign_properties ∅) channels = channels.
Proof.
  induction channels as [|c rest IH]; cbn; [reflexivity|].
  rewrite IH. unfold assign_properties. rewrite lookup_empty. reflexivity.
Qed.

(** C8.  When the [channelProperty] children of the wrapper are empty
    elements, as InkML has them, no property is attached: every channel
    of the trace format of the ink source that [read_ink_source] returns
    has an empty property map, whatever [channelProperty] children the
    wrapper has. *)
Theorem channel_properties_not_attached (element wrapper first : Xml.Element)
    (s s' : State) (source : Ink.InkSource) :
  Xml.find element (Inkml.inkml "channelProperties") = Some wrapper ->
  Xml.find wrapper (Inkml.inkml "channelProperty") = Some first ->
  Xml.children first = [] ->
  read_ink_source element s = Return (Some source, s') ->
  Forall without_properties
         (Ink.regular_channels (Ink.source_trace_format source)
          ++ Ink.intermittent_channels (Ink.source_trace_format source)).
Proof.
  intros Hwrapper Hfirst Hchildren H. unfold read_ink_source in H.
  destruct (get_id element) as [id|]; [|discriminate].
  destruct (Xml.find element (Inkml.inkml "traceFormat")) as [format_element|];
    [|discriminate].
  rewrite Hwrapper, Hfirst, Hchildren in H. cbn [for_each] in H.
  unfold bind at 1 in H.
  destruct (read_trace_format format_element s) as [[trace_format s1]|] eqn:Hformat;
    [|discriminate].
  apply read_trace_format_without_properties in Hformat.
  repeat (unfold bind at 1 in H;
          match type of H with
          | match ?m with Return _ => _ | Raise _ => _ end = _ =>
              destruct m as [[? ?]|] eqn:?; [|discriminate]
          end).
  match goal with
  | Hgroups : ret ∅ _ = Return (_, _) |- _ => injection Hgroups as <- _
  end.
  unfold ret in H. injection H as <- _.
  cbn [Ink.source_trace_format Ink.regular_channels Ink.intermittent_channels].
  rewrite !assign_no_properties. exact Hformat.
Qed.

Lemma channel_properties_not_attached_witness :
  Forall without_properties
    [{| Ink.channel_id := ""; Ink.channel_name := "X";
        Ink.channel_type := Ink.Decimal;
        Ink.channel_default := inl (PyNum.PyInt 0); Ink.channel_min := None;
        Ink.channel_max := None; Ink.channel_orientation := Ink.Positive;
        Ink.channel_respect_to := ""; Ink.channel_units := "";
        Ink.channel_properties := ∅; Ink.channel_respectTo := None |}].
Proof.
  apply (channel_properties_not_attached Examples.source_with_channel_property
           (Examples.element "channelProperties" [] None
              [Examples.element "channelProperty"
                 [("channel", "X"); ("name", "resolution"); ("value", "5")] None []])
           (Examples.element "channelProperty"
              [("channel", "X"); ("name", "resolution"); ("value", "5")] None [])
           Examples.initial Examples.initial
           (Examples.source_x (Examples.one_channel Ink.Decimal))).
  - vm_compute. reflexivity.
  - vm_compute. reflexivity.
  - reflexivity.
  - vm_compute. reflexivity.
Defined.

(** C8 at an ink source with the channel X and the wrapper
    [<channelProperties><channelProperty channel="X" name="resolution"
    value="5"/></channelProperties>]: the property is read from no
    element and the channel X is returned without it. *)
Lemma channel_property_lost :
  read_channel_property
    (Examples.element "channelProperty"
       [("channel", "X"); ("name", "resolution"); ("value", "5")] None [])
    Examples.initial
  = Return (Some (RT.mkChannelProperty "X" "resolution" "5" None), Examples.initial)
  /\ read_ink_source Examples.source_with_channel_property Examples.initial
     = Return (Some (Examples.source_x (Examples.one_channel Ink.Decimal)),
               Examples.initial)
  /\ format_properties (Examples.one_channel Ink.Decimal) = [("X", ∅)].
Proof. split; [|split]; vm_compute; reflexivity. Qed.

(** With a wrapper that has no [channelProperty] child the loop is over
    [None], and the call raises. *)
Lemma empty_wrapper_raises :
  read_ink_source Examples.source_with_empty_wrapper Examples.initial
  = Raise TypeError.
Proof. vm_compute. reflexivity. Qed.

(** What is read are the children of the first [channelProperty]: the
    properties [resolution] and [noise] are lost and [inner] is attached. *)
Lemma channel_property_children_read :
  (fun r => format_properties (Ink.source_trace_format r))
    <$> (Examples.returned
           (read_ink_source Examples.source_with_nested_channel_property
                            Examples.initial))
  = Some [("X", {["inner" := Ink.mkProperty "1" None]})].
Proof. vm_compute. reflexivity. Qed.

End ChannelProperties.

(** ** The brush table that [read_definitions] builds *)

Section BrushTable.
Import Reading References SpecReferences.

(** The brush nested in a context has no parent set. *)
Definition nested_unlinked (context : RT.ContextEnvelope) : Prop :=
  match RT.brush_or_ref context with
  | inl envelope => Ink.brush_parent (RT.brush envelope) = None
  | inr _ => True
  end.

(** Definitions whose brushes are as they were read. *)
Definition as_read (d : RT.Definitions) : Prop :=
  registered_by_id (RT.brushes d) /\ unlinked (RT.brushes d)
  /\ Forall nested_unlinked (Dict.values (RT.contexts d)).

Definition keeps_as_read {A : Type} (m : M A) : Prop :=
  forall s a s', as_read (definitions s) -> m s = Return (a, s') ->
                 as_read (definitions s').

Lemma maintains_keeps {A : Type} (m : M A) : maintains 0 m -> keeps_as_read m.
Proof.
  intros Hm s a s' Hgood H.
  destruct (Hm s a s' (Nat.le_0_l _) H) as (Hcontexts & Hbrushes & _).
  unfold as_read. rewrite Hcontexts, Hbrushes. exact Hgood.
Qed.

Lemma keeps_ret {A : Type} (a : A) : keeps_as_read (ret a).
Proof. intros s a' s' Hgood H. injection H as _ <-. exact Hgood. Qed.

Lemma keeps_bind_post {A B : Type} (Q : A -> Prop) (m : M A) (f : A -> M B) :
  keeps_as_read m ->
  (forall s a s', m s = Return (a, s') -> Q a) ->
  (forall a, Q a -> keeps_as_read (f a)) ->
  keeps_as_read (bind m f).
Proof.
  intros Hm HQ Hf s b s' Hgood H. unfold bind in H.
  destruct (m s) as [[a s1]|] eqn:Hms; [|discriminate].
  exact (Hf a (HQ s a s1 Hms) s1 b s' (Hm s a s1 Hgood Hms) H).
Qed.

Lemma keeps_bind {A B : Type} (m : M A) (f : A -> M B) :
  keeps_as_read m -> (forall a, keeps_as_read (f a)) -> keeps_as_read (bind m f).
Proof.
  intros Hm Hf. apply (keeps_bind_post (fun _ => True)); auto.
Qed.

Lemma keeps_update (f : RT.Definitions -> RT.Definitions) :
  (forall d, as_read d -> as_read (f d)) -> keeps_as_read (update_definitions f).
Proof. intros Hf s a s' Hgood H. injection H as _ <-. cbn. apply Hf. exact Hgood. Qed.

Lemma keeps_for_elements (body : Xml.Element -> M unit) (elements : list Xml.Element) :
  (forall e, keeps_as_read (body e)) -> keeps_as_read (for_elements body elements).
Proof.
  intros Hbody. induction elements as [|e rest IH]; cbn.
  - apply keeps_ret.
  - apply keeps_bind; [apply Hbody|intros _; exact IH].
Qed.

Lemma read_brush_unlinked (element : Xml.Element) (s s' : State)
    (envelope : RT.BrushEnvelope) :
  read_brush element s = Return (envelope, s') ->
  Ink.brush_parent (RT.brush envelope) = None.
Proof.
  unfold read_brush, bind, ret. intros H.
  repeat match type of H with
         | match ?m with Return _ => _ | Raise _ => _ end = _ =>
             destruct m as [[? ?]|]; [|discriminate]
         end.
  injection H as <- _. reflexivity.
Qed.

Lemma read_context_nested_unlinked (element : Xml.Element) (s s' : State)
    (context : RT.ContextEnvelope) :
  read_context element s = Return (context, s') -> nested_unlinked context.
Proof.
  unfold read_context. intros H.
  unfold bind at 1 in H.
  match type of H with
  | match ?m with Return _ => _ | Raise _ => _ end = _ =>
      destruct m as [[? ?]|]; [|discriminate]
  end.
  unfold bind at 1 in H.
  match type of H with
  | match ?m with Return _ => _ | Raise _ => _ end = _ =>
      destruct m as [[? ?]|]; [|discriminate]
  end.
  unfold bind at 1 in H.
  match type of H with
  | match ?m with Return _ => _ | Raise _ => _ end = _ =>
      destruct m as [[nested after_brush]|] eqn:Hnested; [|discriminate]
  end.
  unfold bind at 1 in H.
  match type of H with
  | match ?m with Return _ => _ | Raise _ => _ end = _ =>
      destruct m as [[? ?]|]; [|discriminate]
  end.
  unfold ret in H. injection H as <- _. unfold nested_unlinked. cbn.
  destruct (Xml.find element (Inkml.inkml "brush")) as [brush_element|].
  - unfold bind in Hnested.
    destruct (read_brush brush_element _) as [[envelope after_read]|] eqn:Hbrush;
      [|discriminate].
    injection Hnested as <- _. exact (read_brush_unlinked _ _ _ _ Hbrush).
  - injection Hnested as <- _. exact I.
Qed.

Lemma as_read_add_brush (envelope : RT.BrushEnvelope) (d : RT.Definitions) :
  Ink.brush_parent (RT.brush envelope) = None ->
  as_read d -> as_read (add_brush (RT.brush_envelope_id envelope) envelope d).
Proof.
  intros Hparent (Hreg & Hunlinked & Hnested). split; [|split]; cbn.
  - apply map_Forall_insert_2; [reflexivity|exact Hreg].
  - apply map_Forall_insert_2; [exact Hparent|exact Hunlinked].
  - exact Hnested.
Qed.

Lemma values_set_Forall {V : Type} (P : V -> Prop) (d : list (string * V))
    (k : string) (v : V) :
  P v -> Forall P (Dict.values d) -> Forall P (Dict.values (Dict.set d k v)).
Proof.
  intros Hv. induction d as [|[k0 v0] rest IH]; cbn; intros Hd.
  - constructor; [exact Hv|constructor].
  - apply Forall_cons in Hd as [Hv0 Hrest].
    destruct (String.eqb k0 k); cbn; constructor; auto.
Qed.

Lemma as_read_add_context (id : string) (context : RT.ContextEnvelope)
    (d : RT.Definitions) :
  nested_unlinked context -> as_read d -> as_read (add_context id context d).
Proof.
  intros Hcontext (Hreg & Hunlinked & Hnested). split; [|split]; cbn;
    [exact Hreg|exact Hunlinked|].
  apply values_set_Forall; assumption.
Qed.

Lemma as_read_keep_nested (context : RT.ContextEnvelope) (d : RT.Definitions) :
  nested_unlinked context -> as_read d -> as_read (keep_nested context d).
Proof.
  intros Hcontext (Hreg & Hunlinked & Hnested). unfold as_read.
  rewrite contexts_keep_nested. split; [|split; [|exact Hnested]];
    unfold keep_nested, nested_unlinked in *;
    repeat match goal with
           | |- context [match ?x with _ => _ end] => destruct x
           end; cbn; try assumption;
    apply map_Forall_insert_2; try assumption; reflexivity.
Qed.

Lemma as_read_keep_all_nested (contexts : list RT.ContextEnvelope)
    (d : RT.Definitions) :
  Forall nested_unlinked contexts -> as_read d ->
  as_read (foldl (fun d context => keep_nested context d) d contexts).
Proof.
  intros Hcontexts. revert d.
  induction Hcontexts as [|c rest Hc Hrest IH]; intros d Hd; cbn; [exact Hd|].
  apply IH. apply as_read_keep_nested; assumption.
Qed.

Lemma keeps_read_definitions_items (element : Xml.Element) :
  keeps_as_read (read_definitions_items element).
Proof.
  unfold read_definitions_items.
  repeat (apply keeps_bind; [|intros _]); apply keeps_for_elements; intros e.
  - apply keeps_bind; [apply maintains_keeps, maintains_read_ink_source|].
    intros [source|]; [|apply keeps_ret].
    apply keeps_bind; [apply keeps_update; intros d Hd; exact Hd|intros _].
    destruct (has_id _); [apply keeps_update; intros d Hd; exact Hd|apply keeps_ret].
  - apply (keeps_bind_post (fun b => Ink.brush_parent (RT.brush b) = None)).
    + apply maintains_keeps, maintains_read_brush.
    + intros s b s' H. exact (read_brush_unlinked _ _ _ _ H).
    + intros b Hb. destruct (has_id _); [|apply keeps_ret].
      apply keeps_update. intros d. apply as_read_add_brush. exact Hb.
  - apply keeps_bind; [apply maintains_keeps, maintains_read_trace_format|].
    intros format.
    destruct (has_id _); [apply keeps_update; intros d Hd; exact Hd|apply keeps_ret].
  - apply keeps_bind; [apply maintains_keeps, maintains_read_timestamp|].
    intros [timestamp|]; [apply keeps_update; intros d Hd; exact Hd|apply keeps_ret].
Qed.

Lemma keeps_read_context_then (body : RT.ContextEnvelope -> bool)
    (element : Xml.Element) :
  keeps_as_read
    (let! context := read_context element in
     if body context
     then update_definitions (add_context (RT.context_envelope_id context) context)
     else ret tt).
Proof.
  apply (keeps_bind_post nested_unlinked).
  - apply maintains_keeps, maintains_read_context.
  - intros s c s' H. exact (read_context_nested_unlinked _ _ _ _ H).
  - intros c Hc. destruct (body c); [|apply keeps_ret].
    apply keeps_update. intros d. apply as_read_add_context. exact Hc.
Qed.

Section WithReader.
Variable assume_local_refs : bool.

(** The brush table that [read_definitions] returns is one that the
    brush step of [resolve_references] is specified for: every brush is
    under its own id, and none has a parent yet. *)
Lemma read_definitions_brushes (root : Xml.Element) (s s' : State)
    (d : RT.Definitions) :
  read_definitions assume_local_refs root s = Return (d, s') ->
  registered_by_id (RT.brushes d) /\ unlinked (RT.brushes d).
Proof.
  intros H. unfold read_definitions in H. unfold bind at 1 in H.
  cbn [put_definitions] in H.
  match type of H with
  | ?m ?s0 = _ =>
      assert (Hkeeps : keeps_as_read m); [|pose proof (Hkeeps s0 d s') as Hend]
  end.
  - apply keeps_bind; [|intros _].
    { apply keeps_for_elements. intros e. apply keeps_read_definitions_items. }
    apply keeps_bind; [|intros _].
    { apply keeps_for_elements. intros e. unfold read_definitions_contexts.
      apply keeps_for_elements. intros c.
      apply (keeps_read_context_then (fun context =>
               has_id (RT.context_envelope_id context))). }
    apply keeps_bind; [|intros _].
    { unfold read_root_contexts. apply keeps_for_elements. intros c.
      apply (keeps_read_context_then (fun context =>
               (String.length (RT.context_envelope_id context) =? 0)%nat)). }
    apply keeps_bind; [|intros _].
    { apply keeps_update. intros d0 Hd0. apply as_read_keep_all_nested; [|exact Hd0].
      destruct Hd0 as (_ & _ & Hnested). exact Hnested. }
    apply keeps_bind; [|intros _].
    { apply keeps_for_elements. intros e.
      apply keeps_bind; [|intros _; apply keeps_ret].
      apply maintains_keeps, maintains_read_traces. }
    apply maintains_keeps, maintains_get_definitions.
  - assert (Hd : as_read (definitions s')).
    { apply Hend; [|exact H]. cbn. split; [|split].
      - apply map_Forall_empty.
      - apply map_Forall_empty.
      - constructor. }
    assert (d = definitions s') as ->.
    { clear Hend. unfold bind in H.
      repeat match type of H with
             | match ?m with Return _ => _ | Raise _ => _ end = _ =>
                 destruct m as [[? ?]|]; [|discriminate]
             end.
      injection H as <- <-. reflexivity. }
    destruct Hd as (Hreg & Hunlinked & _). split; assumption.
Qed.

End WithReader.

End BrushTable.

(** ** What a decoded trace body looks like *)

Section DecodedBodies.
Import PyStr PyNum Reading Spec.

(** A sample that a channel of the given type can hold: 0 or 1 on a
    boolean channel, an [int] on an integer channel. *)
Definition fits (channel_type : Ink.ChannelType) (v : num) : Prop :=
  match channel_type with
  | Ink.Boolean => v = PyInt 0 \/ v = PyInt 1
  | Ink.Integer => exists z, v = PyInt z
  | _ => True
  end.

(** [channel'] is [channel] with one sample more. *)
Definition one_more (channel channel' : RT.RegularChannel) : Prop :=
  RT.name channel' = RT.name channel
  /\ RT.type channel' = RT.type channel
  /\ exists v,
       RT.values channel' = RT.values channel ++ [v]
       /\ (Forall (fits (RT.type channel)) (RT.values channel) ->
           fits (RT.type channel) v).

(** The indices of the samples of an intermittent channel, and the samples. *)
Definition indices (channel : RT.IntermittentChannel) : list nat :=
  Ink.index <$> RT.index_values channel.

Definition samples (channel : RT.IntermittentChannel) : list num :=
  Ink.value <$> RT.index_values channel.

(** The samples of an intermittent channel are in the order of their
    points, one at most for a point, all of points before [bound], and
    they fit the type of the channel. *)
Definition in_order_below (bound : nat) (channel : RT.IntermittentChannel) : Prop :=
  StronglySorted lt (indices channel)
  /\ Forall (fun i => i < bound) (indices channel)
  /\ Forall (fits (RT.intermittent_type channel)) (samples channel).

(** [channel'] is [channel] after point [i]. *)
Definition after_point (i : nat) (channel channel' : RT.IntermittentChannel) : Prop :=
  RT.intermittent_name channel' = RT.intermittent_name channel
  /\ RT.intermittent_type channel' = RT.intermittent_type channel
  /\ (in_order_below i channel -> in_order_below (S i) channel').

Lemma round_returns_int (x v : num) : round x = Return v -> exists z, v = PyInt z.
Proof.
  destruct x as [z|f]; cbn.
  - intros H. injection H as <-. exists z. reflexivity.
  - destruct (Prim2SF f); intros H; try discriminate H; injection H as <-;
      eexists; reflexivity.
Qed.

Lemma round_for_fits (channel_type : Ink.ChannelType) (x v : num) :
  channel_type <> Ink.Boolean ->
  round_for channel_type x = Return v -> fits channel_type v.
Proof.
  destruct channel_type; cbn; intros Htype H; try exact I; try congruence.
  exact (round_returns_int x v H).
Qed.

Lemma add_value_one_more (j : nat) (token : string) (channel : RT.RegularChannel)
    (order : RT.DifferenceOrder) (n : num) (channel' : RT.RegularChannel) :
  RT.type channel <> Ink.Boolean ->
  add_value j token channel order n = Decoded channel' -> one_more channel channel'.
Proof.
  intros Htype H. apply add_value_decodes in H.
  destruct H as [v Hv|previous sum v _ _ Hv|previous sum1 sum v carry _ _ _ _ Hv _];
    (split; [reflexivity|split; [reflexivity|]]); exists v;
    (split; [reflexivity|]); intros _;
    apply round_for_rounded in Hv; exact (round_for_fits _ _ _ Htype Hv).
Qed.

Lemma last_fits {A : Type} (P : A -> Prop) (l : list A) (x : A) :
  last l = Some x -> Forall P l -> P x.
Proof.
  intros Hlast Hall. apply last_Some_elem_of in Hlast.
  rewrite Forall_forall in Hall. apply Hall. exact Hlast.
Qed.

Lemma regular_token_one_more (j : nat) (token : string)
    (channel channel' : RT.RegularChannel) :
  regular_token j token channel = Decoded channel' -> one_more channel channel'.
Proof.
  unfold regular_token. destruct (String.eqb token "*").
  - destruct (last (RT.values channel)) as [v|] eqn:Hlast; [|discriminate].
    intros H. injection H as <-.
    split; [reflexivity|split; [reflexivity|]]. exists v. split; [reflexivity|].
    apply last_fits. exact Hlast.
  - destruct (RT.type channel) eqn:Htype.
    1-3: destruct (lift (get_difference_order channel token)) as [[order t1]| |];
      cbn [decode_bind]; try discriminate;
      destruct (lift (split_minus (strip t1))) as [[negative t2]| |];
      cbn [decode_bind]; try discriminate;
      destruct (lift (parse_number t2)) as [[n|]| |]; cbn [decode_bind];
      try discriminate;
      intros H; apply add_value_one_more in H; [exact H|congruence].
    destruct (String.eqb token "T"); [|destruct (String.eqb token "F")];
      intros H; try discriminate H; injection H as <-;
      (split; [reflexivity|split; [reflexivity|]]); eexists;
      (split; [reflexivity|]); intros _; rewrite Htype; cbn; tauto.
Qed.

Lemma StronglySorted_snoc (l : list nat) (i : nat) :
  StronglySorted lt l -> Forall (fun x => x < i) l -> StronglySorted lt (l ++ [i]).
Proof.
  induction 1 as [|x l Hl IH Hx]; intros Hbelow; cbn.
  - constructor; constructor.
  - apply Forall_cons in Hbelow as [Hxi Hbelow]. constructor; [apply IH; exact Hbelow|].
    apply Forall_app. split; [exact Hx|]. constructor; [exact Hxi|constructor].
Qed.

Lemma in_order_below_weaken (i : nat) (channel : RT.IntermittentChannel) :
  in_order_below i channel -> in_order_below (S i) channel.
Proof.
  intros (Hsorted & Hbelow & Hfits). split; [exact Hsorted|]. split; [|exact Hfits].
  eapply Forall_impl; [exact Hbelow|]. intros x Hx. cbn in Hx. lia.
Qed.

Lemma append_in_order (i : nat) (channel : RT.IntermittentChannel) (v : num) :
  fits (RT.intermittent_type channel) v ->
  in_order_below i channel ->
  in_order_below (S i) (append_index_value channel i v).
Proof.
  intros Hv (Hsorted & Hbelow & Hfits). unfold in_order_below, indices, samples. cbn.
  rewrite !fmap_app. cbn. split; [|split].
  - apply StronglySorted_snoc; assumption.
  - apply Forall_app. split.
    + eapply Forall_impl; [exact Hbelow|]. intros x Hx. cbn in Hx. lia.
    + constructor; [lia|constructor].
  - apply Forall_app. split; [exact Hfits|]. constructor; [exact Hv|constructor].
Qed.

Lemma intermittent_token_after_point (i j : nat) (token : string)
    (channel channel' : RT.IntermittentChannel) :
  intermittent_token i j token channel = Decoded channel' ->
  after_point i channel channel'.
Proof.
  unfold intermittent_token. destruct (String.eqb token "?").
  { intros H. injection H as <-. split; [reflexivity|split; [reflexivity|]].
    apply in_order_below_weaken. }
  destruct (String.eqb token "*").
  { destruct (last (RT.index_values channel)) as [iv|] eqn:Hlast; [|discriminate].
    intros H. injection H as <-. split; [reflexivity|split; [reflexivity|]].
    intros Hin. apply append_in_order; [|exact Hin].
    destruct Hin as (_ & _ & Hfits). unfold samples in Hfits.
    rewrite Forall_fmap in Hfits. exact (last_fits _ _ _ Hlast Hfits). }
  destruct (RT.intermittent_type channel) eqn:Htype.
  1-3: destruct (lift (split_minus token)) as [[negative t1]| |];
    cbn [decode_bind]; try discriminate;
    destruct (lift (parse_number t1)) as [[n|]| |]; cbn [decode_bind];
    try discriminate;
    match goal with
    | |- context [round_for ?ty ?x] =>
        destruct (round_for ty x) as [v|] eqn:Hround; cbn; try discriminate
    end;
    intros H; injection H as <-; (split; [reflexivity|split; [reflexivity|]]);
    apply append_in_order; rewrite Htype;
    refine (round_for_fits _ _ _ _ Hround); discriminate.
  destruct (String.eqb token "T"); [|destruct (String.eqb token "F")];
    intros H; try discriminate H; injection H as <-;
    (split; [reflexivity|split; [reflexivity|]]);
    apply append_in_order; rewrite Htype; cbn; tauto.
Qed.

Lemma for_channels_Forall2 {C : Type} (step : nat -> string -> C -> decode C)
    (R : C -> C -> Prop) (tokens : list string) :
  (forall j token c c', step j token c = Decoded c' -> R c c') ->
  forall chans j chans',
    for_channels step tokens j chans = Decoded chans' -> Forall2 R chans chans'.
Proof.
  intros Hstep. induction chans as [|c chans IH]; intros j chans' H; cbn in H.
  - injection H as <-. constructor.
  - destruct (tokens !! j) as [token|]; [|discriminate].
    destruct (step j token c) as [c1| |] eqn:Hc; try discriminate. cbn in H.
    destruct (for_channels step tokens (S j) chans) as [rest| |] eqn:Hrest;
      try discriminate. cbn in H. injection H as <-.
    constructor; [exact (Hstep _ _ _ _ Hc)|exact (IH _ _ Hrest)].
Qed.

Lemma parse_point_steps (i : nat) (point : string) (chans chans' : Channels) :
  parse_point i point chans = Decoded chans' ->
  Forall2 one_more (fst chans) (fst chans')
  /\ Forall2 (after_point i) (snd chans) (snd chans').
Proof.
  unfold parse_point. destruct (_ || _); [discriminate|].
  destruct (for_channels regular_token _ _ _) as [regular| |] eqn:Hregular;
    try discriminate. cbn [decode_bind].
  destruct (for_channels (intermittent_token i) _ _ _) as [intermittent| |]
    eqn:Hintermittent; try discriminate. cbn [decode_bind].
  intros H. injection H as <-. cbn. split.
  - exact (for_channels_Forall2 _ _ _ regular_token_one_more _ _ _ Hregular).
  - refine (for_channels_Forall2 _ _ _ _ _ _ _ Hintermittent).
    intros j token c c'. apply intermittent_token_after_point.
Qed.

(** [channel'] is [channel] with [n] samples more. *)
Definition grown (n : nat) (channel channel' : RT.RegularChannel) : Prop :=
  RT.name channel' = RT.name channel
  /\ RT.type channel' = RT.type channel
  /\ length (RT.values channel') = length (RT.values channel) + n
  /\ (Forall (fits (RT.type channel)) (RT.values channel) ->
      Forall (fits (RT.type channel')) (RT.values channel')).

(** [channel'] is [channel] after the [n] points from point [i] on. *)
Definition advanced (i n : nat) (channel channel' : RT.IntermittentChannel) : Prop :=
  RT.intermittent_name channel' = RT.intermittent_name channel
  /\ RT.intermittent_type channel' = RT.intermittent_type channel
  /\ (in_order_below i channel -> in_order_below (i + n) channel').

Lemma Forall2_same {A : Type} (R : A -> A -> Prop) (l : list A) :
  (forall x, R x x) -> Forall2 R l l.
Proof. intros HR. induction l; constructor; auto. Qed.

Lemma for_points_steps (points : list string) :
  forall i chans chans',
    for_points i points chans = Decoded chans' ->
    Forall2 (grown (length points)) (fst chans) (fst chans')
    /\ Forall2 (advanced i (length points)) (snd chans) (snd chans').
Proof.
  induction points as [|point points IH]; intros i chans chans' H; cbn in H.
  - injection H as <-. split; apply Forall2_same.
    + intros c. unfold grown. rewrite Nat.add_0_r. tauto.
    + intros c. unfold advanced. rewrite Nat.add_0_r. tauto.
  - destruct (parse_point i point chans) as [chans1| |] eqn:Hpoint; try discriminate.
    cbn in H. apply parse_point_steps in Hpoint as [Hregular Hintermittent].
    apply IH in H as [Hgrown Hadvanced]. split.
    + refine (Forall2_trans _ _ _ _ _ _ _ Hregular Hgrown).
      intros c c1 c2 (Hname & Htype & v & Hvalues & Hfits) (Hname' & Htype' & Hlen & Hall).
      split; [congruence|]. split; [congruence|]. split.
      * rewrite Hlen, Hvalues, length_app. cbn. lia.
      * intros Hc. apply Hall. rewrite Hvalues, Htype. apply Forall_app.
        split; [exact Hc|]. constructor; [exact (Hfits Hc)|constructor].
    + refine (Forall2_trans _ _ _ _ _ _ _ Hintermittent Hadvanced).
      intros c c1 c2 (Hname & Htype & Hstep) (Hname' & Htype' & Hrest).
      split; [congruence|]. split; [congruence|].
      intros Hc. cbn. replace (i + S (length points)) with (S i + length points) by lia.
      apply Hrest, Hstep. exact Hc.
Qed.

(** The channels a body is decoded into, against the channels wrapped
    for its trace format. *)
Lemma parse_trace_content_steps (content : string) (trace_format : Ink.TraceFormat)
    (chans : Channels) :
  parse_trace_content content trace_format = Decoded chans ->
  Forall2 (grown (length (split "," content))) (fst (wrap_channels trace_format))
          (fst chans)
  /\ Forall2 (advanced 0 (length (split "," content)))
             (snd (wrap_channels trace_format)) (snd chans).
Proof. apply for_points_steps. Qed.

(** X1.  A body that decodes gives one channel for every regular channel
    of the trace format, with its name and type and in its place, and
    every channel has as many samples as the body has points: the
    channels of a trace are columns of one length. *)
Theorem decoded_channels_rectangular (content : string)
    (trace_format : Ink.TraceFormat) (regular : list RT.RegularChannel)
    (intermittent : list RT.IntermittentChannel) :
  parse_trace_content content trace_format = Decoded (regular, intermittent) ->
  map (fun c => (RT.name c, RT.type c)) regular
  = map (fun ch => (Ink.channel_name ch, Ink.channel_type ch))
        (Ink.regular_channels trace_format)
  /\ Forall (fun c => length (RT.values c) = length (split "," content)) regular
  /\ map (fun c => (RT.intermittent_name c, RT.intermittent_type c)) intermittent
     = map (fun ch => (Ink.channel_name ch, Ink.channel_type ch))
           (Ink.intermittent_channels trace_format).
Proof.
  intros H. apply parse_trace_content_steps in H as [Hregular Hintermittent].
  cbn in Hregular, Hintermittent. split; [|split].
  - revert regular Hregular.
    induction (Ink.regular_channels trace_format) as [|ch rest IH];
      intros regular H; inversion H as [|? c ? cs Hc Hcs]; subst; cbn;
      [reflexivity|].
    destruct Hc as (-> & -> & _). f_equal. apply IH. exact Hcs.
  - revert regular Hregular.
    induction (Ink.regular_channels trace_format) as [|ch rest IH];
      intros regular H; inversion H as [|? c ? cs Hc Hcs]; subst;
      constructor; [|apply IH; exact Hcs].
    destruct Hc as (_ & _ & Hlen & _). exact Hlen.
  - revert intermittent Hintermittent.
    induction (Ink.intermittent_channels trace_format) as [|ch rest IH];
      intros intermittent H; inversion H as [|? c ? cs Hc Hcs]; subst; cbn;
      [reflexivity|].
    destruct Hc as (-> & -> & _). f_equal. apply IH. exact Hcs.
Qed.

Lemma decoded_channels_rectangular_witness :
  map (fun c => (RT.name c, RT.type c)) [Examples.channel_at_ten]
  = map (fun ch => (Ink.channel_name ch, Ink.channel_type ch))
        (Ink.regular_channels (Examples.one_channel Ink.Decimal))
  /\ Forall (fun c => length (RT.values c) = length (split "," "10"))
            [Examples.channel_at_ten]
  /\ map (fun c => (RT.intermittent_name c, RT.intermittent_type c)) []
     = map (fun ch => (Ink.channel_name ch, Ink.channel_type ch))
           (Ink.intermittent_channels (Examples.one_channel Ink.Decimal)).
Proof.
  apply (decoded_channels_rectangular "10" (Examples.one_channel Ink.Decimal)).
  vm_compute. reflexivity.
Defined.

(** X2.  In a body that decodes, the samples of an intermittent channel
    carry the numbers of the points they were given at: the numbers
    increase strictly along the channel (a point gives one sample at
    most) and each is the number of a point of the body. *)
Theorem intermittent_indices_increase (content : string)
    (trace_format : Ink.TraceFormat) (regular : list RT.RegularChannel)
    (intermittent : list RT.IntermittentChannel) :
  parse_trace_content content trace_format = Decoded (regular, intermittent) ->
  Forall (fun c =>
            StronglySorted lt (indices c)
            /\ Forall (fun i => i < length (split "," content)) (indices c))
         intermittent.
Proof.
  intros H. apply parse_trace_content_steps in H as [_ Hintermittent].
  cbn in Hintermittent. revert intermittent Hintermittent.
  induction (Ink.intermittent_channels trace_format) as [|ch rest IH];
    intros intermittent H; inversion H as [|? c ? cs Hc Hcs]; subst;
    constructor; [|apply IH; exact Hcs].
  destruct Hc as (_ & _ & Hc).
  destruct Hc as (Hsorted & Hbelow & _); [|split; assumption].
  split; [constructor|split; constructor].
Qed.

Lemma intermittent_indices_increase_witness :
  Forall (fun c =>
            StronglySorted lt (indices c)
            /\ Forall (fun i => i < length (split "," Examples.button_body))
                      (indices c))
         (snd Examples.button_channels).
Proof.
  apply (intermittent_indices_increase Examples.button_body Examples.button_format
           (fst Examples.button_channels)).
  vm_compute. reflexivity.
Defined.

(** X3.  In a body that decodes, every sample fits the type of its
    channel: a boolean channel, regular or intermittent, holds only the
    integers 0 and 1, and an integer channel holds only integers. *)
Theorem decoded_samples_fit_type (content : string)
    (trace_format : Ink.TraceFormat) (regular : list RT.RegularChannel)
    (intermittent : list RT.IntermittentChannel) :
  parse_trace_content content trace_format = Decoded (regular, intermittent) ->
  Forall (fun c => Forall (fits (RT.type c)) (RT.values c)) regular
  /\ Forall (fun c => Forall (fits (RT.intermittent_type c)) (samples c)) intermittent.
Proof.
  intros H. apply parse_trace_content_steps in H as [Hregular Hintermittent].
  cbn in Hregular, Hintermittent. split.
  - revert regular Hregular.
    induction (Ink.regular_channels trace_format) as [|ch rest IH];
      intros regular H; inversion H as [|? c ? cs Hc Hcs]; subst;
      constructor; [|apply IH; exact Hcs].
    destruct Hc as (_ & _ & _ & Hc). apply Hc. constructor.
  - revert intermittent Hintermittent.
    induction (Ink.intermittent_channels trace_format) as [|ch rest IH];
      intros intermittent H; inversion H as [|? c ? cs Hc Hcs]; subst;
      constructor; [|apply IH; exact Hcs].
    destruct Hc as (_ & _ & Hc).
    destruct Hc as (_ & _ & Hfits); [|exact Hfits].
    split; [constructor|split; constructor].
Qed.

Lemma decoded_samples_fit_type_witness :
  Forall (fun c => Forall (fits (RT.type c)) (RT.values c))
         (fst Examples.button_channels)
  /\ Forall (fun c => Forall (fits (RT.intermittent_type c)) (samples c))
            (snd Examples.button_channels).
Proof.
  apply (decoded_samples_fit_type Examples.button_body Examples.button_format).
  vm_compute. reflexivity.
Defined.

End DecodedBodies.

(** ** Points that leave channels out, and samples out of range *)

Section ShortPoints.
Import PyStr PyNum Reading Spec.

(** A loop over channels that decodes has found a token for each of them. *)
Lemma for_channels_tokens {C : Type} (step : nat -> string -> C -> decode C)
    (tokens : list string) :
  forall chans j chans',
    for_channels step tokens j chans = Decoded chans' ->
    chans = [] \/ j + length chans <= length tokens.
Proof.
  induction chans as [|c chans IH]; intros j chans' H; [left; reflexivity|].
  right. cbn in H.
  destruct (tokens !! j) as [token|] eqn:Htoken; [|discriminate].
  apply lookup_lt_Some in Htoken.
  destruct (step j token c) as [c1| |]; try discriminate. cbn in H.
  destruct (for_channels step tokens (S j) chans) as [rest| |] eqn:Hrest;
    try discriminate.
  destruct (IH _ _ Hrest) as [->|Hle]; cbn; lia.
Qed.

Lemma parse_point_tokens (i : nat) (point : string) (chans chans' : Channels) :
  parse_point i point chans = Decoded chans' ->
  length (fst chans) + length (snd chans) <= length (tokenize (strip point)).
Proof.
  unfold parse_point. destruct (_ || _) eqn:Hcount; [discriminate|].
  apply orb_false_iff in Hcount as [Hlow _]. apply Nat.ltb_ge in Hlow.
  destruct (for_channels regular_token _ _ _) as [regular| |]; try discriminate.
  cbn [decode_bind].
  destruct (for_channels (intermittent_token i) _ _ _) as [intermittent| |]
    eqn:Hintermittent; try discriminate.
  intros _. apply for_channels_tokens in Hintermittent as [Hnone|Hle]; [|exact Hle].
  rewrite Hnone. cbn. lia.
Qed.

(** X4.  A body that decodes gives every channel a token at every
    point.  The count of tokens is checked against the regular channels
    only, but a point with fewer tokens than the trace format has
    channels, regular and intermittent together, never decodes. *)
Theorem short_point_never_decodes (content : string) (trace_format : Ink.TraceFormat) :
  Exists (fun point =>
            length (tokenize (strip point))
            < length (Ink.regular_channels trace_format)
              + length (Ink.intermittent_channels trace_format))
         (split "," content) ->
  forall chans, parse_trace_content content trace_format <> Decoded chans.
Proof.
  unfold parse_trace_content. intros Hshort.
  assert (general : forall points i chans,
            Exists (fun point => length (tokenize (strip point))
                                 < length (fst chans) + length (snd chans)) points ->
            forall chans', for_points i points chans <> Decoded chans').
  { induction points as [|point points IH]; intros i chans Hex chans' H;
      [inversion Hex|].
    cbn in H.
    destruct (parse_point i point chans) as [chans1| |] eqn:Hpoint; try discriminate.
    cbn in H. pose proof (parse_point_tokens _ _ _ _ Hpoint) as Hle.
    apply parse_point_Decoded in Hpoint as (_ & Hl1 & Hl2).
    inversion Hex as [? ? Hhere|? ? Hlater]; subst; [lia|].
    apply (IH (S i) chans1) with (chans' := chans'); [|exact H].
    rewrite Hl1, Hl2. exact Hlater. }
  apply general. unfold wrap_channels. cbn. rewrite !length_map. exact Hshort.
Qed.

Lemma short_point_never_decodes_witness :
  parse_trace_content "1 T, 2" Examples.button_format
  <> Decoded ([{| RT.name := "X"; RT.type := Ink.Decimal;
                  RT.values := [PyFloat 1; PyFloat 2];
                  RT.difference_order := RT.Explicit;
                  RT.last_difference := PyFloat PrimFloat.nan |}],
              [{| RT.intermittent_name := "F"; RT.intermittent_type := Ink.Boolean;
                  RT.index_values := [Ink.mkIndexValue 0 (PyInt 1)] |}]).
Proof.
  apply (short_point_never_decodes "1 T, 2" Examples.button_format).
  right. left. vm_compute. lia.
Defined.

(** X5.  Under a trace format with an intermittent channel, a first
    point that gives the regular channels and nothing more passes the
    check of the count and, its tokens once decoded, makes the decoder
    raise [IndexError]: no warning is logged and the trace is not given
    up, the exception leaves [parse_trace_content]. *)
Theorem regular_only_point_raises (content : string) (trace_format : Ink.TraceFormat)
    (point : string) (rest : list string) (regular : list RT.RegularChannel) :
  split "," content = point :: rest ->
  length (tokenize (strip point)) = length (Ink.regular_channels trace_format) ->
  Ink.intermittent_channels trace_format <> [] ->
  for_channels regular_token (tokenize (strip point)) 0
               (fst (wrap_channels trace_format)) = Decoded regular ->
  parse_trace_content content trace_format = Raised IndexError.
Proof.
  intros Hsplit Hcount Hsome Hregular. unfold parse_trace_content.
  rewrite Hsplit. cbn [for_points]. unfold parse_point.
  rewrite Hregular. unfold wrap_channels in *. cbn [fst snd] in *.
  rewrite !length_map, Hcount, Nat.ltb_irrefl. cbn [orb].
  destruct (_ <? _)%nat eqn:Hover; [apply Nat.ltb_lt in Hover; lia|].
  cbn [decode_bind].
  destruct (Ink.intermittent_channels trace_format) as [|ch chs]; [contradiction|].
  cbn [map for_channels].
  rewrite (lookup_ge_None_2 (tokenize (strip point))) by lia.
  reflexivity.
Qed.

Lemma regular_only_point_raises_witness :
  parse_trace_content "1, 2 T" Examples.button_format = Raised IndexError.
Proof.
  apply (regular_only_point_raises "1, 2 T" Examples.button_format "1" [" 2 T"]
           [{| RT.name := "X"; RT.type := Ink.Decimal; RT.values := [PyFloat 1];
               RT.difference_order := RT.Explicit;
               RT.last_difference := PyFloat PrimFloat.nan |}]).
  - reflexivity.
  - reflexivity.
  - discriminate.
  - vm_compute. reflexivity.
Defined.

(** X6.  On an integer channel a number that is an infinity or NaN,
    decoded under Explicit or as a first difference, is not rejected
    with a warning: [round] raises, and the exception leaves the
    decoder. *)
Theorem integer_sample_out_of_range_raises (j : nat) (token : string)
    (channel : RT.RegularChannel) (n x : num) :
  RT.type channel = Ink.Integer ->
  numeric_value token = Some n ->
  effective_order channel token <> RT.SecondDifference ->
  unrounded channel (effective_order channel token) n = Return x ->
  exact x = None ->
  exists e, regular_token j token channel = Raised e.
Proof.
  intros Htype Hnum Horder Hx Hexact.
  destruct (regular_token_numeric j token channel n ltac:(congruence) Hnum)
    as [text ->].
  assert (Hround : exists e, round x = Raise e).
  { destruct x as [z|f]; [discriminate|]. cbn in *.
    destruct (Prim2SF f); try discriminate; eexists; reflexivity. }
  destruct Hround as [e Hround].
  exists e. destruct (effective_order channel token); [| |contradiction]; cbn in *.
  - injection Hx as ->. rewrite Htype. cbn. rewrite Hround. reflexivity.
  - destruct (RT.values channel) as [|v0 vs] eqn:Hvalues; [discriminate|].
    destruct (last_value (v0 :: vs)) as [previous|]; [|discriminate]. cbn in *.
    rewrite Hx. cbn. rewrite Htype. cbn. rewrite Hround. reflexivity.
Qed.

Lemma integer_sample_out_of_range_raises_witness :
  exists e,
    regular_token 0 Examples.huge_number (RT.new_regular_channel "X" Ink.Integer)
    = Raised e.
Proof.
  apply (integer_sample_out_of_range_raises 0 Examples.huge_number
           (RT.new_regular_channel "X" Ink.Integer)
           (PyFloat PrimFloat.infinity) (PyFloat PrimFloat.infinity)).
  - reflexivity.
  - vm_compute. reflexivity.
  - discriminate.
  - reflexivity.
  - reflexivity.
Defined.

End ShortPoints.

(** ** The tokens of a point *)

Section Tokens.
Import PyStr Reading.















End Tokens.

(** ** What the readers do to the definitions *)

Section Tables.
Import Reading.

Section Related.

(** A relation between the definitions before and after a call. *)
Variable R : RT.Definitions -> RT.Definitions -> Prop.
Hypothesis R_refl : forall d, R d d.
Hypothesis R_trans : forall d1 d2 d3, R d1 d2 -> R d2 d3 -> R d1 d3.

Definition relates {A : Type} (m : M A) : Prop :=
  forall s a s', m s = Return (a, s') -> R (definitions s) (definitions s').

Lemma relates_ret {A : Type} (a : A) : relates (ret a).
Proof. intros s a' s' H. injection H as _ <-. apply R_refl. Qed.

Lemma relates_throw {A : Type} (e : exn) : relates (@throw A e).
Proof. intros s a s' H. discriminate. Qed.

Lemma relates_bind_post {A B : Type} (Q : A -> Prop) (m : M A) (f : A -> M B) :
  relates m ->
  (forall s a s', m s = Return (a, s') -> Q a) ->
  (forall a, Q a -> relates (f a)) ->
  relates (bind m f).
Proof.
  intros Hm HQ Hf s b s' H. unfold bind in H.
  destruct (m s) as [[a s1]|] eqn:Hms; [|discriminate].
  exact (R_trans _ _ _ (Hm s a s1 Hms) (Hf a (HQ s a s1 Hms) s1 b s' H)).
Qed.

Lemma relates_bind {A B : Type} (m : M A) (f : A -> M B) :
  relates m -> (forall a, relates (f a)) -> relates (bind m f).
Proof. intros Hm Hf. apply (relates_bind_post (fun _ => True)); auto. Qed.

Lemma relates_warn (w : warning) : relates (warn w).
Proof. intros s a s' H. injection H as _ <-. apply R_refl. Qed.

Lemma relates_get_definitions : relates get_definitions.
Proof. intros s a s' H. injection H as _ <-. apply R_refl. Qed.

Lemma relates_new_trace_object : relates new_trace_object.
Proof. intros s a s' H. injection H as _ <-. apply R_refl. Qed.

Lemma relates_store (l : Ink.loc) (t : Ink.Trace) : relates (store l t).
Proof. intros s a s' H. injection H as _ <-. apply R_refl. Qed.

Lemma relates_link_prior (prior l : Ink.loc) : relates (link_prior prior l).
Proof. intros s a s' H. injection H as _ <-. apply R_refl. Qed.

Lemma relates_trace_id_at (l : Ink.loc) : relates (trace_id_at l).
Proof. intros s a s' H. injection H as _ <-. apply R_refl. Qed.

Ltac relate :=
  repeat
    match goal with
    | |- relates (ret _) => apply relates_ret
    | |- relates (throw _) => apply relates_throw
    | |- relates (warn _) => apply relates_warn
    | |- relates get_definitions => apply relates_get_definitions
    | |- relates new_trace_object => apply relates_new_trace_object
    | |- relates (store _ _) => apply relates_store
    | |- relates (link_prior _ _) => apply relates_link_prior
    | |- relates (trace_id_at _) => apply relates_trace_id_at
    | H : relates ?m |- relates ?m => exact H
    | |- relates (bind _ _) => apply relates_bind; [|intros ?]
    | |- relates (match ?x with _ => _ end) => destruct x
    end.

Lemma relates_for_each {A B : Type} (read : Xml.Element -> M (option A))
    (add : B -> A -> B) (elements : list Xml.Element) (acc : B) :
  (forall e, relates (read e)) -> relates (for_each read add elements acc).
Proof.
  intros Hread. revert acc.
  induction elements as [|e rest IH]; intros acc; cbn; relate;
    first [apply Hread | apply IH].
Qed.

Lemma relates_read_annotation (element : Xml.Element) :
  relates (read_annotation element).
Proof. unfold read_annotation. relate. Qed.

Lemma relates_read_annotations (container : Xml.Element) :
  relates (read_annotations container).
Proof.
  unfold read_annotations.
  induction (Xml.children container) as [|item rest IH]; cbn; relate.
  apply relates_read_annotation.
Qed.

Lemma relates_read_channel (element : Xml.Element) : relates (read_channel element).
Proof. unfold read_channel. relate. Qed.

Lemma relates_read_trace_format (element : Xml.Element) :
  relates (read_trace_format element).
Proof.
  unfold read_trace_format. relate;
    apply relates_for_each; apply relates_read_channel.
Qed.

Lemma relates_read_sample_rate (element : option Xml.Element) :
  relates (read_sample_rate element).
Proof. unfold read_sample_rate. relate. Qed.

Lemma relates_read_latency (element : option Xml.Element) :
  relates (read_latency element).
Proof. unfold read_latency. relate. Qed.

Lemma relates_read_active_area (element : option Xml.Element) :
  relates (read_active_area element).
Proof. unfold read_active_area. relate. Qed.

Lemma relates_read_source_property (element : Xml.Element) :
  relates (read_source_property element).
Proof. unfold read_source_property. relate. Qed.

Lemma relates_read_channel_property (element : Xml.Element) :
  relates (read_channel_property element).
Proof. unfold read_channel_property. relate. Qed.

Lemma relates_read_brush_property (element : Xml.Element) :
  relates (read_brush_property element).
Proof. unfold read_brush_property. relate. apply relates_read_annotations. Qed.

Lemma relates_read_ink_source (element : Xml.Element) :
  relates (read_ink_source element).
Proof.
  unfold read_ink_source. relate;
    first [ apply relates_read_trace_format | apply relates_read_sample_rate
          | apply relates_read_latency | apply relates_read_active_area
          | apply relates_for_each; intros ?;
            first [ apply relates_read_source_property
                  | apply relates_read_channel_property ] ].
Qed.

Lemma relates_read_brush (element : Xml.Element) : relates (read_brush element).
Proof.
  unfold read_brush. relate.
  - apply relates_for_each. intros ?. apply relates_read_brush_property.
  - apply relates_read_annotations.
Qed.

Lemma relates_read_timestamp (element : Xml.Element) :
  relates (read_timestamp element).
Proof. unfold read_timestamp. relate. Qed.

Lemma relates_read_context (element : Xml.Element) : relates (read_context element).
Proof.
  unfold read_context. relate;
    first [ apply relates_read_trace_format | apply relates_read_ink_source
          | apply relates_read_brush | apply relates_read_timestamp ].
Qed.

Section WithReader.
Variable assume_local_refs : bool.

Lemma relates_lookup_ref {A : Type} (what owner : string)
    (table : RT.Definitions -> string -> option A) (ref : option string)
    (require_refs : bool) :
  relates (lookup_ref assume_local_refs what owner table ref require_refs).
Proof. unfold lookup_ref. relate. Qed.

Lemma relates_read_trace_group (element : Xml.Element) (require_refs : bool) :
  relates (read_trace_group assume_local_refs element require_refs).
Proof.
  unfold read_trace_group. relate;
    try apply relates_lookup_ref; apply relates_read_annotations.
Qed.

Lemma relates_read_indices (element : Xml.Element) (attribute : string) :
  relates (read_indices element attribute).
Proof. unfold read_indices. relate. Qed.

Lemma relates_read_trace_view (element : Xml.Element) :
  relates (read_trace_view assume_local_refs element).
Proof. unfold read_trace_view. relate; apply relates_read_indices. Qed.

Lemma relates_read_trace (element : Xml.Element) (context : option Ink.Context)
    (require_refs : bool) :
  relates (read_trace assume_local_refs element context require_refs).
Proof.
  unfold read_trace, read_trace_fields, read_prior, read_continuation,
    read_trace_data.
  relate; apply relates_lookup_ref.
Qed.

(** The identifier of a view is never assigned: [read_trace_view] sets
    the attribute [ID], and [view.id] stays empty. *)
Lemma read_trace_view_id (element : Xml.Element) (s s' : State) (view : Ink.TraceItem) :
  read_trace_view assume_local_refs element s = Return (Some view, s') ->
  exists data view_begin view_end stray,
    view = Ink.ItemView "" data view_begin view_end stray.
Proof.
  unfold read_trace_view, bind, ret, warn, get_definitions. intros H.
  repeat match type of H with
         | context [match ?x with _ => _ end] => destruct x eqn:?; try discriminate H
         end;
    injection H as <- _; eexists _, _, _, _; reflexivity.
Qed.

(** What the registrations of [read_traces] may do. *)
Hypothesis R_traces : forall d id l,
  R d {| RT.contexts := RT.contexts d; RT.brushes := RT.brushes d;
         RT.ink_sources := RT.ink_sources d; RT.trace_formats := RT.trace_formats d;
         RT.timestamps := RT.timestamps d; RT.traces := <[id := l]> (RT.traces d);
         RT.trace_groups := RT.trace_groups d; RT.trace_views := RT.trace_views d |}.
Hypothesis R_groups : forall d id group,
  R d {| RT.contexts := RT.contexts d; RT.brushes := RT.brushes d;
         RT.ink_sources := RT.ink_sources d; RT.trace_formats := RT.trace_formats d;
         RT.timestamps := RT.timestamps d; RT.traces := RT.traces d;
         RT.trace_groups := <[id := group]> (RT.trace_groups d);
         RT.trace_views := RT.trace_views d |}.

Lemma relates_register_trace (id : string) (l : Ink.loc) :
  relates (register_trace id l).
Proof.
  unfold register_trace. destruct (_ <? _)%nat; [|apply relates_ret].
  intros s a s' H. injection H as _ <-. apply R_traces.
Qed.

Lemma relates_register_group (id : string) (group : Ink.TraceItem) :
  relates (register_group id group).
Proof.
  unfold register_group. destruct (_ <? _)%nat; [|apply relates_ret].
  intros s a s' H. injection H as _ <-. apply R_groups.
Qed.

Lemma relates_read_item
    (read_group_traces : Xml.Element -> option Ink.Context -> M (list Ink.TraceItem))
    (context : option Ink.Context) (child : Xml.Element) :
  (forall ctx, relates (read_group_traces child ctx)) ->
  relates (read_item assume_local_refs read_group_traces context child).
Proof.
  intros Hrec. unfold read_item.
  destruct (String.eqb (Xml.tag child) Inkml.TRACE).
  { relate; first [ apply relates_read_trace | apply relates_register_trace ]. }
  destruct (String.eqb (Xml.tag child) Inkml.TRACE_GROUP).
  { relate; first [ apply relates_read_trace_group | apply Hrec
                  | apply relates_register_group ]. }
  destruct (String.eqb (Xml.tag child) Inkml.TRACE_VIEW); [|apply relates_ret].
  apply (relates_bind_post
           (fun view => forall v, view = Some v ->
                        exists data view_begin view_end stray,
                          v = Ink.ItemView "" data view_begin view_end stray)).
  - apply relates_read_trace_view.
  - intros s view s' H v ->. exact (read_trace_view_id _ _ _ _ H).
  - intros [v|] Hv; [|relate].
    destruct (Hv v eq_refl) as (data & view_begin & view_end & stray & ->).
    cbn. relate.
Qed.

Lemma relates_collect {A : Type} (read : Xml.Element -> M (option A))
    (elements : list Xml.Element) :
  Forall (fun e => relates (read e)) elements -> relates (collect read elements).
Proof. induction 1 as [|e rest He Hrest IH]; cbn; relate. Qed.

Lemma relates_read_traces (container : Xml.Element) :
  forall context, relates (read_traces assume_local_refs container context).
Proof.
  induction container as [container IH] using Element_children_ind.
  intros context. destruct container as [tag attrib text tail children].
  cbn in *. apply relates_collect.
  induction IH as [|child rest Hchild Hrest IHrest]; constructor; [|exact IHrest].
  apply relates_read_item. exact Hchild.
Qed.

End WithReader.
End Related.

Section Preserved.

(** A property of the definitions that a call keeps. *)
Variable I : RT.Definitions -> Prop.

Definition preserves {A : Type} (m : M A) : Prop :=
  forall s a s', I (definitions s) -> m s = Return (a, s') -> I (definitions s').

Lemma preserves_unchanged {A : Type} (m : M A) : relates eq m -> preserves m.
Proof. intros Hm s a s' Hs H. rewrite <- (Hm s a s' H). exact Hs. Qed.

Lemma preserves_ret {A : Type} (a : A) : preserves (ret a).
Proof. intros s a' s' Hs H. injection H as _ <-. exact Hs. Qed.

Lemma preserves_bind {A B : Type} (m : M A) (f : A -> M B) :
  preserves m -> (forall a, preserves (f a)) -> preserves (bind m f).
Proof.
  intros Hm Hf s b s' Hs H. unfold bind in H.
  destruct (m s) as [[a s1]|] eqn:Hms; [|discriminate].
  exact (Hf a s1 b s' (Hm s a s1 Hs Hms) H).
Qed.

Lemma preserves_update (f : RT.Definitions -> RT.Definitions) :
  (forall d, I d -> I (f d)) -> preserves (update_definitions f).
Proof. intros Hf s a s' Hs H. injection H as _ <-. cbn. apply Hf. exact Hs. Qed.

Lemma preserves_for_elements (body : Xml.Element -> M unit)
    (elements : list Xml.Element) :
  (forall e, preserves (body e)) -> preserves (for_elements body elements).
Proof.
  intros Hbody. induction elements as [|e rest IH]; cbn.
  - apply preserves_ret.
  - apply preserves_bind; [apply Hbody|intros _; exact IH].
Qed.

End Preserved.

(** *** The tables that [read_traces] leaves alone *)

(** Nothing but the tables of traces and of trace groups differs. *)
Definition same_but_traces (d d' : RT.Definitions) : Prop :=
  RT.contexts d' = RT.contexts d /\ RT.brushes d' = RT.brushes d
  /\ RT.ink_sources d' = RT.ink_sources d
  /\ RT.trace_formats d' = RT.trace_formats d
  /\ RT.timestamps d' = RT.timestamps d
  /\ RT.trace_views d' = RT.trace_views d.

Lemma same_but_traces_refl (d : RT.Definitions) : same_but_traces d d.
Proof. repeat split. Qed.

Lemma same_but_traces_trans (d1 d2 d3 : RT.Definitions) :
  same_but_traces d1 d2 -> same_but_traces d2 d3 -> same_but_traces d1 d3.
Proof.
  intros (H1 & H2 & H3 & H4 & H5 & H6) (K1 & K2 & K3 & K4 & K5 & K6).
  repeat split; congruence.
Qed.

(** X8.  Reading traces, trace groups and trace views registers traces
    and trace groups and nothing else: the tables of contexts, brushes,
    ink sources, trace formats and timestamps are left as they are, and
    so is the table of trace views, in which no view is ever registered
    ([read_trace_view] assigns the identifier to [ID], and [view.id],
    which [read_traces] tests, stays empty). *)
Theorem read_traces_registers_traces_only (assume_local_refs : bool)
    (container : Xml.Element) (context : option Ink.Context) (s s' : State)
    (items : list Ink.TraceItem) :
  read_traces assume_local_refs container context s = Return (items, s') ->
  RT.contexts (definitions s') = RT.contexts (definitions s)
  /\ RT.brushes (definitions s') = RT.brushes (definitions s)
  /\ RT.ink_sources (definitions s') = RT.ink_sources (definitions s)
  /\ RT.trace_formats (definitions s') = RT.trace_formats (definitions s)
  /\ RT.timestamps (definitions s') = RT.timestamps (definitions s)
  /\ RT.trace_views (definitions s') = RT.trace_views (definitions s).
Proof.
  intros H.
  refine (relates_read_traces same_but_traces same_but_traces_refl
            same_but_traces_trans assume_local_refs _ _ container context
            s items s' H);
    intros; repeat split.
Qed.

Lemma read_traces_registers_traces_only_witness :
  RT.contexts (definitions Examples.viewed_state)
  = RT.contexts (definitions Examples.initial)
  /\ RT.brushes (definitions Examples.viewed_state)
     = RT.brushes (definitions Examples.initial)
  /\ RT.ink_sources (definitions Examples.viewed_state)
     = RT.ink_sources (definitions Examples.initial)
  /\ RT.trace_formats (definitions Examples.viewed_state)
     = RT.trace_formats (definitions Examples.initial)
  /\ RT.timestamps (definitions Examples.viewed_state)
     = RT.timestamps (definitions Examples.initial)
  /\ RT.trace_views (definitions Examples.viewed_state)
     = RT.trace_views (definitions Examples.initial).
Proof.
  apply (read_traces_registers_traces_only false Examples.viewed_document None
           Examples.initial Examples.viewed_state
           [Ink.ItemTrace 0; Ink.ItemView "" (Ink.ItemTrace 0) [] [] (Some "v")]).
  vm_compute. reflexivity.
Defined.

End Tables.

(** ** The keys of the definitions *)

Section Keys.
Import Reading.

(** Every object of the definitions is stored under its own identifier,
    and no brush and no trace format under the empty one. *)
Definition keyed (d : RT.Definitions) : Prop :=
  (forall key context,
     Dict.get (RT.contexts d) key = Some context ->
     RT.context_envelope_id context = key)
  /\ map_Forall (fun key brush => RT.brush_envelope_id brush = key /\ key <> "")
                (RT.brushes d)
  /\ map_Forall (fun key source => Ink.source_id source = key) (RT.ink_sources d)
  /\ map_Forall (fun key trace_format =>
                   Ink.format_id trace_format = key /\ key <> "")
                (RT.trace_formats d)
  /\ map_Forall (fun key timestamp => RT.timestamp_envelope_id timestamp = key)
                (RT.timestamps d).

Lemma get_set_same {V : Type} (d : list (string * V)) (k : string) (v : V) :
  Dict.get (Dict.set d k v) k = Some v.
Proof.
  induction d as [|[k0 v0] rest IH]; cbn.
  - rewrite String.eqb_refl. reflexivity.
  - destruct (String.eqb_spec k0 k) as [->|Hne]; cbn.
    + rewrite String.eqb_refl. reflexivity.
    + destruct (String.eqb_spec k0 k); [contradiction|exact IH].
Qed.

Lemma has_id_not_empty (id : string) : has_id id = true -> id <> "".
Proof. intros H ->. discriminate H. Qed.

Lemma keyed_add_context (context : RT.ContextEnvelope) (d : RT.Definitions) :
  keyed d -> keyed (add_context (RT.context_envelope_id context) context d).
Proof.
  intros (Hc & Hrest). split; [|exact Hrest]. cbn. intros key c.
  destruct (String.eqb_spec (RT.context_envelope_id context) key) as [<-|Hne].
  - rewrite get_set_same. intros H. injection H as <-. reflexivity.
  - rewrite get_set_other by exact Hne. apply Hc.
Qed.

Lemma keyed_add_brush (brush : RT.BrushEnvelope) (d : RT.Definitions) :
  has_id (RT.brush_envelope_id brush) = true ->
  keyed d -> keyed (add_brush (RT.brush_envelope_id brush) brush d).
Proof.
  intros Hid (Hc & Hb & Hrest). split; [exact Hc|]. split; [|exact Hrest]. cbn.
  apply map_Forall_insert_2; [|exact Hb].
  split; [reflexivity|exact (has_id_not_empty _ Hid)].
Qed.

Lemma keyed_add_ink_source (source : Ink.InkSource) (d : RT.Definitions) :
  keyed d -> keyed (add_ink_source (Ink.source_id source) source d).
Proof.
  intros (Hc & Hb & Hs & Hrest). split; [exact Hc|]. split; [exact Hb|].
  split; [|exact Hrest]. cbn. apply map_Forall_insert_2; [reflexivity|exact Hs].
Qed.

Lemma keyed_add_trace_format (trace_format : Ink.TraceFormat) (d : RT.Definitions) :
  has_id (Ink.format_id trace_format) = true ->
  keyed d -> keyed (add_trace_format (Ink.format_id trace_format) trace_format d).
Proof.
  intros Hid (Hc & Hb & Hs & Hf & Ht). split; [exact Hc|]. split; [exact Hb|].
  split; [exact Hs|]. split; [|exact Ht]. cbn.
  apply map_Forall_insert_2; [|exact Hf].
  split; [reflexivity|exact (has_id_not_empty _ Hid)].
Qed.

Lemma keyed_add_timestamp (timestamp : RT.TimestampEnvelope) (d : RT.Definitions) :
  keyed d -> keyed (add_timestamp (RT.timestamp_envelope_id timestamp) timestamp d).
Proof.
  intros (Hc & Hb & Hs & Hf & Ht). split; [exact Hc|]. split; [exact Hb|].
  split; [exact Hs|]. split; [exact Hf|]. cbn.
  apply map_Forall_insert_2; [reflexivity|exact Ht].
Qed.

Lemma keyed_keep_nested (context : RT.ContextEnvelope) (d : RT.Definitions) :
  keyed d -> keyed (keep_nested context d).
Proof.
  intros Hd. unfold keep_nested.
  assert (H1 : keyed
            match RT.ink_source_or_ref context with
            | inl s =>
                if has_id (Ink.source_id s)
                   && negb (bool_decide (is_Some (RT.ink_sources d !! Ink.source_id s)))
                then add_ink_source (Ink.source_id s) s d else d
            | inr _ => d
            end).
  { destruct (RT.ink_source_or_ref context) as [source|]; [|exact Hd].
    destruct (_ && _); [apply keyed_add_ink_source|]; exact Hd. }
  revert H1. generalize (match RT.ink_source_or_ref context with
                         | inl s =>
                             if has_id (Ink.source_id s)
                                && negb (bool_decide
                                           (is_Some (RT.ink_sources d !! Ink.source_id s)))
                             then add_ink_source (Ink.source_id s) s d else d
                         | inr _ => d
                         end) as d1.
  intros d1 H1. cbn zeta.
  assert (H2 : keyed
            match RT.trace_format_or_ref context with
            | inl f =>
                if has_id (Ink.format_id f)
                   && negb (bool_decide (is_Some (RT.trace_formats d1 !! Ink.format_id f)))
                then add_trace_format (Ink.format_id f) f d1 else d1
            | inr _ => d1
            end).
  { destruct (RT.trace_format_or_ref context) as [f|]; [|exact H1].
    destruct (has_id (Ink.format_id f)) eqn:Hid; [|exact H1].
    destruct (negb _); [|exact H1]. cbn. apply keyed_add_trace_format; assumption. }
  revert H2. generalize (match RT.trace_format_or_ref context with
                         | inl f =>
                             if has_id (Ink.format_id f)
                                && negb (bool_decide
                                           (is_Some (RT.trace_formats d1 !! Ink.format_id f)))
                             then add_trace_format (Ink.format_id f) f d1 else d1
                         | inr _ => d1
                         end) as d2.
  intros d2 H2.
  assert (H3 : keyed
            match RT.brush_or_ref context with
            | inl b =>
                if has_id (RT.brush_envelope_id b)
                   && negb (bool_decide
                              (is_Some (RT.brushes d2 !! RT.brush_envelope_id b)))
                then add_brush (RT.brush_envelope_id b) b d2 else d2
            | inr _ => d2
            end).
  { destruct (RT.brush_or_ref context) as [b|]; [|exact H2].
    destruct (has_id (RT.brush_envelope_id b)) eqn:Hid; [|exact H2].
    destruct (negb _); [|exact H2]. cbn. apply keyed_add_brush; assumption. }
  revert H3. generalize (match RT.brush_or_ref context with
                         | inl b =>
                             if has_id (RT.brush_envelope_id b)
                                && negb (bool_decide
                                           (is_Some (RT.brushes d2 !! RT.brush_envelope_id b)))
                             then add_brush (RT.brush_envelope_id b) b d2 else d2
                         | inr _ => d2
                         end) as d3.
  intros d3 H3.
  destruct (RT.timestamp_or_ref context) as [t|]; [|exact H3].
  destruct (_ && _); [apply keyed_add_timestamp|]; exact H3.
Qed.

Lemma keyed_keep_all_nested (contexts : list RT.ContextEnvelope) (d : RT.Definitions) :
  keyed d -> keyed (foldl (fun d context => keep_nested context d) d contexts).
Proof.
  revert d. induction contexts as [|c rest IH]; intros d Hd; cbn; [exact Hd|].
  apply IH, keyed_keep_nested. exact Hd.
Qed.

Lemma preserves_keyed_items (element : Xml.Element) :
  preserves keyed (read_definitions_items element).
Proof.
  unfold read_definitions_items.
  repeat (apply preserves_bind; [|intros _]); apply preserves_for_elements; intros e.
  - apply preserves_bind;
      [apply preserves_unchanged, relates_read_ink_source; congruence|].
    intros [source|]; [|apply preserves_ret].
    apply preserves_bind;
      [apply preserves_update; intros d; apply keyed_add_ink_source|intros _].
    destruct (has_id _) eqn:Hid; [|apply preserves_ret].
    apply preserves_update. intros d. apply keyed_add_trace_format. exact Hid.
  - apply preserves_bind;
      [apply preserves_unchanged, relates_read_brush; congruence|].
    intros brush. destruct (has_id _) eqn:Hid; [|apply preserves_ret].
    apply preserves_update. intros d. apply keyed_add_brush. exact Hid.
  - apply preserves_bind;
      [apply preserves_unchanged, relates_read_trace_format; congruence|].
    intros trace_format. destruct (has_id _) eqn:Hid; [|apply preserves_ret].
    apply preserves_update. intros d. apply keyed_add_trace_format. exact Hid.
  - apply preserves_bind;
      [apply preserves_unchanged, relates_read_timestamp; congruence|].
    intros [timestamp|]; [|apply preserves_ret].
    apply preserves_update. intros d. apply keyed_add_timestamp.
Qed.

Lemma preserves_keyed_context (test : RT.ContextEnvelope -> bool)
    (element : Xml.Element) :
  preserves keyed
    (let! context := read_context element in
     if test context
     then update_definitions (add_context (RT.context_envelope_id context) context)
     else ret tt).
Proof.
  apply preserves_bind;
    [apply preserves_unchanged, relates_read_context; congruence|].
  intros context. destruct (test context); [|apply preserves_ret].
  apply preserves_update. intros d. apply keyed_add_context.
Qed.

Lemma keyed_same_but_traces (d d' : RT.Definitions) :
  same_but_traces d d' -> keyed d -> keyed d'.
Proof.
  intros (H1 & H2 & H3 & H4 & H5 & _) Hd. unfold keyed.
  rewrite H1, H2, H3, H4, H5. exact Hd.
Qed.

(** X9.  In the definitions that [read_definitions] returns, every
    context, brush, ink source, trace format and timestamp is stored
    under its own identifier, and no brush and no trace format is stored
    under the empty one: looking an identifier up gives an object that
    has it. *)
Theorem read_definitions_keyed (assume_local_refs : bool) (root : Xml.Element)
    (s s' : State) (d : RT.Definitions) :
  read_definitions assume_local_refs root s = Return (d, s') ->
  (forall key context,
     Dict.get (RT.contexts d) key = Some context ->
     RT.context_envelope_id context = key)
  /\ map_Forall (fun key brush => RT.brush_envelope_id brush = key /\ key <> "")
                (RT.brushes d)
  /\ map_Forall (fun key source => Ink.source_id source = key) (RT.ink_sources d)
  /\ map_Forall (fun key trace_format =>
                   Ink.format_id trace_format = key /\ key <> "")
                (RT.trace_formats d)
  /\ map_Forall (fun key timestamp => RT.timestamp_envelope_id timestamp = key)
                (RT.timestamps d).
Proof.
  intros H. unfold read_definitions in H. unfold bind at 1 in H.
  cbn [put_definitions] in H.
  match type of H with
  | ?m ?s0 = _ =>
      assert (Hkeeps : preserves keyed m); [|pose proof (Hkeeps s0 d s') as Hend]
  end.
  - apply preserves_bind; [|intros _].
    { apply preserves_for_elements. intros e. apply preserves_keyed_items. }
    apply preserves_bind; [|intros _].
    { apply preserves_for_elements. intros e. unfold read_definitions_contexts.
      apply preserves_for_elements. intros c.
      apply (preserves_keyed_context (fun context =>
               has_id (RT.context_envelope_id context))). }
    apply preserves_bind; [|intros _].
    { unfold read_root_contexts. apply preserves_for_elements. intros c.
      apply (preserves_keyed_context (fun context =>
               (String.length (RT.context_envelope_id context) =? 0)%nat)). }
    apply preserves_bind; [|intros _].
    { apply preserves_update. intros d0. apply keyed_keep_all_nested. }
    apply preserves_bind; [|intros _].
    { apply preserves_for_elements. intros e.
      apply preserves_bind; [|intros _; apply preserves_ret].
      intros s1 items s2 Hs1 Hread.
      refine (keyed_same_but_traces _ _ _ Hs1).
      refine (relates_read_traces same_but_traces same_but_traces_refl
                same_but_traces_trans assume_local_refs _ _ e None s1 items s2 Hread);
        intros; repeat split. }
    apply preserves_unchanged, relates_get_definitions; congruence.
  - assert (Hd : keyed (definitions s')).
    { apply Hend; [|exact H]. cbn. split; [intros key c Hget; discriminate Hget|].
      split; [|split; [|split]]; intros key x Hkey; cbn in Hkey;
        rewrite lookup_empty in Hkey; discriminate Hkey. }
    assert (d = definitions s') as ->.
    { clear Hend. unfold bind in H.
      repeat match type of H with
             | match ?m with Return _ => _ | Raise _ => _ end = _ =>
                 destruct m as [[? ?]|]; [|discriminate]
             end.
      injection H as <- <-. reflexivity. }
    exact Hd.
Qed.

Lemma read_definitions_keyed_witness :
  (forall key context,
     Dict.get (RT.contexts Examples.brush_definitions) key = Some context ->
     RT.context_envelope_id context = key)
  /\ map_Forall (fun key brush => RT.brush_envelope_id brush = key /\ key <> "")
                (RT.brushes Examples.brush_definitions)
  /\ map_Forall (fun key source => Ink.source_id source = key)
                (RT.ink_sources Examples.brush_definitions)
  /\ map_Forall (fun key trace_format =>
                   Ink.format_id trace_format = key /\ key <> "")
                (RT.trace_formats Examples.brush_definitions)
  /\ map_Forall (fun key timestamp => RT.timestamp_envelope_id timestamp = key)
                (RT.timestamps Examples.brush_definitions).
Proof.
  apply (read_definitions_keyed false Examples.brush_document Examples.initial
           {| definitions := Examples.brush_definitions; heap := []; log := [] |}).
  vm_compute. reflexivity.
Defined.

End Keys.

(** ** Reading the definitions, then resolving the brushes *)

Section ReadThenResolve.
Import Reading References SpecReferences.

(** X10.  The brush step of [resolve_references] never fails on the
    definitions that [read_definitions] returns: neither [brushes[id]]
    nor [del definitions.brushes[id]] raises [KeyError].  It removes
    brushes and adds none, and every brush it leaves has a parent chain
    that ends inside the table. *)
Theorem read_then_resolve_brushes (assume_local_refs : bool) (root : Xml.Element)
    (s s' : State) (d : RT.Definitions) :
  read_definitions assume_local_refs root s = Return (d, s') ->
  exists brushes' messages,
    resolve_brush_references (RT.brushes d) = Return (brushes', messages)
    /\ (forall id, is_Some (brushes' !! id) -> is_Some (RT.brushes d !! id))
    /\ (forall id, is_Some (brushes' !! id) -> exists n, chain_ends brushes' n id).
Proof.
  intros H. apply read_definitions_brushes in H as [Hreg Hunlinked].
  destruct (resolve_brush_references_spec (RT.brushes d) Hreg)
    as (brushes' & messages & ignored & Hrun & Hignored & Hgone & Hkept & Hnone & _).
  exists brushes', messages. split; [exact Hrun|].
  assert (Hfrom : forall id, is_Some (brushes' !! id) ->
            exists envelope, RT.brushes d !! id = Some envelope /\ id ∉ ignored).
  { intros id [e' He']. destruct (RT.brushes d !! id) as [e|] eqn:He.
    - exists e. split; [reflexivity|]. intros Hin.
      rewrite (Hgone id Hin) in He'. discriminate.
    - rewrite (Hnone id He) in He'. discriminate. }
  split.
  - intros id Hid. destruct (Hfrom id Hid) as (e & He & _). exists e. exact He.
  - intros id Hid. destruct (Hfrom id Hid) as (e & He & Hnot).
    destruct (Hkept id e He Hnot) as [Hres _].
    apply (resolvable_chain_ends (RT.brushes d) brushes' id Hunlinked); [|exact Hres].
    intros id0 e0 He0 Hres0. apply (Hkept id0 e0 He0).
    intros Hin. apply Hignored in Hin as [_ Hin]. contradiction.
Qed.

Lemma read_then_resolve_brushes_witness :
  exists brushes' messages,
    resolve_brush_references (RT.brushes Examples.brush_definitions)
    = Return (brushes', messages)
    /\ (forall id, is_Some (brushes' !! id) ->
        is_Some (RT.brushes Examples.brush_definitions !! id))
    /\ (forall id, is_Some (brushes' !! id) -> exists n, chain_ends brushes' n id).
Proof.
  apply (read_then_resolve_brushes false Examples.brush_document Examples.initial
           {| definitions := Examples.brush_definitions; heap := []; log := [] |}).
  vm_compute. reflexivity.
Defined.

(** X11.  Reading traces only adds: the warnings logged before are
    still there, in their order, with the new ones after them; no trace
    object disappears; and the samples of a trace object read earlier
    are never changed by the traces read after it (a later trace that
    continues it only sets its [next]). *)
Theorem read_traces_only_adds (assume_local_refs : bool) (container : Xml.Element)
    (context : option Ink.Context) (s s' : State) (items : list Ink.TraceItem) :
  read_traces assume_local_refs container context s = Return (items, s') ->
  (exists warnings, log s' = log s ++ warnings)
  /\ length (heap s) <= length (heap s')
  /\ (forall l trace,
        heap s !! l = Some trace ->
        exists trace',
          heap s' !! l = Some trace'
          /\ Ink.channels trace' = Ink.channels trace
          /\ Ink.trace_intermittent_channels trace'
             = Ink.trace_intermittent_channels trace).
Proof.
  intros H.
  destruct (maintains_read_traces assume_local_refs (length (heap s)) container
              context s items s' (le_n _) H) as (_ & _ & Hlen & Hlog & Hheap).
  split; [exact Hlog|]. split; [exact Hlen|].
  intros l t Hl. apply (Hheap l t); [|exact Hl].
  apply lookup_lt_Some in Hl. exact Hl.
Qed.

Lemma read_traces_only_adds_witness :
  (exists warnings,
     log Examples.continued_sampled_state = log Examples.sampled_state ++ warnings)
  /\ length (heap Examples.sampled_state)
     <= length (heap Examples.continued_sampled_state)
  /\ (forall l trace,
        heap Examples.sampled_state !! l = Some trace ->
        exists trace',
          heap Examples.continued_sampled_state !! l = Some trace'
          /\ Ink.channels trace' = Ink.channels trace
          /\ Ink.trace_intermittent_channels trace'
             = Ink.trace_intermittent_channels trace).
Proof.
  apply (read_traces_only_adds false Examples.continuing_document None
           Examples.sampled_state Examples.continued_sampled_state
           [Ink.ItemTrace 1]).
  vm_compute. reflexivity.
Defined.

End ReadThenResolve.

(** ** Channels of a trace format, annotations of an element *)

Section FormatsAndAnnotations.
Import Reading.

(** The [name] attribute of an element. *)
Definition name_of (element : Xml.Element) : option string := Xml.get element "name".

Lemma omap_shorter {A B : Type} (f : A -> option B) (l : list A) :
  length (omap f l) <= length l.
Proof. induction l as [|x l IH]; cbn; [lia|]. destruct (f x); cbn; lia. Qed.

Lemma read_channel_named (element : Xml.Element) (s : State) :
  match name_of element with
  | Some name =>
      exists channel,
        read_channel element s = Return (Some channel, s)
        /\ Ink.channel_name channel = name
  | None =>
      read_channel element s
      = Return (None, {| definitions := definitions s; heap := heap s;
                         log := log s ++ [RequiredAttribute "name" "channel"] |})
  end.
Proof.
  unfold name_of, read_channel. destruct (Xml.get element "name") as [name|].
  - eexists. split; reflexivity.
  - reflexivity.
Qed.

Lemma read_channels_named (elements : list Xml.Element) :
  forall (acc : list Ink.Channel) (s : State),
    exists channels s',
      for_each read_channel (fun channels c => channels ++ [c]) elements acc s
      = Return (channels, s')
      /\ map Ink.channel_name channels
         = map Ink.channel_name acc ++ omap name_of elements
      /\ definitions s' = definitions s /\ heap s' = heap s
      /\ log s' = log s ++ replicate (length elements - length (omap name_of elements))
                                     (RequiredAttribute "name" "channel").
Proof.
  induction elements as [|e rest IH]; intros acc s.
  - exists acc, s. cbn. rewrite !app_nil_r. repeat split; reflexivity.
  - cbn [for_each]. unfold bind at 1.
    pose proof (read_channel_named e s) as He.
    pose proof (omap_shorter name_of rest) as Hle.
    assert (Hcons : omap name_of (e :: rest)
                    = match name_of e with
                      | Some name => name :: omap name_of rest
                      | None => omap name_of rest
                      end) by reflexivity.
    rewrite Hcons. clear Hcons.
    destruct (name_of e) as [name|].
    + destruct He as (channel & -> & Hname).
      destruct (IH (acc ++ [channel]) s)
        as (channels & s' & Hrun & Hnames & Hd & Hh & Hlog).
      exists channels, s'. split; [exact Hrun|]. split; [|split; [|split]]; try assumption.
      rewrite Hnames, map_app. cbn. rewrite Hname, <- app_assoc. reflexivity.
    + rewrite He.
      destruct (IH acc {| definitions := definitions s; heap := heap s;
                          log := log s ++ [RequiredAttribute "name" "channel"] |})
        as (channels & s' & Hrun & Hnames & Hd & Hh & Hlog).
      exists channels, s'. split; [exact Hrun|]. split; [|split; [|split]]; try assumption.
      rewrite Hlog. cbn [log length]. rewrite <- app_assoc. f_equal.
      replace (S (length rest) - length (omap name_of rest))
        with (S (length rest - length (omap name_of rest))) by lia.
      reflexivity.
Qed.

(** The [channel] children that [read_trace_format] reads as
    intermittent channels. *)
Definition intermittent_elements (element : Xml.Element) : list Xml.Element :=
  match Xml.find element (Inkml.inkml "intermittentChannels") with
  | Some inner => Xml.findall inner (Inkml.inkml "channel")
  | None => []
  end.

(** X12.  [read_trace_format] always returns.  The regular channels of
    the format are the [channel] children that have a [name], in
    document order, and the intermittent channels those of the first
    [intermittentChannels] child; a [channel] without [name] is left out
    with one warning, so that the channels after it move up by one
    place.  Nothing but the log changes. *)
Theorem read_trace_format_channels (element : Xml.Element) (s : State) :
  exists trace_format s',
    read_trace_format element s = Return (trace_format, s')
    /\ map Ink.channel_name (Ink.regular_channels trace_format)
       = omap name_of (Xml.findall element (Inkml.inkml "channel"))
    /\ map Ink.channel_name (Ink.intermittent_channels trace_format)
       = omap name_of (intermittent_elements element)
    /\ definitions s' = definitions s /\ heap s' = heap s
    /\ log s'
       = log s
         ++ replicate (length (Xml.findall element (Inkml.inkml "channel")
                               ++ intermittent_elements element)
                       - length (omap name_of
                                   (Xml.findall element (Inkml.inkml "channel")
                                    ++ intermittent_elements element)))
                      (RequiredAttribute "name" "channel").
Proof.
  unfold read_trace_format, intermittent_elements.
  destruct (read_channels_named (Xml.findall element (Inkml.inkml "channel")) [] s)
    as (regular & s1 & Hrun1 & Hnames1 & Hd1 & Hh1 & Hlog1).
  unfold bind at 1. rewrite Hrun1. unfold bind at 1.
  pose proof (omap_shorter name_of (Xml.findall element (Inkml.inkml "channel")))
    as Hle1.
  destruct (Xml.find element (Inkml.inkml "intermittentChannels")) as [inner|].
  - destruct (read_channels_named (Xml.findall inner (Inkml.inkml "channel")) [] s1)
      as (intermittent & s2 & Hrun2 & Hnames2 & Hd2 & Hh2 & Hlog2).
    pose proof (omap_shorter name_of (Xml.findall inner (Inkml.inkml "channel")))
      as Hle2.
    rewrite Hrun2. eexists _, s2. split; [reflexivity|]. cbn.
    split; [exact Hnames1|]. split; [exact Hnames2|].
    split; [congruence|]. split; [congruence|].
    rewrite Hlog2, Hlog1, <- app_assoc, <- replicate_add, omap_app, !length_app.
    f_equal. f_equal. lia.
  - eexists _, s1. split; [reflexivity|]. cbn.
    split; [exact Hnames1|]. split; [reflexivity|].
    split; [exact Hd1|]. split; [exact Hh1|].
    rewrite Hlog1, !app_nil_r. reflexivity.
Qed.

(** *** Annotations *)

Definition is_annotation (element : Xml.Element) : bool :=
  String.eqb (Xml.tag element) Inkml.ANNOTATION
  || String.eqb (Xml.tag element) Inkml.ANNOTATION_XML.

Lemma read_annotation_returns (element : Xml.Element) (s : State) :
  is_annotation element = true ->
  (exists annotation, read_annotation element s = Return (Some annotation, s))
  \/ read_annotation element s
     = Return (None, {| definitions := definitions s; heap := heap s;
                        log := log s ++ [NoContentNorHref] |}).
Proof.
  unfold is_annotation, read_annotation. intros Htag.
  destruct (String.eqb (Xml.tag element) Inkml.ANNOTATION).
  - left. eexists. reflexivity.
  - cbn in Htag. rewrite Htag.
    destruct (0 <? _)%nat; [left; eexists; reflexivity|].
    destruct (Xml.get element "href"); [left; eexists; reflexivity|].
    right. reflexivity.
Qed.

Lemma read_annotation_list_returns (items : list Xml.Element) :
  forall s,
    exists annotations s' given_up,
      read_annotation_list items s = Return (annotations, s')
      /\ definitions s' = definitions s /\ heap s' = heap s
      /\ log s' = log s ++ replicate given_up NoContentNorHref
      /\ length annotations + given_up = length (filter (fun e => is_annotation e = true) items).
Proof.
  induction items as [|item rest IH]; intros s.
  - exists [], s, 0. cbn. rewrite app_nil_r. repeat split; reflexivity.
  - cbn [read_annotation_list]. rewrite filter_cons. fold (is_annotation item).
    destruct (is_annotation item) eqn:Htag.
    + rewrite decide_True by reflexivity. unfold bind at 1.
      destruct (read_annotation_returns item s Htag) as [[a ->]| ->].
      * destruct (IH s) as (annotations & s' & k & Hrun & Hd & Hh & Hlog & Hlen).
        unfold bind at 1. rewrite Hrun.
        exists (a :: annotations), s', k. cbn. repeat split; try assumption. lia.
      * destruct (IH {| definitions := definitions s; heap := heap s;
                        log := log s ++ [NoContentNorHref] |})
          as (annotations & s' & k & Hrun & Hd & Hh & Hlog & Hlen).
        unfold bind at 1. rewrite Hrun.
        exists annotations, s', (S k). cbn. repeat split; try assumption.
        -- rewrite Hlog. cbn. rewrite <- app_assoc. reflexivity.
        -- lia.
    + rewrite decide_False by discriminate. apply IH.
Qed.

(** X13.  [read_annotations] never raises: the exception that
    [read_annotation] has for an element that is no annotation is out
    of its reach.  Every [annotation] or [annotationXML] child gives one
    annotation or, when it has neither content nor [href], one warning;
    the other children are passed over, and nothing but the log
    changes. *)
Theorem read_annotations_returns (container : Xml.Element) (s : State) :
  exists annotations s' given_up,
    read_annotations container s = Return (annotations, s')
    /\ definitions s' = definitions s /\ heap s' = heap s
    /\ log s' = log s ++ replicate given_up NoContentNorHref
    /\ length annotations + given_up
       = length (filter (fun e => is_annotation e = true) (Xml.children container)).
Proof. apply read_annotation_list_returns. Qed.

End FormatsAndAnnotations.

(** ** The identifier a trace is registered under *)

Section TraceIds.
Import Reading.

Section WithReader.
Variable assume_local_refs : bool.

Lemma read_trace_fields_id (element : Xml.Element) (context : option Ink.Context)
    (require_refs : bool) (l : Ink.loc) (s s' : State) (trace : Ink.Trace) :
  read_trace_fields assume_local_refs element context require_refs l s
  = Return ((true, trace), s') ->
  Ink.trace_id trace = default "" (non_empty (get_id element)).
Proof.
  intros H. unfold read_trace_fields in H.
  apply bind_Return in H as (c & s1 & _ & H).
  destruct c as [c|]; [|discriminate].
  apply bind_Return in H as (b & s2 & _ & H).
  destruct b as [b|]; [|discriminate].
  apply bind_Return in H as (cont & s3 & _ & H).
  apply bind_Return in H as (proceed & s4 & _ & H).
  destruct proceed; [|discriminate]. cbn [negb] in H.
  apply bind_Return in H as (data & s5 & _ & H).
  destruct data as [[regular intermittent]|]; [|discriminate].
  apply bind_Return in H as (u & s6 & _ & H).
  injection H as <- _. reflexivity.
Qed.

(** X14.  A [trace] element that [read_traces] keeps becomes a new trace
    object whose identifier is its [xml:id] (or [id]) attribute, or the
    empty string without one.  With an identifier the object is
    registered under it in the table of traces, where a [traceView] or a
    continuation read later finds it; without one the table is left as
    it was. *)
Theorem kept_trace_is_registered
    (read_group_traces : Xml.Element -> option Ink.Context -> M (list Ink.TraceItem))
    (context : option Ink.Context) (child : Xml.Element) (s s' : State)
    (l : Ink.loc) :
  Xml.tag child = Inkml.TRACE ->
  read_item assume_local_refs read_group_traces context child s
  = Return (Some (Ink.ItemTrace l), s') ->
  l = length (heap s)
  /\ exists trace,
       heap s' !! l = Some trace
       /\ Ink.trace_id trace = default "" (non_empty (get_id child))
       /\ (Ink.trace_id trace <> "" ->
           RT.traces (definitions s') !! Ink.trace_id trace = Some l)
       /\ (Ink.trace_id trace = "" ->
           RT.traces (definitions s') = RT.traces (definitions s)).
Proof.
  intros Htag H. unfold read_item in H. rewrite Htag, String.eqb_refl in H.
  apply bind_Return in H as (kept & s3 & Htrace & H).
  pose proof (relates_read_trace eq (@eq_refl _) (@eq_trans _) assume_local_refs
                child context true s kept s3 Htrace) as Hsame.
  unfold read_trace in Htrace.
  apply bind_Return in Htrace as (l1 & s0 & Hnew & Htrace).
  injection Hnew as <- <-.
  apply bind_Return in Htrace as ([returned trace] & s2 & Hfields & Htrace).
  apply bind_Return in Htrace as (u & s3' & Hstore & Htrace).
  injection Hstore as _ <-. injection Htrace as <- <-.
  destruct returned; [|apply bind_Return in H as (? & ? & _ & H); discriminate].
  pose proof (read_trace_fields_id _ _ _ _ _ _ _ Hfields) as Hid.
  assert (Hlen : length (heap s) < length (heap s2)).
  { destruct (maintains_read_trace_fields assume_local_refs 0 child context true
                (length (heap s)) _ _ _ (Nat.le_0_l _) Hfields)
      as (_ & _ & Hlen & _).
    cbn in Hlen. rewrite length_app in Hlen. cbn in Hlen. lia. }
  apply bind_Return in H as (id & s4 & Hat & H).
  injection Hat as <- <-. cbn [heap] in H.
  rewrite list_lookup_insert_eq in H by exact Hlen.
  apply bind_Return in H as (u' & s5 & Hreg & H).
  injection H as <- <-. split; [reflexivity|]. exists trace.
  unfold register_trace in Hreg.
  destruct (0 <? String.length (Ink.trace_id trace))%nat eqn:Hsome.
  - injection Hreg as _ <-. cbn.
    split; [apply list_lookup_insert_eq; exact Hlen|]. split; [exact Hid|].
    split; [intros _; apply lookup_insert_eq|].
    intros Hempty. rewrite Hempty in Hsome. discriminate.
  - injection Hreg as _ <-. cbn.
    split; [apply list_lookup_insert_eq; exact Hlen|]. split; [exact Hid|].
    split.
    + intros Hne. destruct (Ink.trace_id trace); [contradiction|discriminate].
    + intros _. cbn in Hsame. rewrite <- Hsame. reflexivity.
Qed.

Lemma read_trace_data_heap (element : Xml.Element) (trace : Ink.Trace)
    (context : option Ink.Context) (s s' : State)
    (data : option (gmap string (list PyNum.num) * gmap string (list Ink.IndexValue))) :
  read_trace_data element trace context s = Return (data, s') -> heap s' = heap s.
Proof.
  unfold read_trace_data. destruct (Xml.text element) as [text|].
  - destruct (parse_trace_content text _) as [chans|w|e]; intros H.
    + injection H as _ <-. reflexivity.
    + injection H as _ <-. reflexivity.
    + discriminate H.
  - intros H. injection H as _ <-. reflexivity.
Qed.

(** X15.  A trace that continues another one ([continuation] is
    [middle] or [end]) is linked to its prior trace before its body is
    read.  When its [contextRef] and its [brushRef] are found (each is
    absent, or not a local reference, or names a registered definition)
    and its [priorRef] names a registered trace, then once [read_trace]
    returns, the [next] of the prior trace is the new trace object,
    whether the new trace is returned or given up because its body does
    not decode. *)
Theorem continuation_links_prior (element : Xml.Element)
    (context : option Ink.Context) (require_refs : bool) (s s' : State)
    (kept : option Ink.loc) (text prior_ref : string) (prior : Ink.loc) :
  Spec.reference_found assume_local_refs (context_table (definitions s))
                       (Xml.get element "contextRef") = true ->
  Spec.reference_found assume_local_refs (brush_table (definitions s))
                       (Xml.get element "brushRef") = true ->
  Xml.get element "continuation" = Some text ->
  String.eqb text "middle" || String.eqb text "end" = true ->
  non_empty (Xml.get element "priorRef") = Some prior_ref ->
  Ids.is_local_id prior_ref || assume_local_refs = true ->
  RT.traces (definitions s) !! Ids.to_local_id prior_ref = Some prior ->
  prior < length (heap s) ->
  read_trace assume_local_refs element context require_refs s = Return (kept, s') ->
  exists trace,
    heap s' !! prior = Some trace /\ Ink.next trace = Some (length (heap s)).
Proof.
  intros Hcontext Hbrush Hcont Htext Hprior Hlocal Hfound Hvalid H.
  unfold read_trace in H.
  apply bind_Return in H as (l & s0 & Hnew & H). injection Hnew as <- <-.
  apply bind_Return in H as ([returned trace] & s5 & Hfields & H).
  apply bind_Return in H as (u & s6 & Hstore & H).
  injection Hstore as _ <-. injection H as _ <-. cbn [heap].
  assert (Hlinked : exists t, heap s5 !! prior = Some t
                              /\ Ink.next t = Some (length (heap s))).
  { unfold read_trace_fields in Hfields.
    set (s0 := {| definitions := definitions s; heap := heap s ++ [Ink.new_trace];
                  log := log s |}) in *.
    destruct (lookup_ref_found assume_local_refs "context" "trace" context_table
                (Xml.get element "contextRef") require_refs s0 Hcontext)
      as (c & s1 & Hc & Hd1 & Hh1).
    unfold bind at 1 in Hfields. rewrite Hc in Hfields.
    assert (Hbrush1 : Spec.reference_found assume_local_refs
                        (brush_table (definitions s1))
                        (Xml.get element "brushRef") = true)
      by (rewrite Hd1; exact Hbrush).
    destruct (lookup_ref_found assume_local_refs "brush" "trace" brush_table
                (Xml.get element "brushRef") require_refs s1 Hbrush1)
      as (b & s2 & Hb & Hd2 & Hh2).
    unfold bind at 1 in Hfields. rewrite Hb in Hfields.
    unfold bind at 1 in Hfields. rewrite Hcont in Hfields.
    assert (Hcontinued :
              exists c0, read_continuation (Some text) s2 = Return (c0, s2)
                         /\ is_continued c0 = true).
    { unfold read_continuation.
      destruct (String.eqb_spec text "middle") as [->|Hm];
        [eexists; split; reflexivity|].
      destruct (String.eqb_spec text "end") as [->|He];
        [eexists; split; reflexivity|].
      discriminate Htext. }
    destruct Hcontinued as (c0 & Hc0 & Hcontinued).
    rewrite Hc0 in Hfields. rewrite Hcontinued in Hfields.
    unfold bind at 1 in Hfields.
    assert (Hlink : read_prior assume_local_refs element (length (heap s))
                               require_refs s2
                    = Return (true,
                              {| definitions := definitions s2;
                                 heap := alter (set_next (length (heap s))) prior
                                               (heap s2);
                                 log := log s2 |})).
    { unfold read_prior. rewrite Hprior.
      replace (negb (Ids.is_local_id prior_ref) && negb assume_local_refs) with false
        by (destruct (Ids.is_local_id prior_ref), assume_local_refs;
            cbn in *; congruence).
      assert (Hfound2 : RT.traces (definitions s2) !! Ids.to_local_id prior_ref
                        = Some prior)
        by (rewrite Hd2, Hd1; exact Hfound).
      unfold bind, get_definitions. rewrite Hfound2. reflexivity. }
    rewrite Hlink in Hfields. cbn [negb] in Hfields.
    assert (Hthere : exists t0, heap s2 !! prior = Some t0).
    { apply lookup_lt_is_Some. rewrite Hh2, Hh1. cbn. rewrite length_app. lia. }
    destruct Hthere as [t0 Ht0].
    apply bind_Return in Hfields as (data & s4 & Hdata & Hfields).
    apply read_trace_data_heap in Hdata. cbn in Hdata.
    assert (Hs5 : heap s5 = heap s4).
    { destruct data as [[regular intermittent]|].
      - apply bind_Return in Hfields as (u0 & s6 & Hwarn & Hfields).
        injection Hfields as _ _ <-.
        destruct (non_empty (get_id element)), c0; injection Hwarn as _ <-;
          reflexivity.
      - injection Hfields as _ _ <-. reflexivity. }
    exists (set_next (length (heap s)) t0). split; [|reflexivity].
    rewrite Hs5, Hdata, list_lookup_alter_eq.
    exact (f_equal (fmap (set_next (length (heap s)))) Ht0). }
  destruct Hlinked as (t & Ht & Hnext). exists t. split; [|exact Hnext].
  rewrite list_lookup_insert_ne by lia. exact Ht.
Qed.

End WithReader.

Lemma kept_trace_is_registered_witness :
  0 = length (heap Examples.initial)
  /\ exists trace,
       heap Examples.viewed_state !! 0 = Some trace
       /\ Ink.trace_id trace
          = default "" (non_empty (get_id (Examples.identified "trace" "t" [] [])))
       /\ (Ink.trace_id trace <> "" ->
           RT.traces (definitions Examples.viewed_state) !! Ink.trace_id trace = Some 0)
       /\ (Ink.trace_id trace = "" ->
           RT.traces (definitions Examples.viewed_state)
           = RT.traces (definitions Examples.initial)).
Proof.
  apply (kept_trace_is_registered false (read_traces false) None
           (Examples.identified "trace" "t" [] []) Examples.initial
           Examples.viewed_state 0).
  - reflexivity.
  - vm_compute. reflexivity.
Defined.

Lemma continuation_links_prior_witness :
  exists trace,
    heap Examples.continued_state !! 0 = Some trace
    /\ Ink.next trace = Some (length (heap Examples.viewed_state)).
Proof.
  apply (continuation_links_prior false Examples.broken_continuation None true
           Examples.viewed_state Examples.continued_state None "end" "#t" 0).
  - reflexivity.
  - reflexivity.
  - reflexivity.
  - reflexivity.
  - reflexivity.
  - reflexivity.
  - reflexivity.
  - cbn. lia.
  - vm_compute. reflexivity.
Defined.

End TraceIds.

(** ** Local references, and the attributes of an ink source *)

Section LocalIds.
Import Ids.

(** X16.  A reference is local exactly when it is [#] followed by a
    non-empty identifier, and that identifier is what both conversions
    give; every other string, the empty one and [#] alone included, is
    returned as it is by [to_local_id] and has no optional local
    identifier. *)
Theorem local_id_round_trip (uri : string) :
  (is_local_id uri = true <-> exists id, uri = String "#" id /\ id <> "")
  /\ (forall id, uri = String "#" id -> id <> "" ->
      to_local_id uri = id /\ to_optional_local_id uri = Some id)
  /\ (is_local_id uri = false ->
      to_local_id uri = uri /\ to_optional_local_id uri = None).
Proof.
  split; [|split].
  - unfold is_local_id. split.
    + destruct uri as [|c [|d rest]]; try discriminate. intros H.
      apply Ascii.eqb_eq in H. subst c. eexists. split; [reflexivity|discriminate].
    + intros (id & -> & Hid). destruct id; [contradiction|reflexivity].
  - intros id -> Hid. destruct id as [|d rest]; [contradiction|].
    split; reflexivity.
  - unfold to_local_id, to_optional_local_id. intros ->. split; reflexivity.
Qed.

End LocalIds.

Section InkSourceAttributes.
Import Reading.

Lemma assign_properties_respect_to (groups : gmap string (list RT.ChannelProperty))
    (channel : Ink.Channel) :
  Ink.channel_respect_to (assign_properties groups channel)
  = Ink.channel_respect_to channel.
Proof.
  unfold assign_properties. destruct (groups !! Ink.channel_name channel); reflexivity.
Qed.

Lemma read_channels_respect_to (elements : list Xml.Element) :
  forall (acc channels : list Ink.Channel) (s s' : State),
    Forall (fun c => Ink.channel_respect_to c = "") acc ->
    for_each read_channel (fun channels c => channels ++ [c]) elements acc s
    = Return (channels, s') ->
    Forall (fun c => Ink.channel_respect_to c = "") channels.
Proof.
  induction elements as [|e rest IH]; intros acc channels s s' Hacc H; cbn in H.
  - injection H as <- _. exact Hacc.
  - apply bind_Return in H as (c & s1 & Hc & H).
    refine (IH _ _ _ _ _ H). destruct c as [c|]; [|exact Hacc].
    apply Forall_app. split; [exact Hacc|]. constructor; [|constructor].
    unfold read_channel in Hc. destruct (Xml.get e "name"); [|discriminate].
    injection Hc as <- _. reflexivity.
Qed.

Lemma read_trace_format_respect_to (element : Xml.Element) (s s' : State)
    (trace_format : Ink.TraceFormat) :
  read_trace_format element s = Return (trace_format, s') ->
  Forall (fun c => Ink.channel_respect_to c = "")
         (Ink.regular_channels trace_format ++ Ink.intermittent_channels trace_format).
Proof.
  unfold read_trace_format. intros H.
  apply bind_Return in H as (regular & s1 & Hregular & H).
  apply read_channels_respect_to in Hregular; [|constructor].
  apply bind_Return in H as (intermittent & s2 & Hintermittent & H).
  injection H as <- _. cbn. apply Forall_app. split; [exact Hregular|].
  destruct (Xml.find element (Inkml.inkml "intermittentChannels")).
  - apply read_channels_respect_to in Hintermittent; [exact Hintermittent|constructor].
  - injection Hintermittent as <- _. constructor.
Qed.

(** The name of a [channel] element with its [respectTo] attribute. *)
Definition named_respect (element : Xml.Element) : option (string * option string) :=
  match Xml.get element "name" with
  | Some name => Some (name, Xml.get element "respectTo")
  | None => None
  end.

Definition respect_of (channel : Ink.Channel) : string * option string :=
  (Ink.channel_name channel, Ink.channel_respectTo channel).

Lemma assign_properties_respect_of (groups : gmap string (list RT.ChannelProperty))
    (channel : Ink.Channel) :
  respect_of (assign_properties groups channel) = respect_of channel.
Proof.
  unfold assign_properties. destruct (groups !! Ink.channel_name channel); reflexivity.
Qed.

Lemma read_channels_respect_of (elements : list Xml.Element) :
  forall (acc channels : list Ink.Channel) (s s' : State),
    for_each read_channel (fun channels c => channels ++ [c]) elements acc s
    = Return (channels, s') ->
    map respect_of channels = map respect_of acc ++ omap named_respect elements.
Proof.
  induction elements as [|e rest IH]; intros acc channels s s' H; cbn in H.
  - injection H as <- _. cbn. rewrite app_nil_r. reflexivity.
  - apply bind_Return in H as (c & s1 & Hc & H).
    apply IH in H. rewrite H. clear H.
    assert (Hcons : omap named_respect (e :: rest)
                    = match named_respect e with
                      | Some x => x :: omap named_respect rest
                      | None => omap named_respect rest
                      end) by reflexivity.
    rewrite Hcons. clear Hcons.
    unfold read_channel in Hc. unfold named_respect at 2.
    destruct (Xml.get e "name") as [name|].
    + injection Hc as <- _. rewrite map_app, <- app_assoc. reflexivity.
    + apply bind_Return in Hc as (u & s2 & _ & Hc). injection Hc as <- _.
      reflexivity.
Qed.

Lemma read_trace_format_respect_of (element : Xml.Element) (s s' : State)
    (trace_format : Ink.TraceFormat) :
  read_trace_format element s = Return (trace_format, s') ->
  map respect_of (Ink.regular_channels trace_format)
  = omap named_respect (Xml.findall element (Inkml.inkml "channel"))
  /\ map respect_of (Ink.intermittent_channels trace_format)
     = omap named_respect (intermittent_elements element).
Proof.
  unfold read_trace_format, intermittent_elements. intros H.
  apply bind_Return in H as (regular & s1 & Hregular & H).
  apply read_channels_respect_of in Hregular.
  apply bind_Return in H as (intermittent & s2 & Hintermittent & H).
  injection H as <- _. cbn. split; [exact Hregular|].
  destruct (Xml.find element (Inkml.inkml "intermittentChannels")).
  - apply read_channels_respect_of in Hintermittent. exact Hintermittent.
  - injection Hintermittent as <- _. reflexivity.
Qed.

(** X17.  The ink source that [read_ink_source] returns has its
    attributes [sample_rate], [active_area], [serial_no] and
    [specification_ref] unset, whatever the element holds: what the
    reader reads of them it keeps under other names.  [sampleRate] is
    what [read_sample_rate] returns for the [sampleRate] child,
    [activeArea] what [read_active_area] returns for the [activeArea]
    child, [serialNo] and [specificationRef] are the attributes of these
    names.  In the same way the [respect_to] of every channel of its
    trace format is empty, and the attribute [respectTo] of each
    [channel] element is kept as [respectTo] of its channel. *)
Theorem ink_source_declared_attributes_unset (element : Xml.Element) (s s' : State)
    (source : Ink.InkSource) :
  read_ink_source element s = Return (Some source, s') ->
  Ink.source_sample_rate source = None
  /\ Ink.source_active_area source = None
  /\ Ink.source_serial_no source = None
  /\ Ink.source_specification_ref source = None
  /\ (exists s1 s2,
        read_sample_rate (Xml.find element (Inkml.inkml "sampleRate")) s1
        = Return (Ink.source_sampleRate source, s2))
  /\ (exists s1 s2,
        read_active_area (Xml.find element (Inkml.inkml "activeArea")) s1
        = Return (Ink.source_activeArea source, s2))
  /\ Ink.source_serialNo source = Xml.get element "serialNo"
  /\ Ink.source_specificationRef source = Xml.get element "specificationRef"
  /\ Forall (fun c => Ink.channel_respect_to c = "")
            (Ink.regular_channels (Ink.source_trace_format source)
             ++ Ink.intermittent_channels (Ink.source_trace_format source))
  /\ exists format_element,
       Xml.find element (Inkml.inkml "traceFormat") = Some format_element
       /\ map respect_of (Ink.regular_channels (Ink.source_trace_format source))
          = omap named_respect (Xml.findall format_element (Inkml.inkml "channel"))
       /\ map respect_of (Ink.intermittent_channels (Ink.source_trace_format source))
          = omap named_respect (intermittent_elements format_element).
Proof.
  unfold read_ink_source. intros H.
  destruct (get_id element) as [id|]; [|discriminate].
  destruct (Xml.find element (Inkml.inkml "traceFormat")) as [format_element|];
    [|discriminate].
  apply bind_Return in H as (trace_format & s1 & Hformat & H).
  pose proof (read_trace_format_respect_to _ _ _ _ Hformat) as Hunset.
  apply read_trace_format_respect_of in Hformat as [Hregular Hintermittent].
  apply bind_Return in H as (rate & s2 & Hrate & H).
  apply bind_Return in H as (latency & s3 & _ & H).
  apply bind_Return in H as (area & s4 & Harea & H).
  apply bind_Return in H as (properties & s5 & _ & H).
  apply bind_Return in H as (groups & s6 & _ & H).
  injection H as <- _. cbn.
  assert (Hkept : forall channels,
            map respect_of (map (assign_properties groups) channels)
            = map respect_of channels).
  { intros channels. rewrite map_map. apply map_ext. intros c.
    apply assign_properties_respect_of. }
  repeat (split; [reflexivity|]).
  split; [exists s1, s2; exact Hrate|].
  split; [exists s3, s4; exact Harea|].
  repeat (split; [reflexivity|]). split.
  - rewrite <- map_app. apply Forall_map.
    eapply Forall_impl; [exact Hunset|].
    intros c Hc. cbn. rewrite assign_properties_respect_to. exact Hc.
  - exists format_element. split; [reflexivity|]. rewrite !Hkept.
    split; assumption.
Qed.

Lemma ink_source_declared_attributes_unset_witness :
  Ink.source_sample_rate Examples.described_source = None
  /\ Ink.source_active_area Examples.described_source = None
  /\ Ink.source_serial_no Examples.described_source = None
  /\ Ink.source_specification_ref Examples.described_source = None
  /\ (exists s1 s2,
        read_sample_rate (Xml.find Examples.described_source_element
                                   (Inkml.inkml "sampleRate")) s1
        = Return (Ink.source_sampleRate Examples.described_source, s2))
  /\ (exists s1 s2,
        read_active_area (Xml.find Examples.described_source_element
                                   (Inkml.inkml "activeArea")) s1
        = Return (Ink.source_activeArea Examples.described_source, s2))
  /\ Ink.source_serialNo Examples.described_source
     = Xml.get Examples.described_source_element "serialNo"
  /\ Ink.source_specificationRef Examples.described_source
     = Xml.get Examples.described_source_element "specificationRef"
  /\ Forall (fun c => Ink.channel_respect_to c = "")
            (Ink.regular_channels (Ink.source_trace_format Examples.described_source)
             ++ Ink.intermittent_channels
                  (Ink.source_trace_format Examples.described_source))
  /\ exists format_element,
       Xml.find Examples.described_source_element (Inkml.inkml "traceFormat")
       = Some format_element
       /\ map respect_of
              (Ink.regular_channels (Ink.source_trace_format Examples.described_source))
          = omap named_respect (Xml.findall format_element (Inkml.inkml "channel"))
       /\ map respect_of
              (Ink.intermittent_channels
                 (Ink.source_trace_format Examples.described_source))
          = omap named_respect (intermittent_elements format_element).
Proof.
  apply (ink_source_declared_attributes_unset Examples.described_source_element
           Examples.initial Examples.initial).
  vm_compute. reflexivity.
Defined.

End InkSourceAttributes.

(** ** Timestamp parent references *)

Section TimestampPass.
Import TimestampReferences.

Implicit Types timestamps : gmap string RT.TimestampEnvelope.

Lemma elem_of_timestamp_terminal_ids timestamps (id : string) :
  registered_by_id timestamps ->
  id ∈ terminal_ids timestamps
  <-> exists envelope, timestamps !! id = Some envelope /\ is_terminal envelope = true.
Proof.
  intros Hreg. unfold terminal_ids.
  rewrite elem_of_list_to_set, list_elem_of_fmap. split.
  - intros (e & -> & He). apply list_elem_of_filter in He as [Hterm He].
    apply list_elem_of_fmap in He as ([k e'] & -> & Hke).
    apply elem_of_map_to_list in Hke. cbn in *.
    exists e'. rewrite (Hreg k e' Hke). split; assumption.
  - intros (e & He & Hterm). exists e. split; [symmetry; apply (Hreg id e He)|].
    apply list_elem_of_filter. split; [exact Hterm|].
    apply list_elem_of_fmap. exists (id, e). split; [reflexivity|].
    apply elem_of_map_to_list. exact He.
Qed.

Lemma elem_of_timestamp_referencing_ids timestamps (id : string) :
  registered_by_id timestamps ->
  id ∈ referencing_ids timestamps
  <-> exists envelope, timestamps !! id = Some envelope /\ is_terminal envelope = false.
Proof.
  intros Hreg. unfold referencing_ids.
  rewrite elem_of_list_to_set, list_elem_of_fmap. split.
  - intros (e & -> & He). apply list_elem_of_filter in He as [Hterm He].
    apply list_elem_of_fmap in He as ([k e'] & -> & Hke).
    apply elem_of_map_to_list in Hke. cbn in *.
    exists e'. rewrite (Hreg k e' Hke). split; assumption.
  - intros (e & He & Hterm). exists e. split; [symmetry; apply (Hreg id e He)|].
    apply list_elem_of_filter. split; [exact Hterm|].
    apply list_elem_of_fmap. exists (id, e). split; [reflexivity|].
    apply elem_of_map_to_list. exact He.
Qed.

Lemma timestamp_resolvable_registered timestamps (id : string) :
  resolvable timestamps id -> is_Some (timestamps !! id).
Proof. intros [? e He _|? e He _ _]; exists e; exact He. Qed.

(** *** One pass over the backlog *)

Lemma timestamp_stage_spec (original : gmap string RT.TimestampEnvelope)
    (resolved : gset string) (ids : list string) timestamps :
  NoDup ids ->
  (forall id, id ∈ ids ->
     exists envelope, original !! id = Some envelope /\ timestamps !! id = Some envelope) ->
  (forall id, id ∈ resolved -> is_Some (timestamps !! id)) ->
  (forall id, id ∈ ids -> id ∉ resolved) ->
  exists timestamps' stage_ids,
    resolve_stage ids timestamps resolved = Return (timestamps', stage_ids)
    /\ (forall id, id ∈ stage_ids
        <-> id ∈ ids
            /\ exists envelope,
                 original !! id = Some envelope /\ parent_id envelope ∈ resolved)
    /\ (forall id envelope,
          id ∈ stage_ids -> original !! id = Some envelope ->
          timestamps' !! id = Some (set_parent envelope (parent_id envelope)))
    /\ (forall id, id ∉ stage_ids -> timestamps' !! id = timestamps !! id).
Proof.
  intros Hnodup. revert timestamps.
  induction Hnodup as [|id rest Hfresh Hnodup IH]; intros timestamps Hids Hresolved Hout.
  - exists timestamps, []. cbn. split; [reflexivity|]. split; [|split].
    + intros id. split; [intros H; inversion H|intros [H _]; inversion H].
    + intros id e H. inversion H.
    + reflexivity.
  - destruct (Hids id ltac:(left)) as (e & Horiginal & Hcurrent).
    cbn. rewrite Hcurrent. fold (parent_id e).
    destruct (decide (parent_id e ∈ resolved)) as [Hparent|Hparent].
    + destruct (Hresolved _ Hparent) as [p ->].
      destruct (IH (<[id := set_parent e (parent_id e)]> timestamps))
        as (timestamps' & stage & -> & Hstage & Hset & Hkept).
      * intros id' Hid'. destruct (Hids id' ltac:(right; exact Hid')) as (e' & ? & ?).
        exists e'. split; [assumption|]. rewrite lookup_insert_ne; [assumption|].
        intros ->. contradiction.
      * intros id' Hid'. rewrite lookup_insert. case_decide; [eexists; reflexivity|].
        apply Hresolved. exact Hid'.
      * intros id' Hid'. apply Hout. right. exact Hid'.
      * exists timestamps', (id :: stage). cbn. split; [reflexivity|].
        assert (Hnot : id ∉ stage).
        { intros H. apply Hstage in H as [H _]. contradiction. }
        split; [|split].
        -- intros id'. rewrite !elem_of_cons, Hstage. split.
           ++ intros [->|[Hin Hex]]; [|split; [right; exact Hin|exact Hex]].
              split; [left; reflexivity|]. exists e. split; assumption.
           ++ intros [[->|Hin] Hex]; [left; reflexivity|right; split; assumption].
        -- intros id' e' Hin Hlook. apply elem_of_cons in Hin as [->|Hin].
           ++ rewrite (Hkept id Hnot), lookup_insert_eq. congruence.
           ++ apply Hset; assumption.
        -- intros id' Hnotin. apply not_elem_of_cons in Hnotin as [Hne Hnotin].
           rewrite (Hkept id' Hnotin). apply lookup_insert_ne. congruence.
    + destruct (IH timestamps) as (timestamps' & stage & -> & Hstage & Hset & Hkept).
      * intros id' Hid'. apply Hids. right. exact Hid'.
      * exact Hresolved.
      * intros id' Hid'. apply Hout. right. exact Hid'.
      * exists timestamps', stage. split; [reflexivity|]. split; [|split].
        -- intros id'. rewrite Hstage, elem_of_cons. split.
           ++ intros [Hin Hex]. split; [right; exact Hin|exact Hex].
           ++ intros [[->|Hin] Hex]; [|split; assumption].
              destruct Hex as (e' & He' & Hp). congruence.
        -- exact Hset.
        -- exact Hkept.
Qed.

(** *** The loop *)

(** What the loop keeps true of the table it works on, [original] being
    the table it started from: the timestamps in the backlog are as they
    were, the resolved ones are linked, and every timestamp is in one of the
    two sets. *)
Record timestamp_loop_invariant (original timestamps : gmap string RT.TimestampEnvelope)
    (backlog resolved : gset string) : Prop := {
  timestamp_invariant_backlog : forall id, id ∈ backlog ->
    exists envelope,
      original !! id = Some envelope /\ is_terminal envelope = false
      /\ timestamps !! id = Some envelope;
  timestamp_invariant_resolved : forall id, id ∈ resolved ->
    exists envelope,
      original !! id = Some envelope /\ resolvable original id
      /\ timestamps !! id = Some (linked envelope);
  timestamp_invariant_all : forall id, is_Some (original !! id) -> id ∈ backlog \/ id ∈ resolved;
  timestamp_invariant_disjoint : forall id, id ∈ backlog -> id ∉ resolved;
  timestamp_invariant_others : forall id, original !! id = None -> timestamps !! id = None
}.

Lemma timestamp_loop_eq (fuel : nat) timestamps (backlog resolved : gset string) :
  resolve_loop fuel timestamps backlog resolved
  = if decide (size backlog = 0) then Return (timestamps, backlog)
    else
      match fuel with
      | O => Return (timestamps, backlog)
      | S fuel' =>
          py_bind (resolve_stage (elements backlog) timestamps resolved)
            (fun '(timestamps', stage_ids) =>
               match stage_ids with
               | [] => Return (timestamps', backlog)
               | _ =>
                   resolve_loop fuel' timestamps'
                     (backlog ∖ list_to_set stage_ids)
                     (resolved ∪ list_to_set stage_ids)
               end)
      end.
Proof. destruct fuel; reflexivity. Qed.

(** When a pass resolves nothing, nothing in the backlog can be resolved. *)
Lemma timestamp_stuck_backlog (original timestamps : gmap string RT.TimestampEnvelope)
    (backlog resolved : gset string) (id : string) :
  timestamp_loop_invariant original timestamps backlog resolved ->
  (forall id envelope,
     id ∈ backlog -> original !! id = Some envelope -> parent_id envelope ∉ resolved) ->
  resolvable original id -> id ∉ backlog.
Proof.
  intros Hinv Hstuck Hres.
  induction Hres as [id e He Hterm|id e He Hterm Hparent IH]; intros Hin.
  - destruct (timestamp_invariant_backlog _ _ _ _ Hinv id Hin) as (e' & He' & Hterm' & _).
    congruence.
  - apply (Hstuck id e Hin He).
    destruct (timestamp_invariant_all _ _ _ _ Hinv (parent_id e)
                (timestamp_resolvable_registered _ _ Hparent)) as [Hback|Hdone];
      [contradiction|exact Hdone].
Qed.

Lemma timestamp_loop_spec (original : gmap string RT.TimestampEnvelope) (fuel : nat)
    timestamps (backlog resolved : gset string) :
  timestamp_loop_invariant original timestamps backlog resolved ->
  size backlog <= fuel ->
  exists timestamps' backlog' resolved',
    resolve_loop fuel timestamps backlog resolved = Return (timestamps', backlog')
    /\ timestamp_loop_invariant original timestamps' backlog' resolved'
    /\ (forall id, id ∈ backlog' -> ~ resolvable original id).
Proof.
  revert timestamps backlog resolved.
  induction fuel as [|fuel IH]; intros timestamps backlog resolved Hinv Hsize;
    rewrite timestamp_loop_eq.
  - destruct (decide (size backlog = 0)) as [Hzero|Hsome]; [|lia].
    exists timestamps, backlog, resolved. split; [reflexivity|]. split; [exact Hinv|].
    intros id Hin. apply size_empty_iff in Hzero. set_solver.
  - destruct (decide (size backlog = 0)) as [Hzero|Hsome].
    { exists timestamps, backlog, resolved. split; [reflexivity|]. split; [exact Hinv|].
      intros id Hin. apply size_empty_iff in Hzero. set_solver. }
    destruct (timestamp_stage_spec original resolved (elements backlog) timestamps)
      as (timestamps' & stage & Hrun & Hstage & Hset & Hkept).
    { apply NoDup_elements. }
    { intros id Hin. apply elem_of_elements in Hin.
      destruct (timestamp_invariant_backlog _ _ _ _ Hinv id Hin) as (e & He & _ & Hcur).
      exists e. split; assumption. }
    { intros id Hin.
      destruct (timestamp_invariant_resolved _ _ _ _ Hinv id Hin) as (e & _ & _ & Hcur).
      eexists. exact Hcur. }
    { intros id Hin. apply elem_of_elements in Hin.
      apply (timestamp_invariant_disjoint _ _ _ _ Hinv id Hin). }
    rewrite Hrun. cbn [py_bind].
    destruct stage as [|first more].
    + assert (timestamps' = timestamps) as ->.
      { apply map_eq. intros id. apply Hkept. intros H. inversion H. }
      exists timestamps, backlog, resolved. split; [reflexivity|]. split; [exact Hinv|].
      intros id Hin Hres. revert Hin.
      apply (timestamp_stuck_backlog original timestamps backlog resolved id Hinv); [|exact Hres].
      intros id' e' Hin' He' Hparent.
      assert (Hno : id' ∈ @nil string); [|inversion Hno].
      apply Hstage. split; [apply elem_of_elements; exact Hin'|].
      exists e'. split; assumption.
    + remember (first :: more) as stage eqn:Hshape.
      assert (Hsub : forall id, id ∈ stage -> id ∈ backlog).
      { intros id Hin. apply Hstage in Hin as [Hin _].
        apply elem_of_elements in Hin. exact Hin. }
      destruct (IH timestamps' (backlog ∖ list_to_set stage) (resolved ∪ list_to_set stage))
        as (timestamps'' & backlog' & resolved' & Hloop & Hinv' & Hleft).
      * constructor.
        -- intros id Hin. apply elem_of_difference in Hin as [Hin Hnot].
           rewrite elem_of_list_to_set in Hnot.
           destruct (timestamp_invariant_backlog _ _ _ _ Hinv id Hin) as (e & He & Hterm & Hcur).
           exists e. split; [exact He|]. split; [exact Hterm|].
           rewrite (Hkept id Hnot). exact Hcur.
        -- intros id Hin. apply elem_of_union in Hin as [Hin|Hin].
           ++ destruct (timestamp_invariant_resolved _ _ _ _ Hinv id Hin)
                as (e & He & Hres & Hcur).
              exists e. split; [exact He|]. split; [exact Hres|].
              rewrite Hkept; [exact Hcur|].
              intros Hstaged. apply Hsub in Hstaged.
              apply (timestamp_invariant_disjoint _ _ _ _ Hinv id Hstaged Hin).
           ++ rewrite elem_of_list_to_set in Hin.
              pose proof (Hsub id Hin) as Hback.
              destruct (timestamp_invariant_backlog _ _ _ _ Hinv id Hback)
                as (e & He & Hterm & Hcur).
              apply Hstage in Hin as Hin'. destruct Hin' as [_ (e' & He' & Hparent)].
              assert (e' = e) as -> by congruence.
              exists e. split; [exact He|]. split.
              ** apply (resolvable_parent original id e He Hterm).
                 destruct (timestamp_invariant_resolved _ _ _ _ Hinv _ Hparent)
                   as (_ & _ & Hres & _).
                 exact Hres.
              ** rewrite (Hset id e Hin He). unfold linked. rewrite Hterm. reflexivity.
        -- intros id Hid.
           destruct (timestamp_invariant_all _ _ _ _ Hinv id Hid) as [Hback|Hdone].
           ++ destruct (decide (id ∈ stage)) as [Hstaged|Hnot].
              ** right. apply elem_of_union. right.
                 apply elem_of_list_to_set. exact Hstaged.
              ** left. apply elem_of_difference. split; [exact Hback|].
                 rewrite elem_of_list_to_set. exact Hnot.
           ++ right. apply elem_of_union. left. exact Hdone.
        -- intros id Hin Hdone. apply elem_of_difference in Hin as [Hin Hnot].
           apply elem_of_union in Hdone as [Hdone|Hdone].
           ++ apply (timestamp_invariant_disjoint _ _ _ _ Hinv id Hin Hdone).
           ++ contradiction.
        -- intros id Hid. rewrite Hkept; [apply (timestamp_invariant_others _ _ _ _ Hinv id Hid)|].
           intros Hstaged. apply Hsub in Hstaged.
           destruct (timestamp_invariant_backlog _ _ _ _ Hinv id Hstaged) as (e & He & _).
           congruence.
      * assert (Hless : size (backlog ∖ list_to_set stage) < size backlog); [|lia].
        apply subset_size. split.
        -- intros id Hin. apply elem_of_difference in Hin as [Hin _]. exact Hin.
        -- intros Hall.
           assert (Hstaged : first ∈ stage) by (subst stage; left).
           pose proof (Hall first (Hsub first Hstaged)) as Hfirst.
           apply elem_of_difference in Hfirst as [_ Hnot].
           apply Hnot. apply elem_of_list_to_set. exact Hstaged.
      * exists timestamps'', backlog', resolved'.
        split; [exact Hloop|split; assumption].
Qed.

Lemma timestamp_initial_invariant timestamps :
  registered_by_id timestamps ->
  timestamp_loop_invariant timestamps timestamps (referencing_ids timestamps) (terminal_ids timestamps).
Proof.
  intros Hreg. constructor.
  - intros id Hin. apply (elem_of_timestamp_referencing_ids _ _ Hreg) in Hin as (e & He & Hterm).
    exists e. repeat split; assumption.
  - intros id Hin. apply (elem_of_timestamp_terminal_ids _ _ Hreg) in Hin as (e & He & Hterm).
    exists e. split; [exact He|]. split; [exact (resolvable_terminal _ _ _ He Hterm)|].
    unfold linked. rewrite Hterm. exact He.
  - intros id [e He]. destruct (is_terminal e) eqn:Hterm.
    + right. apply (elem_of_timestamp_terminal_ids _ _ Hreg). exists e. split; assumption.
    + left. apply (elem_of_timestamp_referencing_ids _ _ Hreg). exists e. split; assumption.
  - intros id Hback Hdone.
    apply (elem_of_timestamp_referencing_ids _ _ Hreg) in Hback as (e & He & Hterm).
    apply (elem_of_timestamp_terminal_ids _ _ Hreg) in Hdone as (e' & He' & Hterm').
    congruence.
  - intros id Hid. exact Hid.
Qed.

(** *** Deleting the ignored timestamps *)

Lemma timestamp_delete_all_spec (ids : list string) timestamps :
  NoDup ids ->
  (forall id, id ∈ ids -> is_Some (timestamps !! id)) ->
  exists timestamps',
    delete_all ids timestamps = Return timestamps'
    /\ (forall id, id ∈ ids -> timestamps' !! id = None)
    /\ (forall id, id ∉ ids -> timestamps' !! id = timestamps !! id).
Proof.
  intros Hnodup. revert timestamps.
  induction Hnodup as [|id rest Hfresh Hnodup IH]; intros timestamps Hids.
  - exists timestamps. split; [reflexivity|]. split; [|reflexivity].
    intros id H. inversion H.
  - destruct (Hids id ltac:(left)) as [e He]. cbn. rewrite He.
    destruct (IH (delete id timestamps)) as (timestamps' & -> & Hgone & Hkept).
    { intros id' Hid'. rewrite lookup_delete_ne; [apply Hids; right; exact Hid'|].
      intros ->. contradiction. }
    exists timestamps'. split; [reflexivity|]. split.
    + intros id' Hin. apply elem_of_cons in Hin as [->|Hin]; [|apply Hgone; exact Hin].
      rewrite (Hkept id Hfresh). apply lookup_delete_eq.
    + intros id' Hnot. apply not_elem_of_cons in Hnot as [Hne Hnot].
      rewrite (Hkept id' Hnot). apply lookup_delete_ne. congruence.
Qed.

(** *** The timestamp step of [resolve_references] *)

Lemma resolve_timestamp_references_spec timestamps :
  registered_by_id timestamps ->
  exists timestamps' messages (ignored : gset string),
    resolve_timestamp_references timestamps = Return (timestamps', messages)
    /\ (forall id, id ∈ ignored <-> is_Some (timestamps !! id) /\ ~ resolvable timestamps id)
    /\ (forall id, id ∈ ignored -> timestamps' !! id = None)
    /\ (forall id envelope,
          timestamps !! id = Some envelope -> id ∉ ignored ->
          resolvable timestamps id /\ timestamps' !! id = Some (linked envelope))
    /\ (forall id, timestamps !! id = None -> timestamps' !! id = None)
    /\ messages = if decide (size ignored = 0) then []
                   else [timestamp_message (elements ignored)].
Proof.
  intros Hreg. unfold resolve_timestamp_references, resolve_timestamp_parent_references.
  destruct (timestamp_loop_spec timestamps (size (referencing_ids timestamps)) timestamps
              (referencing_ids timestamps) (terminal_ids timestamps)
              (timestamp_initial_invariant timestamps Hreg) (le_n _))
    as (linked_timestamps & ignored & resolved & -> & Hinv & Hleft).
  cbn [py_bind].
  assert (Hignored : forall id,
            id ∈ ignored <-> is_Some (timestamps !! id) /\ ~ resolvable timestamps id).
  { intros id. split.
    - intros Hin. split; [|apply Hleft; exact Hin].
      destruct (timestamp_invariant_backlog _ _ _ _ Hinv id Hin) as (e & He & _).
      exists e. exact He.
    - intros [Hid Hnot].
      destruct (timestamp_invariant_all _ _ _ _ Hinv id Hid) as [Hback|Hdone]; [exact Hback|].
      destruct (timestamp_invariant_resolved _ _ _ _ Hinv id Hdone) as (_ & _ & Hres & _).
      contradiction. }
  assert (Hkept : forall id envelope,
            timestamps !! id = Some envelope -> id ∉ ignored ->
            resolvable timestamps id /\ linked_timestamps !! id = Some (linked envelope)).
  { intros id e He Hnot.
    destruct (timestamp_invariant_all _ _ _ _ Hinv id ltac:(eexists; exact He))
      as [Hback|Hdone]; [contradiction|].
    destruct (timestamp_invariant_resolved _ _ _ _ Hinv id Hdone) as (e' & He' & Hres & Hcur).
    assert (e' = e) as -> by congruence. split; assumption. }
  destruct (decide (size ignored = 0)) as [Hzero|Hsome].
  - exists linked_timestamps, [], ignored. split; [reflexivity|].
    split; [exact Hignored|].
    split; [intros id Hin; apply size_empty_iff in Hzero; set_solver|].
    split; [exact Hkept|].
    split; [apply (timestamp_invariant_others _ _ _ _ Hinv)|].
    case_decide; [reflexivity|contradiction].
  - destruct (timestamp_delete_all_spec (elements ignored) linked_timestamps)
      as (timestamps' & -> & Hgone & Hrest).
    { apply NoDup_elements. }
    { intros id Hin. apply elem_of_elements in Hin.
      destruct (timestamp_invariant_backlog _ _ _ _ Hinv id Hin) as (e & _ & _ & Hcur).
      eexists. exact Hcur. }
    exists timestamps', [timestamp_message (elements ignored)], ignored.
    split; [reflexivity|]. split; [exact Hignored|].
    split; [intros id Hin; apply Hgone, elem_of_elements; exact Hin|].
    split; [|split; [|case_decide; [contradiction|reflexivity]]].
    + intros id e He Hnot. destruct (Hkept id e He Hnot) as [Hres Hcur].
      split; [exact Hres|]. rewrite Hrest; [exact Hcur|].
      rewrite elem_of_elements. exact Hnot.
    + intros id Hid. destruct (decide (id ∈ ignored)) as [Hin|Hnot].
      * apply Hgone, elem_of_elements. exact Hin.
      * rewrite Hrest; [apply (timestamp_invariant_others _ _ _ _ Hinv id Hid)|].
        rewrite elem_of_elements. exact Hnot.
Qed.

(** A timestamp whose reference resolves in the table [timestamps] has a parent
    chain that ends in any table that has every such timestamp, linked. *)
Lemma timestamp_resolvable_chain_ends timestamps timestamps' (id : string) :
  unlinked timestamps ->
  (forall id envelope,
     timestamps !! id = Some envelope -> resolvable timestamps id ->
     timestamps' !! id = Some (linked envelope)) ->
  resolvable timestamps id ->
  exists n, chain_ends timestamps' n id.
Proof.
  intros Hunlinked Hlinked Hres.
  induction Hres as [id e He Hterm|id e He Hterm Hparent [n IH]].
  - exists 0. apply (chain_root timestamps' id (linked e)).
    + apply (Hlinked id e He). exact (resolvable_terminal _ _ _ He Hterm).
    + unfold linked. rewrite Hterm. exact (Hunlinked id e He).
  - exists (S n). apply (chain_link timestamps' n id (linked e) (parent_id e)).
    + apply (Hlinked id e He). exact (resolvable_parent _ _ _ He Hterm Hparent).
    + unfold linked. rewrite Hterm. reflexivity.
    + exact IH.
Qed.

(** X18.  For a timestamp table in which every timestamp is under its
    own id and none has a parent yet, the timestamp step of
    [resolve_references] returns: no lookup [timestamps[...]] and no
    [del definitions.timestamps[id]] raises [KeyError].  The timestamps
    it leaves are exactly those whose reference resolves (it is empty, or
    it names, with or without [#], a timestamp whose reference
    resolves); each is the timestamp that was read, linked to the one it
    names, and its parent chain ends inside the table.  Nothing is
    printed when every reference resolves; otherwise there is one
    message, which names the timestamps removed. *)
Theorem timestamp_references_resolved timestamps :
  registered_by_id timestamps ->
  unlinked timestamps ->
  exists timestamps' messages,
    resolve_timestamp_references timestamps = Return (timestamps', messages)
    /\ (forall id, is_Some (timestamps' !! id) <-> resolvable timestamps id)
    /\ (forall id envelope,
          timestamps !! id = Some envelope -> resolvable timestamps id ->
          timestamps' !! id = Some (linked envelope))
    /\ (forall id, is_Some (timestamps' !! id) -> exists n, chain_ends timestamps' n id)
    /\ ((forall id, is_Some (timestamps !! id) -> resolvable timestamps id)
        /\ messages = []
        \/ exists ignored : gset string,
             ignored <> ∅
             /\ (forall id, id ∈ ignored
                            <-> is_Some (timestamps !! id) /\ ~ resolvable timestamps id)
             /\ messages = [timestamp_message (elements ignored)]).
Proof.
  intros Hreg Hunlinked.
  destruct (resolve_timestamp_references_spec timestamps Hreg)
    as (timestamps' & messages & ignored & Hrun & Hignored & Hgone & Hkept & Hnone
        & Hmessages).
  assert (Hlinked : forall id envelope,
            timestamps !! id = Some envelope -> resolvable timestamps id ->
            timestamps' !! id = Some (linked envelope)).
  { intros id e He Hres. apply (Hkept id e He).
    intros Hin. apply Hignored in Hin as [_ Hnot]. contradiction. }
  assert (Hleft : forall id, is_Some (timestamps' !! id) <-> resolvable timestamps id).
  { intros id. split.
    - intros [e' He']. destruct (timestamps !! id) as [e|] eqn:He.
      + destruct (decide (id ∈ ignored)) as [Hin|Hnot].
        * rewrite (Hgone id Hin) in He'. discriminate.
        * apply (Hkept id e He Hnot).
      + rewrite (Hnone id He) in He'. discriminate.
    - intros Hres. destruct (timestamp_resolvable_registered _ _ Hres) as [e He].
      rewrite (Hlinked id e He Hres). eexists. reflexivity. }
  exists timestamps', messages. split; [exact Hrun|]. split; [exact Hleft|].
  split; [exact Hlinked|]. split.
  - intros id Hid. apply Hleft in Hid.
    exact (timestamp_resolvable_chain_ends timestamps timestamps' id Hunlinked
             Hlinked Hid).
  - subst messages. destruct (decide (size ignored = 0)) as [Hzero|Hsome].
    + left. split; [|reflexivity]. intros id Hid.
      destruct (decide (id ∈ ignored)) as [Hin|Hnot].
      * apply size_empty_iff in Hzero. set_solver.
      * destruct Hid as [e He]. apply (Hkept id e He Hnot).
    + right. exists ignored. split; [|split; [exact Hignored|reflexivity]].
      intros ->. apply Hsome. apply size_empty.
Qed.

Lemma timestamp_references_resolved_witness :
  exists timestamps' messages,
    resolve_timestamp_references Examples.chained_timestamps
    = Return (timestamps', messages)
    /\ (forall id, is_Some (timestamps' !! id)
                   <-> resolvable Examples.chained_timestamps id)
    /\ (forall id, is_Some (timestamps' !! id) -> exists n, chain_ends timestamps' n id).
Proof.
  destruct (timestamp_references_resolved Examples.chained_timestamps)
    as (timestamps' & messages & Hrun & Hleft & _ & Hchains & _).
  - unfold registered_by_id. apply (bool_decide_unpack _). vm_compute. exact I.
  - unfold unlinked. apply (bool_decide_unpack _). vm_compute. exact I.
  - exists timestamps', messages. split; [exact Hrun|]. split; assumption.
Defined.

End TimestampPass.

(** ** The timestamp table that [read_definitions] builds *)

Section Established.
Import Reading.

Variable I : RT.Definitions -> Prop.

Lemma preserves_bind_post {A B : Type} (Q : A -> Prop) (m : M A) (f : A -> M B) :
  preserves I m ->
  (forall s a s', m s = Return (a, s') -> Q a) ->
  (forall a, Q a -> preserves I (f a)) ->
  preserves I (bind m f).
Proof.
  intros Hm HQ Hf s b s' Hs H.
  apply bind_Return in H as (a & s1 & Hms & H).
  exact (Hf a (HQ s a s1 Hms) s1 b s' (Hm s a s1 Hs Hms) H).
Qed.

(** A property that holds of the empty definitions and that every step
    of [read_definitions] keeps holds of the definitions it returns. *)
Lemma read_definitions_establishes (assume_local_refs : bool) :
  I RT.new_definitions ->
  (forall e, preserves I (read_definitions_items e)) ->
  (forall (test : RT.ContextEnvelope -> bool) e,
     preserves I
       (let! context := read_context e in
        if test context
        then update_definitions (add_context (RT.context_envelope_id context) context)
        else ret tt)) ->
  (forall d, I d ->
     I (foldl (fun d context => keep_nested context d) d (Dict.values (RT.contexts d)))) ->
  (forall d d', same_but_traces d d' -> I d -> I d') ->
  forall (root : Xml.Element) (s s' : State) (d : RT.Definitions),
    read_definitions assume_local_refs root s = Return (d, s') -> I d.
Proof.
  intros Hnew Hitems Hcontext Hnested Htraces root s s' d H.
  unfold read_definitions in H. unfold bind at 1 in H.
  cbn [put_definitions] in H.
  match type of H with
  | ?m ?s0 = _ =>
      assert (Hkeeps : preserves I m); [|pose proof (Hkeeps s0 d s') as Hend]
  end.
  - apply preserves_bind; [|intros _].
    { apply preserves_for_elements. exact Hitems. }
    apply preserves_bind; [|intros _].
    { apply preserves_for_elements. intros e. unfold read_definitions_contexts.
      apply preserves_for_elements. intros c.
      apply (Hcontext (fun context => has_id (RT.context_envelope_id context))). }
    apply preserves_bind; [|intros _].
    { unfold read_root_contexts. apply preserves_for_elements. intros c.
      apply (Hcontext (fun context =>
               (String.length (RT.context_envelope_id context) =? 0)%nat)). }
    apply preserves_bind; [|intros _].
    { apply preserves_update. exact Hnested. }
    apply preserves_bind; [|intros _].
    { apply preserves_for_elements. intros e.
      apply preserves_bind; [|intros _; apply preserves_ret].
      intros s1 items s2 Hs1 Hread.
      refine (Htraces _ _ _ Hs1).
      refine (relates_read_traces same_but_traces same_but_traces_refl
                same_but_traces_trans assume_local_refs _ _ e None s1 items s2 Hread);
        intros; repeat split. }
    apply preserves_unchanged, relates_get_definitions; congruence.
  - assert (Hd : I (definitions s')) by (apply Hend; [exact Hnew|exact H]).
    assert (d = definitions s') as ->; [|exact Hd].
    clear Hend Hd. unfold bind in H.
    repeat match type of H with
           | match ?m with Return _ => _ | Raise _ => _ end = _ =>
               destruct m as [[? ?]|]; [|discriminate]
           end.
    injection H as <- <-. reflexivity.
Qed.

End Established.

Section TimestampTable.
Import Reading TimestampReferences.

(** A timestamp as [read_timestamp] leaves it: no parent is set, and one
    that carries a time or a time string has no parent reference. *)
Definition fresh (envelope : RT.TimestampEnvelope) : Prop :=
  Ink.timestamp_parent (RT.timestamp envelope) = None
  /\ (Ink.timestamp_time (RT.timestamp envelope) <> None
      \/ Ink.timestamp_timeString (RT.timestamp envelope) <> None ->
      RT.timestamp_parent_ref envelope = "").

Definition nested_fresh (context : RT.ContextEnvelope) : Prop :=
  match RT.timestamp_or_ref context with
  | inl envelope => fresh envelope
  | inr _ => True
  end.

(** Definitions whose timestamps are as they were read. *)
Definition timestamps_as_read (d : RT.Definitions) : Prop :=
  map_Forall (fun key envelope => RT.timestamp_envelope_id envelope = key
                                  /\ fresh envelope)
             (RT.timestamps d)
  /\ Forall nested_fresh (Dict.values (RT.contexts d)).

Lemma read_timestamp_fresh (element : Xml.Element) (s s' : State)
    (envelope : RT.TimestampEnvelope) :
  read_timestamp element s = Return (Some envelope, s') -> fresh envelope.
Proof.
  unfold read_timestamp. intros H.
  destruct (get_id element) as [id|]; [|discriminate].
  destruct (match Xml.get element "time" with
            | Some time_str => PyNum.float_of_string time_str
            | None => None
            end) as [time|].
  { injection H as <- _. split; reflexivity. }
  destruct (Xml.get element "timeString") as [time_string|].
  { injection H as <- _. split; reflexivity. }
  injection H as <- _. split; [reflexivity|].
  cbn. intros [Htime|Hstring]; contradiction.
Qed.

Lemma read_context_nested_fresh (element : Xml.Element) (s s' : State)
    (context : RT.ContextEnvelope) :
  read_context element s = Return (context, s') -> nested_fresh context.
Proof.
  unfold read_context. intros H.
  apply bind_Return in H as (trace_format & s1 & _ & H).
  apply bind_Return in H as (ink_source & s2 & _ & H).
  apply bind_Return in H as (brush & s3 & _ & H).
  apply bind_Return in H as (nested & s4 & Hnested & H).
  injection H as <- _. unfold nested_fresh. cbn.
  destruct (Xml.find element (Inkml.inkml "timestamp")) as [timestamp_element|].
  - apply bind_Return in Hnested as (timestamp & s5 & Hread & Hnested).
    injection Hnested as <- _. destruct timestamp as [envelope|]; [|exact I].
    exact (read_timestamp_fresh _ _ _ _ Hread).
  - injection Hnested as <- _. exact I.
Qed.

Lemma as_read_add_timestamp (envelope : RT.TimestampEnvelope) (d : RT.Definitions) :
  fresh envelope -> timestamps_as_read d ->
  timestamps_as_read (add_timestamp (RT.timestamp_envelope_id envelope) envelope d).
Proof.
  intros Hfresh [Htable Hnested]. split; [|exact Hnested]. cbn.
  apply map_Forall_insert_2; [|exact Htable]. split; [reflexivity|exact Hfresh].
Qed.

Lemma timestamps_keep_nested (context : RT.ContextEnvelope) (d : RT.Definitions) :
  nested_fresh context -> timestamps_as_read d ->
  timestamps_as_read (keep_nested context d).
Proof.
  intros Hcontext [Htable Hnested]. unfold timestamps_as_read.
  rewrite contexts_keep_nested. split; [|exact Hnested].
  unfold keep_nested, nested_fresh in *.
  repeat match goal with
         | |- context [match ?x with _ => _ end] => destruct x
         end; cbn; try assumption;
    apply map_Forall_insert_2; try assumption; (split; [reflexivity|assumption]).
Qed.

Lemma timestamps_keep_all_nested (contexts : list RT.ContextEnvelope)
    (d : RT.Definitions) :
  Forall nested_fresh contexts -> timestamps_as_read d ->
  timestamps_as_read (foldl (fun d context => keep_nested context d) d contexts).
Proof.
  intros Hcontexts. revert d.
  induction Hcontexts as [|c rest Hc Hrest IH]; intros d Hd; cbn; [exact Hd|].
  apply IH. apply timestamps_keep_nested; assumption.
Qed.

Lemma timestamps_items (element : Xml.Element) :
  preserves timestamps_as_read (read_definitions_items element).
Proof.
  unfold read_definitions_items.
  repeat (apply preserves_bind; [|intros _]); apply preserves_for_elements; intros e.
  - apply preserves_bind;
      [apply preserves_unchanged, relates_read_ink_source; congruence|].
    intros [source|]; [|apply preserves_ret].
    apply preserves_bind; [apply preserves_update; intros d Hd; exact Hd|intros _].
    destruct (has_id _); [apply preserves_update; intros d Hd; exact Hd
                         |apply preserves_ret].
  - apply preserves_bind;
      [apply preserves_unchanged, relates_read_brush; congruence|].
    intros brush.
    destruct (has_id _); [apply preserves_update; intros d Hd; exact Hd
                         |apply preserves_ret].
  - apply preserves_bind;
      [apply preserves_unchanged, relates_read_trace_format; congruence|].
    intros trace_format.
    destruct (has_id _); [apply preserves_update; intros d Hd; exact Hd
                         |apply preserves_ret].
  - apply (preserves_bind_post timestamps_as_read
             (fun timestamp => forall envelope,
                timestamp = Some envelope -> fresh envelope)).
    + apply preserves_unchanged, relates_read_timestamp; congruence.
    + intros s timestamp s' H envelope ->. exact (read_timestamp_fresh _ _ _ _ H).
    + intros [envelope|] Hfresh; [|apply preserves_ret].
      apply preserves_update. intros d. apply as_read_add_timestamp.
      apply Hfresh. reflexivity.
Qed.

Lemma timestamps_context (test : RT.ContextEnvelope -> bool) (element : Xml.Element) :
  preserves timestamps_as_read
    (let! context := read_context element in
     if test context
     then update_definitions (add_context (RT.context_envelope_id context) context)
     else ret tt).
Proof.
  apply (preserves_bind_post timestamps_as_read nested_fresh).
  - apply preserves_unchanged, relates_read_context; congruence.
  - intros s c s' H. exact (read_context_nested_fresh _ _ _ _ H).
  - intros c Hc. destruct (test c); [|apply preserves_ret].
    apply preserves_update. intros d [Htable Hnested]. split; [exact Htable|].
    cbn. apply values_set_Forall; assumption.
Qed.

Lemma read_definitions_timestamps (assume_local_refs : bool) (root : Xml.Element)
    (s s' : State) (d : RT.Definitions) :
  read_definitions assume_local_refs root s = Return (d, s') ->
  timestamps_as_read d.
Proof.
  apply (read_definitions_establishes timestamps_as_read).
  - split; [|constructor]. intros key x Hkey. cbn in Hkey.
    rewrite lookup_empty in Hkey. discriminate Hkey.
  - exact timestamps_items.
  - exact timestamps_context.
  - intros d0 Hd0. apply timestamps_keep_all_nested; [|exact Hd0].
    destruct Hd0 as [_ Hnested]. exact Hnested.
  - intros d0 d1 (Hcontexts & _ & _ & _ & Htimestamps & _) Hd0.
    unfold timestamps_as_read. rewrite Hcontexts, Htimestamps. exact Hd0.
Qed.

(** X19.  The timestamp step of [resolve_references] never fails on the
    definitions that [read_definitions] returns.  A timestamp read with
    a [time] that parses or with a [timeString] is never removed and is
    left exactly as it was read, whatever its [timestampRef]:
    [read_timestamp] returns before it reads the reference.  The step
    adds no timestamp, and every timestamp it leaves has a parent chain
    that ends inside the table. *)
Theorem read_then_resolve_timestamps (assume_local_refs : bool) (root : Xml.Element)
    (s s' : State) (d : RT.Definitions) :
  read_definitions assume_local_refs root s = Return (d, s') ->
  exists timestamps' messages,
    resolve_timestamp_references (RT.timestamps d) = Return (timestamps', messages)
    /\ (forall id envelope,
          RT.timestamps d !! id = Some envelope ->
          Ink.timestamp_time (RT.timestamp envelope) <> None
          \/ Ink.timestamp_timeString (RT.timestamp envelope) <> None ->
          timestamps' !! id = Some envelope)
    /\ (forall id, is_Some (timestamps' !! id) ->
          is_Some (RT.timestamps d !! id) /\ exists n, chain_ends timestamps' n id).
Proof.
  intros H. apply read_definitions_timestamps in H as [Htable _].
  assert (Hreg : registered_by_id (RT.timestamps d)).
  { intros key e He. apply (Htable key e He). }
  assert (Hunlinked : unlinked (RT.timestamps d)).
  { intros key e He. apply (Htable key e He). }
  destruct (resolve_timestamp_references_spec (RT.timestamps d) Hreg)
    as (timestamps' & messages & ignored & Hrun & Hignored & Hgone & Hkept & Hnone & _).
  exists timestamps', messages. split; [exact Hrun|]. split.
  - intros id e He Htimed.
    assert (Hterm : is_terminal e = true).
    { unfold is_terminal. destruct (Htable id e He) as (_ & _ & Href).
      rewrite (Href Htimed). reflexivity. }
    assert (Hnot : id ∉ ignored).
    { intros Hin. apply Hignored in Hin as [_ Hin]. apply Hin.
      exact (resolvable_terminal _ id e He Hterm). }
    destruct (Hkept id e He Hnot) as [_ ->]. unfold linked. rewrite Hterm. reflexivity.
  - intros id [e' He'].
    destruct (RT.timestamps d !! id) as [e|] eqn:He;
      [|rewrite (Hnone id He) in He'; discriminate].
    split; [eexists; reflexivity|].
    assert (Hnot : id ∉ ignored).
    { intros Hin. rewrite (Hgone id Hin) in He'. discriminate. }
    destruct (Hkept id e He Hnot) as [Hres _].
    apply (timestamp_resolvable_chain_ends (RT.timestamps d) timestamps' id Hunlinked);
      [|exact Hres].
    intros id0 e0 He0 Hres0. apply (Hkept id0 e0 He0).
    intros Hin. apply Hignored in Hin as [_ Hin]. contradiction.
Qed.

Lemma read_then_resolve_timestamps_witness :
  exists timestamps' messages,
    resolve_timestamp_references (RT.timestamps Examples.timestamp_definitions)
    = Return (timestamps', messages)
    /\ (forall id envelope,
          RT.timestamps Examples.timestamp_definitions !! id = Some envelope ->
          Ink.timestamp_time (RT.timestamp envelope) <> None
          \/ Ink.timestamp_timeString (RT.timestamp envelope) <> None ->
          timestamps' !! id = Some envelope)
    /\ (forall id, is_Some (timestamps' !! id) ->
          is_Some (RT.timestamps Examples.timestamp_definitions !! id)
          /\ exists n, chain_ends timestamps' n id).
Proof.
  apply (read_then_resolve_timestamps false Examples.timestamp_document
           Examples.initial
           {| definitions := Examples.timestamp_definitions; heap := []; log := [] |}).
  vm_compute. reflexivity.
Defined.

End TimestampTable.

(** ** The traces inside the definitions *)

Section Quiet.
Import Reading.

(** A call that writes nothing but the log. *)
Definition quiet {A : Type} (m : M A) : Prop :=
  forall s a s', m s = Return (a, s') ->
                 definitions s' = definitions s /\ heap s' = heap s.

Lemma quiet_ret {A : Type} (a : A) : quiet (ret a).
Proof. intros s a' s' H. injection H as _ <-. split; reflexivity. Qed.

Lemma quiet_throw {A : Type} (e : exn) : quiet (@throw A e).
Proof. intros s a s' H. discriminate. Qed.

Lemma quiet_bind {A B : Type} (m : M A) (f : A -> M B) :
  quiet m -> (forall a, quiet (f a)) -> quiet (bind m f).
Proof.
  intros Hm Hf s b s' H. apply bind_Return in H as (a & s1 & Hms & H).
  destruct (Hm s a s1 Hms) as [Hd Hh]. destruct (Hf a s1 b s' H) as [Hd' Hh'].
  split; congruence.
Qed.

Lemma quiet_warn (w : warning) : quiet (warn w).
Proof. intros s a s' H. injection H as _ <-. split; reflexivity. Qed.

Lemma quiet_get_definitions : quiet get_definitions.
Proof. intros s a s' H. injection H as _ <-. split; reflexivity. Qed.

Lemma quiet_trace_id_at (l : Ink.loc) : quiet (trace_id_at l).
Proof. intros s a s' H. injection H as _ <-. split; reflexivity. Qed.

Ltac hush :=
  repeat
    match goal with
    | |- quiet (ret _) => apply quiet_ret
    | |- quiet (throw _) => apply quiet_throw
    | |- quiet (warn _) => apply quiet_warn
    | |- quiet get_definitions => apply quiet_get_definitions
    | H : quiet ?m |- quiet ?m => exact H
    | |- quiet (bind _ _) => apply quiet_bind; [|intros ?]
    | |- quiet (match ?x with _ => _ end) => destruct x
    end.

Lemma quiet_for_each {A B : Type} (read : Xml.Element -> M (option A))
    (add : B -> A -> B) (elements : list Xml.Element) (acc : B) :
  (forall e, quiet (read e)) -> quiet (for_each read add elements acc).
Proof.
  intros Hread. revert acc.
  induction elements as [|e rest IH]; intros acc; cbn; hush;
    first [apply Hread | apply IH].
Qed.

Lemma quiet_read_annotation (element : Xml.Element) : quiet (read_annotation element).
Proof. unfold read_annotation. hush. Qed.

Lemma quiet_read_annotations (container : Xml.Element) :
  quiet (read_annotations container).
Proof.
  unfold read_annotations.
  induction (Xml.children container) as [|item rest IH]; cbn; hush.
  apply quiet_read_annotation.
Qed.

Lemma quiet_read_channel (element : Xml.Element) : quiet (read_channel element).
Proof. unfold read_channel. hush. Qed.

Lemma quiet_read_trace_format (element : Xml.Element) :
  quiet (read_trace_format element).
Proof.
  unfold read_trace_format. hush; apply quiet_for_each; apply quiet_read_channel.
Qed.

Lemma quiet_read_sample_rate (element : option Xml.Element) :
  quiet (read_sample_rate element).
Proof. unfold read_sample_rate. hush. Qed.

Lemma quiet_read_latency (element : option Xml.Element) :
  quiet (read_latency element).
Proof. unfold read_latency. hush. Qed.

Lemma quiet_read_active_area (element : option Xml.Element) :
  quiet (read_active_area element).
Proof. unfold read_active_area. hush. Qed.

Lemma quiet_read_source_property (element : Xml.Element) :
  quiet (read_source_property element).
Proof. unfold read_source_property. hush. Qed.

Lemma quiet_read_channel_property (element : Xml.Element) :
  quiet (read_channel_property element).
Proof. unfold read_channel_property. hush. Qed.

Lemma quiet_read_brush_property (element : Xml.Element) :
  quiet (read_brush_property element).
Proof. unfold read_brush_property. hush. apply quiet_read_annotations. Qed.

Lemma quiet_read_ink_source (element : Xml.Element) :
  quiet (read_ink_source element).
Proof.
  unfold read_ink_source. hush;
    first [ apply quiet_read_trace_format | apply quiet_read_sample_rate
          | apply quiet_read_latency | apply quiet_read_active_area
          | apply quiet_for_each; intros ?;
            first [ apply quiet_read_source_property
                  | apply quiet_read_channel_property ] ].
Qed.

Lemma quiet_read_brush (element : Xml.Element) : quiet (read_brush element).
Proof.
  unfold read_brush. hush.
  - apply quiet_for_each. intros ?. apply quiet_read_brush_property.
  - apply quiet_read_annotations.
Qed.

Lemma quiet_read_timestamp (element : Xml.Element) : quiet (read_timestamp element).
Proof. unfold read_timestamp. hush. Qed.

Lemma quiet_read_context (element : Xml.Element) : quiet (read_context element).
Proof.
  unfold read_context. hush;
    first [ apply quiet_read_trace_format | apply quiet_read_ink_source
          | apply quiet_read_brush | apply quiet_read_timestamp ].
Qed.

Lemma quiet_lookup_ref {A : Type} (assume_local_refs : bool) (what owner : string)
    (table : RT.Definitions -> string -> option A) (ref : option string)
    (require_refs : bool) :
  quiet (lookup_ref assume_local_refs what owner table ref require_refs).
Proof. unfold lookup_ref. hush. Qed.

Lemma quiet_read_trace_group (assume_local_refs : bool) (element : Xml.Element)
    (require_refs : bool) :
  quiet (read_trace_group assume_local_refs element require_refs).
Proof.
  unfold read_trace_group. hush;
    try apply quiet_lookup_ref; apply quiet_read_annotations.
Qed.

Lemma quiet_read_indices (element : Xml.Element) (attribute : string) :
  quiet (read_indices element attribute).
Proof. unfold read_indices. hush. Qed.

Lemma quiet_read_trace_view (assume_local_refs : bool) (element : Xml.Element) :
  quiet (read_trace_view assume_local_refs element).
Proof. unfold read_trace_view. hush; apply quiet_read_indices. Qed.

Lemma quiet_read_continuation (continuation : option string) :
  quiet (read_continuation continuation).
Proof. unfold read_continuation. hush. Qed.

Lemma quiet_read_trace_data (element : Xml.Element) (trace : Ink.Trace)
    (context : option Ink.Context) :
  quiet (read_trace_data element trace context).
Proof. unfold read_trace_data. hush. Qed.

End Quiet.

Section DefaultFormat.
Import Reading.

(** A context as [read_context] leaves it: nothing is resolved yet. *)
Definition bare (context : Ink.Context) : Prop :=
  Ink.context_parent context = None
  /\ Ink.context_ink_source context = None
  /\ Ink.context_trace_format context = None.

Definition bare_or_none (context : option Ink.Context) : Prop :=
  forall c, context = Some c -> bare c.

Definition bare_contexts (d : RT.Definitions) : Prop :=
  Forall (fun envelope => bare (RT.context envelope)) (Dict.values (RT.contexts d)).

(** The samples of a trace decoded with the default trace format. *)
Definition default_samples (trace : Ink.Trace) : Prop :=
  (forall name, is_Some (Ink.channels trace !! name) -> name = "X" \/ name = "Y")
  /\ Ink.trace_intermittent_channels trace = ∅.

Lemma or_else_bare (a b : option Ink.Context) :
  bare_or_none a -> bare_or_none b -> bare_or_none (or_else a b).
Proof. intros Ha Hb. destruct a; [exact Ha|exact Hb]. Qed.

Lemma get_trace_format_bare (trace : Ink.Trace) (ambient : option Ink.Context) :
  bare_or_none (Ink.context trace) -> bare_or_none ambient ->
  get_trace_format trace ambient = Ink.get_default_trace_format.
Proof.
  intros Hown Hambient. unfold get_trace_format.
  pose proof (or_else_bare _ _ Hown Hambient) as Hchosen.
  destruct (or_else (Ink.context trace) ambient) as [c|]; [|reflexivity].
  destruct (Hchosen c eq_refl) as (Hparent & Hsource & Hformat).
  destruct c as [id parent source format brush timestamp]. cbn in *.
  subst parent source format. reflexivity.
Qed.

Lemma get_values {V : Type} (d : list (string * V)) (k : string) (v : V) :
  Dict.get d k = Some v -> In v (Dict.values d).
Proof.
  induction d as [|[k0 v0] rest IH]; cbn; [discriminate|].
  destruct (String.eqb k0 k).
  - intros H. injection H as ->. left. reflexivity.
  - intros H. right. exact (IH H).
Qed.

Lemma context_table_bare (d : RT.Definitions) (id : string) :
  bare_contexts d -> bare_or_none (context_table d id).
Proof.
  intros Hd c Hc. unfold context_table in Hc.
  destruct (Dict.get (RT.contexts d) id) as [envelope|] eqn:Hget; [|discriminate].
  injection Hc as <-. apply get_values in Hget.
  unfold bare_contexts in Hd. rewrite List.Forall_forall in Hd. exact (Hd _ Hget).
Qed.

(** The context that a [contextRef] gives is one of the table. *)
Lemma lookup_ref_bare (assume_local_refs : bool) (owner : string)
    (ref : option string) (require_refs : bool) (s s' : State)
    (c : option Ink.Context) :
  bare_contexts (definitions s) ->
  lookup_ref assume_local_refs "context" owner context_table ref require_refs s
  = Return (Some c, s') ->
  bare_or_none c.
Proof.
  intros Hd. unfold lookup_ref.
  destruct ref as [r|]; [|intros H; injection H as <- _; intros ? ?; discriminate].
  destruct (Ids.is_local_id r || assume_local_refs).
  - intros H. apply bind_Return in H as (d & s1 & Hget & H).
    injection Hget as <- <-.
    pose proof (context_table_bare (definitions s) (Ids.to_local_id r) Hd) as Hc.
    destruct (context_table (definitions s) (Ids.to_local_id r)) as [found|].
    + injection H as <- _. exact Hc.
    + apply bind_Return in H as (u & s2 & _ & H).
      destruct require_refs; [discriminate|].
      injection H as <- _. intros ? ?. discriminate.
  - intros H. apply bind_Return in H as (u & s1 & _ & H).
    injection H as <- _. intros ? ?. discriminate.
Qed.

(** What the default format decodes: the channels X and Y. *)
Lemma default_format_channels (content : string) (chans : Channels) :
  parse_trace_content content Ink.get_default_trace_format = Decoded chans ->
  (forall name, is_Some (fst (move_channels chans) !! name) ->
                name = "X" \/ name = "Y")
  /\ snd (move_channels chans) = ∅.
Proof.
  intros H. apply parse_trace_content_steps in H as [Hregular Hintermittent].
  destruct chans as [regular intermittent]. cbn in Hregular, Hintermittent.
  inversion Hregular as [|x cx rest0 rest1 Hx Hrest]; subst.
  inversion Hrest as [|y cy rest2 rest3 Hy Hnone]; subst.
  inversion Hnone; subst. inversion Hintermittent; subst.
  destruct Hx as (Hx & _). destruct Hy as (Hy & _). cbn in Hx, Hy.
  split; [|reflexivity]. cbn. rewrite Hx, Hy. intros name [v Hv].
  destruct (decide (name = "Y")) as [->|HneY]; [right; reflexivity|].
  rewrite lookup_insert_ne in Hv by congruence.
  destruct (decide (name = "X")) as [->|HneX]; [left; reflexivity|].
  rewrite lookup_insert_ne in Hv by congruence.
  rewrite lookup_empty in Hv. discriminate.
Qed.

Lemma read_trace_data_default (element : Xml.Element) (partial : Ink.Trace)
    (ambient : option Ink.Context) (s s' : State)
    (regular : gmap string (list PyNum.num))
    (intermittent : gmap string (list Ink.IndexValue)) :
  bare_or_none (Ink.context partial) -> bare_or_none ambient ->
  default_samples partial ->
  read_trace_data element partial ambient s = Return (Some (regular, intermittent), s') ->
  (forall name, is_Some (regular !! name) -> name = "X" \/ name = "Y")
  /\ intermittent = ∅.
Proof.
  intros Hown Hambient Hpartial. unfold read_trace_data.
  destruct (Xml.text element) as [text|].
  - rewrite (get_trace_format_bare partial ambient Hown Hambient).
    destruct (parse_trace_content text Ink.get_default_trace_format)
      as [chans|w|e] eqn:Hparse.
    + intros H. apply default_format_channels in Hparse.
      destruct (move_channels chans) as [r i]. injection H as <- <- _. exact Hparse.
    + intros H. apply bind_Return in H as (? & ? & _ & H).
      apply bind_Return in H as (? & ? & _ & H). discriminate.
    + discriminate.
  - intros H. injection H as <- <- _. exact Hpartial.
Qed.

Lemma empty_samples (trace : Ink.Trace) :
  Ink.channels trace = ∅ -> Ink.trace_intermittent_channels trace = ∅ ->
  default_samples trace.
Proof.
  intros Hregular Hintermittent. split; [|exact Hintermittent].
  intros name [v Hv]. rewrite Hregular, lookup_empty in Hv. discriminate.
Qed.

(** The fields that [read_trace] assigns, when every context it can see
    is bare. *)
Lemma read_trace_fields_default (assume_local_refs : bool) (element : Xml.Element)
    (ambient : option Ink.Context) (require_refs : bool) (l : Ink.loc)
    (s s' : State) (returned : bool) (trace : Ink.Trace) :
  bare_contexts (definitions s) -> bare_or_none ambient ->
  read_trace_fields assume_local_refs element ambient require_refs l s
  = Return ((returned, trace), s') ->
  default_samples trace.
Proof.
  intros Hd Hambient H. unfold read_trace_fields in H.
  apply bind_Return in H as (c & s1 & Hc & H).
  destruct c as [c|];
    [|injection H as _ <- _; apply empty_samples; reflexivity].
  apply lookup_ref_bare in Hc; [|exact Hd].
  apply bind_Return in H as (b & s2 & _ & H).
  destruct b as [b|];
    [|injection H as _ <- _; apply empty_samples; reflexivity].
  apply bind_Return in H as (continuation & s3 & _ & H).
  apply bind_Return in H as (proceed & s4 & _ & H).
  destruct proceed; cbn [negb] in H;
    [|injection H as _ <- _; apply empty_samples; reflexivity].
  apply bind_Return in H as (data & s5 & Hdata & H).
  destruct data as [[regular intermittent]|];
    [|injection H as _ <- _; apply empty_samples; reflexivity].
  apply read_trace_data_default in Hdata;
    [|exact Hc|exact Hambient|apply empty_samples; reflexivity].
  apply bind_Return in H as (u & s6 & _ & H).
  injection H as _ <- _. exact Hdata.
Qed.

Lemma read_context_bare (element : Xml.Element) (s s' : State)
    (envelope : RT.ContextEnvelope) :
  read_context element s = Return (envelope, s') -> bare (RT.context envelope).
Proof.
  unfold read_context. intros H.
  apply bind_Return in H as (trace_format & s1 & _ & H).
  apply bind_Return in H as (ink_source & s2 & _ & H).
  apply bind_Return in H as (brush & s3 & _ & H).
  apply bind_Return in H as (timestamp & s4 & _ & H).
  injection H as <- _. repeat split.
Qed.

Lemma read_trace_group_bare (assume_local_refs : bool) (element : Xml.Element)
    (require_refs : bool) (s s' : State) (group : Ink.TraceGroup) :
  bare_contexts (definitions s) ->
  read_trace_group assume_local_refs element require_refs s = Return (Some group, s') ->
  bare_or_none (Ink.group_context group).
Proof.
  intros Hd H. unfold read_trace_group in H.
  apply bind_Return in H as (c & s1 & Hc & H).
  destruct c as [c|]; [|discriminate].
  apply lookup_ref_bare in Hc; [|exact Hd].
  apply bind_Return in H as (b & s2 & _ & H).
  destruct b as [b|]; [|discriminate].
  apply bind_Return in H as (annotations & s3 & _ & H).
  injection H as <- _. exact Hc.
Qed.

Section Settled.

(** The address from which the trace objects are looked at. *)
Variable n : nat.

(** Every context of the definitions is bare, and every trace object
    from address [n] on has the samples of the default format. *)
Definition settled (s : State) : Prop :=
  bare_contexts (definitions s)
  /\ forall l t, n <= l -> heap s !! l = Some t -> default_samples t.

Definition settles {A : Type} (m : M A) : Prop :=
  forall s a s', settled s -> m s = Return (a, s') -> settled s'.

Lemma settles_quiet {A : Type} (m : M A) : quiet m -> settles m.
Proof.
  intros Hm s a s' Hs H. destruct (Hm s a s' H) as [Hd Hh].
  unfold settled. rewrite Hd, Hh. exact Hs.
Qed.

Lemma settles_ret {A : Type} (a : A) : settles (ret a).
Proof. apply settles_quiet, quiet_ret. Qed.

Lemma settles_bind_post {A B : Type} (Q : A -> Prop) (m : M A) (f : A -> M B) :
  settles m ->
  (forall s a s', settled s -> m s = Return (a, s') -> Q a) ->
  (forall a, Q a -> settles (f a)) ->
  settles (bind m f).
Proof.
  intros Hm HQ Hf s b s' Hs H. apply bind_Return in H as (a & s1 & Hms & H).
  exact (Hf a (HQ s a s1 Hs Hms) s1 b s' (Hm s a s1 Hs Hms) H).
Qed.

Lemma settles_bind {A B : Type} (m : M A) (f : A -> M B) :
  settles m -> (forall a, settles (f a)) -> settles (bind m f).
Proof. intros Hm Hf. apply (settles_bind_post (fun _ => True)); auto. Qed.

Lemma settles_new_trace_object : settles new_trace_object.
Proof.
  intros s a s' [Hd Hh] H. injection H as _ <-. split; [exact Hd|]. cbn.
  intros l t Hl Ht. apply lookup_app_Some in Ht as [Ht|[_ Ht]];
    [exact (Hh l t Hl Ht)|].
  apply list_lookup_singleton_Some in Ht as [_ <-]. apply empty_samples; reflexivity.
Qed.

Lemma settles_store (l : Ink.loc) (t : Ink.Trace) :
  default_samples t -> settles (store l t).
Proof.
  intros Ht s a s' [Hd Hh] H. injection H as _ <-. split; [exact Hd|]. cbn.
  intros l' t' Hl' Ht'. apply list_lookup_insert_Some in Ht' as [(_ & <- & _)|[_ Ht']];
    [exact Ht|exact (Hh l' t' Hl' Ht')].
Qed.

Lemma settles_link_prior (prior l : Ink.loc) : settles (link_prior prior l).
Proof.
  intros s a s' [Hd Hh] H. injection H as _ <-. split; [exact Hd|]. cbn.
  intros l' t' Hl' Ht'. destruct (decide (prior = l')) as [->|Hne].
  - rewrite list_lookup_alter_eq in Ht'.
    destruct (heap s !! l') as [t|] eqn:Ht; [|discriminate].
    injection Ht' as <-. exact (Hh l' t Hl' Ht).
  - rewrite list_lookup_alter_ne in Ht' by exact Hne. exact (Hh l' t' Hl' Ht').
Qed.

(** Writing definitions whose contexts are still bare. *)
Lemma settles_update (f : RT.Definitions -> RT.Definitions) :
  (forall d, bare_contexts d -> bare_contexts (f d)) ->
  settles (let! d := get_definitions in put_definitions (f d)).
Proof.
  intros Hf s a s' [Hd Hh] H. injection H as _ <-. split; [|exact Hh].
  cbn. apply Hf. exact Hd.
Qed.

Lemma settles_for_elements (body : Xml.Element -> M unit)
    (elements : list Xml.Element) :
  (forall e, settles (body e)) -> settles (for_elements body elements).
Proof.
  intros Hbody. induction elements as [|e rest IH]; cbn.
  - apply settles_ret.
  - apply settles_bind; [apply Hbody|intros _; exact IH].
Qed.

Section WithReader.
Variable assume_local_refs : bool.

Lemma settles_read_prior (element : Xml.Element) (l : Ink.loc) (require_refs : bool) :
  settles (read_prior assume_local_refs element l require_refs).
Proof.
  unfold read_prior.
  repeat match goal with
         | |- settles (ret _) => apply settles_ret
         | |- settles (warn _) => apply settles_quiet, quiet_warn
         | |- settles get_definitions => apply settles_quiet, quiet_get_definitions
         | |- settles (link_prior _ _) => apply settles_link_prior
         | |- settles (bind _ _) => apply settles_bind; [|intros ?]
         | |- settles (match ?x with _ => _ end) => destruct x
         end.
Qed.

Lemma settles_read_trace_fields (element : Xml.Element)
    (context : option Ink.Context) (require_refs : bool) (l : Ink.loc) :
  settles (read_trace_fields assume_local_refs element context require_refs l).
Proof.
  unfold read_trace_fields.
  repeat match goal with
         | |- settles (ret _) => apply settles_ret
         | |- settles (warn _) => apply settles_quiet, quiet_warn
         | |- settles (lookup_ref _ _ _ _ _ _) => apply settles_quiet, quiet_lookup_ref
         | |- settles (read_continuation _) =>
             apply settles_quiet, quiet_read_continuation
         | |- settles (read_prior _ _ _ _) => apply settles_read_prior
         | |- settles (read_trace_data _ _ _) =>
             apply settles_quiet, quiet_read_trace_data
         | |- settles (bind _ _) => apply settles_bind; [|intros ?]
         | |- settles (match ?x with _ => _ end) => destruct x
         end.
Qed.

Lemma settles_read_trace (element : Xml.Element) (context : option Ink.Context)
    (require_refs : bool) :
  bare_or_none context ->
  settles (read_trace assume_local_refs element context require_refs).
Proof.
  intros Hcontext. unfold read_trace.
  apply settles_bind; [apply settles_new_trace_object|intros l].
  apply (settles_bind_post (fun fields => default_samples (snd fields))).
  - apply settles_read_trace_fields.
  - intros s [returned trace] s' [Hd _] H.
    exact (read_trace_fields_default _ _ _ _ _ _ _ _ _ Hd Hcontext H).
  - intros [returned trace] Htrace.
    apply settles_bind; [apply settles_store; exact Htrace|intros _].
    apply settles_ret.
Qed.

Lemma settles_register (f : RT.Definitions -> RT.Definitions) (id : string) :
  (forall d, RT.contexts (f d) = RT.contexts d) ->
  settles (if (0 <? String.length id)%nat
           then let! d := get_definitions in put_definitions (f d)
           else ret tt).
Proof.
  intros Hf. destruct (_ <? _)%nat; [|apply settles_ret].
  apply settles_update. intros d Hd. unfold bare_contexts. rewrite Hf. exact Hd.
Qed.

Lemma settles_read_item
    (read_group_traces : Xml.Element -> option Ink.Context -> M (list Ink.TraceItem))
    (context : option Ink.Context) (child : Xml.Element) :
  bare_or_none context ->
  (forall ctx, bare_or_none ctx -> settles (read_group_traces child ctx)) ->
  settles (read_item assume_local_refs read_group_traces context child).
Proof.
  intros Hcontext Hrec. unfold read_item.
  destruct (String.eqb (Xml.tag child) Inkml.TRACE).
  { apply settles_bind; [apply settles_read_trace; exact Hcontext|].
    intros [l|].
    - apply settles_bind; [apply settles_quiet, quiet_trace_id_at|intros id].
      apply settles_bind; [|intros _; apply settles_ret].
      apply (settles_register (fun d => _)). reflexivity.
    - apply settles_bind; [apply settles_quiet, quiet_warn|intros _].
      apply settles_ret. }
  destruct (String.eqb (Xml.tag child) Inkml.TRACE_GROUP).
  { apply (settles_bind_post
             (fun group => forall g, group = Some g ->
                           bare_or_none (Ink.group_context g))).
    - apply settles_quiet, quiet_read_trace_group.
    - intros s group s' [Hd _] H g ->. exact (read_trace_group_bare _ _ _ _ _ _ Hd H).
    - intros [g|] Hg.
      + apply settles_bind;
          [apply Hrec, or_else_bare; [apply Hg; reflexivity|exact Hcontext]|].
        intros group_traces.
        apply settles_bind; [|intros _; apply settles_ret].
        apply (settles_register (fun d => _)). reflexivity.
      + apply settles_bind; [apply settles_quiet, quiet_warn|intros _].
        apply settles_ret. }
  destruct (String.eqb (Xml.tag child) Inkml.TRACE_VIEW); [|apply settles_ret].
  apply settles_bind; [apply settles_quiet, quiet_read_trace_view|].
  intros [view|].
  - apply settles_bind; [|intros _; apply settles_ret].
    destruct view; try apply settles_ret.
    apply (settles_register (fun d => _)). reflexivity.
  - apply settles_bind; [apply settles_quiet, quiet_warn|intros _].
    apply settles_ret.
Qed.

Lemma settles_collect {A : Type} (read : Xml.Element -> M (option A))
    (elements : list Xml.Element) :
  Forall (fun e => settles (read e)) elements -> settles (collect read elements).
Proof.
  induction 1 as [|e rest He Hrest IH]; cbn; [apply settles_ret|].
  apply settles_bind; [exact He|intros x].
  apply settles_bind; [exact IH|intros items]. apply settles_ret.
Qed.

Lemma settles_read_traces (container : Xml.Element) :
  forall context, bare_or_none context ->
                  settles (read_traces assume_local_refs container context).
Proof.
  induction container as [container IH] using Element_children_ind.
  intros context Hcontext. destruct container as [tag attrib text tail children].
  cbn in *. apply settles_collect.
  induction IH as [|child rest Hchild Hrest IHrest]; constructor; [|exact IHrest].
  apply settles_read_item; [exact Hcontext|exact Hchild].
Qed.

Lemma settles_read_definitions_items (element : Xml.Element) :
  settles (read_definitions_items element).
Proof.
  unfold read_definitions_items, update_definitions.
  repeat (apply settles_bind; [|intros _]); apply settles_for_elements; intros e.
  - apply settles_bind; [apply settles_quiet, quiet_read_ink_source|].
    intros [source|]; [|apply settles_ret].
    apply settles_bind; [apply settles_update; intros d Hd; exact Hd|intros _].
    destruct (has_id _); [apply settles_update; intros d Hd; exact Hd
                         |apply settles_ret].
  - apply settles_bind; [apply settles_quiet, quiet_read_brush|].
    intros brush.
    destruct (has_id _); [apply settles_update; intros d Hd; exact Hd
                         |apply settles_ret].
  - apply settles_bind; [apply settles_quiet, quiet_read_trace_format|].
    intros trace_format.
    destruct (has_id _); [apply settles_update; intros d Hd; exact Hd
                         |apply settles_ret].
  - apply settles_bind; [apply settles_quiet, quiet_read_timestamp|].
    intros [timestamp|]; [|apply settles_ret].
    apply settles_update. intros d Hd. exact Hd.
Qed.

Lemma settles_read_context_then (test : RT.ContextEnvelope -> bool)
    (element : Xml.Element) :
  settles
    (let! context := read_context element in
     if test context
     then update_definitions (add_context (RT.context_envelope_id context) context)
     else ret tt).
Proof.
  apply (settles_bind_post (fun envelope => bare (RT.context envelope))).
  - apply settles_quiet, quiet_read_context.
  - intros s envelope s' _ H. exact (read_context_bare _ _ _ _ H).
  - intros envelope Hbare. destruct (test envelope); [|apply settles_ret].
    apply settles_update. intros d Hd. unfold bare_contexts. cbn.
    apply values_set_Forall; assumption.
Qed.

Lemma settles_read_definitions_rest (root : Xml.Element) :
  settles
    (let! _ := for_elements read_definitions_items
                            (Xml.findall root (Inkml.inkml "definitions")) in
     let! _ := for_elements read_definitions_contexts
                            (Xml.findall root (Inkml.inkml "definitions")) in
     let! _ := read_root_contexts root in
     let! _ :=
       update_definitions (fun d =>
         foldl (fun d context => keep_nested context d) d
               (Dict.values (RT.contexts d))) in
     let! _ :=
       for_elements (fun element =>
                       let! _ := read_traces assume_local_refs element None in ret tt)
                    (Xml.findall root (Inkml.inkml "definitions")) in
     get_definitions).
Proof.
  apply settles_bind; [|intros _].
  { apply settles_for_elements. exact settles_read_definitions_items. }
  apply settles_bind; [|intros _].
  { apply settles_for_elements. intros e. unfold read_definitions_contexts.
    apply settles_for_elements. intros c.
    apply (settles_read_context_then (fun context =>
             has_id (RT.context_envelope_id context))). }
  apply settles_bind; [|intros _].
  { unfold read_root_contexts. apply settles_for_elements. intros c.
    apply (settles_read_context_then (fun context =>
             (String.length (RT.context_envelope_id context) =? 0)%nat)). }
  apply settles_bind; [|intros _].
  { apply settles_update. intros d Hd. unfold bare_contexts.
    rewrite contexts_keep_all_nested. exact Hd. }
  apply settles_bind; [|intros _].
  { apply settles_for_elements. intros e.
    apply settles_bind; [|intros _; apply settles_ret].
    apply settles_read_traces. intros c Hc. discriminate. }
  apply settles_quiet, quiet_get_definitions.
Qed.

End WithReader.
End Settled.

(** X20.  A trace inside a [definitions] element is always decoded with
    the default trace format, whatever context its [contextRef] names:
    [read_definitions] reads these traces before [resolve_references]
    has given any context its trace format, ink source or parent, so
    [get_trace_format] finds none.  Every trace object that
    [read_definitions] creates has no regular channel other than [X] and
    [Y] and no intermittent channel. *)
Theorem definitions_traces_use_default_format (assume_local_refs : bool)
    (root : Xml.Element) (s s' : State) (d : RT.Definitions) :
  read_definitions assume_local_refs root s = Return (d, s') ->
  forall l trace,
    length (heap s) <= l -> heap s' !! l = Some trace ->
    (forall name, is_Some (Ink.channels trace !! name) -> name = "X" \/ name = "Y")
    /\ Ink.trace_intermittent_channels trace = ∅.
Proof.
  intros H. unfold read_definitions in H. unfold bind at 1 in H.
  cbn [put_definitions] in H.
  apply (settles_read_definitions_rest (length (heap s))) in H.
  - destruct H as [_ Hheap]. exact Hheap.
  - split; [constructor|]. cbn. intros l t Hl Ht.
    apply lookup_lt_Some in Ht. lia.
Qed.

Lemma definitions_traces_use_default_format_witness :
  (forall name,
     is_Some (Ink.channels Examples.pressure_trace !! name) ->
     name = "X" \/ name = "Y")
  /\ Ink.trace_intermittent_channels Examples.pressure_trace = ∅.
Proof.
  refine (definitions_traces_use_default_format false Examples.pressure_document
            Examples.initial Examples.pressure_state
            (definitions Examples.pressure_state) _ 0 Examples.pressure_trace _ _).
  - vm_compute. reflexivity.
  - cbn. lia.
  - reflexivity.
Defined.

End DefaultFormat.

(** ** When the readers of the definitions fail *)

Section Failures.
Import Reading.

(** A call that returns from every state. *)
Definition returns {A : Type} (m : M A) : Prop :=
  forall s, exists a s', m s = Return (a, s').

Lemma returns_ret {A : Type} (a : A) : returns (ret a).
Proof. intros s. exists a, s. reflexivity. Qed.

Lemma returns_warn (w : warning) : returns (warn w).
Proof. intros s. eexists _, _. reflexivity. Qed.

Lemma bind_run {A B : Type} (m : M A) (f : A -> M B) (s s1 : State) (a : A) :
  m s = Return (a, s1) -> bind m f s = f a s1.
Proof. intros H. unfold bind. rewrite H. reflexivity. Qed.

Lemma returns_bind {A B : Type} (m : M A) (f : A -> M B) :
  returns m -> (forall a, returns (f a)) -> returns (bind m f).
Proof.
  intros Hm Hf s. destruct (Hm s) as (a & s1 & Hms).
  destruct (Hf a s1) as (b & s2 & Hfa). exists b, s2.
  rewrite (bind_run _ _ _ _ _ Hms). exact Hfa.
Qed.

Ltac give :=
  repeat
    match goal with
    | |- returns (ret _) => apply returns_ret
    | |- returns (warn _) => apply returns_warn
    | H : returns ?m |- returns ?m => exact H
    | |- returns (bind _ _) => apply returns_bind; [|intros ?]
    | |- returns (match ?x with _ => _ end) => destruct x
    end.

Lemma returns_for_each {A B : Type} (read : Xml.Element -> M (option A))
    (add : B -> A -> B) (elements : list Xml.Element) (acc : B) :
  (forall e, returns (read e)) -> returns (for_each read add elements acc).
Proof.
  intros Hread. revert acc.
  induction elements as [|e rest IH]; intros acc; cbn; give;
    first [apply Hread | apply IH].
Qed.

Lemma returns_read_annotations (container : Xml.Element) :
  returns (read_annotations container).
Proof.
  intros s.
  destruct (read_annotation_list_returns (Xml.children container) s)
    as (annotations & s' & given_up & H & _).
  exists annotations, s'. exact H.
Qed.

Lemma returns_read_channel (element : Xml.Element) : returns (read_channel element).
Proof. unfold read_channel. give. Qed.

Lemma returns_read_trace_format (element : Xml.Element) :
  returns (read_trace_format element).
Proof.
  unfold read_trace_format. give; apply returns_for_each; apply returns_read_channel.
Qed.

Lemma returns_read_sample_rate (element : option Xml.Element) :
  returns (read_sample_rate element).
Proof. unfold read_sample_rate. give. Qed.

Lemma returns_read_latency (element : option Xml.Element) :
  returns (read_latency element).
Proof. unfold read_latency. give. Qed.

Lemma returns_read_active_area (element : option Xml.Element) :
  returns (read_active_area element).
Proof. unfold read_active_area. give. Qed.

Lemma returns_read_source_property (element : Xml.Element) :
  returns (read_source_property element).
Proof. unfold read_source_property. give. Qed.

Lemma returns_read_channel_property (element : Xml.Element) :
  returns (read_channel_property element).
Proof. unfold read_channel_property. give. Qed.

Lemma returns_read_brush_property (element : Xml.Element) :
  returns (read_brush_property element).
Proof. unfold read_brush_property. give. apply returns_read_annotations. Qed.

Lemma returns_read_brush (element : Xml.Element) : returns (read_brush element).
Proof.
  unfold read_brush. give.
  - apply returns_for_each. intros ?. apply returns_read_brush_property.
  - apply returns_read_annotations.
Qed.

Lemma returns_read_timestamp (element : Xml.Element) :
  returns (read_timestamp element).
Proof. unfold read_timestamp. give. Qed.

(** An [inkSource] element that has an identifier, a [traceFormat] and
    a [channelProperties] without any [channelProperty] in it. *)
Definition empty_wrapper (element : Xml.Element) : bool :=
  match get_id element, Xml.find element (Inkml.inkml "traceFormat"),
        Xml.find element (Inkml.inkml "channelProperties") with
  | Some _, Some _, Some wrapper =>
      match Xml.find wrapper (Inkml.inkml "channelProperty") with
      | Some _ => false
      | None => true
      end
  | _, _, _ => false
  end.

Lemma read_ink_source_raises (element : Xml.Element) (s : State) :
  empty_wrapper element = true -> read_ink_source element s = Raise TypeError.
Proof.
  unfold empty_wrapper, read_ink_source.
  destruct (get_id element) as [id|]; [|discriminate].
  destruct (Xml.find element (Inkml.inkml "traceFormat")) as [format_element|];
    [|discriminate].
  destruct (Xml.find element (Inkml.inkml "channelProperties")) as [wrapper|];
    [|discriminate].
  destruct (Xml.find wrapper (Inkml.inkml "channelProperty")); [discriminate|].
  intros _.
  destruct (returns_read_trace_format format_element s) as (f & s1 & H1).
  rewrite (bind_run _ _ _ _ _ H1).
  destruct (returns_read_sample_rate (Xml.find element (Inkml.inkml "sampleRate")) s1)
    as (rate & s2 & H2).
  rewrite (bind_run _ _ _ _ _ H2).
  destruct (returns_read_latency (Xml.find element (Inkml.inkml "latency")) s2)
    as (latency & s3 & H3).
  rewrite (bind_run _ _ _ _ _ H3).
  destruct (returns_read_active_area (Xml.find element (Inkml.inkml "activeArea")) s3)
    as (area & s4 & H4).
  rewrite (bind_run _ _ _ _ _ H4).
  match goal with
  | |- bind ?m _ _ = _ =>
      assert (Hm : returns m)
        by (apply returns_for_each; intros ?; apply returns_read_source_property);
      destruct (Hm s4) as (properties & s5 & H5)
  end.
  rewrite (bind_run _ _ _ _ _ H5). reflexivity.
Qed.

Lemma read_ink_source_returns (element : Xml.Element) :
  empty_wrapper element = false -> returns (read_ink_source element).
Proof.
  unfold empty_wrapper, read_ink_source.
  destruct (get_id element) as [id|]; [|intros _; give].
  destruct (Xml.find element (Inkml.inkml "traceFormat")) as [format_element|];
    [|intros _; give].
  intros H.
  apply returns_bind; [apply returns_read_trace_format|intros ?].
  apply returns_bind; [apply returns_read_sample_rate|intros ?].
  apply returns_bind; [apply returns_read_latency|intros ?].
  apply returns_bind; [apply returns_read_active_area|intros ?].
  apply returns_bind;
    [apply returns_for_each; intros ?; apply returns_read_source_property|intros ?].
  apply returns_bind; [|intros ?; apply returns_ret].
  destruct (Xml.find element (Inkml.inkml "channelProperties")) as [wrapper|];
    [|apply returns_ret].
  destruct (Xml.find wrapper (Inkml.inkml "channelProperty")); [|discriminate].
  apply returns_for_each. intros ?. apply returns_read_channel_property.
Qed.

(** The [inkSource] child of a [context] element on which
    [read_ink_source] fails. *)
Definition nested_empty_wrapper (element : Xml.Element) : bool :=
  match Xml.find element (Inkml.inkml "inkSource") with
  | Some source => empty_wrapper source
  | None => false
  end.

Lemma read_context_raises (element : Xml.Element) (s : State) :
  nested_empty_wrapper element = true -> read_context element s = Raise TypeError.
Proof.
  unfold nested_empty_wrapper, read_context.
  destruct (Xml.find element (Inkml.inkml "inkSource")) as [source|]; [|discriminate].
  intros Hsource.
  match goal with
  | |- bind ?m _ _ = _ =>
      assert (Hm : returns m)
        by (give; apply returns_read_trace_format);
      destruct (Hm s) as (trace_format & s1 & H1)
  end.
  rewrite (bind_run _ _ _ _ _ H1). unfold bind at 1. unfold bind at 1.
  rewrite (read_ink_source_raises source s1 Hsource). reflexivity.
Qed.

Lemma read_context_returns (element : Xml.Element) :
  nested_empty_wrapper element = false -> returns (read_context element).
Proof.
  unfold nested_empty_wrapper, read_context. intros Hsource.
  apply returns_bind; [give; apply returns_read_trace_format|].
  intros ?. apply returns_bind.
  { destruct (Xml.find element (Inkml.inkml "inkSource")) as [source|];
      [|apply returns_ret].
    apply returns_bind; [apply read_ink_source_returns; exact Hsource|].
    intros ?. apply returns_ret. }
  intros ?. apply returns_bind.
  { give. apply returns_read_brush. }
  intros ?. apply returns_bind; [|intros ?; apply returns_ret].
  give. apply returns_read_timestamp.
Qed.

(** X21.  Of the readers of the items of the definitions,
    [read_brush], [read_trace_format] and [read_timestamp] return
    whatever the element is.  [read_ink_source] has one way to fail: it
    raises [TypeError] exactly when the element has an identifier, a
    [traceFormat] child, and a [channelProperties] child in which there
    is no [channelProperty]; a missing identifier or [traceFormat] is a
    warning and the result [None].  [read_context] raises exactly when
    its first [inkSource] child makes [read_ink_source] raise. *)
Theorem definition_readers_fail_on_empty_wrapper_only (element : Xml.Element)
    (s : State) :
  (exists r s', read_brush element s = Return (r, s'))
  /\ (exists r s', read_trace_format element s = Return (r, s'))
  /\ (exists r s', read_timestamp element s = Return (r, s'))
  /\ (if empty_wrapper element
      then read_ink_source element s = Raise TypeError
      else exists r s', read_ink_source element s = Return (r, s'))
  /\ (if nested_empty_wrapper element
      then read_context element s = Raise TypeError
      else exists r s', read_context element s = Return (r, s')).
Proof.
  split; [apply returns_read_brush|].
  split; [apply returns_read_trace_format|].
  split; [apply returns_read_timestamp|].
  split.
  - destruct (empty_wrapper element) eqn:H.
    + exact (read_ink_source_raises element s H).
    + exact (read_ink_source_returns element H s).
  - destruct (nested_empty_wrapper element) eqn:H.
    + exact (read_context_raises element s H).
    + exact (read_context_returns element H s).
Qed.

End Failures.

(** ** The text after an annotation *)

Section AnnotationTail.
Import Reading.

Lemma append_length (a b : string) :
  String.length (a ++ b)%string = String.length a + String.length b.
Proof. induction a as [|c a IH]; [reflexivity|]. exact (f_equal S IH). Qed.

Lemma append_assoc (a b c : string) : (a ++ b ++ c = (a ++ b) ++ c)%string.
Proof. induction a as [|x a IH]; [reflexivity|]. exact (f_equal (String x) IH). Qed.

(** The inner text of an element ends with the tail of that element. *)
Lemma get_inner_text_tail (element : Xml.Element) :
  exists before,
    get_inner_text element = (before ++ default "" (Xml.tail element))%string.
Proof.
  destruct element as [tag attrib text tail children].
  eexists. cbn [get_inner_text Xml.text Xml.tail Xml.children].
  rewrite append_assoc. reflexivity.
Qed.

(** X22.  The inner text that [read_annotation] takes of an
    [annotationXML] element includes the tail of the element itself,
    the text between its end and the next tag.  So when that text is not
    empty (a line break, in an indented document) the annotation is
    never read from [href]: it has the content type XML and a content
    that ends with the tail. *)
Theorem annotation_xml_tail_is_content (element : Xml.Element) (s : State)
    (tail : string) :
  Xml.tag element = Inkml.ANNOTATION_XML ->
  Xml.tail element = Some tail ->
  tail <> "" ->
  exists annotation before,
    read_annotation element s = Return (Some annotation, s)
    /\ Ink.annotation_content_type annotation = Ink.XML
    /\ Ink.annotation_content annotation = (before ++ tail)%string.
Proof.
  intros Htag Htail Hsome. unfold read_annotation. rewrite Htag.
  replace (String.eqb Inkml.ANNOTATION_XML Inkml.ANNOTATION) with false
    by (vm_compute; reflexivity).
  rewrite String.eqb_refl.
  destruct (get_inner_text_tail element) as [before Hinner].
  rewrite Htail in Hinner. cbn in Hinner. rewrite Hinner.
  assert (Hlong : (0 <? String.length (before ++ tail)%string)%nat = true).
  { apply Nat.ltb_lt. rewrite append_length.
    destruct tail; [contradiction|cbn; lia]. }
  cbn zeta. rewrite Hlong. eexists _, before. split; [reflexivity|]. split; reflexivity.
Qed.

Lemma annotation_xml_tail_is_content_witness :
  exists annotation before,
    read_annotation Examples.tailed_annotation Examples.initial
    = Return (Some annotation, Examples.initial)
    /\ Ink.annotation_content_type annotation = Ink.XML
    /\ Ink.annotation_content annotation = (before ++ " ")%string.
Proof.
  apply (annotation_xml_tail_is_content Examples.tailed_annotation Examples.initial " ").
  - reflexivity.
  - reflexivity.
  - discriminate.
Defined.

End AnnotationTail.

(** ** A point with a wrong number of tokens (C3) *)

Section WrongPoints.
Import PyStr PyNum Reading Spec.




Section WithReader.
Variable assume_local_refs : bool.






End WithReader.


End WrongPoints.
